(** * enorm: the MINPACK Euclidean norm (f2c translation), embedded in Rocq

    Source: scipy/patches/optimize/minpack/enorm.c, function [enorm_].

    The C type [doublereal] is IEEE 754 binary64; it is modelled by Rocq's
    primitive [float], whose operations are specified bit for bit by
    [SpecFloat] (round to nearest, ties to even, one NaN).  Every C
    expression is assumed to be evaluated in binary64 (no extended
    precision, no fused multiply-add).

    The C function keeps all its working variables in [static] storage and
    reads its input through pointers, so the model threads the statics
    explicitly and records, next to every value it computes, the divisor of
    every division it performs. *)

From Stdlib Require Import ZArith List Bool Lia Uint63 Floats.
From Stdlib Require Reals Lra.
Import ListNotations.

Set Warnings "-inexact-float".

Local Open Scope float_scope.

(** ** Arithmetic carriers

    The two closed formulas of the final step are written once over an
    abstract carrier so that they can be read both in binary64 (what the
    program computes) and over the reals (exact arithmetic). *)

Class Arith (A : Type) : Type := {
  a_one  : A;
  a_add  : A -> A -> A;
  a_mul  : A -> A -> A;
  a_div  : A -> A -> A;
  a_sqrt : A -> A
}.

#[global] Instance float_arith : Arith float := {
  a_one  := PrimFloat.one;
  a_add  := PrimFloat.add;
  a_mul  := PrimFloat.mul;
  a_div  := PrimFloat.div;
  a_sqrt := PrimFloat.sqrt
}.

#[global] Instance real_arith : Arith Rdefinitions.R := {
  a_one  := Rdefinitions.R1;
  a_add  := Rdefinitions.Rplus;
  a_mul  := Rdefinitions.Rmult;
  a_div  := Rdefinitions.Rdiv;
  a_sqrt := R_sqrt.sqrt
}.

(** Line 154: [sqrt(s2 * (one + x3max / s2 * (x3max * s3)))]. *)
Definition norm_s2_form {A} `{Arith A} (s2 s3 x3max : A) : A :=
  a_sqrt (a_mul s2 (a_add a_one (a_mul (a_div x3max s2) (a_mul x3max s3)))).

(** Line 157: [sqrt(x3max * (s2 / x3max + x3max * s3))]. *)
Definition norm_x3max_form {A} `{Arith A} (s2 s3 x3max : A) : A :=
  a_sqrt (a_mul x3max (a_add (a_div s2 x3max) (a_mul x3max s3))).

(** ** Outcomes: a value with the divisions performed, or a fault *)

(** The places of [enorm_] where a division is evaluated. *)
Inductive site : Type :=
| Div_agiant      (* line 82:  rgiant / floatn *)
| Div_large_new   (* line 99:  x1max / xabs *)
| Div_large_old   (* line 105: xabs / x1max *)
| Div_small_new   (* line 117: x3max / xabs *)
| Div_small_old   (* line 124: xabs / x3max *)
| Div_norm_s1_a   (* line 147: s2 / x1max *)
| Div_norm_s1_b   (* line 147: (s2 / x1max) / x1max *)
| Div_norm_s2_ge  (* line 154: x3max / s2 *)
| Div_norm_s2_lt. (* line 157: s2 / x3max *)

(** What C leaves undefined: a read outside the array, and the return of
    [ret_val] when no assignment to it was executed. *)
Inductive fault : Type :=
| OutOfBounds (i : Z)
| Uninitialised.

Inductive outcome (A : Type) : Type :=
| Done (a : A) (divs : list (site * float))
| Fault (f : fault).

Arguments Done {A} a divs.
Arguments Fault {A} f.

Definition ret {A} (a : A) : outcome A := Done a [].

Definition bind {A B} (m : outcome A) (k : A -> outcome B) : outcome B :=
  match m with
  | Done a l =>
      match k a with
      | Done b l' => Done b (l ++ l')
      | Fault f => Fault f
      end
  | Fault f => Fault f
  end.

Notation "x <- m ;; k" := (bind m (fun x => k))
  (at level 100, m at next level, right associativity).

(** A division at a given site: the quotient, and the divisor recorded. *)
Definition fdiv (s : site) (a b : float) : outcome float :=
  Done (a / b) [(s, b)].

Definition value {A} (m : outcome A) : option A :=
  match m with Done a _ => Some a | Fault _ => None end.

Definition divisions {A} (m : outcome A) : list (site * float) :=
  match m with Done _ l => l | Fault _ => [] end.

(** ** The static locals of [enorm_] (lines 32-33) *)

Record locals : Type := mkLocals {
  i__    : Z;
  s1     : float;
  s2     : float;
  s3     : float;
  xabs   : float;
  x1max  : float;
  x3max  : float;
  agiant : float;
  floatn : float
}.

Definition set_i (v : Z) (st : locals) : locals :=
  mkLocals v (s1 st) (s2 st) (s3 st) (xabs st) (x1max st) (x3max st) (agiant st) (floatn st).
Definition set_s1 (v : float) (st : locals) : locals :=
  mkLocals (i__ st) v (s2 st) (s3 st) (xabs st) (x1max st) (x3max st) (agiant st) (floatn st).
Definition set_s2 (v : float) (st : locals) : locals :=
  mkLocals (i__ st) (s1 st) v (s3 st) (xabs st) (x1max st) (x3max st) (agiant st) (floatn st).
Definition set_s3 (v : float) (st : locals) : locals :=
  mkLocals (i__ st) (s1 st) (s2 st) v (xabs st) (x1max st) (x3max st) (agiant st) (floatn st).
Definition set_xabs (v : float) (st : locals) : locals :=
  mkLocals (i__ st) (s1 st) (s2 st) (s3 st) v (x1max st) (x3max st) (agiant st) (floatn st).
Definition set_x1max (v : float) (st : locals) : locals :=
  mkLocals (i__ st) (s1 st) (s2 st) (s3 st) (xabs st) v (x3max st) (agiant st) (floatn st).
Definition set_x3max (v : float) (st : locals) : locals :=
  mkLocals (i__ st) (s1 st) (s2 st) (s3 st) (xabs st) (x1max st) v (agiant st) (floatn st).
Definition set_agiant (v : float) (st : locals) : locals :=
  mkLocals (i__ st) (s1 st) (s2 st) (s3 st) (xabs st) (x1max st) (x3max st) v (floatn st).
Definition set_floatn (v : float) (st : locals) : locals :=
  mkLocals (i__ st) (s1 st) (s2 st) (s3 st) (xabs st) (x1max st) (x3max st) (agiant st) v.

(** ** Initialized data (lines 19-22) *)

Definition one : float := 1.
Definition zero : float := 0.
Definition rdwarf : float := 3.834e-20.
Definition rgiant : float := 1.304e19.

(** Modelled from the spec: the macro [abs] comes from f2c.h, which is not
    part of the sources; the spec reads line 85 as [xabs = |x[i]|], the
    absolute value. *)
Definition dabs (d : float) : float := PrimFloat.abs d.

(** Line 81, the cast of the integer argument to [doublereal]: the
    conversion of a machine integer to binary64, rounding to nearest.  [integer] is declared in f2c.h; any
    signed type of at most 63 bits is covered. *)
Definition float_of_integer (n : Z) : float :=
  if (n <? 0)%Z then - of_uint63 (Uint63.of_Z (- n)) else of_uint63 (Uint63.of_Z n).

(** [x[i__]] after the adjustment [--x] of line 73: the C array element of
    index [i__ - 1]. *)
Definition load (x : list float) (i : Z) : outcome float :=
  if (i <? 1)%Z then Fault (OutOfBounds i)
  else match nth_error x (Z.to_nat (i - 1)) with
       | Some v => ret v
       | None => Fault (OutOfBounds i)
       end.

(** ** The loop body, lines 85-139 *)

Definition body (xi : float) (st0 : locals) : outcome locals :=
  let st := set_xabs (dabs xi) st0 in
  if (rdwarf <? xabs st) && (xabs st <? agiant st) then
    (* L70: sum for intermediate components *)
    ret (set_s2 (s2 st + xabs st * xabs st) st)
  else if xabs st <=? rdwarf then
    (* L30: sum for small components *)
    if xabs st <=? x3max st then
      (* L40 *)
      if negb (xabs st =? zero) then
        d__1 <- fdiv Div_small_old (xabs st) (x3max st) ;;
        ret (set_s3 (s3 st + d__1 * d__1) st)
      else ret st
    else
      d__1 <- fdiv Div_small_new (x3max st) (xabs st) ;;
      ret (set_x3max (xabs st) (set_s3 (one + s3 st * (d__1 * d__1)) st))
  else
    (* sum for large components *)
    if xabs st <=? x1max st then
      (* L10 *)
      d__1 <- fdiv Div_large_old (xabs st) (x1max st) ;;
      ret (set_s1 (s1 st + d__1 * d__1) st)
    else
      d__1 <- fdiv Div_large_new (x1max st) (xabs st) ;;
      ret (set_x1max (xabs st) (set_s1 (one + s1 st * (d__1 * d__1)) st)).

(** ** The loop, lines 84-140: [k] iterations starting at index [i__ st] *)

Fixpoint for_loop (k : nat) (x : list float) (st : locals) : outcome locals :=
  match k with
  | O => ret st
  | S k' =>
      xi <- load x (i__ st) ;;
      st' <- body xi st ;;
      for_loop k' x (set_i (i__ st' + 1) st')
  end.

(** ** Calculation of the norm, lines 144-164

    [ret_val] is an automatic variable: it holds nothing until one of the
    assignments is executed. *)

Definition calc_norm (st : locals) : outcome float :=
  if s1 st =? zero then
    (* L100 *)
    if s2 st =? zero then
      (* L110 *)
      ret (x3max st * sqrt (s3 st))
    else
      ret_val <- (if x3max st <=? s2 st then
                    q <- fdiv Div_norm_s2_ge (x3max st) (s2 st) ;;
                    ret (Some (sqrt (s2 st * (one + q * (x3max st * s3 st)))))
                  else ret None) ;;
      ret_val <- (if s2 st <? x3max st then
                    q <- fdiv Div_norm_s2_lt (s2 st) (x3max st) ;;
                    ret (Some (sqrt (x3max st * (q + x3max st * s3 st))))
                  else ret ret_val) ;;
      match ret_val with
      | Some v => ret v
      | None => Fault Uninitialised
      end
  else
    q <- fdiv Div_norm_s1_a (s2 st) (x1max st) ;;
    q <- fdiv Div_norm_s1_b q (x1max st) ;;
    ret (x1max st * sqrt (s1 st + q)).

(** ** The function, lines 76-164

    [st0] is what an earlier call left in the statics; the result comes
    with the statics as this call leaves them. *)

Definition prologue (st0 : locals) (n : Z) : outcome locals :=
  let st := set_s1 zero st0 in
  let st := set_s2 zero st in
  let st := set_s3 zero st in
  let st := set_x1max zero st in
  let st := set_x3max zero st in
  let st := set_floatn (float_of_integer n) st in
  q <- fdiv Div_agiant rgiant (floatn st) ;;
  ret (set_i 1 (set_agiant q st)).

Definition enorm_ (st0 : locals) (n : Z) (x : list float) : outcome (float * locals) :=
  st <- prologue st0 n ;;
  let i__1 := n in
  st <- for_loop (Z.to_nat i__1) x st ;;
  ret_val <- calc_norm st ;;
  ret (ret_val, st).

(** ** The storage a call works on

    What a call can reach: its nine static locals and, through the two
    pointers it is given, the integer [*n] and the array [x]; [world]
    stands for everything else a C function could change (other objects,
    the heap, files and devices), of whatever type [W]. *)
Record memory (W : Type) : Type := mkMemory {
  statics : locals;
  arg_n   : Z;
  arg_x   : list float;
  world   : W
}.

Arguments mkMemory {W} statics arg_n arg_x world.
Arguments statics {W} m.
Arguments arg_n {W} m.
Arguments arg_x {W} m.
Arguments world {W} m.

(** The places that hold a [doublereal]: a static local, or the element
    [x[i]] (indexed as after the adjustment [--x] of line 73); and the
    places that hold an [integer]. *)
Inductive dvar : Type :=
| V_s1 | V_s2 | V_s3 | V_xabs | V_x1max | V_x3max | V_agiant | V_floatn.

Inductive place : Type :=
| Static (v : dvar)
| Elt (i : Z).

Inductive iplace : Type :=
| Static_i
| Arg_n.

Definition set_static (v : dvar) (f : float) (st : locals) : locals :=
  match v with
  | V_s1 => set_s1 f st
  | V_s2 => set_s2 f st
  | V_s3 => set_s3 f st
  | V_xabs => set_xabs f st
  | V_x1max => set_x1max f st
  | V_x3max => set_x3max f st
  | V_agiant => set_agiant f st
  | V_floatn => set_floatn f st
  end.

(** An assignment to a place: one cell changes.  An assignment to an
    element outside the array is undefined in C. *)
Definition store {W} (p : place) (f : float) (m : memory W) : outcome (memory W) :=
  match p with
  | Static v =>
      ret (mkMemory (set_static v f (statics m)) (arg_n m) (arg_x m) (world m))
  | Elt i =>
      if ((i <? 1) || (Z.of_nat (length (arg_x m)) <? i))%Z
      then Fault (OutOfBounds i)
      else ret (mkMemory (statics m) (arg_n m)
                  (firstn (Z.to_nat (i - 1)) (arg_x m)
                   ++ f :: skipn (S (Z.to_nat (i - 1))) (arg_x m))
                  (world m))
  end.

Definition store_int {W} (p : iplace) (v : Z) (m : memory W) : memory W :=
  match p with
  | Static_i => mkMemory (set_i v (statics m)) (arg_n m) (arg_x m) (world m)
  | Arg_n => mkMemory (statics m) v (arg_x m) (world m)
  end.

(** ** The function again, statement by statement, on the storage

    Every assignment of lines 76-139 is a [store] to the place the source
    assigns; [*n] and [x[i__]] are read from the storage; nothing else of
    the source touches anything.  [i__1], [d__1]
    and [ret_val] are automatic variables: they are not part of it. *)

(** Lines 76-83, and the initialisation [i__ = 1] of line 84. *)
Definition prologue_m {W} (m : memory W) : outcome (memory W) :=
  m <- store (Static V_s1) zero m ;;
  m <- store (Static V_s2) zero m ;;
  m <- store (Static V_s3) zero m ;;
  m <- store (Static V_x1max) zero m ;;
  m <- store (Static V_x3max) zero m ;;
  m <- store (Static V_floatn) (float_of_integer (arg_n m)) m ;;
  q <- fdiv Div_agiant rgiant (floatn (statics m)) ;;
  m <- store (Static V_agiant) q m ;;
  ret (store_int Static_i 1 m).

(** Lines 85-139. *)
Definition body_m {W} (m0 : memory W) : outcome (memory W) :=
  d__1 <- load (arg_x m0) (i__ (statics m0)) ;;
  m <- store (Static V_xabs) (dabs d__1) m0 ;;
  let st := statics m in
  if (rdwarf <? xabs st) && (xabs st <? agiant st) then
    (* L70 *)
    store (Static V_s2) (s2 st + xabs st * xabs st) m
  else if xabs st <=? rdwarf then
    (* L30 *)
    if xabs st <=? x3max st then
      (* L40 *)
      if negb (xabs st =? zero) then
        d__1 <- fdiv Div_small_old (xabs st) (x3max st) ;;
        store (Static V_s3) (s3 st + d__1 * d__1) m
      else ret m
    else
      d__1 <- fdiv Div_small_new (x3max st) (xabs st) ;;
      m <- store (Static V_s3) (one + s3 st * (d__1 * d__1)) m ;;
      store (Static V_x3max) (xabs (statics m)) m
  else
    if xabs st <=? x1max st then
      (* L10 *)
      d__1 <- fdiv Div_large_old (xabs st) (x1max st) ;;
      store (Static V_s1) (s1 st + d__1 * d__1) m
    else
      d__1 <- fdiv Div_large_new (x1max st) (xabs st) ;;
      m <- store (Static V_s1) (one + s1 st * (d__1 * d__1)) m ;;
      store (Static V_x1max) (xabs (statics m)) m.

(** Lines 84-140: [k] iterations, each followed by [++i__]. *)
Fixpoint for_loop_m {W} (k : nat) (m : memory W) : outcome (memory W) :=
  match k with
  | O => ret m
  | S k' =>
      m' <- body_m m ;;
      for_loop_m k' (store_int Static_i (i__ (statics m') + 1) m')
  end.

(** A call: the value returned, and the storage as the call leaves it.
    Lines 144-164 assign [ret_val] only. *)
Definition call_enorm {W} (m : memory W) : outcome (float * memory W) :=
  m <- prologue_m m ;;
  let i__1 := arg_n m in
  m <- for_loop_m (Z.to_nat i__1) m ;;
  ret_val <- calc_norm (statics m) ;;
  ret (ret_val, m).

(** Statics holding arbitrary earlier values, for examples. *)
Definition stale : locals := mkLocals 7 2.5 (-1) nan 3 infinity 9 (-4) 0.

Definition fresh : locals := mkLocals 0 0 0 0 0 0 0 0 0.

(** The value returned by a call on [x] with [n] the length of [x]. *)
Definition norm (x : list float) : option float :=
  option_map fst (value (enorm_ fresh (Z.of_nat (length x)) x)).

(** ** Classes of binary64 values

    Read on the [spec_float] of a value: [sf_pos] holds when the sign bit is
    clear and the value is a number (zero, finite or infinite); [sf_spos]
    when it is moreover not zero; [sf_num] when it is zero or finite. *)

Definition sf_pos (x : spec_float) : bool :=
  match x with
  | S754_zero false | S754_infinity false | S754_finite false _ _ => true
  | _ => false
  end.

Definition sf_spos (x : spec_float) : bool :=
  match x with
  | S754_infinity false | S754_finite false _ _ => true
  | _ => false
  end.

Definition sf_nan (x : spec_float) : bool :=
  match x with S754_nan => true | _ => false end.

Definition sf_num (x : spec_float) : bool :=
  match x with S754_zero _ | S754_finite _ _ _ => true | _ => false end.

Definition sf_zero (x : spec_float) : bool :=
  match x with S754_zero _ => true | _ => false end.

(** The same classes on primitive floats. *)
Definition fpos (f : float) : bool := sf_pos (Prim2SF f).
Definition fspos (f : float) : bool := sf_spos (Prim2SF f).
Definition fnan (f : float) : bool := sf_nan (Prim2SF f).
Definition fnum (f : float) : bool := sf_num (Prim2SF f).
Definition fposnan (f : float) : bool := fpos f || fnan f.
Definition fsposnan (f : float) : bool := fspos f || fnan f.

(** [x] is a number whose sign bit is [s]. *)
Definition sf_sign_is (s : bool) (x : spec_float) : bool :=
  match x with
  | S754_nan => false
  | S754_zero s' | S754_infinity s' | S754_finite s' _ _ => Bool.eqb s' s
  end.

(** ** What holds of the accumulators at every point of the loop *)

Record inv (st : locals) : Prop := mkInv {
  inv_s2    : fpos (s2 st) = true;
  inv_x3max : fpos (x3max st) = true;
  inv_s1    : fposnan (s1 st) = true;
  inv_s3    : fposnan (s3 st) = true;
  inv_x1max : fposnan (x1max st) = true;
  inv_large : sf_zero (Prim2SF (s1 st)) || fsposnan (x1max st) = true
}.

(** Divisors, as recorded with their site. *)
Definition divisor_nonzero (d : site * float) : bool := negb (snd d =? zero).

Definition divisor_positive (d : site * float) : bool := zero <? snd d.

(** Positive everywhere; at the three sites that divide by a large
    component or by [x1max] in the final step, positive or NaN. *)
Definition divisor_ok (d : site * float) : bool :=
  match fst d with
  | Div_large_new | Div_norm_s1_a | Div_norm_s1_b =>
      (zero <? snd d) || is_nan (snd d)
  | _ => zero <? snd d
  end.

(** ** Reading a run

    The statics as the prologue (lines 76-83) leaves them: everything is
    assigned except [xabs], which keeps what the previous call left. *)
Definition start (n : Z) (xa : float) : locals :=
  mkLocals 1 zero zero zero xa zero zero
           (rgiant / float_of_integer n) (float_of_integer n).

(** The statics after the [k] first iterations of the loop. *)
Definition state_after (st0 : locals) (n : Z) (x : list float) (k : nat)
  : outcome locals :=
  st <- prologue st0 n ;; for_loop k x st.

(** The value returned, without the statics. *)
Definition result (m : outcome (float * locals)) : option float :=
  option_map fst (value m).

(** [ge0 f]: the comparison [f >= 0] of C. *)
Definition ge0 (f : float) : bool := zero <=? f.

(** A zero of either sign. *)
Definition is_zero_elt (f : float) : Prop := f = zero \/ f = neg_zero.

(** ** The algorithm as the specification words it

    The final step: the large bucket dominates when [s1 != 0]; else, when
    [s2 != 0], one of the two [s2] formulas, chosen by [s2 >= x3max]; else
    [x3max * sqrt(s3)]. *)
Definition combine_spec (st : locals) : float :=
  if negb (s1 st =? zero) then
    x1max st * sqrt (s1 st + (s2 st / x1max st) / x1max st)
  else if negb (s2 st =? zero) then
    if x3max st <=? s2 st then norm_s2_form (s2 st) (s3 st) (x3max st)
    else norm_x3max_form (s2 st) (s3 st) (x3max st)
  else
    x3max st * sqrt (s3 st).

(** The running scaled sum of squares, with its pivot: rescale when
    [rescale] holds, accumulate otherwise. *)
Definition rescaled (s xmax xabs : float) : float :=
  one + s * ((xmax / xabs) * (xmax / xabs)).

Definition accumulated (s xmax xabs : float) : float :=
  s + (xabs / xmax) * (xabs / xmax).

(** The classification of one element: intermediate iff
    [rdwarf < xabs < agiant]; small iff [xabs <= rdwarf]; otherwise large.
    [new_max] is the test that selects rescaling in the large bucket. *)
Definition update_with (new_max : float -> float -> bool)
    (xi : float) (st0 : locals) : locals :=
  let st := set_xabs (dabs xi) st0 in
  if (rdwarf <? xabs st) && (xabs st <? agiant st) then
    set_s2 (s2 st + xabs st * xabs st) st
  else if xabs st <=? rdwarf then
    if x3max st <? xabs st then
      set_x3max (xabs st) (set_s3 (rescaled (s3 st) (x3max st) (xabs st)) st)
    else if negb (xabs st =? zero) then
      set_s3 (accumulated (s3 st) (x3max st) (xabs st)) st
    else st
  else
    if new_max (xabs st) (x1max st) then
      set_x1max (xabs st) (set_s1 (rescaled (s1 st) (x1max st) (xabs st)) st)
    else
      set_s1 (accumulated (s1 st) (x1max st) (xabs st)) st.

(** As the specification has it: rescale when [xabs > x1max]. *)
Definition update_spec : float -> locals -> locals :=
  update_with (fun xabs x1max => x1max <? xabs).

(** As the program has it: rescale unless [xabs <= x1max]. *)
Definition update_code : float -> locals -> locals :=
  update_with (fun xabs x1max => negb (xabs <=? x1max)).

(** A single pass over the elements in index order. *)
Definition single_pass (upd : float -> locals -> locals)
    (x : list float) (st : locals) : locals :=
  fold_left (fun s v => upd v s) x st.

(** ** Statements about the accumulators *)

Definition ge0_or_nan (f : float) : bool := ge0 f || is_nan f.

Definition no_nan (x : list float) : Prop := Forall (fun v => is_nan v = false) x.

(** The statics while only zeros have been seen. *)
Definition zstate (i : Z) (xa ag fl : float) : locals :=
  mkLocals i zero zero zero xa zero zero ag fl.

(** What is claimed of the accumulators: [s2], [s3] and [x3max] are
    [>= 0]; [s1] and [x1max] are [>= 0] or a NaN, never negative. *)
Record accumulators_ok (st : locals) : Prop := mkAccumulatorsOk {
  ok_s2    : ge0 (s2 st) = true;
  ok_x3max : ge0 (x3max st) = true;
  ok_s3    : ge0 (s3 st) = true;
  ok_s1    : ge0_or_nan (s1 st) = true;
  ok_x1max : ge0_or_nan (x1max st) = true
}.

(** [x] is zero, or finite with exponent at most [b]. *)
Definition sf_exp_le (b : Z) (x : spec_float) : bool :=
  match x with
  | S754_zero _ => true
  | S754_finite _ _ e => (e <=? b)%Z
  | _ => false
  end.

(** The magnitude of [x] is at most [2^j]. *)
Definition sf_le_pow2 (j : Z) (x : spec_float) : bool :=
  match x with
  | S754_zero _ => true
  | S754_finite _ m e => ((e <=? j) && (Zpos m <=? 2 ^ (j - e)))%Z
  | _ => false
  end.

Definition fle_pow2 (j : Z) (f : float) : bool := sf_le_pow2 j (Prim2SF f).

(** A vector of finite numbers: no NaN, no infinity. *)
Definition all_finite (x : list float) : Prop :=
  Forall (fun v => is_finite v = true) x.

(** ** What holds of the accumulators while the elements are finite

    Every accumulator is a number with its sign bit clear; the two scaled
    sums stay at or below [2^54]; the pivots are finite. *)
Record inv_fin (st : locals) : Prop := mkInvFin {
  fin_s2     : fpos (s2 st) = true;
  fin_s1     : fpos (s1 st) = true;
  fin_s1_le  : fle_pow2 54 (s1 st) = true;
  fin_s3     : fpos (s3 st) = true;
  fin_s3_le  : fle_pow2 54 (s3 st) = true;
  fin_x1max  : fpos (x1max st) = true;
  fin_x1num  : fnum (x1max st) = true;
  fin_x3max  : fpos (x3max st) = true;
  fin_x3le   : (x3max st <=? rdwarf) = true;
  fin_large  : sf_zero (Prim2SF (s1 st)) || fspos (x1max st) = true;
  fin_small  : fspos (x3max st) = true \/ s3 st = zero
}.

(** ** What holds of the small bucket whatever the elements

    Lines 113-126 run only when [xabs <= rdwarf], so on a number: [s3] is
    a number at most [2^54] with its sign bit clear, and [x3max] one at
    most [rdwarf]. *)
Record inv_small (st : locals) : Prop := mkInvSmall {
  sm_s3    : fpos (s3 st) = true;
  sm_s3_le : fle_pow2 54 (s3 st) = true;
  sm_x3max : fpos (x3max st) = true;
  sm_x3le  : (x3max st <=? rdwarf) = true;
  sm_state : fspos (x3max st) = true \/ s3 st = zero
}.

(** All five accumulators are [>= 0]. *)
Record accumulators_nonneg (st : locals) : Prop := mkAccumulatorsNonneg {
  nn_s1    : ge0 (s1 st) = true;
  nn_s2    : ge0 (s2 st) = true;
  nn_s3    : ge0 (s3 st) = true;
  nn_x1max : ge0 (x1max st) = true;
  nn_x3max : ge0 (x3max st) = true
}.

(** ** Accuracy on a given vector, read on integers

    [at_exponent c x] is the integer [m * 2^(e - c)] of a finite [x]
    brought to an exponent [c <= e].  [within_ulp r x] holds when the
    finite positive [r] is within one unit of its last place of the
    Euclidean norm of [x]:
    [(r - ulp)^2 <= x_1^2 + ... + x_n^2 <= (r + ulp)^2]. *)

Definition exponent_of (x : spec_float) : Z :=
  match x with S754_finite _ _ e => e | _ => 0%Z end.

Definition at_exponent (c : Z) (x : spec_float) : Z :=
  match x with S754_finite _ m e => (Zpos m * 2 ^ (e - c))%Z | _ => 0%Z end.

Definition min_exponent (r : float) (x : list float) : Z :=
  fold_right Z.min (exponent_of (Prim2SF r))
             (map (fun v => exponent_of (Prim2SF v)) x).

Definition sum_squares_at (c : Z) (x : list float) : Z :=
  fold_right (fun v acc =>
                (at_exponent c (Prim2SF v) * at_exponent c (Prim2SF v) + acc)%Z)
             0%Z x.

Definition within_ulp (r : float) (x : list float) : bool :=
  let c := min_exponent r x in
  match Prim2SF r with
  | S754_finite false mr er =>
      let lo := ((Zpos mr - 1) * 2 ^ (er - c))%Z in
      let hi := ((Zpos mr + 1) * 2 ^ (er - c))%Z in
      ((lo * lo <=? sum_squares_at c x) && (sum_squares_at c x <=? hi * hi))%Z
  | _ => false
  end.

Definition norm_within_ulp (x : list float) : bool :=
  match norm x with
  | Some r => within_ulp r x
  | None => false
  end.

(** ** Further statements about a run *)

(** What an infinite element leaves: [s1] a NaN, or the pivot [x1max] at
    [+infinity]. *)
Definition s1_nan_or_pivot_inf (st : locals) : Prop :=
  fnan (s1 st) = true \/ x1max st = infinity.

(** The plain sum [s2] is a number at most [2^184], and [agiant] is below
    [2^65]. *)
Definition s2_bounded (st : locals) : Prop :=
  fpos (s2 st) = true /\ fle_pow2 184 (s2 st) = true /\
  sf_exp_le 12 (Prim2SF (agiant st)) = true.

(** The accumulators for the large components once an infinity has been
    seen among finite elements: lines 100 and 101 have set [s1] to [1] and
    [x1max] to [+infinity]. *)
Definition after_infinity (st : locals) : Prop :=
  s1 st = one /\ x1max st = infinity /\ s2_bounded st.

(** The straightforward computation, to compare [enorm_] with: the root of
    the sum of the squares, added in index order. *)
Definition sum_of_squares (x : list float) : float :=
  fold_left (fun s v => s + v * v) x zero.

Definition naive_norm (x : list float) : float := sqrt (sum_of_squares x).

(** The statics while only zeros and intermediate components have been
    seen. *)
Definition istate (i : Z) (S xa ag fl : float) : locals :=
  mkLocals i zero S zero xa zero zero ag fl.

(** The bucket of an element, by the tests of lines 86 and 89: line 86
    selects the intermediate components, line 89 the small ones among the
    others, and what is left is large. *)
Definition intermediate_elt (st : locals) (v : float) : bool :=
  (rdwarf <? dabs v) && (dabs v <? agiant st).

Definition small_elt (st : locals) (v : float) : bool :=
  negb (intermediate_elt st v) && (dabs v <=? rdwarf).

Definition large_elt (st : locals) (v : float) : bool :=
  negb (intermediate_elt st v) && negb (dabs v <=? rdwarf).

(** [v] lies at or below the pivot of its bucket (no pivot is kept for the
    intermediate bucket). *)
Definition below_pivot (st : locals) (v : float) : bool :=
  if intermediate_elt st v then true
  else if dabs v <=? rdwarf then dabs v <=? x3max st
  else dabs v <=? x1max st.

(** Each pivot is zero or the magnitude of an element of its bucket, and
    no element of the bucket is above it. *)
Definition pivots_cover (st : locals) (seen : list float) : Prop :=
  forallb (below_pivot st) seen = true /\
  In (x1max st) (zero :: map dabs (filter (large_elt st) seen)) /\
  In (x3max st) (zero :: map dabs (filter (small_elt st) seen)).

(** ** Binary64 numbers as real numbers

    [F2R a] is the real number a finite binary64 value stands for (and [0]
    for an infinity or a NaN); [euclidean_norm x] is the Euclidean norm of
    the vector [x], a real number. *)

Module Real.

Import Stdlib.Reals.Reals.
Local Open Scope R_scope.

Definition bpow (e : Z) : R := powerRZ 2 e.

Definition SF2R (x : spec_float) : R :=
  match x with
  | S754_finite s m e => IZR (cond_Zopp s (Zpos m)) * bpow e
  | _ => 0
  end.

Definition F2R (a : float) : R := SF2R (Prim2SF a).

(** The unit roundoff of binary64, half its smallest positive number, and
    the overflow threshold: a real number below [omega] rounds to a finite
    binary64 number. *)
Definition u : R := bpow (-53).
Definition eta : R := bpow (-1075).
Definition omega : R := bpow 1024 - bpow 970.

Definition sum_squares (x : list float) : R :=
  fold_right (fun v acc => F2R v * F2R v + acc) 0 x.

Definition euclidean_norm (x : list float) : R := sqrt (sum_squares x).

(** [a] and [b] are within [m] relative rounding errors of each other. *)
Definition within (m : nat) (a b : R) : Prop :=
  a <= b * (1 + u) ^ m /\ b <= a * (1 + u) ^ m.

(** Where the real number [y] lies with respect to the integer [m]: the
    reading of a [location]. *)
Definition located (y : R) (m : Z) (l : location) : Prop :=
  match l with
  | loc_Exact => y = IZR m
  | loc_Inexact Lt => IZR m < y < IZR m + / 2
  | loc_Inexact Eq => y = IZR m + / 2
  | loc_Inexact Gt => IZR m + / 2 < y < IZR m + 1
  end.

Definition rec_located (y : R) (mrs : shr_record) : Prop :=
  located y (shr_m mrs) (loc_of_shr_record mrs).

(** The result of rounding to a mantissa [M] at the exponent [e]. *)
Definition encode (M e : Z) : spec_float :=
  if (M =? 0)%Z then S754_zero false
  else if (M =? 2 ^ 53)%Z
       then if (e + 1 <=? 971)%Z then S754_finite false (Z.to_pos (2 ^ 52)) (e + 1)
            else S754_infinity false
       else if (e <=? 971)%Z then S754_finite false (Z.to_pos M) e
            else S754_infinity false.

(** A finite binary64 number with its sign bit clear. *)
Definition fin (a : float) : Prop := is_finite a = true /\ fpos a = true.

(** [f] is the real number [x >= 0] rounded to nearest: within one relative
    rounding error in the normal range, within [eta] below it, and on the
    same side of every power of two as [x]. *)
Definition sf_rounded (x : R) (f : spec_float) : Prop :=
  valid_binary f = true /\
  sf_num f = true /\ sf_pos f = true /\
  (x = 0 -> SF2R f = 0) /\
  (forall k : Z, (-1074 <= k)%Z ->
     (x <= bpow k -> SF2R f <= bpow k) /\ (bpow k <= x -> bpow k <= SF2R f)) /\
  (within 1 (SF2R f) x \/ (x < bpow (-1022) /\ Rabs (SF2R f - x) <= eta)).

Definition rounded (x : R) (f : float) : Prop := sf_rounded x (Prim2SF f).

(** A scaled sum of squares: [s] times the square of the pivot [p] is
    within [m] rounding errors of the sum [A] of the squares of the [k]
    elements (at most) that went into it; each of them is at most [p]. *)
Record bucket (m k : nat) (s p : float) (A : R) : Prop := mkBucket {
  bk_fin_s  : fin s;
  bk_fin_p  : fin p;
  bk_within : within m (F2R s * (F2R p * F2R p)) A;
  bk_state  : (F2R s = 0 /\ F2R p = 0) \/ (1 <= F2R s /\ 0 < F2R p);
  bk_count  : A <= INR k * (F2R p * F2R p)
}.

(** The accumulators after [k] elements: the large components seen so far
    have squares summing to [A1], the intermediate ones to [A2], the small
    ones to [A3]; every accumulator carries at most [5 k] rounding errors. *)
Record acc_parts (k : nat) (A1 A2 A3 : R) (st : locals) : Prop := mkAccParts {
  acc_large    : bucket (k * 5) k (s1 st) (x1max st) A1;
  acc_small    : bucket (k * 5) k (s3 st) (x3max st) A3;
  acc_fin_s2   : fin (s2 st);
  acc_s2       : within (k * 5) (F2R (s2 st)) A2;
  acc_s2_count : A2 <= INR k * bpow 130;
  acc_s2_state : A2 = 0 \/ bpow (-130) <= A2;
  acc_x1max    : F2R (x1max st) = 0 \/ F2R (agiant st) <= F2R (x1max st);
  acc_x3max    : F2R (x3max st) <= F2R rdwarf;
  acc_fin_ag   : fin (agiant st);
  acc_ag       : bpow 32 <= F2R (agiant st) <= bpow 65
}.

Definition acc_inv (k : nat) (S : R) (st : locals) : Prop :=
  exists A1 A2 A3 : R, A1 + A2 + A3 = S /\ acc_parts k A1 A2 A3 st.

(** [r] is within [K] relative rounding errors of [N], up to [eta]. *)
Definition close (K : nat) (r N : R) : Prop :=
  r <= N * (1 + u) ^ K + eta /\ N <= (r + eta) * (1 + u) ^ K.

(** The bound on the relative error for a vector of [n] elements:
    [(3 n + 4) * 2^-52]. *)
Definition rel_bound (n : nat) : R := INR (n * 3 + 4) * bpow (-52).

(** The largest finite binary64 number. *)
Definition max_double : float := 0x1.fffffffffffffp+1023%float.

End Real.

(** * Facts about binary64 arithmetic, from its bit-level specification *)

Section Iteration.

Context {A : Type} (P : A -> Prop) (f : A -> A).
Hypothesis P_step : forall a, P a -> P (f a).

Lemma iter_pos_invariant (p : positive) : forall a, P a -> P (iter_pos f p a).
Proof. induction p; simpl; auto. Qed.

End Iteration.

Section RoundingSign.

Local Open Scope Z_scope.

Lemma shr_1_half (mrs : shr_record) :
  0 <= shr_m mrs -> shr_m (shr_1 mrs) = shr_m mrs / 2.
Proof.
  destruct mrs as [m r s]; simpl.
  destruct m as [|p|p]; [reflexivity| |lia]; intros _.
  destruct p as [p|p|]; simpl shr_m.
  - rewrite Pos2Z.inj_xI. apply Z.div_unique with 1; lia.
  - rewrite Pos2Z.inj_xO. apply Z.div_unique with 0; lia.
  - reflexivity.
Qed.

Lemma shr_1_nonneg (mrs : shr_record) :
  0 <= shr_m mrs -> 0 <= shr_m (shr_1 mrs).
Proof.
  intros H. rewrite shr_1_half by assumption. apply Z.div_pos; lia.
Qed.

Lemma shr_iter_nonneg (p : positive) (mrs : shr_record) :
  0 <= shr_m mrs -> 0 <= shr_m (iter_pos shr_1 p mrs).
Proof.
  apply (iter_pos_invariant (fun m => 0 <= shr_m m)). exact shr_1_nonneg.
Qed.

Lemma shr_iter_div (p : positive) : forall mrs,
  0 <= shr_m mrs ->
  shr_m (iter_pos shr_1 p mrs) = shr_m mrs / 2 ^ Zpos p.
Proof.
  induction p as [p IH|p IH|]; intros mrs Hm; simpl iter_pos.
  - rewrite IH by auto using shr_iter_nonneg, shr_1_nonneg.
    rewrite IH by auto using shr_1_nonneg.
    rewrite shr_1_half by assumption.
    rewrite !Z.div_div by lia.
    f_equal. rewrite Pos2Z.inj_xI.
    replace (2 * Zpos p + 1) with (1 + Zpos p + Zpos p) by lia.
    rewrite !Z.pow_add_r by lia. change (2 ^ 1) with 2. ring.
  - rewrite IH by auto using shr_iter_nonneg.
    rewrite IH by assumption.
    rewrite !Z.div_div by lia.
    f_equal. rewrite <- Z.pow_add_r by lia. f_equal. lia.
  - rewrite shr_1_half by assumption. reflexivity.
Qed.

Lemma digits2_pos_lower (p : positive) :
  2 ^ (Zpos (digits2_pos p) - 1) <= Zpos p.
Proof.
  induction p as [p IH|p IH|]; simpl digits2_pos;
    rewrite ?Pos2Z.inj_succ; [| |simpl; lia].
  - replace (Z.succ (Zpos (digits2_pos p)) - 1)
      with (Z.succ (Zpos (digits2_pos p) - 1)) by lia.
    rewrite Z.pow_succ_r by lia. lia.
  - replace (Z.succ (Zpos (digits2_pos p)) - 1)
      with (Z.succ (Zpos (digits2_pos p) - 1)) by lia.
    rewrite Z.pow_succ_r by lia. lia.
Qed.

(** ** Rounding keeps the sign, and cannot reach zero above [emin] *)

Lemma fexp_64 (e : Z) : fexp prec emax e = Z.max (e - 53) (-1074).
Proof. reflexivity. Qed.

Lemma shr_m_of_loc (m : Z) (l : location) : shr_m (shr_record_of_loc m l) = m.
Proof. destruct l as [|[]]; reflexivity. Qed.

Lemma round_nearest_even_ge (m : Z) (l : location) : m <= round_nearest_even m l.
Proof. destruct l as [|[]]; simpl; try lia. destruct (Z.even m); lia. Qed.

Lemma shr_fexp_nonneg (m e : Z) (l : location) :
  0 <= m -> 0 <= shr_m (fst (shr_fexp prec emax m e l)).
Proof.
  intros Hm. unfold shr_fexp, shr.
  destruct (fexp prec emax (Zdigits2 m + e) - e); simpl fst;
    try apply shr_iter_nonneg; rewrite shr_m_of_loc; assumption.
Qed.

Lemma shr_fexp_pos (m e : Z) (l : location) :
  0 < m -> -1074 <= e ->
  0 < shr_m (fst (shr_fexp prec emax m e l)) /\
  -1074 <= snd (shr_fexp prec emax m e l).
Proof.
  intros Hm He. unfold shr_fexp, shr. rewrite fexp_64.
  destruct m as [|p|p]; try lia. simpl Zdigits2.
  pose proof (digits2_pos_lower p) as Hd.
  set (d := Zpos (digits2_pos p)) in *.
  destruct (Z.max (d + e - 53) (-1074) - e) as [|k|k] eqn:Ek;
    simpl fst; simpl snd; rewrite ?shr_m_of_loc; try lia.
  rewrite shr_iter_div, shr_m_of_loc by (rewrite shr_m_of_loc; lia).
  split; [|lia].
  apply Z.div_str_pos. split; [apply Z.pow_pos_nonneg; lia|].
  apply Z.le_trans with (2 ^ (d - 1)); [|assumption].
  apply Z.pow_le_mono_r; lia.
Qed.

Lemma binary_round_aux_sign (s : bool) (m e : Z) (l : location) :
  0 <= m -> sf_sign_is s (binary_round_aux prec emax s m e l) = true.
Proof.
  intros Hm. unfold binary_round_aux.
  pose proof (shr_fexp_nonneg m e l Hm) as H1.
  destruct (shr_fexp prec emax m e l) as [mrs' e']. simpl fst in H1.
  pose proof (round_nearest_even_ge (shr_m mrs') (loc_of_shr_record mrs')) as Hr.
  set (m' := round_nearest_even _ _) in *.
  assert (H2 : 0 <= shr_m (fst (shr_fexp prec emax m' e' loc_Exact)))
    by (apply shr_fexp_nonneg; lia).
  destruct (shr_fexp prec emax m' e' loc_Exact) as [mrs'' e'']. simpl fst in H2.
  destruct (shr_m mrs''); [| |lia]; try destruct (_ <=? _);
    simpl; apply Bool.eqb_reflx.
Qed.

Lemma binary_round_aux_nonzero (s : bool) (m e : Z) (l : location) :
  0 < m -> -1074 <= e ->
  sf_zero (binary_round_aux prec emax s m e l) = false.
Proof.
  intros Hm He. unfold binary_round_aux.
  destruct (shr_fexp_pos m e l Hm He) as [H1 H1e].
  destruct (shr_fexp prec emax m e l) as [mrs' e']. simpl fst in H1; simpl snd in H1e.
  pose proof (round_nearest_even_ge (shr_m mrs') (loc_of_shr_record mrs')) as Hr.
  set (m' := round_nearest_even _ _) in *.
  destruct (shr_fexp_pos m' e' loc_Exact) as [H2 _]; [lia|assumption|].
  destruct (shr_fexp prec emax m' e' loc_Exact) as [mrs'' e'']. simpl fst in H2.
  destruct (shr_m mrs''); try lia.
  destruct (_ <=? _); reflexivity.
Qed.

Lemma binary_round_sign (s : bool) (m : positive) (e : Z) :
  sf_sign_is s (binary_round prec emax s m e) = true.
Proof.
  unfold binary_round. destruct (shl_align _ _ _) as [mz ez].
  apply binary_round_aux_sign. lia.
Qed.

Lemma binary_round_nonzero (s : bool) (m : positive) (e : Z) :
  -1074 <= e -> sf_zero (binary_round prec emax s m e) = false.
Proof.
  intros He. unfold binary_round, shl_align. rewrite fexp_64.
  destruct (Z.max (Zpos (digits2_pos m) + e - 53) (-1074) - e) eqn:Ek;
    apply binary_round_aux_nonzero; lia.
Qed.

Lemma binary_round_aux_sign_or_nan (s : bool) (m e : Z) (l : location) :
  sf_sign_is s (binary_round_aux prec emax s m e l)
  || sf_nan (binary_round_aux prec emax s m e l) = true.
Proof.
  unfold binary_round_aux.
  destruct (shr_fexp prec emax m e l) as [mrs' e'].
  destruct (shr_fexp prec emax _ e' loc_Exact) as [mrs'' e''].
  destruct (shr_m mrs''); try destruct (_ <=? _); simpl;
    rewrite ?Bool.eqb_reflx; reflexivity.
Qed.

Lemma sf_sign_pos (x : spec_float) : sf_sign_is false x = true -> sf_pos x = true.
Proof. destruct x as [[|]|[|]| |[|] m e]; simpl; auto. Qed.

Lemma sf_sign_posnan (x : spec_float) :
  sf_sign_is false x || sf_nan x = true -> sf_pos x || sf_nan x = true.
Proof. destruct x as [[|]|[|]| |[|] m e]; simpl; auto. Qed.

Lemma sf_spos_of_sign_nonzero (x : spec_float) :
  sf_sign_is false x = true -> sf_zero x = false -> sf_spos x = true.
Proof. destruct x as [[|]|[|]| |[|] m e]; simpl; auto. Qed.

Lemma valid_emin (s : bool) (m : positive) (e : Z) :
  valid_binary (S754_finite s m e) = true -> -1074 <= e.
Proof.
  unfold SpecFloat.valid_binary, bounded, canonical_mantissa.
  rewrite andb_true_iff, Z.eqb_eq, fexp_64. lia.
Qed.

End RoundingSign.

(** ** Shifts that lose no bit *)

Section ExactShifts.

Local Open Scope Z_scope.

Lemma digits2_pos_xO (p : positive) :
  Zpos (digits2_pos p~0) = Zpos (digits2_pos p) + 1.
Proof. simpl. lia. Qed.

Lemma shr_fexp_canonical (m : positive) (e : Z) :
  canonical_mantissa prec emax m e = true ->
  shr_fexp prec emax (Zpos m) e loc_Exact = (Build_shr_record (Zpos m) false false, e).
Proof.
  intros C. apply Z.eqb_eq in C. unfold shr_fexp, Zdigits2.
  rewrite C, Z.sub_diag. reflexivity.
Qed.

Lemma shr_fexp_scaled (m : positive) (e : Z) :
  canonical_mantissa prec emax m e = true ->
  shr_fexp prec emax (Zpos (4503599627370496 * m)) (e + -52) loc_Exact
  = (Build_shr_record (Zpos m) false false, e).
Proof.
  intros C. apply Z.eqb_eq in C. unfold shr_fexp.
  simpl Pos.mul. unfold Zdigits2. rewrite !digits2_pos_xO.
  match goal with |- context [fexp prec emax ?a] =>
    replace a with (Zpos (digits2_pos m) + e) by lia end.
  rewrite C. replace (e - (e + -52)) with 52 by lia.
  unfold shr. cbv [iter_pos shr_1 shr_record_of_loc orb]. f_equal. lia.
Qed.

End ExactShifts.

(** ** Bits shifted out, and the error of rounding to nearest *)

Section RoundToNearest.

Local Open Scope Z_scope.

Lemma iter_pos_nat {A} (f : A -> A) (p : positive) : forall x,
  iter_pos f p x = Nat.iter (Pos.to_nat p) f x.
Proof.
  induction p as [p IH|p IH|]; intros x; simpl iter_pos.
  - rewrite !IH, Pos2Nat.inj_xI.
    replace (S (2 * Pos.to_nat p)) with (Pos.to_nat p + (Pos.to_nat p + 1))%nat by lia.
    rewrite !Nat.iter_add. reflexivity.
  - rewrite !IH, Pos2Nat.inj_xO.
    replace (2 * Pos.to_nat p)%nat with (Pos.to_nat p + Pos.to_nat p)%nat by lia.
    rewrite Nat.iter_add. reflexivity.
  - reflexivity.
Qed.

Lemma shr_1_spec (m : Z) (r s : bool) :
  0 <= m ->
  shr_1 (Build_shr_record m r s) = Build_shr_record (m / 2) (Z.odd m) (r || s).
Proof.
  intros Hm. destruct m as [|p|p]; [reflexivity| |lia].
  destruct p as [p|p|]; simpl shr_1; f_equal.
  - rewrite Pos2Z.inj_xI. apply Z.div_unique with 1; lia.
  - rewrite Pos2Z.inj_xO. apply Z.div_unique with 0; lia.
Qed.

Lemma mod_pow2_succ (M j : Z) :
  0 <= j ->
  M mod 2 ^ (j + 1) = 2 ^ j * (M / 2 ^ j mod 2) + M mod 2 ^ j.
Proof.
  intros Hj. assert (P : 0 < 2 ^ j) by (apply Z.pow_pos_nonneg; lia).
  pose proof (Z.div_mod M (2 ^ j) ltac:(lia)) as E1.
  pose proof (Z.mod_pos_bound M (2 ^ j) P) as B1.
  pose proof (Z.div_mod (M / 2 ^ j) 2 ltac:(lia)) as E2.
  pose proof (Z.mod_pos_bound (M / 2 ^ j) 2 ltac:(lia)) as B2.
  symmetry. apply Z.mod_unique with (M / 2 ^ j / 2).
  - left. rewrite Z.pow_add_r, Z.pow_1_r by lia. nia.
  - rewrite Z.pow_add_r, Z.pow_1_r by lia. nia.
Qed.

Lemma shr_nat_spec (M : Z) (j : nat) :
  0 <= M ->
  Nat.iter (S j) shr_1 (Build_shr_record M false false)
  = Build_shr_record (M / 2 ^ (Z.of_nat j + 1))
      (Z.odd (M / 2 ^ Z.of_nat j))
      (negb (M mod 2 ^ Z.of_nat j =? 0)).
Proof.
  intros HM. induction j as [|j IH].
  - unfold Nat.iter. cbn [nat_rect]. rewrite shr_1_spec by assumption.
    simpl Z.of_nat. rewrite Z.pow_0_r, Z.div_1_r, Z.mod_1_r. reflexivity.
  - change (Nat.iter (S (S j)) shr_1 ?x) with (shr_1 (Nat.iter (S j) shr_1 x)).
    rewrite IH, shr_1_spec by (apply Z.div_pos; [lia|apply Z.pow_pos_nonneg; lia]).
    rewrite Nat2Z.inj_succ, <- !Z.add_1_r.
    assert (P : 0 < 2 ^ Z.of_nat j) by (apply Z.pow_pos_nonneg; lia).
    f_equal.
    + rewrite Z.div_div by lia.
      rewrite <- (Z.pow_1_r 2) at 2. rewrite <- Z.pow_add_r by lia. reflexivity.
    + rewrite (mod_pow2_succ M (Z.of_nat j)) by lia.
      pose proof (Z.mod_pos_bound M (2 ^ Z.of_nat j) P) as B1.
      rewrite Zmod_odd.
      destruct (Z.odd (M / 2 ^ Z.of_nat j));
        destruct (Z.eqb_spec (M mod 2 ^ Z.of_nat j) 0) as [E'|E'];
        match goal with |- context [?a =? 0] =>
          destruct (Z.eqb_spec a 0) as [E''|E''] end;
        simpl; try reflexivity; nia.
Qed.

Lemma shr_pos_spec (M : Z) (k : positive) :
  0 <= M ->
  iter_pos shr_1 k (Build_shr_record M false false)
  = Build_shr_record (M / 2 ^ Zpos k)
      (Z.odd (M / 2 ^ (Zpos k - 1)))
      (negb (M mod 2 ^ (Zpos k - 1) =? 0)).
Proof.
  intros HM. rewrite iter_pos_nat.
  destruct (Pos.to_nat k) as [|j] eqn:E; [lia|].
  rewrite (shr_nat_spec M j HM).
  replace (Z.of_nat j) with (Zpos k - 1) by lia.
  replace (Zpos k - 1 + 1) with (Zpos k) by lia. reflexivity.
Qed.

(** Rounding to nearest after dropping [k] bits is off by at most half a
    unit of the last place kept. *)
Lemma round_shift_error (M : Z) (k : positive) :
  0 <= M ->
  let mrs := iter_pos shr_1 k (Build_shr_record M false false) in
  let m1 := round_nearest_even (shr_m mrs) (loc_of_shr_record mrs) in
  Z.abs (m1 * 2 ^ Zpos k - M) <= 2 ^ (Zpos k - 1) /\
  M / 2 ^ Zpos k <= m1 <= M / 2 ^ Zpos k + 1.
Proof.
  intros HM. rewrite (shr_pos_spec M k HM). cbn zeta.
  assert (P : 0 < 2 ^ (Zpos k - 1)) by (apply Z.pow_pos_nonneg; lia).
  assert (E2 : 2 ^ Zpos k = 2 * 2 ^ (Zpos k - 1)).
  { rewrite <- Z.pow_succ_r by lia. f_equal. lia. }
  pose proof (Z.div_mod M (2 ^ (Zpos k - 1)) ltac:(lia)) as E1.
  pose proof (Z.mod_pos_bound M (2 ^ (Zpos k - 1)) P) as B1.
  assert (Eq : M / 2 ^ Zpos k = M / 2 ^ (Zpos k - 1) / 2).
  { rewrite Z.div_div by lia. f_equal. lia. }
  pose proof (Z.div_mod (M / 2 ^ (Zpos k - 1)) 2 ltac:(lia)) as E3.
  rewrite Zmod_odd in E3. rewrite <- Eq in E3.
  set (q := M / 2 ^ Zpos k) in *.
  set (h := M / 2 ^ (Zpos k - 1)) in *.
  set (low := M mod 2 ^ (Zpos k - 1)) in *.
  set (w := 2 ^ (Zpos k - 1)) in *.
  cbn [shr_m loc_of_shr_record].
  destruct (Z.odd h); destruct (Z.eqb_spec low 0) as [L|L];
    cbn [negb round_nearest_even]; try destruct (Z.even q);
    rewrite E2; split; try lia; apply Z.abs_le; nia.
Qed.

Lemma digits2_pos_upper (p : positive) : Zpos p < 2 ^ Zpos (digits2_pos p).
Proof.
  induction p as [p IH|p IH|]; simpl digits2_pos;
    rewrite ?Pos2Z.inj_succ, ?Z.pow_succ_r by lia; lia.
Qed.

Lemma digits2_pos_unique (p : positive) (j : Z) :
  2 ^ (j - 1) <= Zpos p < 2 ^ j -> Zpos (digits2_pos p) = j.
Proof.
  intros [L U].
  pose proof (digits2_pos_lower p) as L'. pose proof (digits2_pos_upper p) as U'.
  set (d := Zpos (digits2_pos p)) in *.
  assert (0 < j).
  { destruct (Z.ltb_spec 0 j); [assumption|]. exfalso.
    destruct (Z.eq_dec j 0) as [->|N]; [simpl in U; lia|].
    rewrite Z.pow_neg_r in U by lia. lia. }
  destruct (Z.lt_trichotomy d j) as [C|[C|C]]; [|assumption|].
  - assert (2 ^ d <= 2 ^ (j - 1)) by (apply Z.pow_le_mono_r; lia). lia.
  - assert (2 ^ j <= 2 ^ (d - 1)) by (apply Z.pow_le_mono_r; lia). lia.
Qed.

(** ** Rounding a mantissa that is too long by [k] bits *)

Lemma shr_fexp_drop (M e : Z) (k : positive) :
  Zdigits2 M = 53 + Zpos k -> -1074 <= e + Zpos k ->
  shr_fexp prec emax M e loc_Exact
  = (iter_pos shr_1 k (Build_shr_record M false false), e + Zpos k).
Proof.
  intros HD He. unfold shr_fexp. rewrite HD, fexp_64.
  replace (Z.max (53 + Zpos k + e - 53) (-1074) - e) with (Zpos k) by lia.
  reflexivity.
Qed.

Lemma shr_fexp_keep (p : positive) (e : Z) (l : location) :
  Zpos (digits2_pos p) = 53 -> -1074 <= e ->
  shr_fexp prec emax (Zpos p) e l = (shr_record_of_loc (Zpos p) l, e).
Proof.
  intros HD He. unfold shr_fexp, Zdigits2. rewrite HD, fexp_64.
  replace (Z.max (53 + e - 53) (-1074) - e) with 0 by lia. reflexivity.
Qed.

Lemma shr_fexp_carry (e : Z) :
  -1074 <= e ->
  shr_fexp prec emax 9007199254740992 e loc_Exact
  = (Build_shr_record 4503599627370496 false false, e + 1).
Proof.
  intros He. unfold shr_fexp.
  change (Zdigits2 9007199254740992) with 54. rewrite fexp_64.
  replace (Z.max (54 + e - 53) (-1074) - e) with 1 by lia. reflexivity.
Qed.

Lemma loc_of_shr_record_of_loc (m : Z) (l : location) :
  loc_of_shr_record (shr_record_of_loc m l) = l.
Proof. destruct l as [|[]]; reflexivity. Qed.

Lemma binary_round_aux_normal (s : bool) (p : positive) (e : Z) (k : positive) :
  Zpos (digits2_pos p) = 53 + Zpos k ->
  -1074 <= e + Zpos k -> e + Zpos k + 1 <= 971 ->
  exists m2 e2,
    binary_round_aux prec emax s (Zpos p) e loc_Exact = S754_finite s m2 e2 /\
    2 ^ 52 <= Zpos m2 < 2 ^ 53 /\
    (e2 = e + Zpos k \/ (e2 = e + Zpos k + 1 /\ Zpos m2 = 2 ^ 52 /\
                         2 ^ 53 - 1 <= Zpos p / 2 ^ Zpos k)) /\
    Z.abs (Zpos m2 * 2 ^ (e2 - e) - Zpos p) <= 2 ^ (Zpos k - 1).
Proof.
  intros HD He Hmax. unfold binary_round_aux.
  rewrite (shr_fexp_drop (Zpos p) e k HD He).
  destruct (round_shift_error (Zpos p) k ltac:(lia)) as [Herr Hb].
  cbn zeta in Herr, Hb.
  set (mrs := iter_pos shr_1 k _) in *.
  set (m1 := round_nearest_even (shr_m mrs) (loc_of_shr_record mrs)) in *.
  pose proof (digits2_pos_lower p) as L. pose proof (digits2_pos_upper p) as U.
  rewrite HD in L, U.
  assert (Pk : 0 < 2 ^ Zpos k) by (apply Z.pow_pos_nonneg; lia).
  replace (53 + Zpos k - 1) with (52 + Zpos k) in L by lia.
  rewrite Z.pow_add_r in L, U by lia.
  assert (Q1 : 2 ^ 52 <= Zpos p / 2 ^ Zpos k)
    by (apply Z.div_le_lower_bound; lia).
  assert (Q2 : Zpos p / 2 ^ Zpos k < 2 ^ 53)
    by (apply Z.div_lt_upper_bound; lia).
  destruct (Z.ltb_spec m1 (2 ^ 53)) as [C|C].
  - destruct m1 as [|p1|p1] eqn:E1; try lia.
    assert (D1 : Zpos (digits2_pos p1) = 53)
      by (apply digits2_pos_unique; change (2 ^ (53 - 1)) with (2 ^ 52); lia).
    rewrite (shr_fexp_keep p1 _ loc_Exact D1 He). cbn [shr_m shr_record_of_loc].
    replace (e + Zpos k <=? emax - prec) with true
      by (symmetry; apply Z.leb_le; change (emax - prec) with 971; lia).
    exists p1, (e + Zpos k). split; [reflexivity|]. split; [lia|].
    split; [left; reflexivity|].
    replace (e + Zpos k - e) with (Zpos k) by lia. exact Herr.
  - assert (E1 : m1 = 9007199254740992) by (change 9007199254740992 with (2 ^ 53); lia).
    rewrite E1 in *. rewrite (shr_fexp_carry _ He). cbn [shr_m].
    replace (e + Zpos k + 1 <=? emax - prec) with true
      by (symmetry; apply Z.leb_le; change (emax - prec) with 971; lia).
    exists 4503599627370496%positive, (e + Zpos k + 1).
    split; [reflexivity|]. split; [change (2 ^ 52) with 4503599627370496; change (2 ^ 53) with 9007199254740992; lia|].
    split; [right; split; [reflexivity|split; [reflexivity|]]|].
    + change (2 ^ 53) with 9007199254740992. lia.
    + replace (e + Zpos k + 1 - e) with (Zpos k + 1) by lia.
      rewrite Z.pow_add_r, Z.pow_1_r by lia.
      replace (4503599627370496 * (2 ^ Zpos k * 2))
        with (9007199254740992 * 2 ^ Zpos k) by lia.
      exact Herr.
Qed.

(** ** The square of a normal number, and the root of the rounded square *)

Lemma SFmul_sqr_normal (m : positive) (e : Z) :
  2 ^ 52 <= Zpos m < 2 ^ 53 -> -117 <= e <= 12 ->
  exists m2 e2,
    SFmul prec emax (S754_finite false m e) (S754_finite false m e)
    = S754_finite false m2 e2 /\
    2 ^ 52 <= Zpos m2 < 2 ^ 53 /\
    (e2 = 2 * e + 52 \/ e2 = 2 * e + 53) /\
    Zpos m * Zpos m - Zpos m < Zpos m2 * 2 ^ (e2 - 2 * e)
                             <= Zpos m * Zpos m + Zpos m.
Proof.
  intros Hm He. cbn [SFmul xorb].
  change (2 ^ 52) with 4503599627370496 in *.
  change (2 ^ 53) with 9007199254740992 in *.
  destruct (Z.ltb_spec (Zpos (m * m)) (2 ^ 105)) as [C|C].
  - assert (D : Zpos (digits2_pos (m * m)) = 53 + 52).
    { apply digits2_pos_unique. rewrite Pos2Z.inj_mul.
      change (2 ^ (53 + 52 - 1)) with (4503599627370496 * 4503599627370496).
      change (2 ^ (53 + 52)) with (2 ^ 105). nia. }
    destruct (binary_round_aux_normal false (m * m) (e + e) 52 D)
      as (m2 & e2 & E & B & X & A); [lia|lia|].
    exists m2, e2. split; [exact E|].
    change (2 ^ 52) with 4503599627370496 in *.
    change (2 ^ 53) with 9007199254740992 in *.
    split; [exact B|].
    rewrite Pos2Z.inj_mul in A, C. change (2 ^ (52 - 1)) with 2251799813685248 in A.
    apply Z.abs_le in A.
    destruct X as [-> | (-> & Em & _)].
    + split; [left; lia|].
      replace (e + e + 52 - 2 * e) with 52 by lia.
      replace (e + e + 52 - (e + e)) with 52 in A by lia.
      change (2 ^ 52) with 4503599627370496 in *. lia.
    + split; [right; lia|].
      replace (e + e + 52 + 1 - 2 * e) with 53 by lia.
      replace (e + e + 52 + 1 - (e + e)) with 53 in A by lia.
      change (2 ^ 53) with 9007199254740992 in *. lia.
  - assert (D : Zpos (digits2_pos (m * m)) = 53 + 53).
    { apply digits2_pos_unique. rewrite Pos2Z.inj_mul.
      change (2 ^ (53 + 53 - 1)) with (2 ^ 105).
      change (2 ^ (53 + 53)) with (9007199254740992 * 9007199254740992).
      rewrite Pos2Z.inj_mul in C. nia. }
    destruct (binary_round_aux_normal false (m * m) (e + e) 53 D)
      as (m2 & e2 & E & B & X & A); [lia|lia|].
    exists m2, e2. split; [exact E|].
    change (2 ^ 52) with 4503599627370496 in *.
    change (2 ^ 53) with 9007199254740992 in *.
    split; [exact B|].
    rewrite Pos2Z.inj_mul in A, C. change (2 ^ (53 - 1)) with 4503599627370496 in A.
    change (2 ^ 105) with (4503599627370496 * 9007199254740992) in C.
    apply Z.abs_le in A.
    assert (Hm' : 4503599627370496 < Zpos m) by nia.
    destruct X as [-> | (-> & Em & Q)].
    + split; [right; lia|].
      replace (e + e + 53 - 2 * e) with 53 by lia.
      replace (e + e + 53 - (e + e)) with 53 in A by lia.
      change (2 ^ 53) with 9007199254740992 in *. lia.
    + exfalso. rewrite Pos2Z.inj_mul in Q.
      assert (Zpos m * Zpos m < (9007199254740992 - 1) * 9007199254740992) by nia.
      assert (Zpos m * Zpos m / 9007199254740992 < 9007199254740992 - 1)
        by (apply Z.div_lt_upper_bound; lia).
      lia.
Qed.

Lemma SFsqrt_rounded_sqr (m m2 : positive) (e e2 : Z) :
  2 ^ 52 <= Zpos m < 2 ^ 53 -> -1074 <= e <= 971 ->
  2 ^ 52 <= Zpos m2 < 2 ^ 53 ->
  (e2 = 2 * e + 52 \/ e2 = 2 * e + 53) ->
  Zpos m * Zpos m - Zpos m < Zpos m2 * 2 ^ (e2 - 2 * e)
                           <= Zpos m * Zpos m + Zpos m ->
  SFsqrt prec emax (S754_finite false m2 e2) = S754_finite false m e.
Proof.
  intros Hm He Hm2 He2 HX.
  assert (D2 : Zpos (digits2_pos m2) = 53) by (apply digits2_pos_unique; exact Hm2).
  assert (Dm : Zpos (digits2_pos m) = 53) by (apply digits2_pos_unique; exact Hm).
  cbn [SFsqrt]. unfold SFsqrt_core_binary, Zdigits2. rewrite D2.
  rewrite !Z.div2_div, fexp_64.
  assert (E' : Z.min (Z.max ((53 + e2 + 1) / 2 - 53) (-1074)) (e2 / 2) = e).
  { destruct He2 as [-> | ->].
    - replace (53 + (2 * e + 52) + 1) with ((e + 53) * 2) by lia.
      replace (2 * e + 52) with ((e + 26) * 2) by lia.
      rewrite !Z.div_mul by lia. lia.
    - replace (53 + (2 * e + 53) + 1) with (1 + (e + 53) * 2) by lia.
      replace (2 * e + 53) with (1 + (e + 26) * 2) by lia.
      rewrite !Z.div_add by lia. change (1 / 2) with 0. lia. }
  rewrite E'.
  set (X := Zpos m2 * 2 ^ (e2 - 2 * e)) in *.
  assert (EX : match e2 - 2 * e with
               | Zpos _ => Z.shiftl (Zpos m2) (e2 - 2 * e)
               | 0 => Zpos m2
               | Zneg _ => 0
               end = X).
  { unfold X. destruct He2 as [-> | ->].
    - replace (2 * e + 52 - 2 * e) with 52 by lia. rewrite Z.shiftl_mul_pow2 by lia. reflexivity.
    - replace (2 * e + 53 - 2 * e) with 53 by lia. rewrite Z.shiftl_mul_pow2 by lia. reflexivity. }
  rewrite EX.
  pose proof (Z.sqrtrem_spec X ltac:(lia)) as S.
  destruct (Z.sqrtrem X) as [q r]. destruct S as [S1 S2].
  change (2 ^ 52) with 4503599627370496 in *.
  change (2 ^ 53) with 9007199254740992 in *.
  assert (XL : 4503599627370496 * 4503599627370496 <= X).
  { unfold X. destruct He2 as [-> | ->].
    - replace (2 * e + 52 - 2 * e) with 52 by lia.
      change (2 ^ 52) with 4503599627370496. nia.
    - replace (2 * e + 53 - 2 * e) with 53 by lia.
      change (2 ^ 53) with 9007199254740992. nia. }
  destruct (Z.leb_spec (Zpos m * Zpos m) X) as [C|C].
  - assert (Eq : q = Zpos m) by nia. subst q.
    assert (Er : r <= Zpos m) by lia.
    unfold binary_round_aux.
    rewrite (shr_fexp_keep m e _ Dm) by lia.
    rewrite loc_of_shr_record_of_loc, shr_m_of_loc.
    replace (round_nearest_even (Zpos m)
               (if r =? 0 then loc_Exact
                else loc_Inexact (if r <=? Zpos m then Lt else Gt)))
      with (Zpos m).
    2:{ destruct (r =? 0); [reflexivity|].
        destruct (Z.leb_spec r (Zpos m)); [reflexivity|lia]. }
    rewrite (shr_fexp_keep m e _ Dm) by lia. cbn [shr_m shr_record_of_loc].
    replace (e <=? emax - prec) with true
      by (symmetry; apply Z.leb_le; change (emax - prec) with 971; lia).
    reflexivity.
  - assert (Eq : q = Zpos m - 1) by nia.
    assert (Hq : 4503599627370496 <= q) by nia.
    destruct q as [|pq|pq]; try lia.
    assert (Dq : Zpos (digits2_pos pq) = 53)
      by (apply digits2_pos_unique;
          change (2 ^ (53 - 1)) with 4503599627370496;
          change (2 ^ 53) with 9007199254740992; lia).
    assert (Er : Zpos pq < r) by nia.
    unfold binary_round_aux.
    rewrite (shr_fexp_keep pq e _ Dq) by lia.
    rewrite loc_of_shr_record_of_loc, shr_m_of_loc.
    replace (round_nearest_even (Zpos pq)
               (if r =? 0 then loc_Exact
                else loc_Inexact (if r <=? Zpos pq then Lt else Gt)))
      with (Zpos m).
    2:{ destruct (Z.eqb_spec r 0); [lia|].
        destruct (Z.leb_spec r (Zpos pq)); [lia|].
        cbn [round_nearest_even]. lia. }
    rewrite (shr_fexp_keep m e _ Dm) by lia. cbn [shr_m shr_record_of_loc].
    replace (e <=? emax - prec) with true
      by (symmetry; apply Z.leb_le; change (emax - prec) with 971; lia).
    reflexivity.
Qed.

(** ** Exponents of rounded results *)

Lemma round_nearest_even_le (m : Z) (l : location) : round_nearest_even m l <= m + 1.
Proof. destruct l as [|[]]; simpl; try lia. destruct (Z.even m); lia. Qed.

Lemma Zdigits2_le (m j : Z) : 0 <= j -> 0 <= m < 2 ^ j -> Zdigits2 m <= j.
Proof.
  intros Hj [L U]. destruct m as [|p|p]; [simpl; lia| |lia]. simpl.
  pose proof (digits2_pos_lower p) as L'.
  destruct (Z.leb_spec (Zpos (digits2_pos p)) j) as [C|C]; [assumption|].
  assert (2 ^ j <= 2 ^ (Zpos (digits2_pos p) - 1)) by (apply Z.pow_le_mono_r; lia).
  lia.
Qed.

Lemma Zdigits2_ge (p : positive) (j : Z) : 2 ^ (j - 1) <= Zpos p -> j <= Zpos (digits2_pos p).
Proof.
  intros L. pose proof (digits2_pos_upper p) as U.
  destruct (Z.leb_spec j (Zpos (digits2_pos p))) as [C|C]; [assumption|].
  assert (2 ^ Zpos (digits2_pos p) <= 2 ^ (j - 1)) by (apply Z.pow_le_mono_r; lia).
  lia.
Qed.

Lemma Zdigits2_upper (m : Z) : 0 <= m -> m < 2 ^ Zdigits2 m.
Proof.
  intros H. destruct m as [|p|p]; [simpl; lia| |lia]. apply digits2_pos_upper.
Qed.

Lemma Zdigits2_nonneg (m : Z) : 0 <= Zdigits2 m.
Proof. destruct m; simpl; lia. Qed.

(** The first shift brings the mantissa below [2^53] and the exponent to
    the larger of [e] and [fexp]. *)
Lemma shr_fexp_bound (m e : Z) (l : location) :
  0 <= m ->
  0 <= shr_m (fst (shr_fexp prec emax m e l)) < 2 ^ 53 /\
  snd (shr_fexp prec emax m e l) = Z.max e (fexp prec emax (Zdigits2 m + e)).
Proof.
  intros Hm. pose proof (Zdigits2_upper m Hm) as U.
  pose proof (Zdigits2_nonneg m) as N.
  unfold shr_fexp, shr. rewrite fexp_64.
  set (D := Zdigits2 m) in *.
  destruct (Z.max (D + e - 53) (-1074) - e) as [|k|k] eqn:Ek;
    cbn [fst snd]; rewrite ?shr_m_of_loc.
  - split; [|lia]. split; [lia|].
    apply Z.lt_le_trans with (2 ^ D); [assumption|]. apply Z.pow_le_mono_r; lia.
  - rewrite shr_iter_div, shr_m_of_loc by (rewrite shr_m_of_loc; lia).
    assert (Pk : 0 < 2 ^ Zpos k) by (apply Z.pow_pos_nonneg; lia).
    split; [|lia]. split; [apply Z.div_pos; lia|].
    apply Z.div_lt_upper_bound; [lia|].
    rewrite <- Z.pow_add_r by lia.
    apply Z.lt_le_trans with (2 ^ D); [assumption|]. apply Z.pow_le_mono_r; lia.
  - split; [|lia]. split; [lia|].
    apply Z.lt_le_trans with (2 ^ D); [assumption|]. apply Z.pow_le_mono_r; lia.
Qed.

Lemma binary_round_aux_exp_le (s : bool) (m e : Z) (l : location) (B : Z) :
  0 <= m -> Z.max e (fexp prec emax (Zdigits2 m + e)) + 1 <= B -> B <= 971 ->
  sf_exp_le B (binary_round_aux prec emax s m e l) = true.
Proof.
  intros Hm HB HB'. unfold binary_round_aux.
  destruct (shr_fexp_bound m e l Hm) as [[L1 U1] E1].
  destruct (shr_fexp prec emax m e l) as [mrs1 e1]. cbn [fst snd] in *.
  pose proof (round_nearest_even_ge (shr_m mrs1) (loc_of_shr_record mrs1)) as G.
  pose proof (round_nearest_even_le (shr_m mrs1) (loc_of_shr_record mrs1)) as G'.
  set (m' := round_nearest_even _ _) in *.
  destruct (shr_fexp_bound m' e1 loc_Exact ltac:(lia)) as [[L2 _] E2].
  assert (D' : Zdigits2 m' <= 54)
    by (apply Zdigits2_le; [lia|change (2 ^ 54) with (2 * 2 ^ 53); lia]).
  rewrite fexp_64 in E1, E2, HB.
  destruct (shr_fexp prec emax m' e1 loc_Exact) as [mrs2 e2]. cbn [fst snd] in *.
  destruct (shr_m mrs2); [reflexivity| |lia].
  destruct (Z.leb_spec e2 (emax - prec)) as [C|C]; cbn [sf_exp_le].
  - apply Z.leb_le. lia.
  - change (emax - prec) with 971 in C. lia.
Qed.

(** Rounding does not lower the position of the leading bit. *)
Lemma shr_fexp_mag (p : positive) (e : Z) (l : location) :
  -1074 <= e ->
  exists p' e',
    shr_fexp prec emax (Zpos p) e l = (Build_shr_record (Zpos p') (shr_r (fst (shr_fexp prec emax (Zpos p) e l))) (shr_s (fst (shr_fexp prec emax (Zpos p) e l))), e') /\
    Zpos (digits2_pos p) + e <= Zpos (digits2_pos p') + e' /\ -1074 <= e'.
Proof.
  intros He. unfold shr_fexp, shr, Zdigits2. rewrite fexp_64.
  pose proof (digits2_pos_lower p) as L.
  set (D := Zpos (digits2_pos p)) in *.
  destruct (Z.max (D + e - 53) (-1074) - e) as [|k|k] eqn:Ek; cbn [fst snd].
  - exists p, e. split; [destruct l as [|[]]; reflexivity|lia].
  - assert (Pk : 0 < 2 ^ Zpos k) by (apply Z.pow_pos_nonneg; lia).
    assert (Hk : Zpos k = D - 53) by lia.
    pose proof (shr_iter_div k (shr_record_of_loc (Zpos p) l)) as Sd.
    rewrite shr_m_of_loc in Sd. specialize (Sd ltac:(lia)).
    assert (Q : 2 ^ 52 <= Zpos p / 2 ^ Zpos k).
    { apply Z.div_le_lower_bound; [lia|]. rewrite <- Z.pow_add_r by lia.
      replace (Zpos k + 52) with (D - 1) by lia. exact L. }
    destruct (iter_pos shr_1 k (shr_record_of_loc (Zpos p) l)) as [m1 r1 s1].
    cbn [shr_m shr_r shr_s] in *.
    destruct m1 as [|p1|p1]; try lia.
    exists p1, (e + Zpos k). split; [reflexivity|]. split; [|lia].
    assert (53 <= Zpos (digits2_pos p1)) by (apply Zdigits2_ge; rewrite Sd; exact Q).
    lia.
  - exists p, e. split; [destruct l as [|[]]; reflexivity|lia].
Qed.

Lemma digits2_pos_mono (p q : positive) :
  Zpos p <= Zpos q -> Zpos (digits2_pos p) <= Zpos (digits2_pos q).
Proof.
  intros H. apply Zdigits2_ge.
  apply Z.le_trans with (Zpos p); [apply digits2_pos_lower|assumption].
Qed.

Lemma binary_round_aux_mag (s : bool) (p : positive) (e : Z) (l : location) s' m' e' :
  -1074 <= e ->
  binary_round_aux prec emax s (Zpos p) e l = S754_finite s' m' e' ->
  Zpos (digits2_pos p) + e <= Zpos (digits2_pos m') + e'.
Proof.
  intros He. unfold binary_round_aux.
  destruct (shr_fexp_mag p e l He) as (p1 & e1 & -> & M1 & He1).
  cbn [shr_m]. set (l1 := loc_of_shr_record _).
  pose proof (round_nearest_even_ge (Zpos p1) l1) as G.
  destruct (round_nearest_even (Zpos p1) l1) as [|p2|p2] eqn:R; try lia.
  destruct (shr_fexp_mag p2 e1 loc_Exact He1) as (p3 & e3 & -> & M3 & He3).
  cbn [shr_m]. pose proof (digits2_pos_mono p1 p2 G) as Mo.
  destruct (e3 <=? emax - prec); [|discriminate].
  intros [= <- <- <-]. lia.
Qed.

Lemma digits2_pos_iter_xO (p d : positive) :
  Zpos (digits2_pos (Pos.iter xO p d)) = Zpos (digits2_pos p) + Zpos d.
Proof.
  induction d as [|d IH] using Pos.peano_ind.
  - simpl. lia.
  - rewrite Pos.iter_succ. simpl digits2_pos. rewrite Pos2Z.inj_succ, IH. lia.
Qed.

Lemma binary_round_mag (s : bool) (p : positive) (e : Z) s' m' e' :
  -1074 <= e ->
  binary_round prec emax s p e = S754_finite s' m' e' ->
  Zpos (digits2_pos p) + e <= Zpos (digits2_pos m') + e'.
Proof.
  intros He. unfold binary_round, shl_align. rewrite fexp_64.
  destruct (Z.max (Zpos (digits2_pos p) + e - 53) (-1074) - e) as [|d|d] eqn:Ed.
  - apply binary_round_aux_mag. exact He.
  - apply binary_round_aux_mag. exact He.
  - intros H. apply binary_round_aux_mag in H; [|lia].
    rewrite digits2_pos_iter_xO in H. lia.
Qed.

(** ** The quotient [rgiant / floatn] *)

Lemma SFdiv_exp_le (m1 m2 : positive) (e1 e2 B : Z) :
  fexp prec emax (Zpos (digits2_pos m1) + e1 - (Zpos (digits2_pos m2) + e2) + 1) + 1 <= B ->
  B <= 971 ->
  sf_exp_le B (SFdiv prec emax (S754_finite false m1 e1) (S754_finite false m2 e2)) = true.
Proof.
  intros HB HB'. cbn [SFdiv]. unfold SFdiv_core_binary, Zdigits2.
  pose proof (digits2_pos_upper m1) as U1. pose proof (digits2_pos_lower m2) as L2.
  set (d1 := Zpos (digits2_pos m1)) in *. set (d2 := Zpos (digits2_pos m2)) in *.
  set (e' := Z.min (fexp prec emax (d1 + e1 - (d2 + e2))) (e1 - e2)).
  assert (He' : e' <= e1 - e2) by (unfold e'; lia).
  assert (He'' : e' <= fexp prec emax (d1 + e1 - (d2 + e2))) by (unfold e'; lia).
  set (m' := match e1 - e2 - e' with
             | Zpos _ => Z.shiftl (Zpos m1) (e1 - e2 - e')
             | 0 => Zpos m1
             | Zneg _ => 0
             end).
  assert (Hm' : 0 <= m' < 2 ^ (d1 + (e1 - e2 - e'))).
  { unfold m'. destruct (e1 - e2 - e') as [|k|k] eqn:Ek; try lia.
    - rewrite Z.add_0_r. lia.
    - rewrite Z.shiftl_mul_pow2, Z.pow_add_r by lia.
      assert (0 < 2 ^ Zpos k) by (apply Z.pow_pos_nonneg; lia). nia. }
  destruct (Z.div_eucl m' (Zpos m2)) as [q r] eqn:Eqr.
  assert (Eq : q = m' / Zpos m2) by (unfold Z.div; rewrite Eqr; reflexivity).
  assert (Hq : 0 <= q) by (rewrite Eq; apply Z.div_pos; lia).
  apply binary_round_aux_exp_le; [exact Hq| |exact HB'].
  rewrite fexp_64 in *.
  destruct (Z.eqb_spec q 0) as [Q0|Q0].
  - rewrite Q0. simpl Zdigits2. lia.
  - assert (Hge : Zpos m2 <= m').
    { destruct (Z.leb_spec (Zpos m2) m'); [assumption|].
      rewrite Z.div_small in Eq by lia. lia. }
    assert (Hpos : 0 < d1 + (e1 - e2 - e') - (d2 - 1)).
    { destruct (Z.ltb_spec 0 (d1 + (e1 - e2 - e') - (d2 - 1))); [assumption|].
      assert (2 ^ (d1 + (e1 - e2 - e')) <= 2 ^ (d2 - 1))
        by (apply Z.pow_le_mono_r; lia).
      lia. }
    assert (Dq : Zdigits2 q <= d1 + (e1 - e2 - e') - (d2 - 1)).
    { apply Zdigits2_le; [lia|]. split; [exact Hq|].
      rewrite Eq. apply Z.div_lt_upper_bound; [lia|].
      apply Z.lt_le_trans with (2 ^ (d1 + (e1 - e2 - e'))); [lia|].
      replace (d1 + (e1 - e2 - e')) with ((d2 - 1) + (d1 + (e1 - e2 - e') - (d2 - 1))) at 1 by lia.
      rewrite Z.pow_add_r by lia.
      apply Z.mul_le_mono_nonneg_r; [apply Z.pow_nonneg; lia|exact L2]. }
    lia.
Qed.

End RoundToNearest.

(** ** Rounding does not cross a power of two *)

Section PowersOfTwo.

Local Open Scope Z_scope.

Lemma shr_fexp_div (m e : Z) (l : location) :
  0 <= m ->
  let e' := Z.max e (fexp prec emax (Zdigits2 m + e)) in
  snd (shr_fexp prec emax m e l) = e' /\
  shr_m (fst (shr_fexp prec emax m e l)) = m / 2 ^ (e' - e).
Proof.
  intros Hm. cbn zeta. unfold shr_fexp, shr.
  destruct (fexp prec emax (Zdigits2 m + e) - e) as [|k|k] eqn:Ek; cbn [fst snd].
  - rewrite shr_m_of_loc. split; [lia|].
    replace (Z.max e (fexp prec emax (Zdigits2 m + e)) - e) with 0 by lia.
    rewrite Z.pow_0_r, Z.div_1_r. reflexivity.
  - rewrite shr_iter_div, shr_m_of_loc by (rewrite shr_m_of_loc; lia).
    split; [lia|]. f_equal. f_equal. lia.
  - rewrite shr_m_of_loc. split; [lia|].
    replace (Z.max e (fexp prec emax (Zdigits2 m + e)) - e) with 0 by lia.
    rewrite Z.pow_0_r, Z.div_1_r. reflexivity.
Qed.

Lemma shr_fexp_stage (m e j : Z) (l : location) :
  0 <= m -> m <= 2 ^ (j - e) -> e <= j -> -1074 <= j ->
  snd (shr_fexp prec emax m e l) <= j /\
  0 <= shr_m (fst (shr_fexp prec emax m e l))
    <= 2 ^ (j - snd (shr_fexp prec emax m e l)) /\
  (m < 2 ^ (j - e) ->
   shr_m (fst (shr_fexp prec emax m e l))
     < 2 ^ (j - snd (shr_fexp prec emax m e l))).
Proof.
  intros Hm Hb He Hj.
  destruct (shr_fexp_div m e l Hm) as [-> ->].
  assert (HD : Zdigits2 m + e - 53 <= j).
  { destruct m as [|p|p]; [simpl; lia| |lia]. simpl Zdigits2.
    pose proof (digits2_pos_lower p) as L.
    destruct (Z.leb_spec (Zpos (digits2_pos p) + e - 53) j); [assumption|].
    assert (2 ^ (j - e) < 2 ^ (Zpos (digits2_pos p) - 1))
      by (apply Z.pow_lt_mono_r; lia).
    lia. }
  rewrite fexp_64. set (e' := Z.max e (Z.max (Zdigits2 m + e - 53) (-1074))).
  assert (He' : e <= e' <= j) by (unfold e'; lia).
  assert (Pk : 0 < 2 ^ (e' - e)) by (apply Z.pow_pos_nonneg; lia).
  assert (Es : 2 ^ (j - e) = 2 ^ (e' - e) * 2 ^ (j - e'))
    by (rewrite <- Z.pow_add_r by lia; f_equal; lia).
  split; [lia|]. split; [split|].
  - apply Z.div_pos; lia.
  - apply Z.div_le_upper_bound; lia.
  - intros Hs. apply Z.div_lt_upper_bound; lia.
Qed.

Lemma sf_le_pow2_finish (s : bool) (m2 e2 j : Z) :
  0 <= m2 <= 2 ^ (j - e2) -> e2 <= j -> j <= 971 ->
  sf_le_pow2 j
    match m2 with
    | 0 => S754_zero s
    | Zpos m => if e2 <=? emax - prec then S754_finite s m e2 else S754_infinity s
    | Zneg _ => S754_nan
    end = true.
Proof.
  intros Hm He Hj. destruct m2 as [|p|p]; [reflexivity| |lia].
  replace (e2 <=? emax - prec) with true
    by (symmetry; apply Z.leb_le; change (emax - prec) with 971; lia).
  cbn [sf_le_pow2]. apply andb_true_iff. split; [apply Z.leb_le|apply Z.leb_le]; lia.
Qed.

(** Below [2^j] by at least one unit of the last place: any rounding stays
    at or below [2^j]. *)
Lemma binary_round_aux_lt_pow2 (s : bool) (m e j : Z) (l : location) :
  0 <= m -> m + 1 <= 2 ^ (j - e) -> e <= j -> -1074 <= j <= 971 ->
  sf_le_pow2 j (binary_round_aux prec emax s m e l) = true.
Proof.
  intros Hm Hb He Hj. unfold binary_round_aux.
  destruct (shr_fexp_stage m e j l Hm ltac:(lia) He ltac:(lia)) as (E1 & B1 & S1).
  specialize (S1 ltac:(lia)).
  destruct (shr_fexp prec emax m e l) as [mrs1 e1]. cbn [fst snd] in *.
  pose proof (round_nearest_even_ge (shr_m mrs1) (loc_of_shr_record mrs1)) as G.
  pose proof (round_nearest_even_le (shr_m mrs1) (loc_of_shr_record mrs1)) as G'.
  set (m' := round_nearest_even _ _) in *.
  destruct (shr_fexp_stage m' e1 j loc_Exact ltac:(lia) ltac:(lia) E1 ltac:(lia))
    as (E2 & B2 & _).
  destruct (shr_fexp prec emax m' e1 loc_Exact) as [mrs2 e2]. cbn [fst snd] in *.
  apply sf_le_pow2_finish; lia.
Qed.

(** An exact input at most [2^j] rounds to at most [2^j]. *)
Lemma binary_round_aux_le_pow2 (s : bool) (m e j : Z) :
  0 <= m -> m <= 2 ^ (j - e) -> e <= j -> -1074 <= j <= 971 ->
  sf_le_pow2 j (binary_round_aux prec emax s m e loc_Exact) = true.
Proof.
  intros Hm Hb He Hj.
  destruct (Z.eq_dec m (2 ^ (j - e))) as [E|NE];
    [|apply binary_round_aux_lt_pow2; lia].
  unfold binary_round_aux.
  destruct (shr_fexp_stage m e j loc_Exact Hm Hb He ltac:(lia)) as (E1 & B1 & _).
  assert (R : round_nearest_even (shr_m (fst (shr_fexp prec emax m e loc_Exact)))
                (loc_of_shr_record (fst (shr_fexp prec emax m e loc_Exact)))
              = shr_m (fst (shr_fexp prec emax m e loc_Exact))).
  { unfold shr_fexp, shr.
    destruct (fexp prec emax (Zdigits2 m + e) - e) as [|k|k] eqn:Ek;
      cbn [fst shr_record_of_loc]; try reflexivity.
    rewrite shr_pos_spec by assumption. cbn [shr_m loc_of_shr_record].
    assert (Hk : Zpos k <= j - e).
    { destruct (shr_fexp_div m e loc_Exact Hm) as [Ee _]. cbn zeta in Ee. lia. }
    assert (Ev : Z.odd (m / 2 ^ (Zpos k - 1)) = false).
    { rewrite E, <- Z.pow_sub_r by lia.
      replace (j - e - (Zpos k - 1)) with (Z.succ (j - e - Zpos k)) by lia.
      rewrite Z.pow_succ_r by lia. apply Z.odd_even. }
    assert (Md : m mod 2 ^ (Zpos k - 1) = 0).
    { rewrite E. replace (j - e) with ((j - e - (Zpos k - 1)) + (Zpos k - 1)) by lia.
      rewrite Z.pow_add_r by lia. apply Z.mod_mul. apply Z.pow_nonzero; lia. }
    rewrite Ev, Md. reflexivity. }
  destruct (shr_fexp prec emax m e loc_Exact) as [mrs1 e1]. cbn [fst snd] in *.
  rewrite R.
  destruct (shr_fexp_stage (shr_m mrs1) e1 j loc_Exact ltac:(lia) ltac:(lia) E1 ltac:(lia))
    as (E2 & B2 & _).
  destruct (shr_fexp prec emax (shr_m mrs1) e1 loc_Exact) as [mrs2 e2].
  cbn [fst snd] in *.
  apply sf_le_pow2_finish; lia.
Qed.

(** ** Magnitudes of canonical numbers, and their comparison *)

Lemma bounded_range (m : positive) (e : Z) :
  bounded prec emax m e = true ->
  Zpos m < 2 ^ 53 /\ -1074 <= e <= 971 /\ (-1074 < e -> 2 ^ 52 <= Zpos m).
Proof.
  unfold bounded, canonical_mantissa.
  rewrite andb_true_iff, Z.eqb_eq, Z.leb_le, fexp_64.
  intros [C B]. change (emax - prec) with 971 in B.
  pose proof (digits2_pos_lower m) as L. pose proof (digits2_pos_upper m) as U.
  set (d := Zpos (digits2_pos m)) in *.
  assert (Hd : d <= 53) by lia.
  split; [|split; [lia|]].
  - apply Z.lt_le_trans with (2 ^ d); [assumption|]. apply Z.pow_le_mono_r; lia.
  - intros He. assert (d = 53) by lia. subst d.
    replace 52 with (Zpos (digits2_pos m) - 1) by lia. exact L.
Qed.

Lemma pow2_split (a b : Z) : 0 <= a -> 0 <= b -> 2 ^ (a + b) = 2 ^ a * 2 ^ b.
Proof. intros. apply Z.pow_add_r; assumption. Qed.

(** [x <= y] on canonical positive numbers, read on mantissas brought to
    the smaller exponent. *)
Lemma SFleb_value (m1 m2 : positive) (e1 e2 : Z) :
  bounded prec emax m1 e1 = true -> bounded prec emax m2 e2 = true ->
  SFleb (S754_finite false m1 e1) (S754_finite false m2 e2) = true ->
  Zpos m1 * 2 ^ (e1 - Z.min e1 e2) <= Zpos m2 * 2 ^ (e2 - Z.min e1 e2).
Proof.
  intros V1 V2. destruct (bounded_range m1 e1 V1) as (U1 & R1 & _).
  destruct (bounded_range m2 e2 V2) as (_ & R2 & N2).
  unfold SFleb, SFcompare.
  destruct (Z.compare_spec e1 e2) as [E|E|E]; intros H.
  - subst e2. rewrite Z.min_id, Z.sub_diag, Z.pow_0_r, !Z.mul_1_r.
    change (PosDef.Pos.compare_cont Eq m1 m2) with (Pos.compare m1 m2) in H.
    destruct (Pos.compare_spec m1 m2); try discriminate; lia.
  - rewrite Z.min_l, Z.sub_diag, Z.pow_0_r, Z.mul_1_r by lia.
    specialize (N2 ltac:(lia)).
    assert (2 <= 2 ^ (e2 - e1)).
    { change 2 with (2 ^ 1) at 1. apply Z.pow_le_mono_r; lia. }
    change (2 ^ 53) with (2 ^ 52 * 2) in U1. nia.
  - discriminate.
Qed.

Lemma SFltb_value (m1 m2 : positive) (e1 e2 : Z) :
  bounded prec emax m1 e1 = true -> bounded prec emax m2 e2 = true ->
  SFltb (S754_finite false m1 e1) (S754_finite false m2 e2) = true ->
  Zpos m1 * 2 ^ (e1 - Z.min e1 e2) < Zpos m2 * 2 ^ (e2 - Z.min e1 e2).
Proof.
  intros V1 V2. destruct (bounded_range m1 e1 V1) as (U1 & R1 & _).
  destruct (bounded_range m2 e2 V2) as (_ & R2 & N2).
  unfold SFltb, SFcompare.
  destruct (Z.compare_spec e1 e2) as [E|E|E]; intros H.
  - subst e2. rewrite Z.min_id, Z.sub_diag, Z.pow_0_r, !Z.mul_1_r.
    change (PosDef.Pos.compare_cont Eq m1 m2) with (Pos.compare m1 m2) in H.
    destruct (Pos.compare_spec m1 m2); try discriminate; lia.
  - rewrite Z.min_l, Z.sub_diag, Z.pow_0_r, Z.mul_1_r by lia.
    specialize (N2 ltac:(lia)).
    assert (2 <= 2 ^ (e2 - e1)).
    { change 2 with (2 ^ 1) at 1. apply Z.pow_le_mono_r; lia. }
    change (2 ^ 53) with (2 ^ 52 * 2) in U1. nia.
  - discriminate.
Qed.

(** ** A quotient of [x] by [y >= x] is at most one *)

Lemma new_location_exact (n r : Z) : r <> 0 -> new_location n r <> loc_Exact.
Proof.
  intros H. unfold new_location, new_location_even, new_location_odd.
  destruct (Z.even n); destruct (Z.eqb_spec r 0); try contradiction; discriminate.
Qed.

Lemma new_location_zero (n : Z) : new_location n 0 = loc_Exact.
Proof.
  unfold new_location, new_location_even, new_location_odd.
  destruct (Z.even n); reflexivity.
Qed.

Lemma SFdiv_le_one (m1 m2 : positive) (e1 e2 : Z) :
  bounded prec emax m1 e1 = true -> bounded prec emax m2 e2 = true ->
  SFleb (S754_finite false m1 e1) (S754_finite false m2 e2) = true ->
  sf_le_pow2 0 (SFdiv prec emax (S754_finite false m1 e1) (S754_finite false m2 e2)) = true.
Proof.
  intros V1 V2 Hle. pose proof (SFleb_value m1 m2 e1 e2 V1 V2 Hle) as Hv.
  cbn [SFdiv]. unfold SFdiv_core_binary, Zdigits2.
  pose proof (digits2_pos_lower m1) as L1. pose proof (digits2_pos_upper m2) as U2.
  set (d1 := Zpos (digits2_pos m1)) in *. set (d2 := Zpos (digits2_pos m2)) in *.
  assert (Pd1 : 0 < d1) by (unfold d1; lia).
  assert (Pd2 : 0 < d2) by (unfold d2; lia).
  assert (HD : d1 + e1 <= d2 + e2).
  { destruct (Z.leb_spec (d1 + e1) (d2 + e2)); [assumption|]. exfalso.
    set (c := Z.min e1 e2) in *.
    assert (A : 2 ^ (d1 - 1 + (e1 - c)) <= Zpos m1 * 2 ^ (e1 - c)).
    { rewrite pow2_split by lia.
      apply Z.mul_le_mono_nonneg_r; [apply Z.pow_nonneg; lia|exact L1]. }
    assert (B : Zpos m2 * 2 ^ (e2 - c) < 2 ^ (d2 + (e2 - c))).
    { rewrite pow2_split by lia.
      apply Z.mul_lt_mono_pos_r; [apply Z.pow_pos_nonneg; lia|exact U2]. }
    assert (2 ^ (d2 + (e2 - c)) <= 2 ^ (d1 - 1 + (e1 - c)))
      by (apply Z.pow_le_mono_r; lia).
    lia. }
  rewrite fexp_64.
  set (e' := Z.min (Z.max (d1 + e1 - (d2 + e2) - 53) (-1074)) (e1 - e2)).
  assert (He' : e' <= e1 - e2 /\ e' <= -53) by (unfold e'; lia).
  set (m' := match e1 - e2 - e' with
             | Zpos _ => Z.shiftl (Zpos m1) (e1 - e2 - e')
             | 0 => Zpos m1
             | Zneg _ => 0
             end).
  assert (Em' : m' = Zpos m1 * 2 ^ (e1 - e2 - e')).
  { unfold m'. destruct (e1 - e2 - e') as [|k|k] eqn:Ek; try lia.
    apply Z.shiftl_mul_pow2. lia. }
  assert (Hm' : m' <= Zpos m2 * 2 ^ (- e')).
  { rewrite Em'. destruct (Z.leb_spec e2 e1) as [C|C].
    - rewrite Z.min_r, Z.sub_diag, Z.pow_0_r, Z.mul_1_r in Hv by lia.
      replace (e1 - e2 - e') with ((e1 - e2) + (- e')) by lia.
      rewrite pow2_split by lia.
      assert (0 <= 2 ^ (- e')) by (apply Z.pow_nonneg; lia). nia.
    - rewrite Z.min_l, Z.sub_diag, Z.pow_0_r, Z.mul_1_r in Hv by lia.
      replace (- e') with ((e2 - e1) + (e1 - e2 - e')) by lia.
      rewrite pow2_split by lia.
      assert (0 <= 2 ^ (e1 - e2 - e')) by (apply Z.pow_nonneg; lia). nia. }
  assert (Hm0 : 0 <= m').
  { rewrite Em'. apply Z.mul_nonneg_nonneg; [lia|apply Z.pow_nonneg; lia]. }
  pose proof (Z.div_eucl_eq m' (Zpos m2) ltac:(lia)) as Ed.
  pose proof (Z.mod_pos_bound m' (Zpos m2) ltac:(lia)) as Bd.
  unfold Z.modulo in Bd.
  destruct (Z.div_eucl m' (Zpos m2)) as [q r].
  assert (Hq : 0 <= q) by nia.
  assert (P : 0 < 2 ^ (- e')) by (apply Z.pow_pos_nonneg; lia).
  assert (Hq' : q <= 2 ^ (- e')) by nia.
  destruct (Z.eq_dec r 0) as [R0|R0].
  - subst r. rewrite new_location_zero.
    apply binary_round_aux_le_pow2; rewrite ?Z.sub_0_l; lia.
  - apply binary_round_aux_lt_pow2; rewrite ?Z.sub_0_l; try lia.
    assert (q < 2 ^ (- e')) by nia. lia.
Qed.

(** ** Products and sums below a power of two *)

Lemma sf_le_pow2_mono (i j : Z) (x : spec_float) :
  i <= j -> sf_le_pow2 i x = true -> sf_le_pow2 j x = true.
Proof.
  intros Hij. destruct x as [s|s| |s m e]; cbn [sf_le_pow2]; auto.
  rewrite !andb_true_iff, !Z.leb_le. intros [He Hm]. split; [lia|].
  apply Z.le_trans with (2 ^ (i - e)); [assumption|]. apply Z.pow_le_mono_r; lia.
Qed.

Lemma sf_le_pow2_num (j : Z) (x : spec_float) :
  sf_le_pow2 j x = true -> sf_num x = true.
Proof. destruct x; cbn; auto. Qed.

Lemma SFmul_le_pow2 (x y : spec_float) (j1 j2 : Z) :
  sf_le_pow2 j1 x = true -> sf_le_pow2 j2 y = true ->
  -1074 <= j1 + j2 <= 971 ->
  sf_le_pow2 (j1 + j2) (SFmul prec emax x y) = true.
Proof.
  intros Hx Hy Hj.
  destruct x as [s1|s1| |s1 m1 e1]; try discriminate;
    destruct y as [s2|s2| |s2 m2 e2]; try discriminate; try reflexivity.
  cbn [sf_le_pow2] in Hx, Hy. rewrite andb_true_iff, !Z.leb_le in Hx, Hy.
  destruct Hx as [E1 M1], Hy as [E2 M2]. cbn [SFmul].
  apply binary_round_aux_le_pow2; try lia.
  rewrite Pos2Z.inj_mul.
  replace (j1 + j2 - (e1 + e2)) with ((j1 - e1) + (j2 - e2)) by lia.
  rewrite pow2_split by lia. nia.
Qed.

Lemma pos_iter_xO (m d : positive) : Zpos (Pos.iter xO m d) = Zpos m * 2 ^ Zpos d.
Proof.
  induction d as [|d IH] using Pos.peano_ind.
  - simpl. lia.
  - rewrite Pos.iter_succ, Pos2Z.inj_xO, IH, Pos2Z.inj_succ, Z.pow_succ_r by lia. lia.
Qed.

Lemma shl_align_value (m : positive) (e ez : Z) :
  ez <= e -> Zpos (fst (shl_align m e ez)) = Zpos m * 2 ^ (e - ez).
Proof.
  intros H. unfold shl_align.
  destruct (ez - e) as [|d|d] eqn:Ed; cbn [fst]; try lia.
  - replace (e - ez) with 0 by lia. lia.
  - rewrite pos_iter_xO. f_equal. f_equal. lia.
Qed.

Lemma binary_round_le_pow2 (s : bool) (p : positive) (e j : Z) :
  Zpos p <= 2 ^ (j - e) -> e <= j -> -1074 <= j <= 971 ->
  sf_le_pow2 j (binary_round prec emax s p e) = true.
Proof.
  intros Hp He Hj. unfold binary_round, shl_align.
  destruct (fexp prec emax (Zpos (digits2_pos p) + e) - e) as [|d|d] eqn:Ed.
  - apply binary_round_aux_le_pow2; lia.
  - apply binary_round_aux_le_pow2; lia.
  - apply binary_round_aux_le_pow2; try lia.
    rewrite pos_iter_xO.
    replace (j - fexp prec emax (Zpos (digits2_pos p) + e)) with ((j - e) + Zpos d) by lia.
    rewrite pow2_split by lia.
    apply Z.mul_le_mono_nonneg_r; [apply Z.pow_nonneg; lia|exact Hp].
Qed.

(** A sum that exceeds [2^j] by at most a quarter of a unit of the last
    place is rounded down to [2^j]. *)
Lemma binary_round_above_pow2 (s : bool) (p : positive) (e j : Z) :
  2 ^ (j - e) < Zpos p <= 2 ^ (j - e) + 2 ^ (j - 54 - e) ->
  e <= j - 54 -> -1022 <= j <= 971 ->
  sf_le_pow2 j (binary_round prec emax s p e) = true.
Proof.
  intros [Lp Up] He Hj.
  assert (P1 : 0 < 2 ^ (j - 54 - e)) by (apply Z.pow_pos_nonneg; lia).
  assert (E4 : 2 ^ (j - e) = 2 ^ 54 * 2 ^ (j - 54 - e))
    by (rewrite <- pow2_split by lia; f_equal; lia).
  assert (D : Zpos (digits2_pos p) = j - e + 1).
  { apply digits2_pos_unique. replace (j - e + 1 - 1) with (j - e) by lia.
    rewrite (pow2_split (j - e) 1), Z.pow_1_r by lia.
    change (2 ^ 54) with 18014398509481984 in E4. lia. }
  unfold binary_round, shl_align. rewrite D, fexp_64.
  replace (Z.max (j - e + 1 + e - 53) (-1074) - e) with (Zpos (Z.to_pos (j - 52 - e)))
    by (rewrite Z2Pos.id; lia).
  unfold binary_round_aux, shr_fexp, Zdigits2. rewrite D, fexp_64.
  replace (Z.max (j - e + 1 + e - 53) (-1074) - e) with (Zpos (Z.to_pos (j - 52 - e)))
    by (rewrite Z2Pos.id; lia).
  set (k := Z.to_pos (j - 52 - e)).
  assert (Hk : Zpos k = j - 52 - e) by (unfold k; rewrite Z2Pos.id; lia).
  cbn [shr shr_record_of_loc]. rewrite shr_pos_spec by lia.
  cbn [shr_m].
  assert (E2 : 2 ^ (j - 54 - e) * 4 = 2 ^ Zpos k).
  { rewrite Hk. change 4 with (2 ^ 2). rewrite <- pow2_split by lia. f_equal. lia. }
  assert (E3 : 2 ^ (j - 54 - e) * 2 = 2 ^ (Zpos k - 1)).
  { rewrite Hk. change 2 with (2 ^ 1) at 2. rewrite <- pow2_split by lia. f_equal. lia. }
  change (2 ^ 54) with 18014398509481984 in E4.
  assert (Q : Zpos p / 2 ^ Zpos k = 4503599627370496).
  { symmetry. apply Z.div_unique with (Zpos p - 4503599627370496 * 2 ^ Zpos k); lia. }
  assert (Q' : Zpos p / 2 ^ (Zpos k - 1) = 9007199254740992).
  { symmetry. apply Z.div_unique with (Zpos p - 9007199254740992 * 2 ^ (Zpos k - 1)); lia. }
  rewrite Q, Q'. change (Z.odd 9007199254740992) with false.
  assert (R : forall c : bool,
             round_nearest_even 4503599627370496
               (loc_of_shr_record (Build_shr_record 4503599627370496 false c))
             = 4503599627370496) by (intros [|]; reflexivity).
  rewrite R. cbn [shr_record_of_loc].
  change (Zpos (digits2_pos 4503599627370496)) with 53. rewrite fexp_64.
  replace (Z.max (53 + (e + Zpos k) - 53) (-1074) - (e + Zpos k)) with 0 by lia.
  cbn [shr shr_m].
  replace (e + Zpos k <=? emax - prec) with true
    by (symmetry; apply Z.leb_le; change (emax - prec) with 971; lia).
  cbn [sf_le_pow2]. apply andb_true_iff. split; apply Z.leb_le; [lia|].
  replace (j - (e + Zpos k)) with 52 by lia. reflexivity.
Qed.

Lemma SFadd_le_pow2 (x y : spec_float) (j : Z) :
  sf_pos x = true -> sf_pos y = true ->
  sf_le_pow2 j x = true -> sf_le_pow2 (j - 54) y = true ->
  -1022 <= j <= 971 ->
  sf_le_pow2 j (SFadd prec emax x y) = true /\
  sf_le_pow2 j (SFadd prec emax y x) = true.
Proof.
  intros Px Py Hx Hy Hj.
  pose proof (sf_le_pow2_mono (j - 54) j y ltac:(lia) Hy) as Hy'.
  destruct x as [[|]|[|]| |[|] m1 e1]; try discriminate;
    destruct y as [[|]|[|]| |[|] m2 e2]; try discriminate;
    try (split; assumption); try (split; reflexivity).
  cbn [sf_le_pow2] in Hx, Hy. rewrite andb_true_iff, !Z.leb_le in Hx, Hy.
  destruct Hx as [E1 M1], Hy as [E2 M2]. cbn [SFadd cond_Zopp binary_normalize].
  rewrite (Z.min_comm e2 e1). set (ez := Z.min e1 e2).
  assert (V1 := shl_align_value m1 e1 ez ltac:(unfold ez; lia)).
  assert (V2 := shl_align_value m2 e2 ez ltac:(unfold ez; lia)).
  set (a := fst (shl_align m1 e1 ez)) in *. set (b := fst (shl_align m2 e2 ez)) in *.
  assert (A : Zpos a <= 2 ^ (j - ez)).
  { rewrite V1. replace (j - ez) with ((j - e1) + (e1 - ez)) by (unfold ez; lia).
    rewrite pow2_split by (unfold ez; lia).
    apply Z.mul_le_mono_nonneg_r; [apply Z.pow_nonneg; unfold ez; lia|exact M1]. }
  assert (B : Zpos b <= 2 ^ (j - 54 - ez)).
  { rewrite V2. replace (j - 54 - ez) with ((j - 54 - e2) + (e2 - ez)) by (unfold ez; lia).
    rewrite pow2_split by (unfold ez; lia).
    apply Z.mul_le_mono_nonneg_r; [apply Z.pow_nonneg; unfold ez; lia|exact M2]. }
  assert (Hez : ez <= j - 54) by (unfold ez; lia).
  change (Zpos a + Zpos b) with (Zpos (a + b)).
  change (Zpos b + Zpos a) with (Zpos (b + a)).
  rewrite (Pos.add_comm b a).
  assert (R : sf_le_pow2 j (binary_round prec emax false (a + b) ez) = true).
  { destruct (Z.leb_spec (Zpos (a + b)) (2 ^ (j - ez))) as [C|C].
    - apply binary_round_le_pow2; lia.
    - apply binary_round_above_pow2; lia. }
  split; exact R.
Qed.

End PowersOfTwo.

(** ** The classes are closed under the operations the program uses *)

Create Rewrite HintDb to_spec.
#[local] Hint Rewrite mul_spec add_spec div_spec sqrt_spec abs_spec
  eqb_spec ltb_spec leb_spec : to_spec.

Ltac to_spec :=
  unfold fposnan, fsposnan, fpos, fspos, fnan, fnum in *;
  autorewrite with to_spec in *;
  unfold SF64mul, SF64add, SF64div, SF64sqrt in *.

Ltac sf_cases x :=
  let v := fresh "V" in
  pose proof (Prim2SF_valid x) as v;
  destruct (Prim2SF x) as [[|]|[|]| |[|] ? ?].

Ltac sf_trivial := simpl in *; try discriminate; try reflexivity.

Lemma fposnan_mul (a b : float) :
  fposnan a = true -> fposnan b = true -> fposnan (a * b) = true.
Proof.
  to_spec. sf_cases a; sf_cases b; sf_trivial; intros _ _.
  apply sf_sign_posnan, binary_round_aux_sign_or_nan.
Qed.

Lemma fpos_sqr (a : float) : fpos a = true -> fpos (a * a) = true.
Proof.
  to_spec. sf_cases a; sf_trivial; intros _.
  apply sf_sign_pos, binary_round_aux_sign. lia.
Qed.

Lemma fpos_add (a b : float) :
  fpos a = true -> fpos b = true -> fpos (a + b) = true.
Proof.
  to_spec. sf_cases a; sf_cases b; sf_trivial; intros _ _.
  apply sf_sign_pos, binary_round_sign.
Qed.

Lemma fposnan_add (a b : float) :
  fposnan a = true -> fposnan b = true -> fposnan (a + b) = true.
Proof.
  intros Ha Hb. unfold fposnan in *.
  destruct (fnan a) eqn:Na.
  - to_spec. sf_cases a; sf_trivial.
  - destruct (fnan b) eqn:Nb.
    + to_spec. sf_cases a; sf_cases b; sf_trivial.
    + rewrite orb_false_r in Ha, Hb. rewrite fpos_add by assumption. reflexivity.
Qed.

Lemma fposnan_div (a b : float) :
  fposnan a = true -> fposnan b = true -> fposnan (a / b) = true.
Proof.
  to_spec. sf_cases a; sf_cases b; sf_trivial; intros _ _.
  unfold SFdiv. destruct (SFdiv_core_binary _ _ _ _ _ _) as [[mz ez] lz].
  apply sf_sign_posnan, binary_round_aux_sign_or_nan.
Qed.

Lemma fposnan_sqrt (a : float) : fposnan a = true -> fposnan (sqrt a) = true.
Proof.
  to_spec. sf_cases a; sf_trivial; intros _.
  unfold SFsqrt. destruct (SFsqrt_core_binary _ _ _ _) as [[mz ez] lz].
  apply sf_sign_posnan, binary_round_aux_sign_or_nan.
Qed.

(** ** Comparisons *)

Lemma Prim2SF_zero : Prim2SF zero = S754_zero false.
Proof. reflexivity. Qed.

Lemma Prim2SF_one : Prim2SF one = S754_finite false 4503599627370496 (-52).
Proof. vm_compute. reflexivity. Qed.

Lemma Prim2SF_rdwarf : Prim2SF rdwarf = S754_finite false 6370325169799209 (-117).
Proof. vm_compute. reflexivity. Qed.

#[local] Hint Rewrite Prim2SF_zero Prim2SF_one Prim2SF_rdwarf : to_spec.

Lemma compare_cont_swap (m m' : positive) :
  PosDef.Pos.compare_cont Eq m' m = CompOpp (PosDef.Pos.compare_cont Eq m m').
Proof. symmetry. apply (Pos.compare_cont_antisym m m' Eq). Qed.

Lemma SFcompare_antisym (x y : spec_float) :
  SFcompare y x = option_map CompOpp (SFcompare x y).
Proof.
  destruct x as [[|]|[|]| |[|] m e], y as [[|]|[|]| |[|] m' e'];
    simpl; try reflexivity;
    rewrite (Z.compare_antisym e e'), (compare_cont_swap m m');
    destruct (e ?= e')%Z; simpl; rewrite ?CompOpp_involutive; reflexivity.
Qed.

Lemma SFcompare_refl (x : spec_float) :
  sf_nan x = false -> SFcompare x x = Some Eq.
Proof.
  destruct x as [[|]|[|]| |[|] m e]; simpl; try reflexivity; try discriminate;
    intros _; rewrite Z.compare_refl, Pos.compare_cont_refl; reflexivity.
Qed.

Lemma SFleb_total (x y : spec_float) :
  sf_nan x = false -> sf_nan y = false -> SFleb y x = false -> SFltb x y = true.
Proof.
  unfold SFleb, SFltb. rewrite (SFcompare_antisym x y).
  destruct x as [[|]|[|]| |[|] m e], y as [[|]|[|]| |[|] m' e'];
    simpl; try discriminate; try reflexivity; intros _ _;
    destruct (e ?= e')%Z; simpl; try discriminate; try reflexivity;
    destruct (Pos.compare_cont Eq m m'); simpl; try discriminate; reflexivity.
Qed.

Lemma SFltb_leb (x y : spec_float) : SFltb x y = true -> SFleb x y = true.
Proof. unfold SFltb, SFleb. destruct (SFcompare x y) as [[| |]|]; auto. Qed.

Lemma leb_ltb_excl (a b : float) : (b <=? a) = true -> (a <? b) = false.
Proof.
  rewrite leb_spec, ltb_spec. unfold SFleb, SFltb.
  rewrite (SFcompare_antisym (Prim2SF a) (Prim2SF b)).
  destruct (SFcompare (Prim2SF a) (Prim2SF b)) as [[| |]|]; simpl; auto; discriminate.
Qed.

Lemma fnan_of_pos (a : float) : fpos a = true -> fnan a = false.
Proof. to_spec. sf_cases a; sf_trivial. Qed.

Lemma fpos_of_spos (a : float) : fspos a = true -> fpos a = true.
Proof. to_spec. sf_cases a; sf_trivial. Qed.

Lemma fposnan_of_pos (a : float) : fpos a = true -> fposnan a = true.
Proof. unfold fposnan. intros ->. reflexivity. Qed.

Lemma fsposnan_of_spos (a : float) : fspos a = true -> fsposnan a = true.
Proof. unfold fsposnan. intros ->. reflexivity. Qed.

Lemma fposnan_of_sposnan (a : float) : fsposnan a = true -> fposnan a = true.
Proof. to_spec. sf_cases a; sf_trivial. Qed.

Lemma fpos_zero : fpos zero = true.
Proof. reflexivity. Qed.

Lemma fposnan_one : fposnan one = true.
Proof. vm_compute. reflexivity. Qed.

Lemma leb_refl_pos (a : float) : fpos a = true -> (a <=? a) = true.
Proof.
  intros H. rewrite leb_spec. unfold SFleb.
  rewrite SFcompare_refl; [reflexivity|]. apply fnan_of_pos, H.
Qed.

Lemma ltb_of_not_leb (a b : float) :
  fpos a = true -> fpos b = true -> (b <=? a) = false -> (a <? b) = true.
Proof.
  intros Ha Hb. rewrite leb_spec, ltb_spec.
  apply SFleb_total; [apply fnan_of_pos, Ha|apply fnan_of_pos, Hb].
Qed.

Lemma leb_of_ltb (a b : float) : (a <? b) = true -> (a <=? b) = true.
Proof. rewrite leb_spec, ltb_spec. apply SFltb_leb. Qed.

Lemma leb_zero_pos (a : float) : fpos a = true -> (zero <=? a) = true.
Proof. to_spec. sf_cases a; sf_trivial. Qed.

Lemma ltb_zero_spos (a : float) : (zero <? a) = fspos a.
Proof. to_spec. sf_cases a; sf_trivial. Qed.

Lemma is_nan_fnan (a : float) : is_nan a = fnan a.
Proof.
  unfold is_nan. to_spec. unfold SFeqb.
  destruct (sf_nan (Prim2SF a)) eqn:N.
  - destruct (Prim2SF a); try discriminate. reflexivity.
  - rewrite SFcompare_refl by assumption. reflexivity.
Qed.

Lemma eqb_zero (a : float) : (a =? zero) = sf_zero (Prim2SF a).
Proof. to_spec. sf_cases a; sf_trivial. Qed.

Lemma fposnan_abs (x : float) : fposnan (abs x) = true.
Proof. to_spec. sf_cases x; sf_trivial. Qed.

Lemma fnan_abs (x : float) : fnan (abs x) = fnan x.
Proof. to_spec. sf_cases x; sf_trivial. Qed.

(** What the tests of the loop body tell about [xabs]. *)

Lemma large_sposnan (a : float) :
  fposnan a = true -> (a <=? rdwarf) = false -> fsposnan a = true.
Proof. to_spec. sf_cases a; sf_trivial. Qed.

Lemma leb_spos (a b : float) :
  fspos a = true -> (a <=? b) = true -> fspos b = true.
Proof. to_spec. sf_cases a; sf_cases b; sf_trivial. Qed.

Lemma leb_not_nan (a b : float) :
  (a <=? b) = true -> fnan a = false /\ fnan b = false.
Proof. to_spec. sf_cases a; sf_cases b; sf_trivial; auto. Qed.

Lemma ltb_not_nan (a b : float) :
  (a <? b) = true -> fnan a = false /\ fnan b = false.
Proof. to_spec. sf_cases a; sf_cases b; sf_trivial; auto. Qed.

Lemma small_new_spos (a b : float) :
  fposnan a = true -> fpos b = true ->
  (a <=? rdwarf) = true -> (a <=? b) = false ->
  fspos a = true /\ fnum a = true.
Proof. to_spec. sf_cases a; sf_cases b; sf_trivial; auto. Qed.

Lemma nonzero_spos (a : float) :
  fpos a = true -> (a =? zero) = false -> fspos a = true.
Proof. to_spec. sf_cases a; sf_trivial. Qed.

Lemma ltb_spos (a b : float) :
  fpos a = true -> (a <? b) = true -> fspos b = true.
Proof. to_spec. sf_cases a; sf_cases b; sf_trivial. Qed.

Lemma intermediate_spos (a g : float) :
  fposnan a = true -> (rdwarf <? a) = true -> (a <? g) = true ->
  fspos a = true /\ fnum a = true.
Proof. to_spec. sf_cases a; sf_cases g; sf_trivial; auto. Qed.

Lemma sposnan_nonzero (a : float) : fsposnan a = true -> (a =? zero) = false.
Proof. to_spec. sf_cases a; sf_trivial. Qed.

Lemma fposnan_cases (a : float) :
  fposnan a = true -> (zero <=? a) = true \/ is_nan a = true.
Proof.
  rewrite is_nan_fnan. unfold fposnan. intros H.
  apply orb_true_iff in H as [H|H]; auto using leb_zero_pos.
Qed.

(** ** Exact operations: the unit, and quotients and sums with zero *)

Lemma nan_unique (a : float) : fnan a = true -> a = nan.
Proof.
  unfold fnan. intros H. apply Prim2SF_inj.
  destruct (Prim2SF a); try discriminate. reflexivity.
Qed.

Lemma mul_one_r (a : float) : a * one = a.
Proof.
  apply Prim2SF_inj. rewrite mul_spec, Prim2SF_one. unfold SF64mul.
  pose proof (Prim2SF_valid a) as V.
  destruct (Prim2SF a) as [s|s| |s m e]; cbn [SFmul];
    rewrite ?xorb_false_r; try reflexivity.
  unfold SpecFloat.valid_binary, bounded in V.
  apply andb_true_iff in V as [C B].
  unfold binary_round_aux. rewrite Pos.mul_comm.
  rewrite (shr_fexp_scaled m e C).
  cbn [shr_m loc_of_shr_record round_nearest_even].
  rewrite (shr_fexp_canonical m e C).
  cbn [shr_m]. rewrite B. reflexivity.
Qed.

Lemma div_zero_spos (a : float) : fspos a = true -> zero / a = zero.
Proof.
  intros H. apply Prim2SF_inj. revert H. to_spec.
  sf_cases a; sf_trivial.
Qed.

Lemma add_zero_l (a : float) : fpos a = true -> zero + a = a.
Proof.
  intros H. apply Prim2SF_inj. revert H. to_spec.
  sf_cases a; sf_trivial.
Qed.

(** The square of an intermediate component is not zero. *)
Lemma sqr_spos (a : float) :
  fpos a = true -> (rdwarf <? a) = true -> fspos (a * a) = true.
Proof.
  to_spec. sf_cases a; sf_trivial; intros _.
  unfold SFltb, SFcompare. intros H.
  assert (E : (-117 <= e)%Z).
  { destruct (Z.compare_spec (-117) e) as [E|E|E]; try lia; discriminate. }
  apply sf_spos_of_sign_nonzero;
    [apply binary_round_aux_sign; lia|apply binary_round_aux_nonzero; lia].
Qed.

Lemma Prim2SF_rgiant : Prim2SF rgiant = S754_finite false 6367187500000000 11.
Proof. vm_compute. reflexivity. Qed.

Lemma float_of_integer_spos (n : Z) :
  (1 <= n < 2 ^ 63)%Z -> fspos (float_of_integer n) = true.
Proof.
  intros Hn. unfold float_of_integer.
  destruct (n <? 0)%Z eqn:E; [lia|].
  unfold fspos. rewrite of_uint63_spec.
  change (Uint63Axioms.to_Z (of_Z n)) with (Uint63.to_Z (of_Z n)).
  rewrite Uint63.of_Z_spec, Z.mod_small by (change wB with (2 ^ 63)%Z; lia).
  destruct n as [|p|p]; try lia. simpl binary_normalize.
  apply sf_spos_of_sign_nonzero.
  - apply binary_round_sign.
  - apply binary_round_nonzero. lia.
Qed.

Lemma float_of_integer_mag (n : Z) (s : bool) (m : positive) (e : Z) :
  (1 <= n < 2 ^ 63)%Z ->
  Prim2SF (float_of_integer n) = S754_finite s m e ->
  (1 <= Zpos (digits2_pos m) + e)%Z.
Proof.
  intros Hn. unfold float_of_integer.
  destruct (n <? 0)%Z eqn:E; [lia|].
  rewrite of_uint63_spec.
  change (Uint63Axioms.to_Z (of_Z n)) with (Uint63.to_Z (of_Z n)).
  rewrite Uint63.of_Z_spec, Z.mod_small by (change wB with (2 ^ 63)%Z; lia).
  destruct n as [|p|p]; try lia. simpl binary_normalize.
  intros H. apply binary_round_mag in H; lia.
Qed.

Lemma agiant_exp_le (n : Z) :
  (1 <= n < 2 ^ 63)%Z ->
  sf_exp_le 12 (Prim2SF (rgiant / float_of_integer n)) = true.
Proof.
  intros Hn. pose proof (float_of_integer_spos n Hn) as P.
  pose proof (float_of_integer_mag n) as M.
  rewrite div_spec, Prim2SF_rgiant. unfold SF64div, fspos in *.
  destruct (Prim2SF (float_of_integer n)) as [[|]|[|]| |[|] mn en];
    try discriminate; [reflexivity|].
  specialize (M false mn en Hn eq_refl).
  apply SFdiv_exp_le; [|lia]. rewrite fexp_64.
  change (Zpos (digits2_pos 6367187500000000)) with 53%Z. lia.
Qed.

Lemma canonical_normal (m : positive) (e : Z) :
  bounded prec emax m e = true -> (-1074 < e)%Z ->
  (2 ^ 52 <= Zpos m < 2 ^ 53)%Z /\ (e <= 971)%Z.
Proof.
  unfold bounded, canonical_mantissa. rewrite andb_true_iff, Z.eqb_eq, Z.leb_le, fexp_64.
  intros [C B] He. change (emax - prec)%Z with 971%Z in B. split; [|exact B].
  assert (D : Zpos (digits2_pos m) = 53%Z) by lia.
  pose proof (digits2_pos_lower m) as L. pose proof (digits2_pos_upper m) as U.
  rewrite D in L, U. exact (conj L U).
Qed.

(** In the intermediate bucket the root of the rounded square is the
    number itself. *)
Lemma sqrt_sqr_intermediate (a g : float) :
  fpos a = true -> (rdwarf <? a) = true -> (a <? g) = true ->
  sf_exp_le 12 (Prim2SF g) = true ->
  sqrt (a * a) = a.
Proof.
  intros Pa Ta Tg Hg. apply Prim2SF_inj. rewrite sqrt_spec, mul_spec.
  revert Pa Ta Tg. to_spec. pose proof (Prim2SF_valid a) as V.
  unfold SFltb, SFcompare.
  destruct (Prim2SF a) as [[|]|[|]| |[|] m e]; cbn [sf_pos];
    intros Pa Ta Tg; try discriminate.
  - destruct (Prim2SF g) as [[|]|[|]| |[|] mg eg]; discriminate.
  - assert (E1 : (-117 <= e)%Z).
    { destruct (Z.compare_spec (-117) e) as [E|E|E]; try lia; discriminate. }
    assert (E2 : (e <= 12)%Z).
    { destruct (Prim2SF g) as [[|]|[|]| |[|] mg eg]; try discriminate.
      cbn [sf_exp_le] in Hg. apply Z.leb_le in Hg.
      destruct (Z.compare_spec e eg) as [E|E|E]; try lia; discriminate. }
    destruct (canonical_normal m e V ltac:(lia)) as [Hm He].
    destruct (SFmul_sqr_normal m e Hm ltac:(lia)) as (m2 & e2 & -> & Hm2 & He2 & HX).
    apply SFsqrt_rounded_sqr; auto; lia.
Qed.

(** ** The same bounds on primitive floats *)

Ltac to_spec2 :=
  unfold fle_pow2 in *; to_spec.

Lemma is_finite_fnum (a : float) : is_finite a = fnum a.
Proof.
  unfold is_finite, is_infinity. rewrite is_nan_fnan. to_spec.
  change (Prim2SF infinity) with (S754_infinity false).
  sf_cases a; sf_trivial.
Qed.

Lemma fnum_abs (x : float) : fnum (abs x) = fnum x.
Proof. to_spec. sf_cases x; sf_trivial. Qed.

Lemma fnum_not_nan (a : float) : fnum a = true -> fnan a = false.
Proof. to_spec. sf_cases a; sf_trivial. Qed.

Lemma fnum_le_pow2 (j : Z) (a : float) : fle_pow2 j a = true -> fnum a = true.
Proof. unfold fle_pow2, fnum. apply sf_le_pow2_num. Qed.

Lemma fle_pow2_one : fle_pow2 0 one = true.
Proof. reflexivity. Qed.

Lemma fle_pow2_zero (j : Z) : fle_pow2 j zero = true.
Proof. reflexivity. Qed.

Lemma fnum_leb_rdwarf (a : float) : (a <=? rdwarf) = true -> fpos a = true -> fnum a = true.
Proof. to_spec. sf_cases a; sf_trivial. Qed.

Lemma fle_pow2_leb_rdwarf (a : float) :
  (a <=? rdwarf) = true -> fpos a = true -> fle_pow2 (-64) a = true.
Proof.
  to_spec2. pose proof (Prim2SF_valid a) as V.
  destruct (Prim2SF a) as [[|]|[|]| |[|] m e]; try discriminate; try reflexivity.
  destruct (bounded_range m e V) as (U & _ & _).
  unfold SFleb, SFcompare. intros H _. cbn [sf_le_pow2].
  assert (E : (e <= -117)%Z).
  { destruct (Z.compare_spec e (-117)) as [E|E|E]; try lia; discriminate. }
  apply andb_true_iff. split; apply Z.leb_le; [lia|].
  apply Z.le_trans with (2 ^ 53)%Z; [lia|]. apply Z.pow_le_mono_r; lia.
Qed.

(** Signs of quotients, products and roots of numbers. *)

Lemma fpos_div (a b : float) :
  fpos a = true -> fspos b = true -> fnum b = true -> fpos (a / b) = true.
Proof.
  to_spec. sf_cases a; sf_cases b; sf_trivial; intros _ _ _.
  apply sf_sign_pos. unfold SFdiv_core_binary.
  match goal with |- context [Z.div_eucl ?x ?y] =>
    pose proof (Z.div_eucl_eq x y ltac:(lia)) as Ed;
    pose proof (Z.mod_pos_bound x y ltac:(lia)) as Bd;
    assert (Hx : (0 <= x)%Z);
    [|unfold Z.modulo in Bd; destruct (Z.div_eucl x y) as [q r]]
  end.
  - match goal with |- context [match ?s with Zpos _ => _ | _ => _ end] =>
      destruct s eqn:Es end; try lia.
    apply Z.shiftl_nonneg. lia.
  - apply binary_round_aux_sign. nia.
Qed.

Lemma fpos_sqrt (a : float) : fpos a = true -> fpos (sqrt a) = true.
Proof.
  to_spec. sf_cases a; sf_trivial; intros _.
  apply sf_sign_pos. unfold SFsqrt_core_binary.
  match goal with |- context [Z.sqrtrem ?x] =>
    assert (Hx : (0 <= x)%Z);
    [|pose proof (Z.sqrtrem_spec x Hx) as S; destruct (Z.sqrtrem x) as [q r]]
  end.
  - match goal with |- context [match ?s with Zpos _ => _ | _ => _ end] =>
      destruct s eqn:Es end; try lia.
    apply Z.shiftl_nonneg. lia.
  - apply binary_round_aux_sign. lia.
Qed.

Lemma fpos_mul_num (a b : float) :
  fpos a = true -> fnum a = true -> fpos b = true -> fnum b = true ->
  fpos (a * b) = true.
Proof.
  to_spec. sf_cases a; sf_cases b; sf_trivial; intros _ _ _ _.
  apply sf_sign_pos, binary_round_aux_sign. lia.
Qed.

Lemma fpos_mul_finite_l (a b : float) :
  fspos a = true -> fnum a = true -> fpos b = true -> fpos (a * b) = true.
Proof.
  to_spec. sf_cases a; sf_cases b; sf_trivial; intros _ _ _.
  apply sf_sign_pos, binary_round_aux_sign. lia.
Qed.

Lemma fpos_mul_spos (a b : float) :
  fspos a = true -> fspos b = true -> fpos (a * b) = true.
Proof.
  to_spec. sf_cases a; sf_cases b; sf_trivial; intros _ _.
  apply sf_sign_pos, binary_round_aux_sign. lia.
Qed.

Lemma fspos_one_add (a : float) : fpos a = true -> fspos (one + a) = true.
Proof.
  to_spec. pose proof (Prim2SF_valid a) as V.
  destruct (Prim2SF a) as [[|]|[|]| |[|] m e]; try discriminate; try reflexivity.
  intros _. destruct (bounded_range m e V) as (_ & R & _).
  cbn [SFadd cond_Zopp binary_normalize].
  match goal with |- context [(Zpos ?p + Zpos ?q)%Z] =>
    change (Zpos p + Zpos q)%Z with (Zpos (p + q)) end.
  apply sf_spos_of_sign_nonzero.
  - apply binary_round_sign.
  - apply binary_round_nonzero. lia.
Qed.

(** Magnitudes. *)

Lemma fdiv_le_one (a b : float) :
  fpos a = true -> fnum a = true -> fspos b = true -> (a <=? b) = true ->
  fpos (a / b) = true /\ fle_pow2 0 (a / b) = true.
Proof.
  to_spec2. pose proof (Prim2SF_valid a) as Va. pose proof (Prim2SF_valid b) as Vb.
  destruct (Prim2SF a) as [[|]|[|]| |[|] m1 e1]; try discriminate;
    destruct (Prim2SF b) as [[|]|[|]| |[|] m2 e2]; try discriminate;
    intros _ _ _ H; try (split; reflexivity).
  pose proof (SFdiv_le_one m1 m2 e1 e2 Va Vb H) as L. split; [|exact L].
  pose proof (binary_round_aux_sign_or_nan false) as S.
  cbn [SFdiv xorb] in *. destruct (SFdiv_core_binary _ _ _ _ _ _) as [[q e'] l].
  specialize (S q e' l).
  destruct (binary_round_aux prec emax false q e' l) as [[|]|[|]| |[|] m e];
    try discriminate; reflexivity.
Qed.

Lemma fmul_le_pow2 (j1 j2 : Z) (a b : float) :
  fpos a = true -> fpos b = true ->
  fle_pow2 j1 a = true -> fle_pow2 j2 b = true ->
  (-1074 <= j1 + j2 <= 971)%Z ->
  fpos (a * b) = true /\ fle_pow2 (j1 + j2) (a * b) = true.
Proof.
  intros Pa Pb La Lb Hj. split.
  - apply fpos_mul_num; eauto using fnum_le_pow2.
  - unfold fle_pow2 in *. rewrite mul_spec. apply SFmul_le_pow2; assumption.
Qed.

Lemma fadd_le_pow2 (a b : float) :
  fpos a = true -> fpos b = true ->
  fle_pow2 54 a = true -> fle_pow2 0 b = true ->
  fle_pow2 54 (a + b) = true /\ fle_pow2 54 (b + a) = true.
Proof.
  intros Pa Pb La Lb. unfold fle_pow2, fpos in *. rewrite !add_spec.
  apply SFadd_le_pow2; try assumption; lia.
Qed.

(** * The outcome monad *)

Lemma bind_ret_l {A B} (a : A) (k : A -> outcome B) : bind (ret a) k = k a.
Proof. unfold bind, ret. destruct (k a); reflexivity. Qed.

Lemma bind_ret_r {A} (m : outcome A) : bind m ret = m.
Proof. destruct m; simpl; [rewrite app_nil_r|]; reflexivity. Qed.

Lemma bind_assoc {A B C} (m : outcome A) (k : A -> outcome B) (h : B -> outcome C) :
  bind (bind m k) h = bind m (fun a => bind (k a) h).
Proof.
  destruct m as [a l|f]; simpl; [|reflexivity].
  destruct (k a) as [b l'|f]; simpl; [|reflexivity].
  destruct (h b) as [c l''|f]; simpl; [rewrite app_assoc|]; reflexivity.
Qed.

Lemma bind_done {A B} (m : outcome A) (k : A -> outcome B) a l b l' :
  m = Done a l -> k a = Done b l' -> bind m k = Done b (l ++ l').
Proof. intros -> H. simpl. rewrite H. reflexivity. Qed.

Lemma bind_done_inv {A B} (m : outcome A) (k : A -> outcome B) b l0 :
  bind m k = Done b l0 ->
  exists a l l', m = Done a l /\ k a = Done b l' /\ l0 = l ++ l'.
Proof.
  destruct m as [a l|f]; simpl; [|discriminate].
  destruct (k a) as [b' l'|f] eqn:E; [|discriminate].
  intros [= <- <-]. exists a, l, l'. auto.
Qed.

(** * The loop body *)

Lemma fspos_of_sposnan (a : float) :
  fsposnan a = true -> fnan a = false -> fspos a = true.
Proof. unfold fsposnan. intros H N. rewrite N, orb_false_r in H. exact H. Qed.

Lemma fpos_of_posnan (a : float) :
  fposnan a = true -> fnan a = false -> fpos a = true.
Proof. unfold fposnan. intros H N. rewrite N, orb_false_r in H. exact H. Qed.

Lemma divisor_ok_spos (s : site) (d : float) :
  fspos d = true -> divisor_ok (s, d) = true.
Proof.
  unfold divisor_ok. simpl. rewrite ltb_zero_spos. intros ->. destruct s; reflexivity.
Qed.

Lemma divisor_positive_spos (s : site) (d : float) :
  fspos d = true -> divisor_positive (s, d) = true.
Proof. unfold divisor_positive. simpl. rewrite ltb_zero_spos. auto. Qed.

Lemma divisor_ok_positive (l : list (site * float)) :
  forallb divisor_positive l = true -> forallb divisor_ok l = true.
Proof.
  induction l as [|[s d] l IH]; simpl; [reflexivity|].
  rewrite !andb_true_iff. intros [H1 H2]. split; auto.
  unfold divisor_positive in H1. unfold divisor_ok. simpl in *. rewrite H1.
  destruct s; reflexivity.
Qed.

Lemma divisor_nonzero_ok (l : list (site * float)) :
  forallb divisor_ok l = true -> forallb divisor_nonzero l = true.
Proof.
  induction l as [|[s d] l IH]; simpl; [reflexivity|].
  rewrite !andb_true_iff. intros [H1 H2]. split; auto.
  unfold divisor_nonzero. simpl.
  assert (H : fsposnan d = true).
  { unfold divisor_ok in H1. simpl in H1. unfold fsposnan.
    rewrite ltb_zero_spos, is_nan_fnan in H1.
    destruct s; rewrite ?H1; auto using orb_true_r.
    all: rewrite ltb_zero_spos in H1; rewrite H1; reflexivity. }
  rewrite sposnan_nonzero by assumption. reflexivity.
Qed.

Create HintDb fclass.
#[local] Hint Resolve fposnan_add fposnan_mul fposnan_div fposnan_sqrt
  fposnan_one fposnan_of_pos fposnan_of_sposnan fpos_of_spos
  leb_refl_pos fsposnan_of_spos : fclass.

(** One iteration keeps the invariant, never faults, leaves [agiant] and
    the index alone, cannot decrease [x3max], and divides only by what
    [divisor_ok] allows.  When the element is not a NaN and [x1max] is a
    number, [x1max] stays a number, does not decrease, and every divisor is
    positive. *)
Lemma body_inv (xi : float) (st : locals) :
  inv st ->
  exists st' divs,
    body xi st = Done st' divs /\ inv st' /\
    forallb divisor_ok divs = true /\
    agiant st' = agiant st /\ i__ st' = i__ st /\
    (x3max st <=? x3max st') = true /\
    (fnan xi = false -> fpos (x1max st) = true ->
     fpos (x1max st') = true /\ (x1max st <=? x1max st') = true /\
     forallb divisor_positive divs = true).
Proof.
  intros [I2 I3m I1 I3 I1m IL]. unfold body.
  pose proof (fposnan_abs xi) as Ha. pose proof (fnan_abs xi) as Hn.
  destruct st as [i v1 v2 v3 xa m1 m3 ag fl]; simpl in *.
  fold (dabs xi) in Ha, Hn. set (a := dabs xi) in *.
  destruct ((rdwarf <? a) && (a <? ag)) eqn:T1.
  { apply andb_true_iff in T1 as [Ta Tb].
    destruct (intermediate_spos a ag Ha Ta Tb) as [Sa _].
    eexists _, _. split; [reflexivity|].
    repeat split; simpl; auto with fclass.
    apply fpos_add; auto using fpos_sqr with fclass. }
  destruct (a <=? rdwarf) eqn:T2.
  { destruct (a <=? m3) eqn:T3.
    - destruct (a =? zero) eqn:T4; simpl.
      + eexists _, _. split; [reflexivity|].
        repeat split; simpl; auto with fclass.
      + destruct (leb_not_nan _ _ T3) as [Na _].
        pose proof (nonzero_spos a (fpos_of_posnan a Ha Na) T4) as Sa.
        pose proof (leb_spos a m3 Sa T3) as Sm.
        eexists _, _. split; [reflexivity|].
        repeat split; simpl;
          rewrite ?divisor_ok_spos, ?divisor_positive_spos by assumption;
          auto 6 with fclass.
    - destruct (small_new_spos a m3 Ha I3m T2 T3) as [Sa _].
      eexists _, _. split; [reflexivity|].
      repeat split; simpl;
        rewrite ?divisor_ok_spos, ?divisor_positive_spos by assumption;
        auto 7 with fclass.
      apply leb_of_ltb, ltb_of_not_leb; auto with fclass. }
  pose proof (large_sposnan a Ha T2) as La.
  destruct (a <=? m1) eqn:T3.
  - destruct (leb_not_nan _ _ T3) as [Na _].
    pose proof (leb_spos a m1 (fspos_of_sposnan a La Na) T3) as Sm.
    eexists _, _. split; [reflexivity|].
    repeat split; simpl;
      rewrite ?divisor_ok_spos, ?divisor_positive_spos by assumption;
      auto 6 with fclass.
    rewrite (fsposnan_of_spos m1 Sm). apply orb_true_r.
  - eexists _, _. split; [reflexivity|].
    repeat split; simpl; auto 7 with fclass.
    + rewrite La. apply orb_true_r.
    + unfold divisor_ok; simpl. rewrite ltb_zero_spos, is_nan_fnan.
      rewrite andb_true_r. exact La.
    + apply fpos_of_posnan; auto. congruence.
    + apply leb_of_ltb, ltb_of_not_leb; auto.
      apply fpos_of_posnan; auto. congruence.
    + rewrite divisor_positive_spos; auto.
      apply fspos_of_sposnan; auto. congruence.
Qed.

(** * The loop *)

Lemma load_in_range (x : list float) (i : Z) :
  (1 <= i <= Z.of_nat (length x))%Z ->
  exists v, load x i = ret v /\ nth_error x (Z.to_nat (i - 1)) = Some v.
Proof.
  intros Hi. unfold load.
  destruct (i <? 1)%Z eqn:E; [lia|].
  destruct (nth_error x (Z.to_nat (i - 1))) as [v|] eqn:N.
  - exists v. auto.
  - apply nth_error_None in N. lia.
Qed.

Lemma no_nan_nth (x : list float) (j : nat) (v : float) :
  no_nan x -> nth_error x j = Some v -> fnan v = false.
Proof.
  intros H N. rewrite <- is_nan_fnan.
  unfold no_nan in H. rewrite Forall_forall in H.
  apply H. eapply nth_error_In, N.
Qed.

Lemma for_loop_inv (x : list float) (k : nat) : forall st,
  inv st -> (1 <= i__ st)%Z ->
  (i__ st - 1 + Z.of_nat k <= Z.of_nat (length x))%Z ->
  exists st' divs,
    for_loop k x st = Done st' divs /\ inv st' /\
    forallb divisor_ok divs = true /\
    agiant st' = agiant st /\ i__ st' = (i__ st + Z.of_nat k)%Z /\
    (no_nan x -> fpos (x1max st) = true ->
     fpos (x1max st') = true /\ forallb divisor_positive divs = true).
Proof.
  induction k as [|k IH]; intros st I Hi Hk.
  - exists st, []. simpl.
    split; [reflexivity|]. split; [assumption|].
    split; [reflexivity|]. split; [reflexivity|]. split; [lia|auto].
  - destruct (load_in_range x (i__ st)) as (v & Hv & Hnth); [lia|].
    destruct (body_inv v st I) as (st1 & d1 & B & I1 & D1 & A1 & E1 & _ & N1).
    assert (I1' : inv (set_i (i__ st1 + 1) st1)) by (destruct I1; constructor; assumption).
    destruct (IH (set_i (i__ st1 + 1) st1) I1') as (st2 & d2 & L & I2 & D2 & A2 & E2 & N2).
    { simpl. lia. } { simpl. lia. }
    exists st2, (d1 ++ d2). simpl in A2, E2.
    split; [|split; [exact I2|split; [|split; [congruence|split; [lia|]]]]].
    + cbn [for_loop]. rewrite Hv. rewrite bind_ret_l.
      apply bind_done with st1; assumption.
    + rewrite forallb_app, D1, D2. reflexivity.
    + intros Hx P.
      destruct (N1 (no_nan_nth x _ v Hx Hnth) P) as (P1 & _ & Q1).
      destruct (N2 Hx) as (P2 & Q2); [exact P1|].
      split; [exact P2|]. rewrite forallb_app, Q1, Q2. reflexivity.
Qed.

Lemma bind_ext {A B} (m : outcome A) (k k' : A -> outcome B) :
  (forall a, k a = k' a) -> bind m k = bind m k'.
Proof. intros H. destruct m; simpl; [rewrite H|]; reflexivity. Qed.

(** An iteration more is the iterations so far, then one. *)
Lemma for_loop_succ (x : list float) (k : nat) : forall st,
  for_loop (S k) x st = (st' <- for_loop k x st ;; for_loop 1 x st').
Proof.
  induction k as [|k IH]; intros st.
  - cbn [for_loop]. rewrite bind_ret_l. reflexivity.
  - change (for_loop (S (S k)) x st) with
      (xi <- load x (i__ st) ;; st' <- body xi st ;;
       for_loop (S k) x (set_i (i__ st' + 1) st')).
    change (for_loop (S k) x st) with
      (xi <- load x (i__ st) ;; st' <- body xi st ;;
       for_loop k x (set_i (i__ st' + 1) st')).
    rewrite bind_assoc. apply bind_ext. intros xi.
    rewrite bind_assoc. apply bind_ext. intros st'.
    apply IH.
Qed.

(** * Prologue and final step *)

Lemma prologue_start (st0 : locals) (n : Z) :
  prologue st0 n = Done (start n (xabs st0)) [(Div_agiant, float_of_integer n)].
Proof. reflexivity. Qed.

Lemma inv_start (n : Z) (xa : float) : inv (start n xa).
Proof. constructor; reflexivity. Qed.

Lemma calc_norm_inv (st : locals) :
  inv st ->
  exists r divs,
    calc_norm st = Done r divs /\ fposnan r = true /\
    forallb divisor_ok divs = true /\
    (fpos (x1max st) = true -> forallb divisor_positive divs = true).
Proof.
  intros [I2 I3m I1 I3 I1m IL]. unfold calc_norm.
  destruct st as [i v1 v2 v3 xa m1 m3 ag fl]; simpl in *.
  destruct (v1 =? zero) eqn:T1.
  - destruct (v2 =? zero) eqn:T2.
    + eexists _, _. split; [reflexivity|].
      repeat split; auto with fclass.
    + pose proof (nonzero_spos v2 I2 T2) as S2.
      destruct (m3 <=? v2) eqn:T3; destruct (v2 <? m3) eqn:T4.
      * pose proof (ltb_spos v2 m3 I2 T4) as S3.
        eexists _, _. split; [reflexivity|].
        repeat split; simpl;
          rewrite ?divisor_ok_spos, ?divisor_positive_spos by assumption;
          auto 8 with fclass.
      * eexists _, _. split; [reflexivity|].
        repeat split; simpl;
          rewrite ?divisor_ok_spos, ?divisor_positive_spos by assumption;
          auto 9 with fclass.
      * pose proof (ltb_spos v2 m3 I2 T4) as S3.
        eexists _, _. split; [reflexivity|].
        repeat split; simpl;
          rewrite ?divisor_ok_spos, ?divisor_positive_spos by assumption;
          auto 8 with fclass.
      * rewrite (ltb_of_not_leb v2 m3 I2 I3m T3) in T4. discriminate.
  - rewrite eqb_zero in T1. rewrite T1 in IL. simpl in IL.
    eexists _, _. split; [reflexivity|].
    repeat split; simpl; auto 8 with fclass.
    + unfold divisor_ok; simpl. rewrite ltb_zero_spos, is_nan_fnan.
      fold (fsposnan m1). rewrite IL. reflexivity.
    + intros P1.
      rewrite !divisor_positive_spos; auto;
        apply fspos_of_sposnan; auto using fnan_of_pos.
Qed.

(** * Whole runs *)

Lemma enorm_unfold (st0 : locals) (n : Z) (x : list float) st dl r dc :
  for_loop (Z.to_nat n) x (start n (xabs st0)) = Done st dl ->
  calc_norm st = Done r dc ->
  enorm_ st0 n x =
    Done (r, st) ((Div_agiant, float_of_integer n) :: dl ++ dc).
Proof.
  intros L C. unfold enorm_. rewrite prologue_start. cbn [bind].
  rewrite L. cbn [bind]. rewrite C. simpl. rewrite !app_nil_r. reflexivity.
Qed.

Lemma enorm_total (st0 : locals) (n : Z) (x : list float) :
  (n <= Z.of_nat (length x))%Z ->
  exists st dl r dc,
    for_loop (Z.to_nat n) x (start n (xabs st0)) = Done st dl /\
    calc_norm st = Done r dc /\
    enorm_ st0 n x = Done (r, st) ((Div_agiant, float_of_integer n) :: dl ++ dc) /\
    inv st /\ fposnan r = true /\
    forallb divisor_ok dl = true /\ forallb divisor_ok dc = true /\
    (no_nan x ->
     forallb divisor_positive dl = true /\ forallb divisor_positive dc = true).
Proof.
  intros Hn.
  destruct (for_loop_inv x (Z.to_nat n) (start n (xabs st0)))
    as (st & dl & L & I & D & _ & _ & N); [apply inv_start|simpl; lia|simpl; lia|].
  destruct (calc_norm_inv st I) as (r & dc & C & P & D' & N').
  exists st, dl, r, dc.
  split; [exact L|]. split; [exact C|]. split; [auto using enorm_unfold|].
  split; [exact I|]. split; [exact P|]. split; [exact D|]. split; [exact D'|].
  intros Hx. destruct (N Hx) as [P1 Q1]; [reflexivity|]. auto.
Qed.

(** * Finite elements *)

Lemma inv_fin_start (n : Z) (xa : float) : inv_fin (start n xa).
Proof. constructor; try reflexivity. right. reflexivity. Qed.

Lemma inv_fin_set_i (j : Z) (st : locals) : inv_fin st -> inv_fin (set_i j st).
Proof. intros []; constructor; assumption. Qed.

Lemma accumulators_nonneg_fin (st : locals) : inv_fin st -> accumulators_nonneg st.
Proof.
  intros [F2 F1 _ F3 _ Fm1 _ Fm3 _ _ _].
  constructor; unfold ge0; auto using leb_zero_pos.
Qed.

Lemma body_inv_fin (xi : float) (st st' : locals) (divs : list (site * float)) :
  inv_fin st -> is_finite xi = true -> body xi st = Done st' divs -> inv_fin st'.
Proof.
  intros [F2 F1 F1l F3 F3l Fm1 Fn1 Fm3 Fl3 FL FS] Hfin.
  rewrite is_finite_fnum in Hfin.
  pose proof (fposnan_abs xi) as Ha. pose proof (fnum_abs xi) as Na.
  rewrite Hfin in Na. fold (dabs xi) in Ha, Na.
  pose proof (fpos_of_posnan _ Ha (fnum_not_nan _ Na)) as Pa.
  unfold body. destruct st as [i v1 v2 v3 xa m1 m3 ag fl]; simpl in *.
  set (a := dabs xi) in *.
  pose proof (fnum_leb_rdwarf m3 Fl3 Fm3) as Fn3.
  destruct ((rdwarf <? a) && (a <? ag)) eqn:T1.
  { intros [= <- <-]. constructor; simpl; auto.
    apply fpos_add; auto using fpos_sqr. }
  destruct (a <=? rdwarf) eqn:T2.
  { destruct (a <=? m3) eqn:T3.
    - destruct (a =? zero) eqn:T4; simpl.
      + intros [= <- <-]. constructor; simpl; auto.
      + pose proof (leb_spos a m3 (nonzero_spos a Pa T4) T3) as Sm.
        destruct (fdiv_le_one a m3 Pa Na Sm T3) as [Pd Ld].
        destruct (fmul_le_pow2 0 0 _ _ Pd Pd Ld Ld ltac:(lia)) as [Pt Lt].
        destruct (fadd_le_pow2 v3 _ F3 Pt F3l Lt) as [Ls _].
        intros [= <- <-]. constructor; simpl; auto using fpos_add.
    - destruct (small_new_spos a m3 Ha Fm3 T2 T3) as [Sa _].
      pose proof (leb_of_ltb _ _ (ltb_of_not_leb m3 a Fm3 Pa T3)) as Le.
      destruct (fdiv_le_one m3 a Fm3 Fn3 Sa Le) as [Pd Ld].
      destruct (fmul_le_pow2 0 0 _ _ Pd Pd Ld Ld ltac:(lia)) as [Pt Lt].
      destruct (fmul_le_pow2 54 0 _ _ F3 Pt F3l Lt ltac:(lia)) as [Pu Lu].
      destruct (fadd_le_pow2 _ one Pu eq_refl Lu fle_pow2_one) as [_ Ls].
      intros [= <- <-]. constructor; simpl; auto using fpos_add. }
  pose proof (fspos_of_sposnan a (large_sposnan a Ha T2) (fnum_not_nan _ Na)) as Sa.
  destruct (a <=? m1) eqn:T3.
  - pose proof (leb_spos a m1 Sa T3) as Sm.
    destruct (fdiv_le_one a m1 Pa Na Sm T3) as [Pd Ld].
    destruct (fmul_le_pow2 0 0 _ _ Pd Pd Ld Ld ltac:(lia)) as [Pt Lt].
    destruct (fadd_le_pow2 v1 _ F1 Pt F1l Lt) as [Ls _].
    intros [= <- <-]. constructor; simpl; auto using fpos_add.
    rewrite Sm. apply orb_true_r.
  - pose proof (leb_of_ltb _ _ (ltb_of_not_leb m1 a Fm1 Pa T3)) as Le.
    destruct (fdiv_le_one m1 a Fm1 Fn1 Sa Le) as [Pd Ld].
    destruct (fmul_le_pow2 0 0 _ _ Pd Pd Ld Ld ltac:(lia)) as [Pt Lt].
    destruct (fmul_le_pow2 54 0 _ _ F1 Pt F1l Lt ltac:(lia)) as [Pu Lu].
    destruct (fadd_le_pow2 _ one Pu eq_refl Lu fle_pow2_one) as [_ Ls].
    intros [= <- <-]. constructor; simpl; auto using fpos_add.
    rewrite Sa. apply orb_true_r.
Qed.

Lemma all_finite_nth (x : list float) (j : nat) (v : float) :
  all_finite x -> nth_error x j = Some v -> is_finite v = true.
Proof.
  intros H N. unfold all_finite in H. rewrite Forall_forall in H.
  apply H. eapply nth_error_In, N.
Qed.

Lemma for_loop_inv_fin (x : list float) (k : nat) : forall st st' divs,
  all_finite x -> inv_fin st ->
  for_loop k x st = Done st' divs -> inv_fin st'.
Proof.
  induction k as [|k IH]; intros st st' divs Hx I.
  - intros [= <- <-]. exact I.
  - cbn [for_loop]. intros H.
    apply bind_done_inv in H as (v & l1 & l2 & Hv & H & _).
    apply bind_done_inv in H as (st1 & l3 & l4 & B & L & _).
    assert (Fv : is_finite v = true).
    { unfold load in Hv. destruct (i__ st <? 1)%Z; [discriminate|].
      destruct (nth_error x (Z.to_nat (i__ st - 1))) as [w|] eqn:N; [|discriminate].
      injection Hv as <- _. exact (all_finite_nth x _ w Hx N). }
    apply (IH _ _ _ Hx (inv_fin_set_i _ _ (body_inv_fin v st st1 l3 I Fv B)) L).
Qed.

Lemma zero_unique (a : float) :
  fpos a = true -> fspos a = false -> a = zero.
Proof.
  intros P S. apply Prim2SF_inj. revert P S. to_spec. sf_cases a; sf_trivial.
Qed.

(** With finite elements the final step returns a number with its sign
    bit clear: never a NaN. *)
Lemma calc_norm_inv_fin (st : locals) (r : float) (divs : list (site * float)) :
  inv_fin st -> calc_norm st = Done r divs -> fpos r = true.
Proof.
  intros [F2 F1 F1l F3 F3l Fm1 Fn1 Fm3 Fl3 FL FS]. unfold calc_norm.
  destruct st as [i v1 v2 v3 xa m1 m3 ag fl]; simpl in *.
  pose proof (fnum_leb_rdwarf m3 Fl3 Fm3) as Fn3.
  pose proof (fle_pow2_leb_rdwarf m3 Fl3 Fm3) as L3.
  destruct (fmul_le_pow2 (-64) 54 m3 v3 Fm3 F3 L3 F3l ltac:(lia)) as [Pp Lp].
  pose proof (fnum_le_pow2 _ _ Lp) as Np.
  destruct (v1 =? zero) eqn:T1.
  - destruct (v2 =? zero) eqn:T2.
    + intros [= <- _].
      destruct FS as [S3 | ->].
      * apply fpos_mul_finite_l; auto using fpos_sqrt.
      * destruct (fspos m3) eqn:S3; [apply fpos_mul_finite_l; auto|].
        rewrite (zero_unique m3 Fm3 S3). reflexivity.
    + pose proof (nonzero_spos v2 F2 T2) as S2.
      destruct (m3 <=? v2) eqn:T3; destruct (v2 <? m3) eqn:T4; simpl.
      * rewrite (leb_ltb_excl v2 m3 T3) in T4. discriminate.
      * destruct (fdiv_le_one m3 v2 Fm3 Fn3 S2 T3) as [Pq Lq].
        pose proof (fnum_le_pow2 _ _ Lq) as Nq.
        pose proof (fpos_mul_num _ _ Pq Nq Pp Np) as Pqp.
        intros [= <- _]. apply fpos_sqrt, fpos_mul_spos; auto using fspos_one_add.
      * pose proof (ltb_spos v2 m3 F2 T4) as S3.
        intros [= <- _].
        apply fpos_sqrt, fpos_mul_finite_l; auto.
        apply fpos_add; auto using fpos_div.
      * discriminate.
  - rewrite eqb_zero in T1. rewrite T1 in FL. simpl in FL.
    intros [= <- _].
    apply fpos_mul_finite_l; auto.
    apply fpos_sqrt, fpos_add; auto using fpos_div.
Qed.

(** * Non-negativity of the result *)

Lemma ge0_or_nan_posnan (a : float) : fposnan a = true -> ge0_or_nan a = true.
Proof.
  intros H. unfold ge0_or_nan, ge0.
  destruct (fposnan_cases a H) as [-> | ->]; auto using orb_true_r.
Qed.

Lemma ltb_zero_posnan (a : float) : fposnan a = true -> (a <? zero) = false.
Proof. to_spec. sf_cases a; sf_trivial. Qed.

(** C8, counterexample: on the one-element vector holding a NaN the value
    returned is a NaN, and the comparison [NaN >= 0] is false. *)
Lemma enorm_nan_not_ge0 :
  result (enorm_ fresh 1 [nan]) = Some nan /\ ge0 nan = false.
Proof. split; vm_compute; reflexivity. Qed.

(** C8, amended: for every vector [x] of finite numbers, with [n] its
    length and whatever an earlier call left in the statics, [enorm_]
    returns a value [>= 0].  Whatever the elements (NaN and infinities
    included) it returns a value that is never negative: [>= 0], or a NaN. *)
Theorem enorm_nonneg (st0 : locals) (x : list float) :
  exists r,
    result (enorm_ st0 (Z.of_nat (length x)) x) = Some r /\
    ge0_or_nan r = true /\ (r <? zero) = false /\
    (all_finite x -> ge0 r = true).
Proof.
  destruct (enorm_total st0 (Z.of_nat (length x)) x) as
    (st & dl & r & dc & L & C & E & _ & P & _); [lia|].
  exists r. unfold result. rewrite E. simpl.
  split; [reflexivity|]. split; [apply ge0_or_nan_posnan, P|].
  split; [apply ltb_zero_posnan, P|].
  intros Hx. apply leb_zero_pos.
  apply (calc_norm_inv_fin st r dc); [|exact C].
  apply (for_loop_inv_fin x _ _ st dl Hx (inv_fin_start _ _) L).
Qed.

Lemma enorm_nonneg_witness :
  exists r,
    result (enorm_ stale (Z.of_nat (length [3e-30; -1; 5e19; 0])) [3e-30; -1; 5e19; 0])
      = Some r /\ ge0 r = true.
Proof.
  destruct (enorm_nonneg stale [3e-30; -1; 5e19; 0]) as (r & E & _ & _ & G).
  exists r. split; [exact E|]. apply G. repeat constructor.
Defined.

(** * Zero vectors *)

Lemma body_zero (v : float) (i : Z) (xa ag fl : float) :
  is_zero_elt v -> body v (zstate i xa ag fl) = Done (zstate i zero ag fl) [].
Proof. intros [-> | ->]; vm_compute; reflexivity. Qed.

Lemma for_loop_zero (x : list float) (ag fl : float) (k : nat) : forall i xa,
  Forall is_zero_elt x -> (1 <= i)%Z ->
  (i - 1 + Z.of_nat k <= Z.of_nat (length x))%Z ->
  exists xa',
    for_loop k x (zstate i xa ag fl) = Done (zstate (i + Z.of_nat k) xa' ag fl) [].
Proof.
  induction k as [|k IH]; intros i xa Hx Hi Hk.
  - exists xa. simpl. rewrite Z.add_0_r. reflexivity.
  - destruct (load_in_range x i) as (v & Hv & Hnth); [lia|].
    assert (Hz : is_zero_elt v).
    { rewrite Forall_forall in Hx. apply Hx. eapply nth_error_In, Hnth. }
    destruct (IH (i + 1)%Z zero Hx) as (xa' & L); [lia|lia|].
    exists xa'. cbn [for_loop]. change (i__ (zstate i xa ag fl)) with i.
    rewrite Hv, bind_ret_l, (body_zero v i xa ag fl Hz). cbn [bind].
    change (set_i _ _) with (zstate (i + 1) zero ag fl).
    rewrite L. simpl. f_equal. f_equal. lia.
Qed.

(** C2: on a vector whose elements are all zero (of either sign), of any
    length including none, [enorm_] returns exactly [0.0] without fault;
    the only division it performs is [rgiant / floatn].  With [n = 0] that
    division has a zero divisor and sets [agiant] to infinity, and the
    value returned is still exactly [0.0]. *)
Theorem enorm_zero_vector (st0 : locals) (x : list float) :
  (Forall is_zero_elt x ->
   exists st,
     enorm_ st0 (Z.of_nat (length x)) x =
       Done (zero, st) [(Div_agiant, float_of_integer (Z.of_nat (length x)))]) /\
  enorm_ st0 0 x = Done (zero, start 0 (xabs st0)) [(Div_agiant, zero)] /\
  agiant (start 0 (xabs st0)) = infinity.
Proof.
  split; [|split; [|reflexivity]].
  - intros Hx. set (n := Z.of_nat (length x)).
    destruct (for_loop_zero x (rgiant / float_of_integer n) (float_of_integer n)
                (Z.to_nat n) 1 (xabs st0) Hx) as (xa' & L); [lia|lia|].
    eexists. rewrite (enorm_unfold st0 n x _ _ zero [] L); [|reflexivity].
    reflexivity.
  - destruct st0; reflexivity.
Qed.

Lemma enorm_zero_vector_witness :
  exists st,
    enorm_ stale (Z.of_nat (length [zero; neg_zero; zero])) [zero; neg_zero; zero] =
      Done (zero, st)
        [(Div_agiant, float_of_integer (Z.of_nat (length [zero; neg_zero; zero])))].
Proof.
  apply (proj1 (enorm_zero_vector stale [zero; neg_zero; zero])).
  repeat (constructor; [first [left; reflexivity|right; reflexivity]|]).
  constructor.
Defined.

(** * The final step against its specification *)

Lemma calc_norm_spec (st : locals) :
  inv st -> value (calc_norm st) = Some (combine_spec st).
Proof.
  intros [I2 I3m _ _ _ _]. unfold calc_norm, combine_spec.
  destruct st as [i v1 v2 v3 xa m1 m3 ag fl]; simpl in *.
  destruct (v1 =? zero); [|reflexivity]. simpl.
  destruct (v2 =? zero); [reflexivity|]. simpl.
  destruct (m3 <=? v2) eqn:T3.
  - rewrite (leb_ltb_excl v2 m3 T3). reflexivity.
  - rewrite (ltb_of_not_leb v2 m3 I2 I3m T3). reflexivity.
Qed.

Lemma state_after_start (st0 : locals) (n : Z) (x : list float) (k : nat) :
  value (state_after st0 n x k) = value (for_loop k x (start n (xabs st0))).
Proof.
  unfold state_after. rewrite prologue_start. cbn [bind].
  destruct (for_loop k x (start n (xabs st0))); reflexivity.
Qed.

(** C4: after the loop, the value returned is the combination the
    specification gives: [x1max * sqrt(s1 + (s2 / x1max) / x1max)] when
    [s1 != 0]; else, when [s2 != 0], the [s2] formula selected by
    [s2 >= x3max]; else [x3max * sqrt(s3)], which is [0.0] when the vector
    was all zero. *)
Theorem final_step_as_specified (st0 : locals) (x : list float) :
  exists st,
    value (state_after st0 (Z.of_nat (length x)) x (length x)) = Some st /\
    value (enorm_ st0 (Z.of_nat (length x)) x) = Some (combine_spec st, st) /\
    (Forall is_zero_elt x ->
     combine_spec st = x3max st * sqrt (s3 st) /\ combine_spec st = zero).
Proof.
  set (n := Z.of_nat (length x)).
  destruct (enorm_total st0 n x) as
    (st & dl & r & dc & L & C & E & I & _); [lia|].
  exists st. rewrite state_after_start.
  unfold n in L. rewrite Nat2Z.id in L. fold n in L.
  pose proof (calc_norm_spec st I) as S. rewrite C in S. injection S as ->.
  rewrite L, E. repeat split.
  - destruct (for_loop_zero x (rgiant / float_of_integer n) (float_of_integer n)
                (length x) 1 (xabs st0) H) as (xa' & L'); [lia|lia|].
    change (zstate 1 (xabs st0) _ _) with (start n (xabs st0)) in L'.
    rewrite L in L'. injection L' as -> _. reflexivity.
  - destruct (for_loop_zero x (rgiant / float_of_integer n) (float_of_integer n)
                (length x) 1 (xabs st0) H) as (xa' & L'); [lia|lia|].
    change (zstate 1 (xabs st0) _ _) with (start n (xabs st0)) in L'.
    rewrite L in L'. injection L' as -> _. reflexivity.
Qed.

Lemma final_step_as_specified_witness :
  exists st,
    value (enorm_ stale (Z.of_nat (length [zero; zero])) [zero; zero])
      = Some (combine_spec st, st) /\
    combine_spec st = x3max st * sqrt (s3 st) /\ combine_spec st = zero.
Proof.
  destruct (final_step_as_specified stale [zero; zero]) as (st & _ & E & Z).
  exists st. split; [exact E|]. apply Z.
  repeat (constructor; [left; reflexivity|]). constructor.
Defined.

(** * What a call leaves behind *)

Lemma body_set_xabs (v xi : float) (st : locals) :
  body xi (set_xabs v st) = body xi st.
Proof. destruct st; reflexivity. Qed.

Lemma for_loop_set_xabs (x : list float) (k : nat) (v : float) (st : locals) :
  for_loop (S k) x (set_xabs v st) = for_loop (S k) x st.
Proof.
  cbn [for_loop]. change (i__ (set_xabs v st)) with (i__ st).
  apply bind_ext. intros xi. rewrite body_set_xabs. reflexivity.
Qed.

Lemma calc_norm_set_xabs (v : float) (st : locals) :
  calc_norm (set_xabs v st) = calc_norm st.
Proof. destruct st; reflexivity. Qed.

Lemma enorm_stateless (st st' : locals) (n : Z) (x : list float) :
  result (enorm_ st n x) = result (enorm_ st' n x) /\
  divisions (enorm_ st n x) = divisions (enorm_ st' n x).
Proof.
  unfold enorm_. rewrite !prologue_start.
  change (start n (xabs st)) with (set_xabs (xabs st) (start n zero)).
  change (start n (xabs st')) with (set_xabs (xabs st') (start n zero)).
  destruct (Z.to_nat n) as [|k].
  - cbn [for_loop bind ret]. rewrite !calc_norm_set_xabs.
    destruct (calc_norm (start n zero)); split; reflexivity.
  - cbn [bind]. rewrite !for_loop_set_xabs. split; reflexivity.
Qed.

(** ** The call on the storage

    Every statement stores into a static local, so the run on the storage
    is the run of [enorm_] on the statics, with everything else as it
    was. *)

Section Storage.

Context {W : Type}.

Lemma store_static (v : dvar) (f : float) (m : memory W) :
  store (Static v) f m
  = ret (mkMemory (set_static v f (statics m)) (arg_n m) (arg_x m) (world m)).
Proof. reflexivity. Qed.

Lemma prologue_m_prologue (m : memory W) :
  prologue_m m =
    (st <- prologue (statics m) (arg_n m) ;;
     ret (mkMemory st (arg_n m) (arg_x m) (world m))).
Proof. destruct m as [st n x w]. reflexivity. Qed.

Lemma body_m_body (m : memory W) :
  body_m m =
    (xi <- load (arg_x m) (i__ (statics m)) ;;
     st <- body xi (statics m) ;;
     ret (mkMemory st (arg_n m) (arg_x m) (world m))).
Proof.
  destruct m as [st n x w]. unfold body_m, body. cbn [statics arg_n arg_x world].
  unfold load. destruct (i__ st <? 1)%Z; [reflexivity|].
  destruct (nth_error x (Z.to_nat (i__ st - 1))) as [v|]; [|reflexivity].
  rewrite !bind_ret_l, store_static, bind_ret_l.
  cbn [statics arg_n arg_x world set_static].
  destruct st as [i v1 v2 v3 xa m1 m3 ag fl]. simpl.
  repeat match goal with
         | |- context [if ?c then _ else _] => destruct c
         end; reflexivity.
Qed.

Lemma for_loop_m_for_loop (k : nat) : forall m : memory W,
  for_loop_m k m =
    (st <- for_loop k (arg_x m) (statics m) ;;
     ret (mkMemory st (arg_n m) (arg_x m) (world m))).
Proof.
  induction k as [|k IH]; intros m.
  - destruct m. reflexivity.
  - cbn [for_loop_m for_loop]. rewrite body_m_body, !bind_assoc.
    apply bind_ext. intros xi. rewrite !bind_assoc.
    apply bind_ext. intros st. rewrite bind_ret_l, IH. reflexivity.
Qed.

Lemma call_enorm_enorm (m : memory W) :
  call_enorm m =
    (r <- enorm_ (statics m) (arg_n m) (arg_x m) ;;
     ret (fst r, mkMemory (snd r) (arg_n m) (arg_x m) (world m))).
Proof.
  unfold call_enorm, enorm_. rewrite prologue_m_prologue, !bind_assoc.
  apply bind_ext. intros st. rewrite bind_ret_l. cbn [statics arg_n arg_x world].
  rewrite for_loop_m_for_loop, !bind_assoc. cbn [statics arg_n arg_x world].
  apply bind_ext. intros st'. rewrite bind_ret_l, bind_assoc. cbn [statics].
  apply bind_ext. intros r. rewrite !bind_ret_l. reflexivity.
Qed.

End Storage.




(** * The two [s2] formulas *)

Module Exact.

Import Stdlib.Reals.Reals Stdlib.micromega.Lra.
Local Open Scope R_scope.

(** The formulas of lines 154 and 157 are the ones [calc_norm] evaluates
    in binary64: when the test of line 144 holds and that of line 150
    fails, exactly one of the tests of lines 153 and 156 holds, and the
    value assigned is that of the formula it selects. *)
Lemma calc_norm_forms (st : locals) :
  inv st ->
  (s1 st =? zero)%float = true -> (s2 st =? zero)%float = false ->
  value (calc_norm st) =
    Some (if (x3max st <=? s2 st)%float
          then norm_s2_form (s2 st) (s3 st) (x3max st)
          else norm_x3max_form (s2 st) (s3 st) (x3max st)) /\
  (s2 st <? x3max st)%float = negb (x3max st <=? s2 st)%float /\
  (zero <? s2 st)%float = true.
Proof.
  intros [I2 I3m _ _ _ _] E1 E2. unfold calc_norm. rewrite E1, E2. cbn iota.
  split; [|split].
  - destruct (x3max st <=? s2 st)%float eqn:T3.
    + rewrite (leb_ltb_excl (s2 st) (x3max st) T3). reflexivity.
    + rewrite (ltb_of_not_leb (s2 st) (x3max st) I2 I3m T3). reflexivity.
  - destruct (x3max st <=? s2 st)%float eqn:T3.
    + apply (leb_ltb_excl (s2 st) (x3max st) T3).
    + apply (ltb_of_not_leb (s2 st) (x3max st) I2 I3m T3).
  - rewrite ltb_zero_spos. apply nonzero_spos; assumption.
Qed.

(** C6: in every call in which the loop leaves [s1 = 0] and [s2 != 0],
    [s2] is positive and the value returned is that of the formula of line
    154 when [s2 >= x3max] and of the formula of line 157 otherwise (then
    [s2 < x3max]), both evaluated in binary64.  Read over the reals, for
    [s2 > 0] and [x3max > 0], the two formulas both equal
    [sqrt (s2 + x3max^2 * s3)]: the comparison selects between two
    rearrangements of one quantity. *)
Theorem s2_forms_agree (st0 : locals) (x : list float) (s2' s3' x3max' : R) :
  (exists st,
     value (state_after st0 (Z.of_nat (length x)) x (length x)) = Some st /\
     ((s1 st =? zero)%float = true -> (s2 st =? zero)%float = false ->
      result (enorm_ st0 (Z.of_nat (length x)) x) =
        Some (if (x3max st <=? s2 st)%float
              then norm_s2_form (s2 st) (s3 st) (x3max st)
              else norm_x3max_form (s2 st) (s3 st) (x3max st)) /\
      (s2 st <? x3max st)%float = negb (x3max st <=? s2 st)%float /\
      (zero <? s2 st)%float = true)) /\
  (0 < s2' -> 0 < x3max' ->
   norm_s2_form s2' s3' x3max' = sqrt (s2' + x3max' * x3max' * s3') /\
   norm_x3max_form s2' s3' x3max' = sqrt (s2' + x3max' * x3max' * s3') /\
   norm_s2_form s2' s3' x3max' = norm_x3max_form s2' s3' x3max').
Proof.
  split.
  - set (n := Z.of_nat (length x)).
    destruct (enorm_total st0 n x) as
      (st & dl & r & dc & L & C & E & I & _); [lia|].
    exists st. rewrite state_after_start.
    unfold n in L. rewrite Nat2Z.id in L. fold n in L. rewrite L.
    split; [reflexivity|]. intros E1 E2.
    destruct (calc_norm_forms st I E1 E2) as (V & T & P).
    rewrite C in V. injection V as V'. subst r.
    unfold result. rewrite E. auto.
  - intros H2 H3.
    assert (A : norm_s2_form s2' s3' x3max' = sqrt (s2' + x3max' * x3max' * s3')).
    { unfold norm_s2_form; simpl. f_equal. field. lra. }
    assert (B : norm_x3max_form s2' s3' x3max' = sqrt (s2' + x3max' * x3max' * s3')).
    { unfold norm_x3max_form; simpl. f_equal. field. lra. }
    rewrite A, B. auto.
Qed.

Lemma s2_forms_agree_witness :
  (exists st,
     value (state_after stale (Z.of_nat (length [2; 1e-25; 3e-25]%float))
              [2; 1e-25; 3e-25]%float (length [2; 1e-25; 3e-25]%float)) = Some st /\
     result (enorm_ stale (Z.of_nat (length [2; 1e-25; 3e-25]%float))
               [2; 1e-25; 3e-25]%float) =
       Some (norm_s2_form (s2 st) (s3 st) (x3max st))) /\
  norm_s2_form 4 2 3 = sqrt (4 + 3 * 3 * 2) /\
  norm_x3max_form 4 2 3 = sqrt (4 + 3 * 3 * 2) /\
  norm_s2_form 4 2 3 = norm_x3max_form 4 2 3.
Proof.
  destruct (s2_forms_agree stale [2; 1e-25; 3e-25]%float 4 2 3) as [(st & E & H) R].
  split; [|apply R; lra].
  exists st. split; [exact E|].
  pose proof E as E'. vm_compute in E'. injection E' as <-.
  destruct H as (V & _); [reflexivity|reflexivity|]. exact V.
Defined.

End Exact.

(** * Divisors *)

(** C3, counterexample: on the one-element vector holding a NaN the final
    step finds [s1 != 0] and divides by [x1max], which is then a NaN: the
    comparison [x1max > 0] is false there. *)
Lemma combine_divides_by_nan :
  enorm_ fresh 1 [nan] =
    Done (nan, mkLocals 2 nan 0 0 nan nan 0 rgiant 1)
      [(Div_agiant, 1); (Div_large_new, nan);
       (Div_norm_s1_a, nan); (Div_norm_s1_b, nan)] /\
  (nan =? zero) = false /\ (zero <? nan) = false.
Proof. repeat split; vm_compute; reflexivity. Qed.

(** C3, amended: for a vector of length [n >= 1], no division of [enorm_]
    has a zero divisor.  The divisor is positive at every site (line 82;
    both branches of the small bucket; the [xabs / x1max] branch of the
    large bucket; both [s2] branches of the final step), except that
    where the program divides by a large component (line 99) or by
    [x1max] in the final step (line 147) the divisor is positive or a NaN;
    it is positive there too when no element is a NaN. *)
Theorem divisors_nonzero (st0 : locals) (x : list float) :
  (1 <= Z.of_nat (length x) < 2 ^ 63)%Z ->
  exists r l,
    enorm_ st0 (Z.of_nat (length x)) x = Done r l /\
    forallb divisor_nonzero l = true /\
    forallb divisor_ok l = true /\
    (no_nan x -> forallb divisor_positive l = true).
Proof.
  intros Hn. set (n := Z.of_nat (length x)) in *.
  destruct (enorm_total st0 n x) as
    (st & dl & r & dc & _ & _ & E & _ & _ & D & D' & N); [lia|].
  pose proof (float_of_integer_spos n Hn) as F.
  assert (OK : forallb divisor_ok ((Div_agiant, float_of_integer n) :: dl ++ dc) = true).
  { cbn [forallb]. rewrite divisor_ok_spos, forallb_app, D, D' by assumption.
    reflexivity. }
  exists (r, st), ((Div_agiant, float_of_integer n) :: dl ++ dc).
  split; [exact E|]. split; [apply divisor_nonzero_ok, OK|]. split; [exact OK|].
  intros Hx. destruct (N Hx) as [Q Q'].
  cbn [forallb]. rewrite divisor_positive_spos, forallb_app, Q, Q' by assumption.
  reflexivity.
Qed.

Lemma divisors_nonzero_witness :
  exists r l,
    enorm_ stale (Z.of_nat (length [5e-30; 1; 2e19])) [5e-30; 1; 2e19] = Done r l /\
    forallb divisor_nonzero l = true /\
    forallb divisor_ok l = true /\
    (no_nan [5e-30; 1; 2e19] -> forallb divisor_positive l = true).
Proof. apply (divisors_nonzero stale [5e-30; 1; 2e19]). simpl. lia. Defined.

(** * The accumulators along the loop *)

(** The small bucket is written only by lines 113-126, which a NaN or an
    infinity does not reach. *)
Lemma inv_small_start (n : Z) (xa : float) : inv_small (start n xa).
Proof. constructor; try reflexivity. right. reflexivity. Qed.

Lemma inv_small_set_i (j : Z) (st : locals) : inv_small st -> inv_small (set_i j st).
Proof. intros []; constructor; assumption. Qed.

Lemma body_inv_small (xi : float) (st st' : locals) (divs : list (site * float)) :
  inv_small st -> body xi st = Done st' divs -> inv_small st'.
Proof.
  intros [F3 F3l Fm3 Fl3 FS].
  pose proof (fposnan_abs xi) as Ha. fold (dabs xi) in Ha.
  unfold body. destruct st as [i v1 v2 v3 xa m1 m3 ag fl]; simpl in *.
  set (a := dabs xi) in *.
  pose proof (fnum_leb_rdwarf m3 Fl3 Fm3) as Fn3.
  destruct ((rdwarf <? a) && (a <? ag)) eqn:T1.
  { intros [= <- <-]. constructor; simpl; auto. }
  destruct (a <=? rdwarf) eqn:T2.
  { destruct (leb_not_nan _ _ T2) as [Nn _].
    pose proof (fpos_of_posnan _ Ha Nn) as Pa.
    pose proof (fnum_leb_rdwarf a T2 Pa) as Na.
    destruct (a <=? m3) eqn:T3.
    - destruct (a =? zero) eqn:T4; simpl.
      + intros [= <- <-]. constructor; simpl; auto.
      + pose proof (leb_spos a m3 (nonzero_spos a Pa T4) T3) as Sm.
        destruct (fdiv_le_one a m3 Pa Na Sm T3) as [Pd Ld].
        destruct (fmul_le_pow2 0 0 _ _ Pd Pd Ld Ld ltac:(lia)) as [Pt Lt].
        destruct (fadd_le_pow2 v3 _ F3 Pt F3l Lt) as [Ls _].
        intros [= <- <-]. constructor; simpl; auto using fpos_add.
    - destruct (small_new_spos a m3 Ha Fm3 T2 T3) as [Sa _].
      pose proof (leb_of_ltb _ _ (ltb_of_not_leb m3 a Fm3 Pa T3)) as Le.
      destruct (fdiv_le_one m3 a Fm3 Fn3 Sa Le) as [Pd Ld].
      destruct (fmul_le_pow2 0 0 _ _ Pd Pd Ld Ld ltac:(lia)) as [Pt Lt].
      destruct (fmul_le_pow2 54 0 _ _ F3 Pt F3l Lt ltac:(lia)) as [Pu Lu].
      destruct (fadd_le_pow2 _ one Pu eq_refl Lu fle_pow2_one) as [_ Ls].
      intros [= <- <-]. constructor; simpl; auto using fpos_add. }
  destruct (a <=? m1); intros [= <- <-]; constructor; simpl; auto.
Qed.

Lemma for_loop_inv_small (x : list float) (k : nat) : forall st st' divs,
  inv_small st -> for_loop k x st = Done st' divs -> inv_small st'.
Proof.
  induction k as [|k IH]; intros st st' divs I.
  - intros [= <- <-]. exact I.
  - cbn [for_loop]. intros H.
    apply bind_done_inv in H as (v & l1 & l2 & Hv & H & _).
    apply bind_done_inv in H as (st1 & l3 & l4 & B & L & _).
    apply (IH _ _ _ (inv_small_set_i _ _ (body_inv_small v st st1 l3 I B)) L).
Qed.

Lemma accumulators_ok_inv (st : locals) : inv st -> inv_small st -> accumulators_ok st.
Proof.
  intros [I2 I3m I1 _ I1m _] [F3 _ _ _ _].
  constructor; unfold ge0; auto using leb_zero_pos, ge0_or_nan_posnan.
Qed.

Lemma for_loop_one (x : list float) (st : locals) (v : float) st1 d1 :
  load x (i__ st) = ret v -> body v st = Done st1 d1 ->
  for_loop 1 x st = Done (set_i (i__ st1 + 1) st1) d1.
Proof.
  intros Hv B. cbn [for_loop]. rewrite Hv, bind_ret_l, B. simpl.
  rewrite app_nil_r. reflexivity.
Qed.

(** C7, counterexample: with a NaN element, [s1] and [x1max] become NaN
    after the iteration that reads it, so that [s1 >= 0] is false; and on
    [5e19; NaN; 2e19] the pivot [x1max] goes from [5e19] after the first
    iteration to [2e19] after the third. *)
Lemma accumulators_nan :
  (exists st,
     value (state_after fresh 1 [nan] 1) = Some st /\
     ge0 (s1 st) = false /\ ge0 (x1max st) = false) /\
  (exists st1 st3,
     value (state_after fresh 3 [5e19; nan; 2e19] 1) = Some st1 /\
     value (state_after fresh 3 [5e19; nan; 2e19] 3) = Some st3 /\
     (x1max st1 <=? x1max st3) = false /\ (x1max st3 <? x1max st1) = true).
Proof.
  split.
  - eexists. split; [vm_compute; reflexivity|]. split; vm_compute; reflexivity.
  - eexists _, _. split; [vm_compute; reflexivity|].
    split; [vm_compute; reflexivity|]. split; vm_compute; reflexivity.
Qed.

(** C7, amended: in a call on a vector [x] of finite numbers, of length
    [n], after each iteration [k + 1 <= n] of the loop [s1], [s2], [s3],
    [x1max] and [x3max] are non-negative, and [x1max] and [x3max] have not
    decreased during the iteration.  Whatever the elements: [s2], [s3] and
    [x3max] are non-negative and [x3max] has not decreased; [s1] and
    [x1max] are never negative (non-negative, or NaN); and when no
    element is a NaN, [x1max] is non-negative and has not decreased.  The
    value returned does not depend on what an earlier call left in the
    statics. *)
Theorem accumulators_invariant (st0 : locals) (x : list float) (k : nat) :
  (k < length x)%nat ->
  exists st st',
    value (state_after st0 (Z.of_nat (length x)) x k) = Some st /\
    value (state_after st0 (Z.of_nat (length x)) x (S k)) = Some st' /\
    accumulators_ok st' /\
    (x3max st <=? x3max st') = true /\
    (no_nan x -> ge0 (x1max st') = true /\ (x1max st <=? x1max st') = true) /\
    (all_finite x -> accumulators_nonneg st') /\
    (forall st1, result (enorm_ st1 (Z.of_nat (length x)) x)
                 = result (enorm_ st0 (Z.of_nat (length x)) x)).
Proof.
  intros Hk. set (n := Z.of_nat (length x)).
  rewrite !state_after_start, for_loop_succ.
  destruct (for_loop_inv x k (start n (xabs st0)))
    as (st & dl & L & I & _ & _ & Ei & N); [apply inv_start|simpl; lia|simpl; lia|].
  change (i__ (start n (xabs st0))) with 1%Z in Ei.
  destruct (load_in_range x (i__ st)) as (v & Hv & Hnth); [lia|].
  destruct (body_inv v st I) as (st1 & d1 & B & I1 & _ & _ & _ & M3 & N1).
  exists st, (set_i (i__ st1 + 1) st1).
  rewrite L. cbn [bind]. rewrite (for_loop_one x st v st1 d1 Hv B).
  split; [reflexivity|]. split; [reflexivity|].
  split.
  { apply accumulators_ok_inv; [destruct I1; constructor; assumption|].
    apply inv_small_set_i, (body_inv_small v st st1 d1); [|exact B].
    exact (for_loop_inv_small x k _ st dl (inv_small_start _ _) L). }
  split; [exact M3|]. split; [|split].
  - intros Hx. destruct (N Hx) as [P _]; [reflexivity|].
    destruct (N1 (no_nan_nth x _ v Hx Hnth) P) as (P1 & M1 & _).
    split; [apply leb_zero_pos, P1|exact M1].
  - intros Hx. apply accumulators_nonneg_fin, inv_fin_set_i.
    apply (body_inv_fin v st st1 d1); [|exact (all_finite_nth x _ v Hx Hnth)|exact B].
    apply (for_loop_inv_fin x k _ st dl Hx (inv_fin_start _ _) L).
  - intros st1'. apply enorm_stateless.
Qed.

Lemma accumulators_invariant_witness :
  exists st st',
    value (state_after stale (Z.of_nat (length [3e-30; 1; 5e19; 0])) [3e-30; 1; 5e19; 0] 2)
      = Some st /\
    value (state_after stale (Z.of_nat (length [3e-30; 1; 5e19; 0])) [3e-30; 1; 5e19; 0] 3)
      = Some st' /\
    accumulators_nonneg st' /\
    (x3max st <=? x3max st') = true /\ (x1max st <=? x1max st') = true.
Proof.
  destruct (accumulators_invariant stale [3e-30; 1; 5e19; 0] 2)
    as (st & st' & E & E' & _ & M3 & N & F & _); [simpl; lia|].
  exists st, st'. split; [exact E|]. split; [exact E'|].
  split; [apply F; repeat constructor|]. split; [exact M3|].
  apply N. repeat constructor.
Defined.

(** * Classification of the elements *)

Lemma ltb_of_not_leb_num (a b : float) :
  fnan a = false -> fnan b = false -> (b <=? a) = false -> (a <? b) = true.
Proof. intros Ha Hb. rewrite leb_spec, ltb_spec. apply SFleb_total; assumption. Qed.

Lemma body_update_code (xi : float) (st : locals) :
  inv st -> value (body xi st) = Some (update_code xi st).
Proof.
  intros [_ I3m _ _ _ _].
  unfold body, update_code, update_with, rescaled, accumulated.
  pose proof (fposnan_abs xi) as Ha.
  destruct st as [i v1 v2 v3 xa m1 m3 ag fl]; simpl in *.
  fold (dabs xi) in Ha. set (a := dabs xi) in *.
  destruct ((rdwarf <? a) && (a <? ag)); [reflexivity|].
  destruct (a <=? rdwarf) eqn:T2.
  - destruct (a <=? m3) eqn:T3.
    + rewrite (leb_ltb_excl m3 a T3). destruct (a =? zero); reflexivity.
    + destruct (leb_not_nan _ _ T2) as [Na _].
      rewrite (ltb_of_not_leb m3 a I3m (fpos_of_posnan a Ha Na) T3). reflexivity.
  - destruct (a <=? m1); reflexivity.
Qed.

Lemma update_code_spec (xi : float) (st : locals) :
  is_nan xi = false -> is_nan (x1max st) = false ->
  update_code xi st = update_spec xi st.
Proof.
  rewrite !is_nan_fnan. intros Nx Nm.
  unfold update_code, update_spec, update_with.
  rewrite <- fnan_abs in Nx. fold (dabs xi) in Nx.
  destruct st as [i v1 v2 v3 xa m1 m3 ag fl]; simpl in *.
  set (a := dabs xi) in *.
  destruct ((rdwarf <? a) && (a <? ag)); [reflexivity|].
  destruct (a <=? rdwarf); [reflexivity|].
  destruct (a <=? m1) eqn:T3; simpl.
  - rewrite (leb_ltb_excl m1 a T3). reflexivity.
  - rewrite (ltb_of_not_leb_num m1 a Nm Nx T3). reflexivity.
Qed.

Lemma update_code_set_i (j : Z) (xi : float) (st : locals) :
  update_code xi (set_i j st) = set_i j (update_code xi st).
Proof.
  unfold update_code, update_with.
  destruct st as [i v1 v2 v3 xa m1 m3 ag fl]; simpl.
  repeat match goal with |- context [if ?c then _ else _] => destruct c end;
    reflexivity.
Qed.

Lemma single_pass_set_i (j : Z) (x : list float) : forall st,
  single_pass update_code x (set_i j st) = set_i j (single_pass update_code x st).
Proof.
  induction x as [|v x IH]; intros st; [reflexivity|].
  unfold single_pass in *. simpl. rewrite update_code_set_i. apply IH.
Qed.

Lemma inv_update_code (xi : float) (st : locals) :
  inv st -> inv (update_code xi st) /\
  (is_nan xi = false -> fpos (x1max st) = true ->
   fpos (x1max (update_code xi st)) = true).
Proof.
  intros I. pose proof (body_update_code xi st I) as U.
  destruct (body_inv xi st I) as (st1 & d1 & B & I1 & _ & _ & _ & _ & N).
  rewrite B in U. injection U as <-. split; [exact I1|].
  rewrite is_nan_fnan. intros Nx P. apply N; assumption.
Qed.

Lemma load_app (pre x : list float) (v : float) :
  load (pre ++ v :: x) (Z.of_nat (length pre) + 1) = ret v.
Proof.
  unfold load.
  destruct (Z.ltb_spec (Z.of_nat (length pre) + 1) 1) as [E|E]; [lia|].
  replace (Z.to_nat (Z.of_nat (length pre) + 1 - 1)) with (length pre + 0)%nat by lia.
  rewrite nth_error_app2, Nat.add_comm by lia.
  rewrite Nat.add_sub. reflexivity.
Qed.

Lemma set_i_set_i (a b : Z) (st : locals) : set_i a (set_i b st) = set_i a st.
Proof. reflexivity. Qed.

Lemma for_loop_single_pass (x : list float) : forall pre st,
  inv st -> i__ st = (Z.of_nat (length pre) + 1)%Z ->
  exists d,
    for_loop (length x) (pre ++ x) st
    = Done (set_i (i__ st + Z.of_nat (length x)) (single_pass update_code x st)) d.
Proof.
  induction x as [|v x IH]; intros pre st I Hi.
  - exists []. simpl. rewrite Z.add_0_r. destruct st; reflexivity.
  - destruct (body_inv v st I) as (st1 & d1 & B & I1 & _ & _ & Ei & _).
    pose proof (body_update_code v st I) as U.
    rewrite B in U. injection U as ->.
    assert (I1' : inv (set_i (i__ st + 1) (update_code v st)))
      by (destruct I1; constructor; assumption).
    destruct (IH (pre ++ [v]) _ I1') as (d2 & L).
    { simpl. rewrite length_app. simpl. lia. }
    rewrite <- app_assoc in L. simpl app in L.
    exists (d1 ++ d2).
    cbn [length for_loop]. rewrite Hi at 1. rewrite load_app, bind_ret_l, B.
    cbn [bind]. rewrite Ei, L. f_equal.
    rewrite single_pass_set_i, set_i_set_i.
    change (i__ (set_i (i__ st + 1) (update_code v st))) with (i__ st + 1)%Z.
    unfold single_pass at 2. simpl fold_left. fold (single_pass update_code x).
    f_equal. lia.
Qed.

(** C5, counterexample: on a NaN element the program takes the branch that
    sets [x1max], which becomes NaN, whereas [xabs > x1max] is false and
    the classification as worded leaves [x1max] at [0]. *)
Lemma nan_sets_x1max :
  (exists st,
     value (state_after fresh 1 [nan] 1) = Some st /\ is_nan (x1max st) = true) /\
  x1max (single_pass update_spec [nan] (start 1 (xabs fresh))) = zero.
Proof.
  split; [eexists; split|]; vm_compute; reflexivity.
Qed.

Lemma single_pass_code_spec (x : list float) : forall st,
  inv st -> fpos (x1max st) = true -> no_nan x ->
  single_pass update_code x st = single_pass update_spec x st.
Proof.
  induction x as [|v x IH]; intros st I P Hx; [reflexivity|].
  inversion Hx as [|v' x' Nv Hx']; subst.
  destruct (inv_update_code v st I) as [I1 P1].
  unfold single_pass in *. simpl.
  rewrite <- (update_code_spec v st Nv)
    by (rewrite is_nan_fnan; apply fnan_of_pos, P).
  apply IH; auto.
Qed.

(** C5, amended: the loop is a single pass over the elements in index
    order, each classified from [xabs = |x[i]|] into exactly one bucket:
    intermediate iff [rdwarf < xabs < agiant] (then [s2 += xabs^2]); small
    iff [xabs <= rdwarf] (rescale [s3] and set [x3max] when
    [xabs > x3max], else add [(xabs/x3max)^2] to [s3] only when
    [xabs != 0]); otherwise large, where [s1] is rescaled and [x1max] set
    unless [xabs <= x1max] (so also when [xabs] or [x1max] is a NaN), else
    [s1 += (xabs/x1max)^2].  When no element is a NaN this is the
    classification with the test [xabs > x1max]. *)
Theorem classification_single_pass (st0 : locals) (x : list float) :
  value (state_after st0 (Z.of_nat (length x)) x (length x))
  = Some (set_i (Z.of_nat (length x) + 1)
            (single_pass update_code x
               (start (Z.of_nat (length x)) (xabs st0)))) /\
  (no_nan x ->
   single_pass update_code x (start (Z.of_nat (length x)) (xabs st0))
   = single_pass update_spec x (start (Z.of_nat (length x)) (xabs st0))) /\
  (forall xi st,
     is_nan xi = false -> is_nan (x1max st) = false ->
     update_code xi st = update_spec xi st).
Proof.
  set (n := Z.of_nat (length x)).
  split; [|split].
  - rewrite state_after_start.
    destruct (for_loop_single_pass x [] (start n (xabs st0))) as (d & L);
      [apply inv_start|reflexivity|].
    simpl app in L. change (i__ (start n (xabs st0))) with 1%Z in L.
    rewrite L. cbn [value]. fold n. rewrite (Z.add_comm 1 n). reflexivity.
  - intros Hx. apply single_pass_code_spec; auto using inv_start.
  - intros xi st. apply update_code_spec.
Qed.

Lemma classification_single_pass_witness :
  single_pass update_code [3e-30; 1; 5e19; 0]
    (start (Z.of_nat (length [3e-30; 1; 5e19; 0])) (xabs stale))
  = single_pass update_spec [3e-30; 1; 5e19; 0]
      (start (Z.of_nat (length [3e-30; 1; 5e19; 0])) (xabs stale)).
Proof.
  apply (proj1 (proj2 (classification_single_pass stale [3e-30; 1; 5e19; 0]))).
  repeat constructor.
Defined.

(** * A single nonzero element *)

Lemma combine_spec_set_i (j : Z) (st : locals) :
  combine_spec (set_i j st) = combine_spec st.
Proof. reflexivity. Qed.

Lemma combine_spec_set_xabs (v : float) (st : locals) :
  combine_spec (set_xabs v st) = combine_spec st.
Proof. reflexivity. Qed.

(** The value returned, from the pass over the elements. *)
Lemma enorm_result_single_pass (st0 : locals) (x : list float) :
  result (enorm_ st0 (Z.of_nat (length x)) x)
  = Some (combine_spec
            (single_pass update_code x (start (Z.of_nat (length x)) (xabs st0)))).
Proof.
  set (n := Z.of_nat (length x)).
  destruct (enorm_total st0 n x) as
    (st & dl & r & dc & L & C & E & I & _); [lia|].
  unfold n in L. rewrite Nat2Z.id in L. fold n in L.
  destruct (for_loop_single_pass x [] (start n (xabs st0))) as (d & L');
    [apply inv_start|reflexivity|].
  simpl app in L'. rewrite L in L'. injection L' as -> _.
  pose proof (calc_norm_spec _ I) as S. rewrite C in S. injection S as ->.
  unfold result. rewrite E. reflexivity.
Qed.

Lemma update_code_zero (z : float) (st : locals) :
  is_zero_elt z -> fpos (x3max st) = true ->
  update_code z st = set_xabs zero st.
Proof.
  intros Hz P. pose proof (ltb_zero_posnan _ (fposnan_of_pos _ P)) as T.
  unfold update_code, update_with.
  destruct st as [i v1 v2 v3 xa m1 m3 ag fl]; simpl in *.
  destruct Hz as [-> | ->].
  - change (dabs zero) with zero. change (rdwarf <? zero) with false.
    change (zero <=? rdwarf) with true. cbn iota. simpl andb. cbn iota.
    rewrite T. reflexivity.
  - change (dabs neg_zero) with zero. change (rdwarf <? zero) with false.
    change (zero <=? rdwarf) with true. cbn iota. simpl andb. cbn iota.
    rewrite T. reflexivity.
Qed.

Lemma single_pass_zeros (zs : list float) : forall st,
  Forall is_zero_elt zs -> fpos (x3max st) = true ->
  exists xa, single_pass update_code zs st = set_xabs xa st.
Proof.
  induction zs as [|z zs IH]; intros st Hz P.
  - exists (xabs st). destruct st; reflexivity.
  - inversion Hz as [|z' zs' Hz1 Hz2]; subst.
    unfold single_pass in *. simpl. rewrite (update_code_zero z st Hz1 P).
    destruct (IH (set_xabs zero st) Hz2 P) as (xa & E).
    exists xa. rewrite E. reflexivity.
Qed.

Ltac fields :=
  cbn [i__ s1 s2 s3 xabs x1max x3max agiant floatn
       set_i set_s1 set_s2 set_s3 set_xabs set_x1max set_x3max].

(** The accumulators after the first nonzero element, read from the state
    in which only zeros were seen, bucket by bucket. *)
Lemma first_intermediate (v : float) (i : Z) (xa ag fl : float) :
  (rdwarf <? dabs v) && (dabs v <? ag) = true ->
  sf_exp_le 12 (Prim2SF ag) = true ->
  update_code v (zstate i xa ag fl)
  = mkLocals i zero (dabs v * dabs v) zero (dabs v) zero zero ag fl /\
  fspos (dabs v * dabs v) = true /\
  sqrt (dabs v * dabs v) = dabs v.
Proof.
  intros T1 Hg. pose proof (fposnan_abs v) as Ha. fold (dabs v) in Ha.
  unfold update_code, update_with, zstate. fields. rewrite T1.
  apply andb_true_iff in T1 as [Ta Tb].
  destruct (ltb_not_nan _ _ Ta) as [_ Na].
  pose proof (fpos_of_posnan _ Ha Na) as Pa.
  pose proof (sqr_spos (dabs v) Pa Ta) as S2.
  rewrite (add_zero_l _ (fpos_of_spos _ S2)).
  split; [reflexivity|]. split; [exact S2|].
  exact (sqrt_sqr_intermediate (dabs v) ag Pa Ta Tb Hg).
Qed.

Lemma first_small (v : float) (i : Z) (xa ag fl : float) :
  (v =? zero) = false ->
  (rdwarf <? dabs v) && (dabs v <? ag) = false -> (dabs v <=? rdwarf) = true ->
  update_code v (zstate i xa ag fl)
  = mkLocals i zero zero one (dabs v) zero (dabs v) ag fl /\
  fspos (dabs v) = true.
Proof.
  intros Nz T1 T2. pose proof (fposnan_abs v) as Ha. fold (dabs v) in Ha.
  assert (Nza : (dabs v =? zero) = false).
  { revert Nz. unfold dabs. to_spec. sf_cases v; sf_trivial. }
  destruct (leb_not_nan _ _ T2) as [Na _].
  pose proof (nonzero_spos _ (fpos_of_posnan _ Ha Na) Nza) as Sa.
  unfold update_code, update_with, zstate. fields. rewrite T1, T2.
  rewrite ltb_zero_spos, Sa. unfold rescaled.
  rewrite (div_zero_spos _ Sa).
  change (one + zero * (zero * zero)) with one. auto.
Qed.

Lemma first_large (v : float) (i : Z) (xa ag fl : float) :
  (rdwarf <? dabs v) && (dabs v <? ag) = false -> (dabs v <=? rdwarf) = false ->
  (fnan v = false /\ fspos (dabs v) = true /\
   update_code v (zstate i xa ag fl)
   = mkLocals i one zero zero (dabs v) (dabs v) zero ag fl) \/
  (dabs v = nan /\
   update_code v (zstate i xa ag fl)
   = mkLocals i nan zero zero nan nan zero ag fl).
Proof.
  intros T1 T2. pose proof (fposnan_abs v) as Ha. fold (dabs v) in Ha.
  pose proof (fnan_abs v) as Hn. fold (dabs v) in Hn.
  pose proof (large_sposnan _ Ha T2) as La.
  assert (T3 : (dabs v <=? zero) = false).
  { revert La. unfold dabs. to_spec. sf_cases v; sf_trivial. }
  unfold update_code, update_with, zstate. fields. rewrite T1, T2, T3.
  cbn [negb]. unfold rescaled.
  destruct (fnan (dabs v)) eqn:Na.
  - right. rewrite (nan_unique _ Na). split; reflexivity.
  - left. pose proof (fspos_of_sposnan _ La Na) as Sa.
    rewrite (div_zero_spos _ Sa).
    change (one + zero * (zero * zero)) with one.
    repeat split; congruence.
Qed.

Lemma combine_first (v : float) (i : Z) (xa ag fl : float) :
  (v =? zero) = false -> sf_exp_le 12 (Prim2SF ag) = true ->
  fpos (x3max (update_code v (zstate i xa ag fl))) = true /\
  combine_spec (update_code v (zstate i xa ag fl)) = dabs v.
Proof.
  intros Nz Hg.
  destruct ((rdwarf <? dabs v) && (dabs v <? ag)) eqn:T1.
  { destruct (first_intermediate v i xa ag fl T1 Hg) as (-> & S2 & R).
    split; [reflexivity|]. unfold combine_spec. fields.
    change (zero =? zero) with true. cbn [negb].
    rewrite (sposnan_nonzero _ (fsposnan_of_spos _ S2)). cbn [negb].
    rewrite (leb_zero_pos _ (fpos_of_spos _ S2)).
    unfold norm_s2_form. cbn [a_sqrt a_mul a_add a_div a_one float_arith].
    rewrite (div_zero_spos _ S2).
    change (PrimFloat.one + zero * (zero * zero)) with one.
    rewrite mul_one_r. exact R. }
  destruct (dabs v <=? rdwarf) eqn:T2.
  { destruct (first_small v i xa ag fl Nz T1 T2) as [-> Sa].
    split; [apply fpos_of_spos, Sa|]. unfold combine_spec. fields.
    change (zero =? zero) with true. cbn [negb].
    change (sqrt one) with one. apply mul_one_r. }
  destruct (first_large v i xa ag fl T1 T2) as [(_ & Sa & ->)|(-> & ->)].
  - split; [reflexivity|]. unfold combine_spec. fields.
    change (one =? zero) with false. cbn [negb].
    rewrite !(div_zero_spos _ Sa).
    change (sqrt (one + zero)) with one. apply mul_one_r.
  - split; reflexivity.
Qed.

(** C9: on a vector (of a length that fits the integer type) whose
    elements are zeros except one, [v], which is not zero, [enorm_]
    returns exactly [|v|], whatever the bucket [v] falls into.  In the
    small and large buckets the scaled sum is exactly [1] and the pivot is
    [|v|]; in the intermediate bucket the value is the rounded root of the
    rounded square of [|v|], which in binary64 is [|v|] again. *)
Theorem single_nonzero_element (st0 : locals) (zs1 zs2 : list float) (v : float) :
  Forall is_zero_elt zs1 -> Forall is_zero_elt zs2 -> (v =? zero) = false ->
  (Z.of_nat (length (zs1 ++ v :: zs2)) < 2 ^ 63)%Z ->
  result (enorm_ st0 (Z.of_nat (length (zs1 ++ v :: zs2))) (zs1 ++ v :: zs2))
  = Some (dabs v).
Proof.
  intros H1 H2 Nz Hn. rewrite enorm_result_single_pass. f_equal.
  set (n := Z.of_nat (length (zs1 ++ v :: zs2))) in *.
  assert (Hn1 : (1 <= n)%Z) by (unfold n; rewrite length_app; simpl; lia).
  unfold single_pass. rewrite fold_left_app. cbn [fold_left].
  fold (single_pass update_code zs1 (start n (xabs st0))).
  destruct (single_pass_zeros zs1 (start n (xabs st0)) H1) as (xa & ->);
    [reflexivity|].
  change (set_xabs xa (start n (xabs st0)))
    with (zstate 1 xa (rgiant / float_of_integer n) (float_of_integer n)).
  destruct (combine_first v 1 xa (rgiant / float_of_integer n)
              (float_of_integer n) Nz (agiant_exp_le n (conj Hn1 Hn))) as [P C].
  fold (single_pass update_code zs2
          (update_code v (zstate 1 xa (rgiant / float_of_integer n)
                            (float_of_integer n)))).
  destruct (single_pass_zeros zs2 _ H2 P) as (xa' & ->).
  rewrite combine_spec_set_xabs. exact C.
Qed.

Lemma single_nonzero_element_witness :
  result (enorm_ stale (Z.of_nat (length ([zero] ++ (-0.1) :: [neg_zero; zero])))
            ([zero] ++ (-0.1) :: [neg_zero; zero]))
  = Some (dabs (-0.1)).
Proof.
  apply (single_nonzero_element stale [zero] [neg_zero; zero] (-0.1)).
  - repeat (constructor; [first [left; reflexivity|right; reflexivity]|]).
    constructor.
  - repeat (constructor; [first [left; reflexivity|right; reflexivity]|]).
    constructor.
  - reflexivity.
  - simpl. lia.
Defined.

(** * Values on concrete vectors *)

Example norm_3_4 : norm [3; 4] = Some 5.
Proof. vm_compute. reflexivity. Qed.

(** Squares of [1e300] overflow and squares of [1e-300] underflow; the
    scaled sums give a finite and a nonzero result. *)
Example norm_large : norm [1e300; 1e300] = Some 1.4142135623730951e300.
Proof. vm_compute. reflexivity. Qed.

Example norm_small : norm [1e-300; 1e-300] = Some 1.4142135623730952e-300.
Proof. vm_compute. reflexivity. Qed.

Example naive_squares : 1e300 * 1e300 = infinity /\ 1e-300 * 1e-300 = 0.
Proof. split; reflexivity. Qed.

Example norm_single : norm [3] = Some 3 /\ norm [-0.1; 0] = Some 0.1.
Proof. split; vm_compute; reflexivity. Qed.

Example norm_mixed : norm [1e250; 1e-250] = Some 1e250.
Proof. vm_compute. reflexivity. Qed.

Example norm_two_infinities : norm [infinity; infinity] = Some nan.
Proof. vm_compute. reflexivity. Qed.

(** On these vectors the value returned is within one unit of its last
    place of the Euclidean norm of the elements. *)
Example norm_accurate_here :
  forallb norm_within_ulp
    [ [3; 4]; [1e300; 1e300]; [1e-300; 1e-300]; [1e250; 1e-250];
      [1e-20; 1e-19]; [1; 2e19; 3e-30]; [5e-324; 5e-324];
      [1.7e308]; [0.1; 0.2; 0.3] ] = true.
Proof. vm_compute. reflexivity. Qed.

(** * Rounding to nearest, read on real numbers *)

Module Accuracy.

Import Stdlib.Reals.Reals Stdlib.micromega.Lra Real.
Local Open Scope R_scope.

Lemma Rabs_le_inv (a b : R) : Rabs a <= b -> - b <= a <= b.
Proof. unfold Rabs. destruct (Rcase_abs a); lra. Qed.

(** ** Powers of two *)

Lemma bpow_pos (e : Z) : 0 < bpow e.
Proof. unfold bpow. apply powerRZ_lt. lra. Qed.

Lemma bpow_add (a b : Z) : bpow (a + b) = bpow a * bpow b.
Proof. unfold bpow. apply powerRZ_add. lra. Qed.

Lemma bpow_nat (n : nat) : bpow (Z.of_nat n) = 2 ^ n.
Proof. unfold bpow. symmetry. apply pow_powerRZ. Qed.

Lemma bpow_IZR (e : Z) : (0 <= e)%Z -> bpow e = IZR (2 ^ e).
Proof.
  intros H. rewrite <- (Z2Nat.id e H) at 1. rewrite bpow_nat.
  rewrite <- (Z2Nat.id e H) at 2. rewrite <- pow_IZR. reflexivity.
Qed.

Lemma bpow_0 : bpow 0 = 1.
Proof. reflexivity. Qed.

Lemma bpow_1 : bpow 1 = 2.
Proof. apply powerRZ_1. Qed.

Lemma bpow_opp (e : Z) : bpow (- e) = / bpow e.
Proof.
  pose proof (bpow_pos e) as P. pose proof (bpow_add e (- e)) as A.
  rewrite Z.add_opp_diag_r, bpow_0 in A.
  apply (Rmult_eq_reg_l (bpow e)); [|lra].
  rewrite <- A. field. lra.
Qed.

Lemma bpow_ge_1 (e : Z) : (0 <= e)%Z -> 1 <= bpow e.
Proof.
  intros H. rewrite bpow_IZR by assumption. apply IZR_le.
  pose proof (Z.pow_pos_nonneg 2 e ltac:(lia) H). lia.
Qed.

Lemma bpow_le (a b : Z) : (a <= b)%Z -> bpow a <= bpow b.
Proof.
  intros H. replace b with (a + (b - a))%Z by lia. rewrite bpow_add.
  pose proof (bpow_pos a). pose proof (bpow_ge_1 (b - a) ltac:(lia)). nra.
Qed.

Lemma bpow_lt (a b : Z) : (a < b)%Z -> bpow a < bpow b.
Proof.
  intros H. replace b with (a + 1 + (b - a - 1))%Z by lia.
  rewrite !bpow_add, bpow_1.
  pose proof (bpow_pos a). pose proof (bpow_ge_1 (b - a - 1) ltac:(lia)). nra.
Qed.

Lemma bpow_succ (e : Z) : bpow (e + 1) = 2 * bpow e.
Proof. rewrite bpow_add, bpow_1. ring. Qed.

(** ** Locations under a shift *)

Lemma IZR_half (m : Z) :
  IZR m = 2 * IZR (m / 2) + (if Z.odd m then 1 else 0).
Proof.
  rewrite (Z.div_mod m 2) at 1 by discriminate.
  rewrite plus_IZR, mult_IZR, Zmod_odd. destruct (Z.odd m); reflexivity.
Qed.

Lemma shr_1_located (y : R) (mrs : shr_record) :
  (0 <= shr_m mrs)%Z -> rec_located y mrs -> rec_located (y / 2) (shr_1 mrs).
Proof.
  destruct mrs as [m r s]. cbn [shr_m]. intros Hm H.
  rewrite shr_1_spec by assumption.
  unfold rec_located in *. cbn [shr_m] in *.
  pose proof (IZR_half m) as E.
  destruct (Z.odd m), r, s; cbn in *; lra.
Qed.

Lemma shr_nat_located (n : nat) (y : R) (mrs : shr_record) :
  (0 <= shr_m mrs)%Z -> rec_located y mrs ->
  rec_located (y / 2 ^ n) (Nat.iter n shr_1 mrs) /\
  (0 <= shr_m (Nat.iter n shr_1 mrs))%Z.
Proof.
  intros Hm H. induction n as [|n [IH1 IH2]].
  - cbn. split; [|assumption]. replace (y / 1) with y by field. assumption.
  - cbn [Nat.iter]. split; [|apply shr_1_nonneg; assumption].
    replace (y / 2 ^ S n) with (y / 2 ^ n / 2).
    + apply shr_1_located; assumption.
    + cbn [pow]. field. apply pow_nonzero. lra.
Qed.

Lemma rec_located_of_loc (y : R) (m : Z) (l : location) :
  located y m l -> rec_located y (shr_record_of_loc m l).
Proof.
  unfold rec_located. rewrite loc_of_shr_record_of_loc, shr_m_of_loc. auto.
Qed.

Lemma shr_fexp_located (m e : Z) (l : location) (x : R) :
  (0 <= m)%Z -> located (x * bpow (- e)) m l ->
  rec_located (x * bpow (- snd (shr_fexp prec emax m e l)))
              (fst (shr_fexp prec emax m e l)).
Proof.
  intros Hm H. unfold shr_fexp, shr.
  destruct (fexp prec emax (Zdigits2 m + e) - e)%Z as [|p|p] eqn:E; cbn [fst snd];
    try (apply rec_located_of_loc; assumption).
  rewrite iter_pos_nat.
  replace (x * bpow (- (e + Zpos p))) with (x * bpow (- e) / 2 ^ Pos.to_nat p).
  - apply shr_nat_located.
    + rewrite shr_m_of_loc. assumption.
    + apply rec_located_of_loc. assumption.
  - rewrite Z.opp_add_distr, bpow_add, (bpow_opp (Zpos p)).
    rewrite <- (positive_nat_Z p), bpow_nat. field. apply pow_nonzero. lra.
Qed.

(** ** Rounding a located number *)

Lemma rne_located (y : R) (m : Z) (l : location) :
  located y m l ->
  Rabs (IZR (round_nearest_even m l) - y) <= / 2 /\
  (forall j : Z, y <= IZR j -> (round_nearest_even m l <= j)%Z) /\
  (forall j : Z, IZR j <= y -> (j <= round_nearest_even m l)%Z).
Proof.
  intros H.
  assert (U : forall j : Z, IZR m < IZR j -> (m + 1 <= j)%Z).
  { intros j Hj. apply lt_IZR in Hj. lia. }
  assert (L : forall j : Z, IZR j < IZR m + 1 -> (j <= m)%Z).
  { intros j Hj. rewrite <- plus_IZR in Hj. apply lt_IZR in Hj. lia. }
  destruct l as [|[| |]]; cbn in *.
  - subst y. replace (IZR m - IZR m) with 0 by ring. rewrite Rabs_R0.
    repeat split; [lra| |]; intros j Hj; apply le_IZR; assumption.
  - assert (A : forall j : Z, y <= IZR j -> (m + 1 <= j)%Z) by (intros; apply U; lra).
    assert (B : forall j : Z, IZR j <= y -> (j <= m)%Z) by (intros; apply L; lra).
    destruct (Z.even m); rewrite ?plus_IZR; repeat split;
      try (apply Rabs_le; lra); intros j Hj;
      try (specialize (A j Hj)); try (specialize (B j Hj)); lia.
  - repeat split; [apply Rabs_le; lra| |].
    + intros j Hj. assert (m + 1 <= j)%Z by (apply U; lra). lia.
    + intros j Hj. apply L. lra.
  - rewrite plus_IZR. repeat split; [apply Rabs_le; lra| |].
    + intros j Hj. apply U. lra.
    + intros j Hj. assert (j <= m)%Z by (apply L; lra). lia.
Qed.

(** ** The two stages of [binary_round_aux] *)

Lemma encode_second_stage (M e1 : Z) :
  (0 <= M <= 2 ^ 53)%Z -> (-1074 <= e1)%Z ->
  (let '(mrs, e2) := shr_fexp prec emax M e1 loc_Exact in
   match shr_m mrs with
   | Z0 => S754_zero false
   | Zpos m => if (e2 <=? emax - prec)%Z then S754_finite false m e2
               else S754_infinity false
   | Zneg _ => S754_nan
   end) = encode M e1.
Proof.
  intros HM He. unfold encode.
  destruct (Z.eqb_spec M 0) as [->|N0].
  { unfold shr_fexp, shr. cbn [Zdigits2]. rewrite fexp_64.
    destruct (Z.max (0 + e1 - 53) (-1074) - e1)%Z eqn:E; try lia; reflexivity. }
  destruct (Z.eqb_spec M (2 ^ 53)) as [->|N1].
  { change (2 ^ 53)%Z with 9007199254740992%Z.
    rewrite shr_fexp_carry by assumption. cbn [shr_m].
    change (emax - prec)%Z with 971%Z. reflexivity. }
  destruct M as [|p|p]; try lia.
  assert (D : (Zdigits2 (Zpos p) <= 53)%Z) by (apply Zdigits2_le; lia).
  unfold shr_fexp, shr. rewrite fexp_64.
  destruct (Z.max (Zdigits2 (Zpos p) + e1 - 53) (-1074) - e1)%Z eqn:E; try lia;
    cbn [shr_record_of_loc shr_m]; change (emax - prec)%Z with 971%Z;
    rewrite Pos2Z.id; reflexivity.
Qed.

Lemma encode_valid (M e1 : Z) :
  (0 <= M <= 2 ^ 53)%Z -> (-1074 <= e1)%Z -> (-1074 < e1 -> 2 ^ 52 <= M)%Z ->
  valid_binary (encode M e1) = true.
Proof.
  intros HM He Hn. unfold encode.
  destruct (Z.eqb_spec M 0) as [->|N0]; [reflexivity|].
  destruct (Z.eqb_spec M (2 ^ 53)) as [->|N1].
  { destruct (Z.leb_spec (e1 + 1) 971); [|reflexivity].
    cbn [valid_binary]. unfold SpecFloat.bounded, SpecFloat.canonical_mantissa.
    change (Zpos (digits2_pos (Z.to_pos (2 ^ 52)))) with 53%Z.
    rewrite fexp_64. change (emax - prec)%Z with 971%Z.
    apply andb_true_intro. split; [apply Z.eqb_eq|apply Z.leb_le]; lia. }
  destruct (Z.leb_spec e1 971); [|reflexivity].
  destruct M as [|p|p]; try lia.
  cbn [valid_binary]. rewrite Pos2Z.id. unfold SpecFloat.bounded, SpecFloat.canonical_mantissa.
  rewrite fexp_64. change (emax - prec)%Z with 971%Z.
  assert (D : (Zdigits2 (Zpos p) <= 53)%Z) by (apply Zdigits2_le; lia).
  cbn [Zdigits2] in D.
  apply andb_true_intro. split; [apply Z.eqb_eq|apply Z.leb_le; lia].
  destruct (Z.eq_dec e1 (-1074)) as [->|Ne]; [lia|].
  assert (53 <= Zpos (digits2_pos p))%Z by (apply Zdigits2_ge; apply Hn; lia).
  lia.
Qed.

Lemma encode_value (M e1 : Z) :
  (0 <= M)%Z -> sf_num (encode M e1) = true ->
  SF2R (encode M e1) = IZR M * bpow e1.
Proof.
  intros HM. unfold encode.
  destruct (Z.eqb_spec M 0) as [->|N0]; [intros _; cbn; ring|].
  destruct (Z.eqb_spec M (2 ^ 53)) as [->|N1].
  { destruct (e1 + 1 <=? 971)%Z; [intros _|discriminate].
    cbn [SF2R cond_Zopp]. rewrite bpow_succ.
    change (Zpos (Z.to_pos (2 ^ 52))) with (2 ^ 52)%Z.
    change (2 ^ 53)%Z with (2 * 2 ^ 52)%Z. rewrite mult_IZR. ring. }
  destruct (e1 <=? 971)%Z; [intros _|discriminate].
  cbn [SF2R cond_Zopp]. rewrite Z2Pos.id by lia. reflexivity.
Qed.

Lemma encode_finite (M e1 : Z) :
  (0 <= M <= 2 ^ 53)%Z -> (-1074 <= e1)%Z -> (-1074 < e1 -> 2 ^ 52 <= M)%Z ->
  IZR M * bpow e1 < bpow 1024 -> sf_num (encode M e1) = true.
Proof.
  intros HM He Hn Hlt. unfold encode.
  destruct (Z.eqb_spec M 0) as [->|N0]; [reflexivity|].
  assert (B : forall k : Z, (2 ^ k <= M)%Z -> (0 <= k)%Z -> (k + e1 < 1024)%Z).
  { intros k Hk K0. destruct (Z.lt_ge_cases (k + e1) 1024) as [|G]; [assumption|].
    exfalso. apply (bpow_le 1024 (k + e1)) in G. rewrite bpow_add in G.
    rewrite (bpow_IZR k K0) in G. apply IZR_le in Hk.
    pose proof (bpow_pos e1). nra. }
  destruct (Z.eqb_spec M (2 ^ 53)) as [->|N1].
  { specialize (B 53%Z ltac:(lia) ltac:(lia)).
    destruct (Z.leb_spec (e1 + 1) 971); [reflexivity|lia]. }
  destruct (Z.leb_spec e1 971); [reflexivity|].
  specialize (B 52%Z ltac:(apply Hn; lia) ltac:(lia)). lia.
Qed.

Lemma encode_pos (M e1 : Z) : sf_pos (encode M e1) = true.
Proof.
  unfold encode. destruct (M =? 0)%Z; [reflexivity|].
  destruct (M =? 2 ^ 53)%Z; [destruct (e1 + 1 <=? 971)%Z|destruct (e1 <=? 971)%Z];
    reflexivity.
Qed.

Lemma binary_round_aux_encode (m e : Z) (l : location) (x : R) :
  (0 <= m)%Z -> located (x * bpow (- e)) m l ->
  (e <= fexp prec emax (Zdigits2 m + e))%Z ->
  exists M : Z,
    binary_round_aux prec emax false m e l
    = encode M (fexp prec emax (Zdigits2 m + e)) /\
    (0 <= M <= 2 ^ 53)%Z /\
    (-1074 < fexp prec emax (Zdigits2 m + e) -> 2 ^ 52 <= M)%Z /\
    Rabs (IZR M - x * bpow (- fexp prec emax (Zdigits2 m + e))) <= / 2 /\
    (forall j : Z, x * bpow (- fexp prec emax (Zdigits2 m + e)) <= IZR j -> (M <= j)%Z) /\
    (forall j : Z, IZR j <= x * bpow (- fexp prec emax (Zdigits2 m + e)) -> (j <= M)%Z).
Proof.
  intros Hm Hl He.
  pose proof (shr_fexp_div m e l Hm) as [S1 S2].
  pose proof (shr_fexp_bound m e l Hm) as [S3 _].
  pose proof (shr_fexp_located m e l x Hm Hl) as S4.
  rewrite Z.max_r in S1, S2 by assumption.
  set (e1 := fexp prec emax (Zdigits2 m + e)) in *.
  assert (E1 : (-1074 <= e1)%Z) by (unfold e1; rewrite fexp_64; lia).
  unfold binary_round_aux.
  destruct (shr_fexp prec emax m e l) as [mrs1 e1'] eqn:E. cbn [fst snd] in *.
  subst e1'.
  destruct (rne_located _ _ _ S4) as (R1 & R2 & R3).
  pose proof (round_nearest_even_ge (shr_m mrs1) (loc_of_shr_record mrs1)) as G.
  pose proof (round_nearest_even_le (shr_m mrs1) (loc_of_shr_record mrs1)) as L.
  set (M := round_nearest_even (shr_m mrs1) (loc_of_shr_record mrs1)) in *.
  exists M. split; [apply encode_second_stage; lia|].
  split; [lia|]. split; [|auto].
  intros N. apply Z.le_trans with (2 := G). rewrite S2.
  destruct m as [|p|p]; try lia.
  { exfalso. unfold e1 in N, He. cbn [Zdigits2] in N, He. rewrite fexp_64 in N, He. lia. }
  pose proof (digits2_pos_lower p) as Lp.
  unfold e1 in *. cbn [Zdigits2] in *. rewrite fexp_64 in *.
  set (d := Zpos (digits2_pos p)) in *.
  replace (Z.max (d + e - 53) (-1074) - e)%Z with (d - 53)%Z by lia.
  apply Z.div_le_lower_bound; [apply Z.pow_pos_nonneg; lia|].
  rewrite <- Z.pow_add_r by lia. replace (d - 53 + 52)%Z with (d - 1)%Z by lia.
  assumption.
Qed.

Lemma located_ge (y : R) (m : Z) (l : location) : located y m l -> IZR m <= y.
Proof. destruct l as [|[| |]]; cbn; lra. Qed.

Lemma located_lt (y : R) (m : Z) (l : location) : located y m l -> y < IZR m + 1.
Proof. destruct l as [|[| |]]; cbn; lra. Qed.

Lemma scaled_back (x : R) (e : Z) : x * bpow (- e) * bpow e = x.
Proof. rewrite bpow_opp. field. pose proof (bpow_pos e). lra. Qed.

Lemma omega_lt : omega < bpow 1024.
Proof. unfold omega. pose proof (bpow_pos 970). lra. Qed.

(** Rounding to nearest: the value returned by [binary_round_aux] for a
    located real number below the overflow threshold. *)
Lemma binary_round_aux_rounded (m e : Z) (l : location) (x : R) :
  (0 <= m)%Z -> located (x * bpow (- e)) m l ->
  (e <= fexp prec emax (Zdigits2 m + e))%Z -> x < omega ->
  sf_rounded x (binary_round_aux prec emax false m e l).
Proof.
  intros Hm Hl He Hx.
  destruct (binary_round_aux_encode m e l x Hm Hl He)
    as (M & -> & HM & Hn & Herr & Hup & Hlo).
  set (e1 := fexp prec emax (Zdigits2 m + e)) in *.
  assert (E1 : (-1074 <= e1)%Z) by (unfold e1; rewrite fexp_64; lia).
  pose proof (located_ge _ _ _ Hl) as Lg.
  pose proof (bpow_pos e) as Pe. pose proof (bpow_pos e1) as Pe1.
  assert (Xe : IZR m * bpow e <= x).
  { rewrite <- (scaled_back x e). apply Rmult_le_compat_r; lra. }
  assert (X0 : 0 <= x).
  { apply Rle_trans with (2 := Xe). apply Rmult_le_pos; [apply IZR_le; lia|lra]. }
  assert (Big : (-1074 < e1)%Z -> bpow (e1 + 52) <= x).
  { intros N. apply Rle_trans with (2 := Xe).
    destruct m as [|p|p]; try lia.
    { exfalso. unfold e1 in N, He. cbn [Zdigits2] in N, He.
      rewrite fexp_64 in N, He. lia. }
    pose proof (digits2_pos_lower p) as Lp.
    unfold e1 in *. cbn [Zdigits2] in *. rewrite fexp_64 in *.
    set (d := Zpos (digits2_pos p)) in *.
    replace (Z.max (d + e - 53) (-1074) + 52)%Z with ((d - 1) + e)%Z by lia.
    rewrite bpow_add, (bpow_IZR (d - 1)) by lia.
    apply Rmult_le_compat_r; [lra|]. apply IZR_le. assumption. }
  set (y1 := x * bpow (- e1)) in *.
  assert (Xy : x = y1 * bpow e1) by (unfold y1; rewrite scaled_back; reflexivity).
  apply Rabs_le_inv in Herr.
  assert (Half : bpow e1 * / 2 = bpow (e1 - 1)).
  { replace e1 with (e1 - 1 + 1)%Z at 1 by lia. rewrite bpow_succ. field. }
  assert (Fin : IZR M * bpow e1 < bpow 1024).
  { destruct (Z.le_gt_cases e1 971) as [Le|Gt].
    - apply Rle_lt_trans with (x + bpow 970); [|unfold omega in Hx; lra].
      pose proof (bpow_le (e1 - 1) 970 ltac:(lia)). rewrite Xy. nra.
    - exfalso. pose proof (Big ltac:(lia)) as B.
      pose proof (bpow_le 1024 (e1 + 52) ltac:(lia)). pose proof omega_lt. lra. }
  pose proof (encode_finite M e1 HM E1 Hn Fin) as Num.
  pose proof (encode_value M e1 ltac:(lia) Num) as Val.
  split; [apply encode_valid; assumption|].
  split; [assumption|]. split; [apply encode_pos|].
  rewrite Val. split.
  { intros Zx. assert (M <= 0)%Z by (apply Hup; unfold y1; rewrite Zx; cbn; lra).
    replace M with 0%Z by lia. cbn. ring. }
  split.
  { intros k Hk. split; intros Hxk.
    - destruct (Z.le_gt_cases 1024 k) as [K|K].
      { pose proof (bpow_le 1024 k K). lra. }
      assert (Ke : (e1 <= k)%Z).
      { destruct (Z.eq_dec e1 (-1074)) as [Eq|Ne]; [lia|].
        destruct (Z.le_gt_cases e1 k) as [|G]; [assumption|exfalso].
        pose proof (Big ltac:(lia)). pose proof (bpow_lt k (e1 + 52) ltac:(lia)). lra. }
      assert (Hj : y1 <= IZR (2 ^ (k - e1))).
      { rewrite <- bpow_IZR by lia. unfold y1.
        replace (k - e1)%Z with (k + - e1)%Z by lia. rewrite bpow_add.
        apply Rmult_le_compat_r; [pose proof (bpow_pos (- e1)); lra|exact Hxk]. }
      apply Hup, IZR_le in Hj. rewrite <- bpow_IZR in Hj by lia.
      replace (bpow k) with (bpow (k - e1) * bpow e1)
        by (rewrite <- bpow_add; f_equal; lia).
      apply Rmult_le_compat_r; lra.
    - destruct (Z.le_gt_cases e1 k) as [Ke|Ke].
      + assert (Hj : IZR (2 ^ (k - e1)) <= y1).
        { rewrite <- bpow_IZR by lia. unfold y1.
          replace (k - e1)%Z with (k + - e1)%Z by lia. rewrite bpow_add.
          apply Rmult_le_compat_r; [pose proof (bpow_pos (- e1)); lra|exact Hxk]. }
        apply Hlo, IZR_le in Hj. rewrite <- bpow_IZR in Hj by lia.
        replace (bpow k) with (bpow (k - e1) * bpow e1)
          by (rewrite <- bpow_add; f_equal; lia).
        apply Rmult_le_compat_r; lra.
      + specialize (Hn ltac:(lia)). apply IZR_le in Hn.
        rewrite <- bpow_IZR in Hn by lia.
        apply Rle_trans with (bpow 52 * bpow e1).
        * rewrite <- bpow_add. apply bpow_le. lia.
        * apply Rmult_le_compat_r; lra. }
  destruct (Rle_lt_dec (bpow (-1022)) x) as [Nrm|Sub].
  - left.
    assert (B : bpow (e1 + 52) <= x).
    { destruct (Z.eq_dec e1 (-1074)) as [Eq|Ne]; [rewrite Eq; exact Nrm|apply Big; lia]. }
    assert (By : IZR (2 ^ 52) <= y1).
    { rewrite bpow_add, (bpow_IZR 52) in B by lia. rewrite Xy in B. nra. }
    pose proof (Hlo _ By) as M52. apply IZR_le in M52.
    assert (U : bpow e1 * / 2 = bpow (e1 + 52) * u).
    { unfold u. rewrite <- bpow_add, Half. f_equal. lia. }
    assert (V52 : bpow (e1 + 52) <= IZR M * bpow e1).
    { rewrite bpow_add, (bpow_IZR 52), Rmult_comm by lia. nra. }
    unfold within. rewrite pow_1. pose proof (bpow_pos (-53)) as Pu. fold u in Pu.
    split; rewrite Xy in *; nra.
  - right. split; [assumption|].
    assert (e1 = -1074)%Z as Eq.
    { destruct (Z.eq_dec e1 (-1074)) as [Eq|Ne]; [assumption|exfalso].
      pose proof (Big ltac:(lia)). pose proof (bpow_le (-1022) (e1 + 52) ltac:(lia)). lra. }
    unfold eta. replace (-1075)%Z with (e1 - 1)%Z by lia. rewrite <- Half.
    apply Rabs_le. rewrite Xy. nra.
Qed.

(** ** The operations on non-negative finite numbers *)

Lemma u_pos : 0 < u.
Proof. apply bpow_pos. Qed.

Lemma within_refl (a : R) : within 0 a a.
Proof. unfold within. cbn. lra. Qed.

Lemma within_same (m : nat) (a : R) : 0 <= a -> within m a a.
Proof.
  intros H. unfold within.
  assert (1 <= (1 + u) ^ m) by (apply pow_R1_Rle; pose proof u_pos; lra).
  nra.
Qed.

Lemma SF2R_finite (m : positive) (e : Z) :
  SF2R (S754_finite false m e) = IZR (Zpos m) * bpow e.
Proof. reflexivity. Qed.

Lemma SF2R_nonneg (f : spec_float) : sf_pos f = true -> 0 <= SF2R f.
Proof.
  destruct f as [s|s| |s m e]; cbn; try lra. destruct s; [discriminate|intros _].
  cbn. apply Rmult_le_pos; [apply IZR_le; lia|pose proof (bpow_pos e); lra].
Qed.

Lemma sf_rounded_exact (f : spec_float) :
  valid_binary f = true -> sf_num f = true -> sf_pos f = true ->
  sf_rounded (SF2R f) f.
Proof.
  intros V N P. repeat split; auto. left. apply within_same, SF2R_nonneg, P.
Qed.

Lemma sf_rounded_zero : sf_rounded 0 (S754_zero false).
Proof. apply (sf_rounded_exact (S754_zero false)); reflexivity. Qed.

Lemma digits2_pos_mul (p q : positive) :
  (Zpos (digits2_pos p) + Zpos (digits2_pos q) - 1
   <= Zpos (digits2_pos (p * q)))%Z.
Proof.
  apply Zdigits2_ge.
  pose proof (digits2_pos_lower p) as Lp. pose proof (digits2_pos_lower q) as Lq.
  replace (Zpos (digits2_pos p) + Zpos (digits2_pos q) - 1 - 1)%Z
    with ((Zpos (digits2_pos p) - 1) + (Zpos (digits2_pos q) - 1))%Z by lia.
  rewrite Z.pow_add_r by lia. rewrite Pos2Z.inj_mul.
  apply Z.mul_le_mono_nonneg; try assumption; apply Z.pow_nonneg; lia.
Qed.

Lemma bounded_digits (m : positive) (e : Z) :
  SpecFloat.bounded prec emax m e = true ->
  (-1074 <= e <= 971)%Z /\ (Zpos (digits2_pos m) <= 53)%Z /\
  (-1074 < e -> Zpos (digits2_pos m) = 53)%Z.
Proof.
  intros B. unfold SpecFloat.bounded, SpecFloat.canonical_mantissa in B.
  apply andb_prop in B as [C L]. apply Z.eqb_eq in C. apply Z.leb_le in L.
  rewrite fexp_64 in C. change (emax - prec)%Z with 971%Z in L. lia.
Qed.

Lemma SFmul_rounded (x y : spec_float) :
  valid_binary x = true -> valid_binary y = true ->
  sf_num x = true -> sf_num y = true -> sf_pos x = true -> sf_pos y = true ->
  SF2R x * SF2R y < omega ->
  sf_rounded (SF2R x * SF2R y) (SFmul prec emax x y).
Proof.
  destruct x as [[|]|[|]| |[|] mx ex]; try discriminate;
    destruct y as [[|]|[|]| |[|] my ey]; try discriminate;
    intros Vx Vy _ _ _ _ Hx; cbn [SFmul xorb SF2R];
    rewrite ?Rmult_0_l, ?Rmult_0_r; try apply sf_rounded_zero.
  cbn [valid_binary] in Vx, Vy.
  apply bounded_digits in Vx as (Ex & Dx & Nx), Vy as (Ey & Dy & Ny).
  pose proof (digits2_pos_mul mx my) as D.
  assert (P1 : (1 <= Zpos (digits2_pos mx))%Z) by lia.
  assert (P2 : (1 <= Zpos (digits2_pos my))%Z) by lia.
  apply binary_round_aux_rounded; [lia| | |exact Hx].
  - cbn [located cond_Zopp]. rewrite Pos2Z.inj_mul, mult_IZR.
    rewrite Z.opp_add_distr, bpow_add, !bpow_opp.
    field. pose proof (bpow_pos ex). pose proof (bpow_pos ey). lra.
  - cbn [Zdigits2]. rewrite fexp_64. lia.
Qed.

Lemma binary_round_rounded (p : positive) (e : Z) :
  IZR (Zpos p) * bpow e < omega ->
  sf_rounded (IZR (Zpos p) * bpow e) (binary_round prec emax false p e).
Proof.
  intros Hx. unfold binary_round, shl_align.
  destruct (fexp prec emax (Zpos (digits2_pos p) + e) - e)%Z as [|k|k] eqn:E.
  - apply binary_round_aux_rounded; [lia| |cbn [Zdigits2]; lia|exact Hx].
    cbn [located]. rewrite Rmult_assoc, bpow_opp. field.
    pose proof (bpow_pos e). lra.
  - apply binary_round_aux_rounded; [lia| |cbn [Zdigits2]; lia|exact Hx].
    cbn [located]. rewrite Rmult_assoc, bpow_opp. field.
    pose proof (bpow_pos e). lra.
  - apply binary_round_aux_rounded; [lia| | |exact Hx].
    + cbn [located]. rewrite pos_iter_xO, mult_IZR.
      replace (fexp prec emax (Zpos (digits2_pos p) + e)) with (e - Zpos k)%Z by lia.
      replace (- (e - Zpos k))%Z with (- e + Zpos k)%Z by lia.
      rewrite bpow_add, bpow_opp, (bpow_IZR (Zpos k)) by lia. field.
      pose proof (bpow_pos e). lra.
    + cbn [Zdigits2]. rewrite digits2_pos_iter_xO.
      replace (Zpos (digits2_pos p) + Zpos k
               + fexp prec emax (Zpos (digits2_pos p) + e))%Z
        with (Zpos (digits2_pos p) + e)%Z by lia.
      lia.
Qed.

Lemma SFadd_rounded (x y : spec_float) :
  valid_binary x = true -> valid_binary y = true ->
  sf_num x = true -> sf_num y = true -> sf_pos x = true -> sf_pos y = true ->
  SF2R x + SF2R y < omega ->
  sf_rounded (SF2R x + SF2R y) (SFadd prec emax x y).
Proof.
  destruct x as [[|]|[|]| |[|] mx ex]; try discriminate;
    destruct y as [[|]|[|]| |[|] my ey]; try discriminate;
    intros Vx Vy _ _ _ _ Hx; cbn [SFadd].
  - cbn [SF2R]. rewrite Rplus_0_l. apply sf_rounded_zero.
  - cbn [SF2R]. rewrite Rplus_0_l.
    apply (sf_rounded_exact (S754_finite false my ey)); auto.
  - cbn [SF2R]. rewrite Rplus_0_r.
    apply (sf_rounded_exact (S754_finite false mx ex)); auto.
  - cbn [cond_Zopp].
    pose proof (shl_align_value mx ex (Z.min ex ey) ltac:(lia)) as Ax.
    pose proof (shl_align_value my ey (Z.min ex ey) ltac:(lia)) as Ay.
    set (ez := Z.min ex ey) in *.
    set (a := fst (shl_align mx ex ez)) in *.
    set (b := fst (shl_align my ey ez)) in *.
    change (Zpos a + Zpos b)%Z with (Zpos (a + b)). cbn [binary_normalize].
    assert (E : SF2R (S754_finite false mx ex) + SF2R (S754_finite false my ey)
                = IZR (Zpos (a + b)) * bpow ez).
    { rewrite Pos2Z.inj_add, plus_IZR, Ax, Ay, !mult_IZR.
      rewrite <- !(bpow_IZR) by lia. cbn [SF2R cond_Zopp].
      rewrite Rmult_plus_distr_r, !Rmult_assoc, <- !bpow_add.
      replace (ex - ez + ez)%Z with ex by lia.
      replace (ey - ez + ez)%Z with ey by lia. reflexivity. }
    rewrite E in *. apply binary_round_rounded. exact Hx.
Qed.

Lemma new_location_located (n r q : Z) :
  (0 < n)%Z -> (0 <= r < n)%Z ->
  located (IZR q + IZR r / IZR n) q (new_location n r).
Proof.
  intros Hn Hr.
  assert (Pn : 0 < IZR n) by (apply IZR_lt; lia).
  unfold new_location.
  destruct (Z.eq_dec r 0) as [->|N0].
  { replace (IZR q + 0 / IZR n) with (IZR q) by (field; lra).
    destruct (Z.even n); reflexivity. }
  set (rho := IZR r / IZR n).
  assert (Er : rho * IZR n = IZR r) by (unfold rho; field; lra).
  assert (R1 : IZR r < IZR n) by (apply IZR_lt; lia).
  assert (R0 : 0 < IZR r) by (apply IZR_lt; lia).
  assert (P0 : 0 < rho) by (unfold rho; apply Rdiv_lt_0_compat; lra).
  assert (P1 : rho < 1) by nra.
  assert (Lt2 : (2 * r < n)%Z -> rho < / 2).
  { intros C. apply IZR_lt in C. rewrite mult_IZR in C. nra. }
  assert (Gt2 : (n < 2 * r)%Z -> / 2 < rho).
  { intros C. apply IZR_lt in C. rewrite mult_IZR in C. nra. }
  apply Z.eqb_neq in N0.
  destruct (Z.even n) eqn:Ev; unfold new_location_even, new_location_odd;
    rewrite N0.
  - destruct (Z.compare_spec (2 * r) n) as [C|C|C]; cbn [located].
    + apply (f_equal IZR) in C. rewrite mult_IZR in C.
      assert (rho = / 2) by nra. lra.
    + specialize (Lt2 C). lra.
    + specialize (Gt2 C). lra.
  - assert (Ne : (2 * r <> n)%Z).
    { intros <-. rewrite Z.even_mul in Ev. discriminate. }
    destruct (Z.compare_spec (2 * r + 1) n) as [C|C|C]; cbn [located].
    + specialize (Lt2 ltac:(lia)). lra.
    + specialize (Lt2 ltac:(lia)). lra.
    + specialize (Gt2 ltac:(lia)). lra.
Qed.

Lemma SFdiv_rounded (x y : spec_float) :
  valid_binary x = true -> valid_binary y = true ->
  sf_num x = true -> sf_pos x = true -> sf_num y = true -> sf_spos y = true ->
  SF2R x / SF2R y < omega ->
  sf_rounded (SF2R x / SF2R y) (SFdiv prec emax x y).
Proof.
  destruct y as [[|]|[|]| |[|] m2 e2]; try discriminate.
  destruct x as [[|]|[|]| |[|] m1 e1]; try discriminate;
    intros Vx Vy _ _ _ _ Hx.
  { cbn [SFdiv xorb SF2R]. unfold Rdiv. rewrite Rmult_0_l. apply sf_rounded_zero. }
  cbn [SFdiv xorb]. unfold SFdiv_core_binary, Zdigits2.
  pose proof (digits2_pos_lower m1) as L1. pose proof (digits2_pos_upper m2) as U2.
  set (d1 := Zpos (digits2_pos m1)) in *. set (d2 := Zpos (digits2_pos m2)) in *.
  assert (Pd1 : (0 < d1)%Z) by (unfold d1; lia).
  assert (Pd2 : (0 < d2)%Z) by (unfold d2; lia).
  rewrite fexp_64.
  set (e' := Z.min (Z.max (d1 + e1 - (d2 + e2) - 53) (-1074)) (e1 - e2)).
  set (m' := match (e1 - e2 - e')%Z with
             | Zpos _ => Z.shiftl (Zpos m1) (e1 - e2 - e')
             | 0%Z => Zpos m1
             | Zneg _ => 0%Z
             end).
  assert (Em' : m' = (Zpos m1 * 2 ^ (e1 - e2 - e'))%Z).
  { unfold m'. destruct (e1 - e2 - e')%Z as [|k|k] eqn:Ek; try lia.
    apply Z.shiftl_mul_pow2. lia. }
  assert (P : (0 < 2 ^ (e1 - e2 - e'))%Z) by (apply Z.pow_pos_nonneg; lia).
  assert (Hm0 : (0 < m')%Z) by (rewrite Em'; lia).
  pose proof (Z.div_eucl_eq m' (Zpos m2) ltac:(lia)) as Ed.
  pose proof (Z.mod_pos_bound m' (Zpos m2) ltac:(lia)) as Bd.
  assert (Eq : fst (Z.div_eucl m' (Zpos m2)) = (m' / Zpos m2)%Z) by reflexivity.
  unfold Z.modulo in Bd.
  destruct (Z.div_eucl m' (Zpos m2)) as [q r]. cbn [fst] in Eq.
  assert (Hq : (0 <= q)%Z) by nia.
  apply binary_round_aux_rounded; [exact Hq| | |exact Hx].
  - replace (SF2R (S754_finite false m1 e1) / SF2R (S754_finite false m2 e2)
             * bpow (- e'))
      with (IZR q + IZR r / IZR (Zpos m2)).
    { apply new_location_located; lia. }
    cbn [SF2R cond_Zopp].
    assert (I : IZR (Zpos m1) * bpow (e1 - e2 - e')
                = IZR (Zpos m2) * IZR q + IZR r).
    { rewrite bpow_IZR, <- mult_IZR, <- Em', Ed, plus_IZR, mult_IZR by lia.
      reflexivity. }
    replace (e1 - e2 - e')%Z with (e1 + (- e2 + - e'))%Z in I by lia.
    rewrite !bpow_add, (bpow_opp e2) in I.
    pose proof (bpow_pos e2). pose proof (bpow_pos e1).
    assert (0 < IZR (Zpos m2)) by (apply IZR_lt; lia).
    apply (Rmult_eq_reg_l (IZR (Zpos m2))); [|lra].
    transitivity (IZR (Zpos m2) * IZR q + IZR r); [field; lra|].
    rewrite <- I. field. lra.
  - rewrite fexp_64. destruct (Z.eq_dec q 0) as [->|Q0].
    + cbn [Zdigits2].
      assert (m' < Zpos m2)%Z by nia.
      assert (e1 - e2 - e' <= d2 - d1)%Z.
      { destruct (Z.le_gt_cases (e1 - e2 - e') (d2 - d1)) as [|G]; [assumption|exfalso].
        assert (2 ^ d2 <= 2 ^ ((d1 - 1) + (e1 - e2 - e')))%Z
          by (apply Z.pow_le_mono_r; lia).
        rewrite Z.pow_add_r in * by lia. nia. }
      lia.
    + destruct (Z.le_gt_cases e' (-1074)) as [|G]; [lia|].
      assert (E53 : (e' <= d1 + e1 - (d2 + e2) - 53)%Z) by lia.
      assert (Q52 : (2 ^ 52 <= q)%Z).
      { rewrite Eq. apply Z.div_le_lower_bound; [lia|].
        rewrite Em'.
        apply Z.le_trans with (2 ^ d2 * 2 ^ 52)%Z; [nia|].
        rewrite <- Z.pow_add_r by lia.
        apply Z.le_trans with (2 ^ ((d1 - 1) + (e1 - e2 - e')))%Z;
          [apply Z.pow_le_mono_r; lia|].
        rewrite Z.pow_add_r by lia.
        apply Z.mul_le_mono_nonneg_r; lia. }
      destruct q as [|pq|pq]; try lia.
      pose proof (Zdigits2_ge pq 53 Q52). cbn [Zdigits2]. lia.
Qed.

Lemma sqrt_lt_sq (a b : R) : 0 <= a -> 0 <= b -> a < b * b -> sqrt a < b.
Proof.
  intros Ha Hb H. rewrite <- (sqrt_square b Hb). apply sqrt_lt_1_alt. lra.
Qed.

Lemma sqrt_gt_sq (a b : R) : 0 <= b -> b * b < a -> b < sqrt a.
Proof.
  intros Hb H. rewrite <- (sqrt_square b Hb) at 1. apply sqrt_lt_1_alt. nra.
Qed.

Lemma valid_lt_bpow (m : positive) (e : Z) :
  SpecFloat.bounded prec emax m e = true ->
  IZR (Zpos m) * bpow e < bpow 1024.
Proof.
  intros B. apply bounded_range in B as (M & E & _).
  apply Rlt_le_trans with (bpow 53 * bpow e).
  - apply Rmult_lt_compat_r; [apply bpow_pos|].
    rewrite (bpow_IZR 53) by lia. apply IZR_lt. exact M.
  - rewrite <- bpow_add. apply bpow_le. lia.
Qed.

Lemma SFsqrt_rounded (x : spec_float) :
  valid_binary x = true -> sf_num x = true -> sf_pos x = true ->
  sf_rounded (sqrt (SF2R x)) (SFsqrt prec emax x).
Proof.
  destruct x as [[|]|[|]| |[|] m e]; try discriminate; intros V _ _.
  { cbn [SFsqrt SF2R]. rewrite sqrt_0. apply sf_rounded_zero. }
  cbn [valid_binary] in V. pose proof (valid_lt_bpow m e V) as Vlt.
  apply bounded_digits in V as (Ee & Dm & _).
  cbn [SFsqrt]. unfold SFsqrt_core_binary, Zdigits2.
  pose proof (digits2_pos_lower m) as L1.
  set (d := Zpos (digits2_pos m)) in *.
  assert (Pd : (0 < d)%Z) by (unfold d; lia).
  rewrite fexp_64, !Z.div2_div.
  set (e' := Z.min (Z.max ((d + e + 1) / 2 - 53) (-1074)) (e / 2)).
  assert (He' : (2 * e' <= e)%Z).
  { assert (2 * (e / 2) <= e)%Z by (apply Z.mul_div_le; lia). lia. }
  set (m' := match (e - 2 * e')%Z with
             | Zpos p => Z.shiftl (Zpos m) (e - 2 * e')
             | 0%Z => Zpos m
             | Zneg _ => 0%Z
             end).
  assert (Em' : m' = (Zpos m * 2 ^ (e - 2 * e'))%Z).
  { unfold m'. destruct (e - 2 * e')%Z as [|k|k] eqn:Ek; try lia.
    apply Z.shiftl_mul_pow2. lia. }
  assert (P : (0 < 2 ^ (e - 2 * e'))%Z) by (apply Z.pow_pos_nonneg; lia).
  assert (Hm0 : (0 < m')%Z) by (rewrite Em'; lia).
  pose proof (Z.sqrtrem_spec m' ltac:(lia)) as Sp.
  destruct (Z.sqrtrem m') as [q r]. destruct Sp as [Sq Sr].
  assert (Hq : (0 < q)%Z) by nia.
  assert (X : sqrt (SF2R (S754_finite false m e)) * bpow (- e') = sqrt (IZR m')).
  { cbn [SF2R cond_Zopp]. pose proof (bpow_pos (- e')) as Pe.
    rewrite <- (sqrt_square (bpow (- e'))) at 1 by lra.
    rewrite <- sqrt_mult_alt.
    2:{ apply Rmult_le_pos; [apply IZR_le; lia|pose proof (bpow_pos e); lra]. }
    f_equal. rewrite Em', mult_IZR, <- bpow_IZR by lia.
    rewrite Rmult_assoc, <- !bpow_add. do 2 f_equal. lia. }
  assert (I : IZR m' = IZR q * IZR q + IZR r).
  { rewrite Sq, plus_IZR, mult_IZR. reflexivity. }
  assert (Iq : 0 < IZR q) by (apply IZR_lt; lia).
  assert (Ir : 0 <= IZR r <= 2 * IZR q).
  { split; [apply IZR_le; lia|]. rewrite <- mult_IZR. apply IZR_le. lia. }
  apply binary_round_aux_rounded; [lia| | |].
  - rewrite X. destruct (Z.eqb_spec r 0) as [->|R0].
    + cbn [located]. rewrite I, Rplus_0_r. apply sqrt_square. lra.
    + assert (0 < IZR r) by (apply IZR_lt; lia).
      destruct (Z.leb_spec r q) as [C|C]; cbn [located].
      * apply IZR_le in C. split; [apply sqrt_gt_sq; nra|apply sqrt_lt_sq; nra].
      * assert (IZR q + 1 <= IZR r).
        { rewrite <- plus_IZR. apply IZR_le. lia. }
        split; [apply sqrt_gt_sq; nra|apply sqrt_lt_sq; nra].
  - rewrite fexp_64. destruct (Z.le_gt_cases e' (-1074)) as [|G]; [lia|].
    assert (E53 : (e' <= (d + e + 1) / 2 - 53)%Z) by lia.
    assert (H2 : (2 * ((d + e + 1) / 2) <= d + e + 1)%Z)
      by (apply Z.mul_div_le; lia).
    assert (M104 : (2 ^ 104 <= m')%Z).
    { rewrite Em'.
      apply Z.le_trans with (2 ^ ((d - 1) + (e - 2 * e')))%Z;
        [apply Z.pow_le_mono_r; lia|].
      rewrite Z.pow_add_r by lia. apply Z.mul_le_mono_nonneg_r; lia. }
    assert (Q52 : (2 ^ 52 <= q)%Z).
    { destruct (Z.le_gt_cases (2 ^ 52) q) as [|Lt]; [assumption|exfalso].
      change (2 ^ 104)%Z with (2 ^ 52 * 2 ^ 52)%Z in M104. nia. }
    destruct q as [|pq|pq]; try lia.
    pose proof (Zdigits2_ge pq 53 Q52). cbn [Zdigits2]. lia.
  - apply Rlt_trans with (bpow 512).
    + apply sqrt_lt_sq.
      * apply SF2R_nonneg. reflexivity.
      * pose proof (bpow_pos 512). lra.
      * rewrite <- bpow_add. exact Vlt.
    + unfold omega.
      pose proof (bpow_lt 512 970 ltac:(lia)).
      assert (2 * bpow 970 <= bpow 1024).
      { rewrite <- bpow_succ. apply bpow_le. lia. }
      lra.
Qed.


(** ** Binary64 operations, read on real numbers *)

Lemma fin_parts (a : float) :
  fin a ->
  valid_binary (Prim2SF a) = true /\ sf_num (Prim2SF a) = true /\
  sf_pos (Prim2SF a) = true.
Proof.
  intros [F P]. rewrite is_finite_fnum in F.
  split; [apply Prim2SF_valid|]. split; assumption.
Qed.

Lemma rounded_fin (x : R) (f : float) : rounded x f -> fin f.
Proof.
  intros (V & N & P & _). split; [rewrite is_finite_fnum|]; assumption.
Qed.

Lemma F2R_nonneg (a : float) : fin a -> 0 <= F2R a.
Proof. intros [_ P]. apply SF2R_nonneg. exact P. Qed.

Lemma fin_spos (a : float) : fin a -> 0 < F2R a -> sf_spos (Prim2SF a) = true.
Proof.
  intros [_ P]. unfold F2R, fpos in *.
  destruct (Prim2SF a) as [[|]|[|]| |[|] m e]; try discriminate; cbn; try lra; auto.
Qed.

Lemma fmul_rounded (a b : float) :
  fin a -> fin b -> F2R a * F2R b < omega ->
  rounded (F2R a * F2R b) (a * b)%float.
Proof.
  intros Ha Hb Hx. apply fin_parts in Ha as (Va & Na & Pa), Hb as (Vb & Nb & Pb).
  unfold rounded. rewrite mul_spec. apply SFmul_rounded; assumption.
Qed.

Lemma fadd_rounded (a b : float) :
  fin a -> fin b -> F2R a + F2R b < omega ->
  rounded (F2R a + F2R b) (a + b)%float.
Proof.
  intros Ha Hb Hx. apply fin_parts in Ha as (Va & Na & Pa), Hb as (Vb & Nb & Pb).
  unfold rounded. rewrite add_spec. apply SFadd_rounded; assumption.
Qed.

Lemma fdiv_rounded (a b : float) :
  fin a -> fin b -> 0 < F2R b -> F2R a / F2R b < omega ->
  rounded (F2R a / F2R b) (a / b)%float.
Proof.
  intros Ha Hb Pb' Hx. pose proof (fin_spos b Hb Pb') as Sb.
  apply fin_parts in Ha as (Va & Na & Pa), Hb as (Vb & Nb & Pb).
  unfold rounded. rewrite div_spec. apply SFdiv_rounded; assumption.
Qed.

Lemma fsqrt_rounded (a : float) :
  fin a -> rounded (sqrt (F2R a)) (PrimFloat.sqrt a).
Proof.
  intros Ha. apply fin_parts in Ha as (Va & Na & Pa).
  unfold rounded. rewrite sqrt_spec. apply SFsqrt_rounded; assumption.
Qed.

(** ** Comparisons *)

Lemma SFcompare_real (x y : spec_float) :
  valid_binary x = true -> valid_binary y = true ->
  sf_num x = true -> sf_num y = true -> sf_pos x = true -> sf_pos y = true ->
  (SFcompare x y = Some Lt /\ SF2R x < SF2R y) \/
  (SFcompare x y = Some Eq /\ SF2R x = SF2R y) \/
  (SFcompare x y = Some Gt /\ SF2R y < SF2R x).
Proof.
  destruct x as [[|]|[|]| |[|] m1 e1]; try discriminate;
    destruct y as [[|]|[|]| |[|] m2 e2]; try discriminate;
    intros V1 V2 _ _ _ _; cbn [SFcompare].
  - right; left. split; reflexivity.
  - left. split; [reflexivity|]. cbn.
    apply Rmult_lt_0_compat; [apply IZR_lt; lia|apply bpow_pos].
  - right; right. split; [reflexivity|]. cbn.
    apply Rmult_lt_0_compat; [apply IZR_lt; lia|apply bpow_pos].
  - cbn [valid_binary] in V1, V2.
    destruct (bounded_range m1 e1 V1) as (U1 & R1 & N1).
    destruct (bounded_range m2 e2 V2) as (U2 & R2 & N2).
    rewrite !SF2R_finite.
    assert (Sep : forall (ma mb : positive) (ea eb : Z),
               (Zpos ma < 2 ^ 53)%Z -> (2 ^ 52 <= Zpos mb)%Z -> (ea < eb)%Z ->
               IZR (Zpos ma) * bpow ea < IZR (Zpos mb) * bpow eb).
    { intros ma mb ea eb Ua Lb Hab.
      apply Rlt_le_trans with (bpow 53 * bpow ea).
      - apply Rmult_lt_compat_r; [apply bpow_pos|].
        rewrite (bpow_IZR 53) by lia. apply IZR_lt. exact Ua.
      - apply Rle_trans with (bpow 52 * bpow eb).
        + rewrite <- !bpow_add. apply bpow_le. lia.
        + apply Rmult_le_compat_r; [pose proof (bpow_pos eb); lra|].
          rewrite (bpow_IZR 52) by lia. apply IZR_le. exact Lb. }
    destruct (Z.compare_spec e1 e2) as [E|E|E].
    + subst e2.
      change (PosDef.Pos.compare_cont Eq m1 m2) with (Pos.compare m1 m2).
      pose proof (bpow_pos e1) as Pe.
      destruct (Pos.compare_spec m1 m2) as [C|C|C].
      * right; left. subst. split; reflexivity.
      * left. split; [reflexivity|].
        apply Rmult_lt_compat_r; [exact Pe|apply IZR_lt; lia].
      * right; right. split; [reflexivity|].
        apply Rmult_lt_compat_r; [exact Pe|apply IZR_lt; lia].
    + left. split; [reflexivity|]. apply Sep; try assumption. apply N2. lia.
    + right; right. split; [reflexivity|]. apply Sep; try assumption. apply N1. lia.
Qed.

Lemma fcompare_real (a b : float) :
  fin a -> fin b ->
  (SFcompare (Prim2SF a) (Prim2SF b) = Some Lt /\ F2R a < F2R b) \/
  (SFcompare (Prim2SF a) (Prim2SF b) = Some Eq /\ F2R a = F2R b) \/
  (SFcompare (Prim2SF a) (Prim2SF b) = Some Gt /\ F2R b < F2R a).
Proof.
  intros Ha Hb. apply fin_parts in Ha as (Va & Na & Pa), Hb as (Vb & Nb & Pb).
  apply SFcompare_real; assumption.
Qed.

Lemma fltb_real (a b : float) :
  fin a -> fin b ->
  if (a <? b)%float then F2R a < F2R b else F2R b <= F2R a.
Proof.
  intros Ha Hb. rewrite ltb_spec. unfold SFltb.
  destruct (fcompare_real a b Ha Hb) as [[-> H]|[[-> H]|[-> H]]]; lra.
Qed.

Lemma fleb_real (a b : float) :
  fin a -> fin b ->
  if (a <=? b)%float then F2R a <= F2R b else F2R b < F2R a.
Proof.
  intros Ha Hb. rewrite leb_spec. unfold SFleb.
  destruct (fcompare_real a b Ha Hb) as [[-> H]|[[-> H]|[-> H]]]; lra.
Qed.

Lemma feqb_real (a b : float) :
  fin a -> fin b ->
  if (a =? b)%float then F2R a = F2R b else F2R a <> F2R b.
Proof.
  intros Ha Hb. rewrite eqb_spec. unfold SFeqb.
  destruct (fcompare_real a b Ha Hb) as [[-> H]|[[-> H]|[-> H]]]; lra.
Qed.

(** ** The constants and the absolute value *)

Lemma fin_zero : fin zero.
Proof. split; reflexivity. Qed.

Lemma fin_one : fin one.
Proof. split; reflexivity. Qed.

Lemma fin_rdwarf : fin rdwarf.
Proof. split; reflexivity. Qed.

Lemma fin_rgiant : fin rgiant.
Proof. split; reflexivity. Qed.

Lemma F2R_zero : F2R zero = 0.
Proof. reflexivity. Qed.

Lemma F2R_one : F2R one = 1.
Proof.
  unfold F2R. rewrite Prim2SF_one, SF2R_finite.
  change 4503599627370496%Z with (2 ^ 52)%Z.
  rewrite <- bpow_IZR, <- bpow_add by lia. reflexivity.
Qed.

Lemma F2R_rdwarf : bpow (-65) <= F2R rdwarf <= bpow (-64).
Proof.
  unfold F2R. rewrite Prim2SF_rdwarf, SF2R_finite.
  pose proof (bpow_pos (-117)) as P.
  replace (-65)%Z with (52 + -117)%Z by lia.
  replace (-64)%Z with (53 + -117)%Z by lia.
  rewrite !bpow_add, (bpow_IZR 52), (bpow_IZR 53) by lia.
  split; apply Rmult_le_compat_r; try lra; apply IZR_le; lia.
Qed.

Lemma F2R_rgiant : bpow 63 <= F2R rgiant <= bpow 64.
Proof.
  unfold F2R. rewrite Prim2SF_rgiant, SF2R_finite.
  pose proof (bpow_pos 11) as P.
  replace 63%Z with (52 + 11)%Z by lia.
  replace 64%Z with (53 + 11)%Z by lia.
  rewrite !bpow_add, (bpow_IZR 52), (bpow_IZR 53) by lia.
  split; apply Rmult_le_compat_r; try lra; apply IZR_le; lia.
Qed.

Lemma fin_dabs (x : float) : is_finite x = true -> fin (dabs x).
Proof.
  intros F. split.
  - rewrite is_finite_fnum in *. unfold dabs. rewrite fnum_abs. exact F.
  - rewrite is_finite_fnum in F. unfold dabs, fpos, fnum in *. rewrite abs_spec.
    destruct (Prim2SF x) as [[|]|[|]| |[|] m e]; try discriminate; reflexivity.
Qed.

Lemma F2R_dabs_sqr (x : float) : F2R (dabs x) * F2R (dabs x) = F2R x * F2R x.
Proof.
  unfold dabs, F2R. rewrite abs_spec.
  destruct (Prim2SF x) as [[|]|[|]| |[|] m e]; cbn [SFabs SF2R cond_Zopp];
    try reflexivity.
  rewrite opp_IZR. ring.
Qed.

(** The conversion of the length to binary64. *)
Lemma float_of_integer_rounded (n : Z) :
  (1 <= n < 2 ^ 63)%Z -> rounded (IZR n) (float_of_integer n).
Proof.
  intros Hn. unfold float_of_integer.
  destruct (n <? 0)%Z eqn:E; [lia|].
  unfold rounded. rewrite of_uint63_spec.
  change (Uint63Axioms.to_Z (of_Z n)) with (Uint63.to_Z (of_Z n)).
  rewrite Uint63.of_Z_spec, Z.mod_small by (change wB with (2 ^ 63)%Z; lia).
  destruct n as [|p|p]; try lia. cbn [binary_normalize].
  replace (IZR (Zpos p)) with (IZR (Zpos p) * bpow 0) by (rewrite bpow_0; ring).
  apply binary_round_rounded. rewrite bpow_0, Rmult_1_r.
  apply Rlt_trans with (bpow 63).
  - rewrite (bpow_IZR 63) by lia. apply IZR_lt. lia.
  - unfold omega. pose proof (bpow_lt 63 970 ltac:(lia)).
    assert (2 * bpow 970 <= bpow 1024).
    { rewrite <- bpow_succ. apply bpow_le. lia. }
    lra.
Qed.

(** ** Accumulated relative errors *)

Lemma opu_ge1 (m : nat) : 1 <= (1 + u) ^ m.
Proof. apply pow_R1_Rle. pose proof u_pos. lra. Qed.

Lemma opu_pos (m : nat) : 0 < (1 + u) ^ m.
Proof. pose proof (opu_ge1 m). lra. Qed.

Lemma opu_mono (m k : nat) : (m <= k)%nat -> (1 + u) ^ m <= (1 + u) ^ k.
Proof. intros H. apply Rle_pow; [pose proof u_pos; lra|exact H]. Qed.

Lemma opu_add (m k : nat) : (1 + u) ^ (m + k) = (1 + u) ^ m * (1 + u) ^ k.
Proof. apply pow_add. Qed.

Lemma within_sym (m : nat) (a b : R) : within m a b -> within m b a.
Proof. unfold within. tauto. Qed.

Lemma within_pos (m : nat) (a b : R) : within m a b -> 0 <= a -> 0 <= b.
Proof.
  intros [H _] Ha. pose proof (opu_pos m).
  destruct (Rle_lt_dec 0 b); [assumption|]. nra.
Qed.

Lemma within_spos (m : nat) (a b : R) : within m a b -> 0 < a -> 0 < b.
Proof.
  intros [H _] Ha. pose proof (opu_pos m).
  destruct (Rlt_le_dec 0 b); [assumption|]. nra.
Qed.

Lemma within_zero (m : nat) (a : R) : within m a 0 -> a = 0.
Proof. intros [H1 H2]. pose proof (opu_pos m). nra. Qed.

Lemma within_weaken (m k : nat) (a b : R) :
  (m <= k)%nat -> 0 <= a -> within m a b -> within k a b.
Proof.
  intros Hmk Ha H. pose proof (within_pos _ _ _ H Ha) as Hb.
  destruct H as [H1 H2]. pose proof (opu_mono m k Hmk). pose proof (opu_pos m).
  split; nra.
Qed.

Lemma within_trans (m k : nat) (a b c : R) :
  0 <= a -> within m a b -> within k b c -> within (m + k) a c.
Proof.
  intros Ha H1 H2. pose proof (within_pos _ _ _ H1 Ha) as Hb.
  pose proof (within_pos _ _ _ H2 Hb) as Hc.
  destruct H1 as [H1 H1'], H2 as [H2 H2'].
  pose proof (opu_pos m). pose proof (opu_pos k). unfold within. rewrite opu_add.
  split.
  - apply Rle_trans with (1 := H1).
    replace (c * ((1 + u) ^ m * (1 + u) ^ k)) with (c * (1 + u) ^ k * (1 + u) ^ m) by ring.
    apply Rmult_le_compat_r; lra.
  - apply Rle_trans with (1 := H2').
    replace (a * ((1 + u) ^ m * (1 + u) ^ k)) with (a * (1 + u) ^ m * (1 + u) ^ k) by ring.
    apply Rmult_le_compat_r; lra.
Qed.

Lemma within_mul (m k : nat) (a b c d : R) :
  0 <= a -> 0 <= c -> within m a b -> within k c d ->
  within (m + k) (a * c) (b * d).
Proof.
  intros Ha Hc H1 H2. pose proof (within_pos _ _ _ H1 Ha) as Hb.
  pose proof (within_pos _ _ _ H2 Hc) as Hd.
  destruct H1 as [H1 H1'], H2 as [H2 H2'].
  pose proof (opu_pos m). pose proof (opu_pos k). unfold within. rewrite opu_add.
  split.
  - replace (b * d * ((1 + u) ^ m * (1 + u) ^ k))
      with ((b * (1 + u) ^ m) * (d * (1 + u) ^ k)) by ring.
    apply Rmult_le_compat; assumption.
  - replace (a * c * ((1 + u) ^ m * (1 + u) ^ k))
      with ((a * (1 + u) ^ m) * (c * (1 + u) ^ k)) by ring.
    apply Rmult_le_compat; assumption.
Qed.

Lemma within_add (m : nat) (a b c d : R) :
  within m a b -> within m c d -> within m (a + c) (b + d).
Proof. intros [H1 H1'] [H2 H2']. split; lra. Qed.

Lemma within_inv (m : nat) (a b : R) :
  0 < a -> within m a b -> within m (/ a) (/ b).
Proof.
  intros Ha H. pose proof (within_spos _ _ _ H Ha) as Hb.
  destruct H as [H1 H2]. pose proof (opu_pos m) as P.
  assert (Ia : 0 < / a) by (apply Rinv_0_lt_compat; assumption).
  assert (Ib : 0 < / b) by (apply Rinv_0_lt_compat; assumption).
  split.
  - apply (Rmult_le_reg_r (a * b)); [nra|].
    replace (/ a * (a * b)) with b by (field; lra).
    replace (/ b * (1 + u) ^ m * (a * b)) with (a * (1 + u) ^ m) by (field; lra).
    assumption.
  - apply (Rmult_le_reg_r (a * b)); [nra|].
    replace (/ b * (a * b)) with a by (field; lra).
    replace (/ a * (1 + u) ^ m * (a * b)) with (b * (1 + u) ^ m) by (field; lra).
    assumption.
Qed.

Lemma within_div (m k : nat) (a b c d : R) :
  0 <= a -> 0 < c -> within m a b -> within k c d ->
  within (m + k) (a / c) (b / d).
Proof.
  intros Ha Hc H1 H2. unfold Rdiv.
  apply within_mul; try assumption.
  - apply Rlt_le, Rinv_0_lt_compat. assumption.
  - apply within_inv; assumption.
Qed.

Lemma within_sqrt (m : nat) (a b : R) :
  0 <= a -> within (2 * m) a b -> within m (sqrt a) (sqrt b).
Proof.
  intros Ha H. pose proof (within_pos _ _ _ H Ha) as Hb.
  destruct H as [H1 H2]. pose proof (opu_pos m) as P.
  replace ((1 + u) ^ (2 * m)) with ((1 + u) ^ m * (1 + u) ^ m) in *
    by (rewrite <- opu_add; f_equal; lia).
  split.
  - rewrite <- (sqrt_square ((1 + u) ^ m)) at 1 by lra.
    rewrite <- sqrt_mult_alt by assumption. apply sqrt_le_1_alt. lra.
  - rewrite <- (sqrt_square ((1 + u) ^ m)) at 1 by lra.
    rewrite <- sqrt_mult_alt by assumption. apply sqrt_le_1_alt. lra.
Qed.

(** A bound on the accumulated factor: [(1 + u)^m <= 1 / (1 - m u)]. *)
Lemma opu_bound (m : nat) : INR m * u <= 1 -> (1 + u) ^ m * (1 - INR m * u) <= 1.
Proof.
  induction m as [|m IH]; intros H.
  - cbn. lra.
  - rewrite S_INR in *. pose proof u_pos as U. pose proof (pos_INR m) as Pm.
    pose proof (opu_pos m) as P. cbn [pow].
    assert (IH' : (1 + u) ^ m * (1 - INR m * u) <= 1) by (apply IH; nra).
    replace ((1 + u) * (1 + u) ^ m * (1 - (INR m + 1) * u))
      with ((1 + u) ^ m * (1 - INR m * u) - (1 + u) ^ m * ((INR m + 1) * u * u))
      by ring.
    assert (0 <= (1 + u) ^ m * ((INR m + 1) * u * u)) by (apply Rmult_le_pos; nra).
    lra.
Qed.

Lemma opu_le_2 (m : nat) : (Z.of_nat m <= 2 ^ 52)%Z -> (1 + u) ^ m <= 2.
Proof.
  intros H. pose proof (opu_pos m) as P.
  assert (B : INR m * u <= / 2).
  { apply IZR_le in H. rewrite <- INR_IZR_INZ, <- bpow_IZR in H by lia.
    unfold u. replace (/ 2) with (bpow 52 * bpow (-53)).
    - apply Rmult_le_compat_r; [pose proof (bpow_pos (-53)); lra|exact H].
    - rewrite <- bpow_add. change (52 + -53)%Z with (- (1))%Z.
      rewrite bpow_opp, bpow_1. reflexivity. }
  pose proof (opu_bound m ltac:(lra)). nra.
Qed.

(** ** What a rounding gives *)

Lemma rounded_normal (x : R) (f : float) :
  rounded x f -> bpow (-1022) <= x -> within 1 (F2R f) x.
Proof. intros (_ & _ & _ & _ & _ & [H|[H _]]) Hx; [exact H|lra]. Qed.

Lemma rounded_zero (x : R) (f : float) : rounded x f -> x = 0 -> F2R f = 0.
Proof. intros (_ & _ & _ & H & _). exact H. Qed.

Lemma rounded_le (x : R) (f : float) (k : Z) :
  rounded x f -> (-1074 <= k)%Z -> x <= bpow k -> F2R f <= bpow k.
Proof. intros (_ & _ & _ & _ & H & _) Hk. apply H. exact Hk. Qed.

Lemma rounded_ge (x : R) (f : float) (k : Z) :
  rounded x f -> (-1074 <= k)%Z -> bpow k <= x -> bpow k <= F2R f.
Proof. intros (_ & _ & _ & _ & H & _) Hk. apply H. exact Hk. Qed.

Lemma below_omega (x : R) (k : Z) : (k <= 1023)%Z -> x <= bpow k -> x < omega.
Proof.
  intros Hk Hx. pose proof (bpow_le k 1023 Hk).
  unfold omega. pose proof (bpow_lt 970 1023 ltac:(lia)).
  assert (bpow 1024 = 2 * bpow 1023) by (rewrite <- bpow_succ; reflexivity).
  lra.
Qed.

(** ** One operation, with a bound that keeps it away from overflow *)

Lemma fmul_ok (k : Z) (a b : float) :
  fin a -> fin b -> (-1074 <= k <= 1023)%Z -> F2R a * F2R b <= bpow k ->
  rounded (F2R a * F2R b) (a * b)%float /\ fin (a * b)%float /\
  F2R (a * b)%float <= bpow k.
Proof.
  intros Ha Hb Hk Hx.
  assert (R : rounded (F2R a * F2R b) (a * b)%float).
  { apply fmul_rounded; try assumption. apply (below_omega _ k); [lia|exact Hx]. }
  split; [exact R|]. split; [exact (rounded_fin _ _ R)|].
  apply (rounded_le _ _ k R); [lia|exact Hx].
Qed.

Lemma fadd_ok (k : Z) (a b : float) :
  fin a -> fin b -> (-1074 <= k <= 1023)%Z -> F2R a + F2R b <= bpow k ->
  rounded (F2R a + F2R b) (a + b)%float /\ fin (a + b)%float /\
  F2R (a + b)%float <= bpow k.
Proof.
  intros Ha Hb Hk Hx.
  assert (R : rounded (F2R a + F2R b) (a + b)%float).
  { apply fadd_rounded; try assumption. apply (below_omega _ k); [lia|exact Hx]. }
  split; [exact R|]. split; [exact (rounded_fin _ _ R)|].
  apply (rounded_le _ _ k R); [lia|exact Hx].
Qed.

Lemma fdiv_ok (k : Z) (a b : float) :
  fin a -> fin b -> 0 < F2R b -> (-1074 <= k <= 1023)%Z ->
  F2R a / F2R b <= bpow k ->
  rounded (F2R a / F2R b) (a / b)%float /\ fin (a / b)%float /\
  F2R (a / b)%float <= bpow k.
Proof.
  intros Ha Hb Pb Hk Hx.
  assert (R : rounded (F2R a / F2R b) (a / b)%float).
  { apply fdiv_rounded; try assumption. apply (below_omega _ k); [lia|exact Hx]. }
  split; [exact R|]. split; [exact (rounded_fin _ _ R)|].
  apply (rounded_le _ _ k R); [lia|exact Hx].
Qed.

Lemma div_le_1 (a b : R) : 0 <= a -> a <= b -> 0 < b -> a / b <= 1.
Proof.
  intros Ha Hab Hb. apply (Rmult_le_reg_r b); [assumption|].
  replace (a / b * b) with a by (field; lra). lra.
Qed.

Lemma div_nonneg (a b : R) : 0 <= a -> 0 < b -> 0 <= a / b.
Proof.
  intros Ha Hb. unfold Rdiv. apply Rmult_le_pos; [assumption|].
  apply Rlt_le, Rinv_0_lt_compat. assumption.
Qed.

Lemma bpow_sqr (k : Z) : bpow k * bpow k = bpow (2 * k).
Proof. rewrite <- bpow_add. f_equal. lia. Qed.

Lemma sqr_le_bpow (a : R) (k : Z) : 0 <= a -> a <= bpow k -> a * a <= bpow (2 * k).
Proof. intros Ha H. rewrite <- bpow_sqr. pose proof (bpow_pos k). nra. Qed.

Lemma sqr_ge_bpow (a : R) (k : Z) : bpow k <= a -> bpow (2 * k) <= a * a.
Proof. intros H. rewrite <- bpow_sqr. pose proof (bpow_pos k). nra. Qed.

(** The square of a quotient at most one, as the code computes it:
    [(a / b) * (a / b)]. *)
Lemma ratio_sqr (a b : float) :
  fin a -> fin b -> F2R a <= F2R b -> 0 < F2R b ->
  let t := ((a / b) * (a / b))%float in
  fin t /\ F2R t <= 1 /\
  (F2R a = 0 -> F2R t = 0) /\
  (bpow (-500) <= F2R a / F2R b ->
   within 3 (F2R t) (F2R a / F2R b * (F2R a / F2R b)) /\ bpow (-1000) <= F2R t) /\
  (F2R a / F2R b <= bpow (-500) -> F2R t <= bpow (-1000)).
Proof.
  intros Ha Hb Hab Pb. cbv zeta.
  pose proof (F2R_nonneg a Ha) as Na.
  pose proof (div_le_1 _ _ Na Hab Pb) as D1.
  pose proof (div_nonneg _ _ Na Pb) as D0.
  set (D := F2R a / F2R b) in *.
  destruct (fdiv_ok 0 a b Ha Hb Pb ltac:(lia) D1) as (Rd & Fd & Ld).
  fold D in Rd. rewrite bpow_0 in Ld.
  pose proof (F2R_nonneg _ Fd) as Nd.
  set (d := (a / b)%float) in *.
  assert (Ld2 : F2R d * F2R d <= bpow 0) by (rewrite bpow_0; nra).
  destruct (fmul_ok 0 d d Fd Fd ltac:(lia) Ld2) as (Rt & Ft & Lt).
  rewrite bpow_0 in Lt.
  split; [exact Ft|]. split; [exact Lt|]. split; [|split].
  - intros Za. apply (rounded_zero _ _ Rt).
    rewrite (rounded_zero _ _ Rd); [ring|]. unfold D. rewrite Za. field. lra.
  - intros HD.
    assert (Wd : within 1 (F2R d) D).
    { apply (rounded_normal _ _ Rd). pose proof (bpow_le (-1022) (-500) ltac:(lia)). lra. }
    pose proof (rounded_ge _ _ (-500) Rd ltac:(lia) HD) as Gd.
    pose proof (sqr_ge_bpow _ _ Gd) as Gd2. change (2 * -500)%Z with (-1000)%Z in Gd2.
    assert (Wt : within 1 (F2R (d * d)%float) (F2R d * F2R d)).
    { apply (rounded_normal _ _ Rt). pose proof (bpow_le (-1022) (-1000) ltac:(lia)). lra. }
    split.
    + apply (within_trans 1 2 _ _ _ (F2R_nonneg _ Ft) Wt).
      apply (within_mul 1 1); assumption.
    + apply (rounded_ge _ _ (-1000) Rt); [lia|exact Gd2].
  - intros HD.
    pose proof (rounded_le _ _ (-500) Rd ltac:(lia) HD) as Ud.
    pose proof (sqr_le_bpow _ _ Nd Ud) as Ud2. change (2 * -500)%Z with (-1000)%Z in Ud2.
    apply (rounded_le _ _ (-1000) Rt); [lia|exact Ud2].
Qed.

(** ** The scaled sums of the large and of the small components *)

Lemma bucket_nonneg (m k : nat) (s p : float) (A : R) :
  bucket m k s p A -> 0 <= F2R s * (F2R p * F2R p) /\ 0 <= A.
Proof.
  intros [Fs Fp W _ _]. pose proof (F2R_nonneg s Fs). pose proof (F2R_nonneg p Fp).
  assert (0 <= F2R s * (F2R p * F2R p)) by (apply Rmult_le_pos; nra).
  split; [assumption|]. apply (within_pos _ _ _ W). assumption.
Qed.

Lemma bucket_le (m k : nat) (s p : float) (A : R) :
  bucket m k s p A -> (1 + u) ^ m <= 2 -> INR k <= bpow 31 -> F2R s <= bpow 32.
Proof.
  intros [Fs Fp [W _] [[Z _]|[S1 P0]] C] Hm Hk.
  - rewrite Z. apply Rlt_le, bpow_pos.
  - pose proof (opu_pos m). pose proof (pos_INR k).
    assert (P2 : 0 < F2R p * F2R p) by nra.
    assert (B : bpow 32 = 2 * bpow 31) by (rewrite <- bpow_succ; reflexivity).
    apply (Rmult_le_reg_r (F2R p * F2R p)); [exact P2|].
    apply Rle_trans with (1 := W).
    assert (X0 : 0 <= INR k * (F2R p * F2R p)) by (apply Rmult_le_pos; lra).
    apply Rle_trans with (INR k * (F2R p * F2R p) * 2); [nra|].
    rewrite B. replace (2 * bpow 31 * (F2R p * F2R p))
      with (bpow 31 * (F2R p * F2R p) * 2) by ring.
    apply Rmult_le_compat_r; [lra|]. apply Rmult_le_compat_r; lra.
Qed.

Lemma bucket_weaken (m k m' k' : nat) (s p : float) (A : R) :
  bucket m k s p A -> (m <= m')%nat -> (k <= k')%nat -> bucket m' k' s p A.
Proof.
  intros B Hm Hk. destruct (bucket_nonneg _ _ _ _ _ B) as [N _].
  destruct B as [Fs Fp W St C]. constructor; try assumption.
  - apply (within_weaken m m'); assumption.
  - apply Rle_trans with (1 := C). apply le_INR in Hk.
    pose proof (F2R_nonneg p Fp). apply Rmult_le_compat_r; nra.
Qed.

Lemma tiny_absorbed (k : Z) : (k <= -54)%Z -> 1 + bpow k <= 1 + u.
Proof. intros H. pose proof (bpow_le k (-53) ltac:(lia)). unfold u. lra. Qed.

(** Lines 104-108 and 125-129: a new pivot [q] above the old one [p]. *)
Lemma rescale_step (m k : nat) (s p q : float) (A : R) :
  bucket m k s p A -> fin q -> F2R p < F2R q ->
  (1 + u) ^ m <= 2 -> INR k <= bpow 31 ->
  bucket (m + 5) (S k) (one + s * ((p / q) * (p / q)))%float q
         (A + F2R q * F2R q).
Proof.
  intros B Fq Hpq Hm Hk.
  destruct (bucket_nonneg _ _ _ _ _ B) as [N NA].
  pose proof (bucket_le _ _ _ _ _ B Hm Hk) as Ls.
  destruct B as [Fs Fp W St C].
  pose proof (F2R_nonneg s Fs) as Ns. pose proof (F2R_nonneg p Fp) as Np.
  assert (Pq : 0 < F2R q) by lra.
  destruct (ratio_sqr p q Fp Fq ltac:(lra) Pq) as (Ft & Lt & Zt & Nt & Tt).
  set (t := ((p / q) * (p / q))%float) in *.
  pose proof (F2R_nonneg t Ft) as N0t.
  assert (Lw : F2R s * F2R t <= bpow 32) by (pose proof (bpow_pos 32); nra).
  destruct (fmul_ok 32 s t Fs Ft ltac:(lia) Lw) as (Rw & Fw & Uw).
  set (w := (s * t)%float) in *.
  pose proof (F2R_nonneg w Fw) as Nw.
  assert (Ls' : F2R one + F2R w <= bpow 33).
  { rewrite F2R_one. replace (bpow 33) with (2 * bpow 32) by (rewrite <- bpow_succ; reflexivity).
    pose proof (bpow_ge_1 32 ltac:(lia)). lra. }
  destruct (fadd_ok 33 one w fin_one Fw ltac:(lia) Ls') as (Rs & Fs' & Us).
  rewrite F2R_one in Rs.
  set (s' := (one + w)%float) in *.
  assert (G1 : 1 <= F2R s').
  { rewrite <- bpow_0. apply (rounded_ge _ _ 0 Rs); [lia|]. rewrite bpow_0. lra. }
  assert (W1 : within 1 (F2R s') (1 + F2R w)).
  { apply (rounded_normal _ _ Rs). pose proof (bpow_le (-1022) 0 ltac:(lia)).
    rewrite bpow_0 in *. lra. }
  assert (Q2 : 0 < F2R q * F2R q) by nra.
  constructor; try assumption.
  - replace (m + 5)%nat with (1 + (m + 4))%nat by lia.
    apply (within_trans 1 (m + 4) _ ((1 + F2R w) * (F2R q * F2R q))).
    { apply Rmult_le_pos; lra. }
    { replace 1%nat with (1 + 0)%nat by lia.
      apply within_mul; [lra|lra|exact W1|apply within_refl]. }
    replace ((1 + F2R w) * (F2R q * F2R q))
      with (F2R w * (F2R q * F2R q) + F2R q * F2R q) by ring.
    destruct St as [[Zs Zp]|[S1 P0]].
    + assert (EA : A = 0).
      { rewrite Zs, Rmult_0_l in W. apply within_sym, within_zero in W. exact W. }
      assert (Ew : F2R w = 0) by (apply (rounded_zero _ _ Rw); rewrite Zs; ring).
      rewrite EA, Ew, Rmult_0_l. apply within_same. lra.
    + set (D := F2R p / F2R q) in *.
      assert (ED : F2R p * F2R p = D * D * (F2R q * F2R q)) by (unfold D; field; lra).
      destruct (Rle_lt_dec (bpow (-500)) D) as [HD|HD].
      * destruct (Nt HD) as [W3 G3].
        assert (Ww : within 1 (F2R w) (F2R s * F2R t)).
        { apply (rounded_normal _ _ Rw).
          pose proof (bpow_le (-1022) (-1000) ltac:(lia)). nra. }
        apply within_add; [|apply within_same; lra].
        replace (m + 4)%nat with (1 + 3 + m)%nat by lia.
        apply (within_trans (1 + 3) m _ (F2R s * (F2R p * F2R p))); [nra| |exact W].
        rewrite ED.
        replace (F2R s * (D * D * (F2R q * F2R q)))
          with (F2R s * (D * D) * (F2R q * F2R q)) by ring.
        replace (1 + 3)%nat with (1 + 3 + 0)%nat by lia.
        apply within_mul; [exact Nw|lra| |apply within_refl].
        apply (within_trans 1 3 _ _ _ Nw Ww).
        replace 3%nat with (0 + 3)%nat by lia.
        apply within_mul; [exact Ns|exact N0t|apply within_refl|exact W3].
      * pose proof (Tt (Rlt_le _ _ HD)) as T3.
        assert (Tw : F2R w <= bpow (-968)).
        { apply (rounded_le _ _ (-968) Rw); [lia|].
          replace (-968)%Z with (32 + -1000)%Z by lia. rewrite bpow_add.
          pose proof (bpow_pos 32). pose proof (bpow_pos (-1000)). nra. }
        assert (TA : A <= bpow (-966) * (F2R q * F2R q)).
        { destruct W as [_ W]. apply Rle_trans with (1 := W). rewrite ED.
          assert (D * D <= bpow (-1000)).
          { replace (-1000)%Z with (2 * -500)%Z by lia. apply sqr_le_bpow; [|lra].
            apply div_nonneg; assumption. }
          replace (-966)%Z with (32 + -1000 + 1 + 1)%Z by lia.
          rewrite !bpow_add, bpow_1.
          pose proof (bpow_pos 32). pose proof (bpow_pos (-1000)).
          pose proof (opu_pos m).
          assert (0 <= D * D) by nra.
          assert (F2R s * (D * D) <= bpow 32 * bpow (-1000)) by (apply Rmult_le_compat; lra).
          assert (F2R s * (D * D) * (1 + u) ^ m <= bpow 32 * bpow (-1000) * 2).
          { apply Rmult_le_compat; try lra. apply Rmult_le_pos; lra. }
          replace (F2R s * (D * D * (F2R q * F2R q)) * (1 + u) ^ m)
            with (F2R s * (D * D) * (1 + u) ^ m * (F2R q * F2R q)) by ring.
          apply Rle_trans with (bpow 32 * bpow (-1000) * 2 * (F2R q * F2R q)); [|nra].
          apply Rmult_le_compat_r; lra. }
        apply (within_weaken 1); [lia|nra|].
        pose proof (tiny_absorbed (-968) ltac:(lia)).
        pose proof (tiny_absorbed (-966) ltac:(lia)).
        pose proof u_pos as U.
        set (X := F2R q * F2R q) in *.
        assert (F2R w * X <= u * X) by (apply Rmult_le_compat_r; lra).
        assert (A <= u * X).
        { apply Rle_trans with (1 := TA). apply Rmult_le_compat_r; lra. }
        assert (0 <= u * A) by (apply Rmult_le_pos; lra).
        assert (0 <= F2R w * X) by (apply Rmult_le_pos; lra).
        assert (0 <= u * (F2R w * X)) by (apply Rmult_le_pos; lra).
        unfold within. rewrite pow_1. split; lra.
  - right. split; assumption.
  - rewrite S_INR. apply Rle_trans with (INR k * (F2R q * F2R q) + F2R q * F2R q); [|lra].
    apply Rplus_le_compat_r. apply Rle_trans with (1 := C).
    apply Rmult_le_compat_l; [apply pos_INR|nra].
Qed.

Lemma within_add_tiny (m : nat) (x y ex ey : R) :
  0 <= x -> within m x y -> 0 <= ex <= u * y -> 0 <= ey <= u * x ->
  within (m + 1) (x + ex) (y + ey).
Proof.
  intros Hx W [E1 E2] [E3 E4]. pose proof (within_pos _ _ _ W Hx) as Hy.
  destruct W as [W1 W2]. pose proof (opu_ge1 m) as G. pose proof u_pos as U.
  unfold within. rewrite opu_add, pow_1.
  assert (0 <= u * y) by (apply Rmult_le_pos; lra).
  assert (0 <= u * x) by (apply Rmult_le_pos; lra).
  assert (u * y <= u * y * (1 + u) ^ m).
  { rewrite <- (Rmult_1_r (u * y)) at 1. apply Rmult_le_compat_l; lra. }
  assert (u * x <= u * x * (1 + u) ^ m).
  { rewrite <- (Rmult_1_r (u * x)) at 1. apply Rmult_le_compat_l; lra. }
  assert (0 <= ey * ((1 + u) ^ m * (1 + u))).
  { apply Rmult_le_pos; [lra|]. apply Rmult_le_pos; lra. }
  assert (0 <= ex * ((1 + u) ^ m * (1 + u))).
  { apply Rmult_le_pos; [lra|]. apply Rmult_le_pos; lra. }
  split.
  - apply Rle_trans with (y * (1 + u) ^ m * (1 + u)); [|lra].
    replace (y * (1 + u) ^ m * (1 + u)) with (y * (1 + u) ^ m + u * y * (1 + u) ^ m) by ring.
    lra.
  - apply Rle_trans with (x * (1 + u) ^ m * (1 + u)); [|lra].
    replace (x * (1 + u) ^ m * (1 + u)) with (x * (1 + u) ^ m + u * x * (1 + u) ^ m) by ring.
    lra.
Qed.

(** Lines 103 and 122: one more component under the pivot [p]. *)
Lemma accumulate_step (m k : nat) (s p a : float) (A : R) :
  bucket m k s p A -> fin a -> 0 < F2R a -> F2R a <= F2R p ->
  (1 + u) ^ m <= 2 -> INR k <= bpow 31 ->
  bucket (m + 5) (S k) (s + (a / p) * (a / p))%float p (A + F2R a * F2R a).
Proof.
  intros B Fa Pa Hap Hm Hk.
  destruct (bucket_nonneg _ _ _ _ _ B) as [N NA].
  pose proof (bucket_le _ _ _ _ _ B Hm Hk) as Ls.
  destruct B as [Fs Fp W St C].
  assert (Pp : 0 < F2R p) by lra.
  destruct St as [[_ Zp]|[S1 _]]; [lra|].
  destruct (ratio_sqr a p Fa Fp Hap Pp) as (Ft & Lt & _ & Nt & Tt).
  set (t := ((a / p) * (a / p))%float) in *.
  pose proof (F2R_nonneg t Ft) as N0t.
  assert (Ls' : F2R s + F2R t <= bpow 33).
  { replace (bpow 33) with (2 * bpow 32) by (rewrite <- bpow_succ; reflexivity).
    pose proof (bpow_ge_1 32 ltac:(lia)). lra. }
  destruct (fadd_ok 33 s t Fs Ft ltac:(lia) Ls') as (Rs & Fs' & Us).
  set (s' := (s + t)%float) in *.
  assert (G1 : 1 <= F2R s').
  { rewrite <- bpow_0. apply (rounded_ge _ _ 0 Rs); [lia|]. rewrite bpow_0. lra. }
  assert (W1 : within 1 (F2R s') (F2R s + F2R t)).
  { apply (rounded_normal _ _ Rs). pose proof (bpow_le (-1022) 0 ltac:(lia)).
    rewrite bpow_0 in *. lra. }
  set (X := F2R p * F2R p) in *.
  assert (PX : 0 < X) by (unfold X; nra).
  constructor; try assumption.
  - fold X. replace (m + 5)%nat with (1 + (m + 4))%nat by lia.
    apply (within_trans 1 (m + 4) _ ((F2R s + F2R t) * X)).
    { apply Rmult_le_pos; lra. }
    { replace 1%nat with (1 + 0)%nat by lia.
      apply within_mul; [lra|lra|exact W1|apply within_refl]. }
    replace ((F2R s + F2R t) * X) with (F2R s * X + F2R t * X) by ring.
    set (D := F2R a / F2R p) in *.
    assert (ED : F2R a * F2R a = D * D * X) by (unfold D, X; field; lra).
    assert (ND : 0 <= D) by (apply div_nonneg; lra).
    destruct (Rle_lt_dec (bpow (-500)) D) as [HD|HD].
    + destruct (Nt HD) as [W3 G3].
      apply within_add.
      * apply (within_weaken m); [lia|exact N|exact W].
      * apply (within_weaken 3); [lia|nra|]. rewrite ED.
        replace 3%nat with (3 + 0)%nat by lia.
        apply within_mul; [exact N0t|lra|exact W3|apply within_refl].
    + pose proof (Tt (Rlt_le _ _ HD)) as T3.
      assert (D2 : D * D <= bpow (-1000)).
      { replace (-1000)%Z with (2 * -500)%Z by lia. apply sqr_le_bpow; lra. }
      assert (XA : X <= 2 * A).
      { destruct W as [W _]. pose proof (opu_pos m).
        apply Rle_trans with (F2R s * X); [nra|].
        apply Rle_trans with (1 := W). nra. }
      assert (Bu : 2 * bpow (-1000) <= u).
      { rewrite <- bpow_succ. apply bpow_le. lia. }
      pose proof (bpow_pos (-1000)) as P1000.
      apply (within_weaken (m + 1)); [lia|nra|].
      apply within_add_tiny; [exact N|exact W| |].
      * split; [nra|]. apply Rle_trans with (bpow (-1000) * X); [nra|].
        apply Rle_trans with (bpow (-1000) * (2 * A)); [nra|]. nra.
      * rewrite ED. split; [nra|].
        apply Rle_trans with (bpow (-1000) * X); [nra|].
        apply Rle_trans with (u * X); [nra|].
        apply Rmult_le_compat_l; [pose proof u_pos; lra|nra].
  - right. split; assumption.
  - rewrite S_INR. fold X.
    assert (F2R a * F2R a <= X) by (unfold X; nra). lra.
Qed.

(** ** One iteration of the loop *)

(** Line 134: one more intermediate component. *)
Lemma intermediate_step (m k : nat) (s a : float) (A : R) :
  fin s -> fin a -> within m (F2R s) A -> A <= INR k * bpow 130 ->
  bpow (-65) <= F2R a <= bpow 65 ->
  (1 + u) ^ m <= 2 -> INR k <= bpow 31 ->
  fin (s + a * a)%float /\
  within (m + 5) (F2R (s + a * a)%float) (A + F2R a * F2R a) /\
  A + F2R a * F2R a <= INR (S k) * bpow 130 /\
  bpow (-130) <= A + F2R a * F2R a.
Proof.
  intros Fs Fa W C [La Ua] Hm Hk.
  pose proof (F2R_nonneg s Fs) as Ns. pose proof (F2R_nonneg a Fa) as Na.
  pose proof (within_pos _ _ _ W Ns) as NA.
  pose proof (sqr_le_bpow _ _ Na Ua) as U2. change (2 * 65)%Z with 130%Z in U2.
  pose proof (sqr_ge_bpow _ _ La) as L2. change (2 * -65)%Z with (-130)%Z in L2.
  destruct (fmul_ok 130 a a Fa Fa ltac:(lia) U2) as (Rt & Ft & Ut).
  set (t := (a * a)%float) in *. pose proof (F2R_nonneg t Ft) as Nt.
  assert (Wt : within 1 (F2R t) (F2R a * F2R a)).
  { apply (rounded_normal _ _ Rt). pose proof (bpow_le (-1022) (-130) ltac:(lia)). lra. }
  pose proof (rounded_ge _ _ (-130) Rt ltac:(lia) L2) as Gt.
  pose proof (bpow_pos 130) as P130. pose proof (bpow_pos (-130)) as Pm130.
  assert (Us : F2R s <= bpow 162).
  { destruct W as [W _]. apply Rle_trans with (1 := W).
    replace 162%Z with (31 + 130 + 1)%Z by lia. rewrite !bpow_add, bpow_1.
    pose proof (opu_pos m). pose proof (pos_INR k).
    assert (A <= bpow 31 * bpow 130).
    { apply Rle_trans with (1 := C). apply Rmult_le_compat_r; lra. }
    apply Rmult_le_compat; lra. }
  assert (Ust : F2R s + F2R t <= bpow 163).
  { replace (bpow 163) with (2 * bpow 162) by (rewrite <- bpow_succ; reflexivity).
    pose proof (bpow_le 130 162 ltac:(lia)). lra. }
  destruct (fadd_ok 163 s t Fs Ft ltac:(lia) Ust) as (Rs & Fs' & _).
  split; [exact Fs'|]. split; [|split].
  - replace (m + 5)%nat with (1 + (m + 4))%nat by lia.
    apply (within_trans 1 (m + 4) _ (F2R s + F2R t)).
    + apply F2R_nonneg. exact Fs'.
    + apply (rounded_normal _ _ Rs). pose proof (bpow_le (-1022) (-130) ltac:(lia)). lra.
    + apply within_add.
      * apply (within_weaken m); [lia|exact Ns|exact W].
      * apply (within_weaken 1); [lia|exact Nt|exact Wt].
  - rewrite S_INR. lra.
  - lra.
Qed.

Lemma acc_parts_budget (k : nat) :
  (Z.of_nat k < 2 ^ 31)%Z -> (1 + u) ^ (k * 5) <= 2 /\ INR k <= bpow 31.
Proof.
  intros H. split.
  - apply opu_le_2. rewrite Nat2Z.inj_mul. change (Z.of_nat 5) with 5%Z.
    change (2 ^ 52)%Z with (2 ^ 31 * 2 ^ 21)%Z. lia.
  - rewrite (bpow_IZR 31) by lia. rewrite INR_IZR_INZ. apply IZR_le. lia.
Qed.

Lemma fltb_true (a b : float) : fin a -> fin b -> (a <? b)%float = true -> F2R a < F2R b.
Proof. intros Ha Hb H. pose proof (fltb_real a b Ha Hb) as R. rewrite H in R. exact R. Qed.

Lemma fltb_false (a b : float) : fin a -> fin b -> (a <? b)%float = false -> F2R b <= F2R a.
Proof. intros Ha Hb H. pose proof (fltb_real a b Ha Hb) as R. rewrite H in R. exact R. Qed.

Lemma fleb_true (a b : float) : fin a -> fin b -> (a <=? b)%float = true -> F2R a <= F2R b.
Proof. intros Ha Hb H. pose proof (fleb_real a b Ha Hb) as R. rewrite H in R. exact R. Qed.

Lemma fleb_false (a b : float) : fin a -> fin b -> (a <=? b)%float = false -> F2R b < F2R a.
Proof. intros Ha Hb H. pose proof (fleb_real a b Ha Hb) as R. rewrite H in R. exact R. Qed.

Lemma feqb_zero_true (a : float) : fin a -> (a =? zero)%float = true -> F2R a = 0.
Proof.
  intros Ha H. pose proof (feqb_real a zero Ha fin_zero) as R. rewrite H in R. exact R.
Qed.

Lemma feqb_zero_false (a : float) : fin a -> (a =? zero)%float = false -> 0 < F2R a.
Proof.
  intros Ha H. pose proof (feqb_real a zero Ha fin_zero) as R. rewrite H in R.
  pose proof (F2R_nonneg a Ha). rewrite F2R_zero in R. lra.
Qed.

Ltac unfold_locals :=
  cbn [s1 s2 s3 xabs x1max x3max agiant floatn i__
       set_i set_s1 set_s2 set_s3 set_xabs set_x1max set_x3max] in *.

Lemma body_acc (k : nat) (A1 A2 A3 : R) (xi : float) (st st' : locals)
    (divs : list (site * float)) :
  acc_parts k A1 A2 A3 st -> is_finite xi = true -> (Z.of_nat k < 2 ^ 31)%Z ->
  body xi st = Done st' divs ->
  exists A1' A2' A3' : R,
    A1' + A2' + A3' = A1 + A2 + A3 + F2R xi * F2R xi /\
    acc_parts (S k) A1' A2' A3' st'.
Proof.
  intros [BL BS F2 W2 C2 S2 X1 X3 Fag [Lag Uag]] Hfin Hk.
  destruct (acc_parts_budget k Hk) as [Hm HK].
  pose proof (fin_dabs xi Hfin) as Fa. pose proof (F2R_dabs_sqr xi) as Ea.
  pose proof (F2R_nonneg _ Fa) as Na.
  pose proof F2R_rdwarf as [Lrd Urd]. pose proof fin_rdwarf as Frd.
  unfold body. destruct st as [i v1 v2 v3 xa m1 m3 ag fl]. unfold_locals.
  set (a := dabs xi) in *.
  pose proof (bk_fin_p _ _ _ _ _ BL) as Fm1. pose proof (bk_fin_p _ _ _ _ _ BS) as Fm3.
  assert (Lk : (k * 5 <= S k * 5)%nat) by lia.
  assert (LS : (k <= S k)%nat) by lia.
  assert (E5 : (S k * 5 = k * 5 + 5)%nat) by lia.
  destruct ((rdwarf <? a) && (a <? ag))%float eqn:T1.
  { apply andb_prop in T1 as [Ta Tb].
    apply fltb_true in Ta, Tb; try assumption.
    destruct (intermediate_step (k * 5) k v2 a A2 F2 Fa W2 C2 ltac:(lra) Hm HK)
      as (Fs & Ws & Cs & Ss).
    intros [= <- <-]. exists A1, (A2 + F2R a * F2R a), A3. split; [lra|].
    constructor; unfold_locals; try assumption.
    - apply (bucket_weaken _ _ _ _ _ _ _ BL); assumption.
    - apply (bucket_weaken _ _ _ _ _ _ _ BS); assumption.
    - rewrite E5. exact Ws.
    - right. exact Ss.
    - split; assumption. }
  destruct (a <=? rdwarf)%float eqn:T2.
  { apply fleb_true in T2; try assumption.
    destruct (a <=? m3)%float eqn:T3.
    - apply fleb_true in T3; try assumption.
      destruct (a =? zero)%float eqn:T4; cbn [negb].
      + apply feqb_zero_true in T4; try assumption.
        intros [= <- <-]. exists A1, A2, A3. split; [rewrite <- Ea, T4; lra|].
        constructor; unfold_locals; try assumption.
        * apply (bucket_weaken _ _ _ _ _ _ _ BL); assumption.
        * apply (bucket_weaken _ _ _ _ _ _ _ BS); assumption.
        * apply (within_weaken (k * 5)); [lia|apply F2R_nonneg; exact F2|exact W2].
        * apply Rle_trans with (1 := C2). rewrite S_INR.
          pose proof (bpow_pos 130). nra.
        * split; assumption.
      + apply feqb_zero_false in T4; try assumption.
        pose proof (accumulate_step _ _ _ _ a _ BS Fa T4 T3 Hm HK) as BS'.
        cbn [fdiv bind ret]. intros [= <- <-].
        exists A1, A2, (A3 + F2R a * F2R a). split; [lra|].
        constructor; unfold_locals; try assumption.
        * apply (bucket_weaken _ _ _ _ _ _ _ BL); assumption.
        * rewrite E5. exact BS'.
        * apply (within_weaken (k * 5)); [lia|apply F2R_nonneg; exact F2|exact W2].
        * apply Rle_trans with (1 := C2). rewrite S_INR.
          pose proof (bpow_pos 130). nra.
        * split; assumption.
    - apply fleb_false in T3; try assumption.
      pose proof (rescale_step _ _ _ _ a _ BS Fa T3 Hm HK) as BS'.
      cbn [fdiv bind ret]. intros [= <- <-].
      exists A1, A2, (A3 + F2R a * F2R a). split; [lra|].
      constructor; unfold_locals; try assumption.
      * apply (bucket_weaken _ _ _ _ _ _ _ BL); assumption.
      * rewrite E5. exact BS'.
      * apply (within_weaken (k * 5)); [lia|apply F2R_nonneg; exact F2|exact W2].
      * apply Rle_trans with (1 := C2). rewrite S_INR.
        pose proof (bpow_pos 130). nra.
      * split; assumption. }
  apply fleb_false in T2; try assumption.
  assert (Ga : F2R ag <= F2R a).
  { apply andb_false_elim in T1 as [T|T].
    - apply fltb_false in T; try assumption. lra.
    - apply fltb_false in T; assumption. }
  assert (Pa : 0 < F2R a) by (pose proof (bpow_pos (-65)); lra).
  destruct (a <=? m1)%float eqn:T3.
  - apply fleb_true in T3; try assumption.
    pose proof (accumulate_step _ _ _ _ a _ BL Fa Pa T3 Hm HK) as BL'.
    cbn [fdiv bind ret]. intros [= <- <-].
    exists (A1 + F2R a * F2R a), A2, A3. split; [lra|].
    constructor; unfold_locals; try assumption.
    * rewrite E5. exact BL'.
    * apply (bucket_weaken _ _ _ _ _ _ _ BS); assumption.
    * apply (within_weaken (k * 5)); [lia|apply F2R_nonneg; exact F2|exact W2].
    * apply Rle_trans with (1 := C2). rewrite S_INR.
      pose proof (bpow_pos 130). nra.
    * split; assumption.
  - apply fleb_false in T3; try assumption.
    pose proof (rescale_step _ _ _ _ a _ BL Fa T3 Hm HK) as BL'.
    cbn [fdiv bind ret]. intros [= <- <-].
    exists (A1 + F2R a * F2R a), A2, A3. split; [lra|].
    constructor; unfold_locals; try assumption.
    * rewrite E5. exact BL'.
    * apply (bucket_weaken _ _ _ _ _ _ _ BS); assumption.
    * apply (within_weaken (k * 5)); [lia|apply F2R_nonneg; exact F2|exact W2].
    * apply Rle_trans with (1 := C2). rewrite S_INR.
      pose proof (bpow_pos 130). nra.
    * right. exact Ga.
    * split; assumption.
Qed.

(** ** The loop *)

Lemma body_index (xi : float) (st st' : locals) (divs : list (site * float)) :
  body xi st = Done st' divs -> i__ st' = i__ st.
Proof.
  unfold body. destruct st as [i v1 v2 v3 xa m1 m3 ag fl]. unfold_locals.
  repeat match goal with
         | |- context [if ?c then _ else _] => destruct c
         end; cbn [fdiv bind ret]; intros [= <- _]; reflexivity.
Qed.

Lemma acc_parts_set_i (k : nat) (A1 A2 A3 : R) (j : Z) (st : locals) :
  acc_parts k A1 A2 A3 st -> acc_parts k A1 A2 A3 (set_i j st).
Proof. intros []; constructor; assumption. Qed.

Lemma sum_squares_firstn (x : list float) : forall (j : nat) (v : float),
  nth_error x j = Some v ->
  sum_squares (firstn (S j) x) = sum_squares (firstn j x) + F2R v * F2R v.
Proof.
  induction x as [|a x IH]; intros [|j] v H; try discriminate.
  - injection H as ->. cbn. ring.
  - cbn [nth_error] in H. change (firstn (S (S j)) (a :: x)) with (a :: firstn (S j) x).
    change (firstn (S j) (a :: x)) with (a :: firstn j x).
    cbn [sum_squares fold_right]. fold (sum_squares (firstn (S j) x)).
    fold (sum_squares (firstn j x)). rewrite (IH j v H). ring.
Qed.

Lemma for_loop_acc (x : list float) (k : nat) : forall (j : nat) st st' divs,
  all_finite x -> acc_inv j (sum_squares (firstn j x)) st ->
  i__ st = (Z.of_nat j + 1)%Z -> (Z.of_nat (j + k) <= 2 ^ 31)%Z ->
  for_loop k x st = Done st' divs ->
  acc_inv (j + k) (sum_squares (firstn (j + k) x)) st'.
Proof.
  induction k as [|k IH]; intros j st st' divs Hx I Hi Hk.
  - intros [= <- _]. rewrite Nat.add_0_r. exact I.
  - cbn [for_loop]. intros H.
    apply bind_done_inv in H as (v & l1 & l2 & Hv & H & _).
    apply bind_done_inv in H as (st1 & l3 & l4 & B & L & _).
    assert (Nv : nth_error x j = Some v).
    { unfold load in Hv. destruct (i__ st <? 1)%Z; [discriminate|].
      replace (Z.to_nat (i__ st - 1)) with j in Hv by lia.
      destruct (nth_error x j) as [w|]; [|discriminate].
      injection Hv as <- _. reflexivity. }
    pose proof (all_finite_nth x _ v Hx Nv) as Fv.
    destruct I as (A1 & A2 & A3 & ES & P).
    destruct (body_acc j A1 A2 A3 v st st1 l3 P Fv ltac:(lia) B)
      as (A1' & A2' & A3' & ES' & P').
    replace (j + S k)%nat with (S j + k)%nat by lia.
    apply (IH (S j) (set_i (i__ st1 + 1) st1) st' l4 Hx); [| |lia|exact L].
    + exists A1', A2', A3'. split; [|apply acc_parts_set_i; exact P'].
      rewrite (sum_squares_firstn x j v Nv). lra.
    + cbn [set_i i__]. rewrite (body_index _ _ _ _ B). lia.
Qed.

(** ** The final step *)

Lemma eta_pos : 0 < eta.
Proof. apply bpow_pos. Qed.

Lemma rounded_upper (x : R) (f : float) :
  rounded x f -> 0 <= x -> F2R f <= x * (1 + u) + eta.
Proof.
  intros (_ & _ & _ & _ & _ & [[H _]|[_ H]]) Hx; unfold F2R.
  - rewrite pow_1 in H. pose proof eta_pos. lra.
  - apply Rabs_le_inv in H. pose proof u_pos.
    assert (0 <= x * u) by (apply Rmult_le_pos; lra). lra.
Qed.

Lemma sqrt_scaled (z X : R) : 0 <= z -> 0 <= X -> sqrt (z * (X * X)) = X * sqrt z.
Proof.
  intros Hz HX. rewrite sqrt_mult_alt by assumption.
  rewrite sqrt_square by assumption. ring.
Qed.

Lemma sqrt_ge_1 (z : R) : 1 <= z -> 1 <= sqrt z.
Proof. intros H. rewrite <- sqrt_1. apply sqrt_le_1_alt. exact H. Qed.

Lemma sqrt_le_self (z : R) : 1 <= z -> sqrt z <= z.
Proof.
  intros H. pose proof (sqrt_ge_1 z H) as G.
  pose proof (sqrt_sqrt z ltac:(lra)) as E. nra.
Qed.

(** Lines 145-150: the large components dominate. *)
Lemma combine_large (m n h : nat) (s1 s2 x1 : float) (A1 A2 A3 : R) :
  bucket m n s1 x1 A1 -> 1 <= F2R s1 -> bpow 32 <= F2R x1 ->
  fin s2 -> within m (F2R s2) A2 -> A2 <= INR n * bpow 130 ->
  0 <= A3 <= bpow (-97) ->
  (1 + u) ^ m <= 2 -> INR n <= bpow 31 -> (m + 4 <= 2 * h)%nat ->
  sqrt (A1 + A2 + A3) * (1 + u) ^ (h + 2) < omega ->
  let r := (x1 * PrimFloat.sqrt (s1 + (s2 / x1) / x1))%float in
  fin r /\ within (h + 2) (F2R r) (sqrt (A1 + A2 + A3)).
Proof.
  intros B S1 GX F2 W2 C2 [N3 U3] Hm Hn Hh Hov. cbv zeta.
  destruct (bucket_nonneg _ _ _ _ _ B) as [N NA].
  pose proof (bucket_le _ _ _ _ _ B Hm Hn) as Ls.
  destruct B as [Fs Fx W _ _].
  pose proof (F2R_nonneg s2 F2) as N2. pose proof (within_pos _ _ _ W2 N2) as NA2.
  pose proof (bpow_pos 32) as P32.
  set (X := F2R x1) in *. assert (PX : 0 < X) by lra.
  assert (PX2 : 0 < X * X) by nra.
  pose proof (opu_pos m) as Pm.
  assert (U2 : F2R s2 <= bpow 162).
  { destruct W2 as [W2 _]. apply Rle_trans with (1 := W2).
    replace 162%Z with (31 + 130 + 1)%Z by lia. rewrite !bpow_add, bpow_1.
    pose proof (bpow_pos 130). pose proof (pos_INR n).
    assert (A2 <= bpow 31 * bpow 130).
    { apply Rle_trans with (1 := C2). apply Rmult_le_compat_r; lra. }
    apply Rmult_le_compat; lra. }
  assert (IX : / X <= bpow (-32)).
  { replace (bpow (-32)) with (/ bpow 32) by (rewrite <- bpow_opp; reflexivity).
    apply Rinv_le_contravar; lra. }
  assert (PIX : 0 < / X) by (apply Rinv_0_lt_compat; lra).
  (* q1 = s2 / x1 *)
  assert (Lq1 : F2R s2 / X <= bpow 130).
  { unfold Rdiv. replace 130%Z with (162 + -32)%Z by lia. rewrite bpow_add.
    apply Rmult_le_compat; lra. }
  destruct (fdiv_ok 130 s2 x1 F2 Fx PX ltac:(lia) Lq1) as (Rq1 & Fq1 & Uq1).
  fold X in Rq1.
  set (q1 := (s2 / x1)%float) in *. pose proof (F2R_nonneg q1 Fq1) as Nq1.
  (* q2 = q1 / x1 *)
  assert (Lq2 : F2R q1 / X <= bpow 98).
  { unfold Rdiv. replace 98%Z with (130 + -32)%Z by lia. rewrite bpow_add.
    apply Rmult_le_compat; lra. }
  destruct (fdiv_ok 98 q1 x1 Fq1 Fx PX ltac:(lia) Lq2) as (Rq2 & Fq2 & Uq2).
  fold X in Rq2.
  set (q2 := (q1 / x1)%float) in *. pose proof (F2R_nonneg q2 Fq2) as Nq2.
  (* z = s1 + q2 *)
  assert (Lz : F2R s1 + F2R q2 <= bpow 99).
  { replace (bpow 99) with (2 * bpow 98) by (rewrite <- bpow_succ; reflexivity).
    pose proof (bpow_le 32 98 ltac:(lia)). lra. }
  destruct (fadd_ok 99 s1 q2 Fs Fq2 ltac:(lia) Lz) as (Rz & Fz & Uz).
  set (z := (s1 + q2)%float) in *.
  assert (Gz : 1 <= F2R z).
  { rewrite <- bpow_0. apply (rounded_ge _ _ 0 Rz); [lia|]. rewrite bpow_0. lra. }
  assert (Wz : within 1 (F2R z) (F2R s1 + F2R q2)).
  { apply (rounded_normal _ _ Rz). pose proof (bpow_le (-1022) 0 ltac:(lia)).
    rewrite bpow_0 in *. lra. }
  (* the sum under the root *)
  assert (Core : within (m + 2) ((F2R s1 + F2R q2) * (X * X)) (A1 + A2)).
  { replace ((F2R s1 + F2R q2) * (X * X))
      with (F2R s1 * (X * X) + F2R q2 * (X * X)) by ring.
    set (T := F2R s2 / (X * X)).
    assert (ET : F2R s2 = T * (X * X)) by (unfold T; field; lra).
    assert (NT : 0 <= T) by (apply div_nonneg; lra).
    assert (ET1 : F2R s2 / X = T * X) by (unfold T; field; lra).
    destruct (Rle_lt_dec (bpow (-1000)) T) as [HT|HT].
    - assert (G1 : bpow (-968) <= F2R s2 / X).
      { rewrite ET1. replace (-968)%Z with (-1000 + 32)%Z by lia. rewrite bpow_add.
        pose proof (bpow_pos (-1000)). apply Rmult_le_compat; lra. }
      assert (Wq1 : within 1 (F2R q1) (F2R s2 / X)).
      { apply (rounded_normal _ _ Rq1). pose proof (bpow_le (-1022) (-968) ltac:(lia)). lra. }
      assert (Wq1' : within 1 (F2R q1 / X) T).
      { replace T with (F2R s2 / X / X) by (unfold T; field; lra).
        replace 1%nat with (1 + 0)%nat by lia.
        apply within_div; [exact Nq1|exact PX|exact Wq1|apply within_refl]. }
      assert (G2 : bpow (-1001) <= F2R q1 / X).
      { destruct Wq1' as [_ Wq]. rewrite pow_1 in Wq.
        replace (bpow (-1000)) with (2 * bpow (-1001)) in HT
          by (rewrite <- bpow_succ; reflexivity).
        pose proof u_pos. pose proof (bpow_pos (-1001)).
        assert (u <= 1).
        { unfold u. rewrite <- bpow_0. apply bpow_le. lia. }
        assert (0 <= F2R q1 / X) by (apply div_nonneg; lra). nra. }
      assert (Wq2 : within 1 (F2R q2) (F2R q1 / X)).
      { apply (rounded_normal _ _ Rq2). pose proof (bpow_le (-1022) (-1001) ltac:(lia)). lra. }
      apply within_add.
      + apply (within_weaken m); [lia|exact N|exact W].
      + replace (m + 2)%nat with (2 + m)%nat by lia.
        apply (within_trans 2 m _ (F2R s2)); [nra| |exact W2].
        rewrite ET. replace 2%nat with (1 + 1 + 0)%nat by lia.
        apply within_mul; [exact Nq2|lra| |apply within_refl].
        apply (within_trans 1 1 _ _ _ Nq2 Wq2 Wq1').
    - assert (Tq2 : F2R q2 <= bpow (-998)).
      { apply (rounded_le _ _ (-998) Rq2); [lia|].
        pose proof (rounded_upper _ _ Rq1 ltac:(apply div_nonneg; lra)) as Up.
        rewrite ET1 in Up.
        assert (E : F2R q1 / X <= T * (1 + u) + eta * / X).
        { unfold Rdiv. apply Rle_trans with ((T * X * (1 + u) + eta) * / X).
          - apply Rmult_le_compat_r; lra.
          - right. field. lra. }
        apply Rle_trans with (1 := E).
        replace (bpow (-998)) with (2 * bpow (-1000) + 2 * bpow (-1000)).
        2:{ replace (-998)%Z with (-1000 + 1 + 1)%Z by lia. rewrite !bpow_succ. ring. }
        pose proof u_pos. pose proof (bpow_pos (-1000)).
        assert (u <= 1) by (unfold u; rewrite <- bpow_0; apply bpow_le; lia).
        assert (T * (1 + u) <= 2 * bpow (-1000)) by nra.
        assert (eta * / X <= 2 * bpow (-1000)).
        { pose proof (bpow_le (-1075) (-1000) ltac:(lia)). fold eta in *.
          pose proof (bpow_le (-32) 0 ltac:(lia)). rewrite bpow_0 in *.
          pose proof eta_pos.
          apply Rle_trans with (bpow (-1000) * 1); [apply Rmult_le_compat; lra|lra]. }
        lra. }
      assert (XA : X * X <= 2 * A1).
      { destruct W as [W _]. apply Rle_trans with (F2R s1 * (X * X)); [nra|].
        apply Rle_trans with (1 := W). nra. }
      assert (Bu : 4 * bpow (-998) <= u).
      { replace 4 with (2 * 2) by ring. rewrite Rmult_assoc, <- !bpow_succ.
        apply bpow_le. lia. }
      pose proof (bpow_pos (-998)) as P998. pose proof (bpow_pos (-1000)) as P1000.
      pose proof (bpow_le (-1000) (-998) ltac:(lia)) as L98.
      apply (within_weaken (m + 1)); [lia|nra|].
      apply within_add_tiny; [exact N|exact W| |].
      + split; [nra|]. apply Rle_trans with (bpow (-998) * (X * X)); [nra|].
        apply Rle_trans with (bpow (-998) * (2 * A1)); [nra|]. nra.
      + split; [lra|]. destruct W2 as [_ W2].
        apply Rle_trans with (1 := W2). rewrite ET.
        apply Rle_trans with (bpow (-1000) * (X * X) * 2).
        * assert (0 <= T * (X * X)) by (apply Rmult_le_pos; lra).
          assert (T * (X * X) <= bpow (-1000) * (X * X))
            by (apply Rmult_le_compat_r; lra).
          apply Rmult_le_compat; lra.
        * apply Rle_trans with (u * (X * X)); [nra|].
          apply Rmult_le_compat_l; [pose proof u_pos; lra|nra]. }
  assert (WS : within 1 (A1 + A2) (A1 + A2 + A3)).
  { unfold within. rewrite pow_1. pose proof u_pos as Pu.
    assert (X * X <= 2 * A1).
    { destruct W as [W _]. apply Rle_trans with (F2R s1 * (X * X)); [nra|].
      apply Rle_trans with (1 := W). nra. }
    assert (bpow 64 <= X * X).
    { change 64%Z with (2 * 32)%Z. apply sqr_ge_bpow. exact GX. }
    assert (A3 <= u * bpow 63).
    { apply Rle_trans with (1 := U3). unfold u. rewrite <- bpow_add. apply bpow_le. lia. }
    assert (bpow 64 = 2 * bpow 63) by (rewrite <- bpow_succ; reflexivity).
    assert (u * bpow 63 <= u * A1) by (apply Rmult_le_compat_l; lra).
    assert (0 <= u * A2) by (apply Rmult_le_pos; lra).
    assert (0 <= u * A3) by (apply Rmult_le_pos; lra).
    split; lra. }
  assert (Wroot : within h (X * sqrt (F2R z)) (sqrt (A1 + A2 + A3))).
  { rewrite <- sqrt_scaled by lra. apply within_sqrt; [nra|].
    apply (within_weaken (1 + (m + 2) + 1)); [lia|nra|].
    apply (within_trans (1 + (m + 2)) 1 _ (A1 + A2)); [nra| |exact WS].
    apply (within_trans 1 (m + 2) _ ((F2R s1 + F2R q2) * (X * X))); [nra| |exact Core].
    replace 1%nat with (1 + 0)%nat by lia.
    apply within_mul; [lra|lra|exact Wz|apply within_refl]. }
  (* y = sqrt z *)
  pose proof (fsqrt_rounded z Fz) as Ry.
  pose proof (rounded_fin _ _ Ry) as Fy.
  set (y := PrimFloat.sqrt z) in *. pose proof (F2R_nonneg y Fy) as Ny.
  pose proof (sqrt_ge_1 _ Gz) as Gy.
  assert (Wy : within 1 (F2R y) (sqrt (F2R z))).
  { apply (rounded_normal _ _ Ry). pose proof (bpow_le (-1022) 0 ltac:(lia)).
    rewrite bpow_0 in *. lra. }
  assert (Gy' : 1 <= F2R y).
  { rewrite <- bpow_0. apply (rounded_ge _ _ 0 Ry); [lia|]. rewrite bpow_0. exact Gy. }
  assert (Wxy : within (h + 1) (X * F2R y) (sqrt (A1 + A2 + A3))).
  { replace (h + 1)%nat with (1 + h)%nat by lia.
    apply (within_trans 1 h _ (X * sqrt (F2R z))); [nra| |exact Wroot].
    replace 1%nat with (0 + 1)%nat by lia.
    apply within_mul; [lra|lra|apply within_refl|exact Wy]. }
  (* r = x1 * y *)
  assert (Ov : X * F2R y < omega).
  { destruct Wxy as [Wxy _]. apply Rle_lt_trans with (1 := Wxy).
    apply Rle_lt_trans with (2 := Hov).
    apply Rmult_le_compat_l; [apply sqrt_pos|]. apply opu_mono. lia. }
  pose proof (fmul_rounded x1 y Fx Fy Ov) as Rr. fold X in Rr.
  split; [exact (rounded_fin _ _ Rr)|].
  replace (h + 2)%nat with (1 + (h + 1))%nat by lia.
  apply (within_trans 1 (h + 1) _ (X * F2R y)); [|  |exact Wxy].
  - apply F2R_nonneg. exact (rounded_fin _ _ Rr).
  - apply (rounded_normal _ _ Rr). pose proof (bpow_le (-1022) 32 ltac:(lia)). nra.
Qed.

Lemma sqrt_ge_bpow (x : R) (k : Z) : bpow (2 * k) <= x -> bpow k <= sqrt x.
Proof.
  intros H. pose proof (bpow_pos k) as P.
  rewrite <- (sqrt_square (bpow k)) by lra. apply sqrt_le_1_alt.
  rewrite bpow_sqr. exact H.
Qed.

(** Line 154: [s2 >= x3max]. *)
Lemma combine_s2_ge (m n h : nat) (s2 s3 x3 : float) (A2 A3 : R) :
  bucket m n s3 x3 A3 -> fin s2 -> within m (F2R s2) A2 ->
  bpow (-130) <= A2 -> A2 <= INR n * bpow 130 ->
  F2R x3 <= F2R s2 -> F2R x3 <= bpow (-64) ->
  (1 + u) ^ m <= 2 -> INR n <= bpow 31 -> (m + 5 <= 2 * h)%nat ->
  let r := PrimFloat.sqrt (s2 * (one + (x3 / s2) * (x3 * s3)))%float in
  fin r /\ within (h + 1) (F2R r) (sqrt (A2 + A3)).
Proof.
  intros B F2 W2 L2 C2 Hxs Hx Hm Hn Hh. cbv zeta.
  destruct (bucket_nonneg _ _ _ _ _ B) as [N NA].
  pose proof (bucket_le _ _ _ _ _ B Hm Hn) as Ls.
  destruct B as [Fs Fx W St _].
  pose proof (F2R_nonneg s2 F2) as N2. pose proof (F2R_nonneg s3 Fs) as N3.
  pose proof (F2R_nonneg x3 Fx) as NX.
  pose proof (opu_pos m) as Pm. pose proof u_pos as Pu.
  assert (NA2 : 0 <= A2) by (pose proof (bpow_pos (-130)); lra).
  set (X := F2R x3) in *. set (S2 := F2R s2) in *. set (S3 := F2R s3) in *.
  assert (G2 : bpow (-131) <= S2).
  { destruct W2 as [_ W2].
    replace (bpow (-130)) with (2 * bpow (-131)) in L2 by (rewrite <- bpow_succ; reflexivity).
    pose proof (bpow_pos (-131)). nra. }
  assert (U2 : S2 <= bpow 162).
  { destruct W2 as [W2 _]. apply Rle_trans with (1 := W2).
    replace 162%Z with (31 + 130 + 1)%Z by lia. rewrite !bpow_add, bpow_1.
    pose proof (bpow_pos 130). pose proof (pos_INR n).
    assert (A2 <= bpow 31 * bpow 130).
    { apply Rle_trans with (1 := C2). apply Rmult_le_compat_r; lra. }
    apply Rmult_le_compat; lra. }
  pose proof (bpow_pos (-131)) as P131.
  assert (P2 : 0 < S2) by lra.
  assert (SA : S2 <= 2 * A2) by (destruct W2 as [W2 _]; nra).
  (* q = x3 / s2 *)
  assert (Lq : X / S2 <= bpow 0) by (rewrite bpow_0; apply div_le_1; lra).
  destruct (fdiv_ok 0 x3 s2 Fx F2 P2 ltac:(lia) Lq) as (Rq & Fq & Uq).
  fold X S2 in Rq. rewrite bpow_0 in Uq.
  set (q := (x3 / s2)%float) in *. pose proof (F2R_nonneg q Fq) as Nq.
  (* b = x3 * s3 *)
  assert (Lb : X * S3 <= bpow (-32)).
  { replace (-32)%Z with (-64 + 32)%Z by lia. rewrite bpow_add.
    apply Rmult_le_compat; lra. }
  destruct (fmul_ok (-32) x3 s3 Fx Fs ltac:(lia) Lb) as (Rb & Fb & Ub).
  fold X S3 in Rb.
  set (b := (x3 * s3)%float) in *. pose proof (F2R_nonneg b Fb) as Nb.
  (* c = q * b *)
  pose proof (bpow_pos (-32)) as P32.
  assert (Lc : F2R q * F2R b <= bpow (-32)).
  { rewrite <- (Rmult_1_l (bpow (-32))). apply Rmult_le_compat; lra. }
  destruct (fmul_ok (-32) q b Fq Fb ltac:(lia) Lc) as (Rc & Fc & Uc).
  set (c := (q * b)%float) in *. pose proof (F2R_nonneg c Fc) as Nc.
  (* e = one + c *)
  assert (Le : F2R one + F2R c <= bpow 1).
  { rewrite F2R_one, bpow_1. pose proof (bpow_le (-32) 0 ltac:(lia)).
    rewrite bpow_0 in *. lra. }
  destruct (fadd_ok 1 one c fin_one Fc ltac:(lia) Le) as (Re & Fe & Ue).
  rewrite F2R_one in Re. rewrite bpow_1 in Ue.
  set (e := (one + c)%float) in *.
  assert (Ge : 1 <= F2R e).
  { rewrite <- bpow_0. apply (rounded_ge _ _ 0 Re); [lia|]. rewrite bpow_0. lra. }
  assert (We : within 1 (F2R e) (1 + F2R c)).
  { apply (rounded_normal _ _ Re). pose proof (bpow_le (-1022) 0 ltac:(lia)).
    rewrite bpow_0 in *. lra. }
  (* g = s2 * e *)
  assert (Lg : S2 * F2R e <= bpow 163).
  { replace 163%Z with (162 + 1)%Z by lia. rewrite bpow_add, bpow_1.
    apply Rmult_le_compat; lra. }
  destruct (fmul_ok 163 s2 e F2 Fe ltac:(lia) Lg) as (Rg & Fg & Ug).
  fold S2 in Rg.
  set (g := (s2 * e)%float) in *.
  assert (Gg0 : bpow (-131) <= S2 * F2R e) by nra.
  assert (Wg : within 1 (F2R g) (S2 * F2R e)).
  { apply (rounded_normal _ _ Rg). pose proof (bpow_le (-1022) (-131) ltac:(lia)). lra. }
  pose proof (rounded_ge _ _ (-131) Rg ltac:(lia) Gg0) as Gg.
  (* the product under the root *)
  assert (Core : within (m + 3) (S2 * (1 + F2R c)) (A2 + A3)).
  { replace (S2 * (1 + F2R c)) with (S2 + S2 * F2R c) by ring.
    destruct (Rle_lt_dec (bpow (-400)) X) as [HX|HX].
    - pose proof (bpow_pos (-400)) as P400.
      destruct St as [[_ Z]|[S1 _]]; [fold X in Z; lra|]. fold S3 in S1.
      assert (Gq0 : bpow (-562) <= X / S2).
      { unfold Rdiv. replace (-562)%Z with (-400 + -162)%Z by lia. rewrite bpow_add.
        apply Rmult_le_compat; try lra.
        - apply Rlt_le, bpow_pos.
        - replace (bpow (-162)) with (/ bpow 162) by (rewrite <- bpow_opp; reflexivity).
          apply Rinv_le_contravar; lra. }
      assert (Wq : within 1 (F2R q) (X / S2)).
      { apply (rounded_normal _ _ Rq). pose proof (bpow_le (-1022) (-562) ltac:(lia)). lra. }
      pose proof (rounded_ge _ _ (-562) Rq ltac:(lia) Gq0) as Gq.
      assert (Gb0 : bpow (-400) <= X * S3) by nra.
      assert (Wb : within 1 (F2R b) (X * S3)).
      { apply (rounded_normal _ _ Rb). pose proof (bpow_le (-1022) (-400) ltac:(lia)). lra. }
      pose proof (rounded_ge _ _ (-400) Rb ltac:(lia) Gb0) as Gb.
      assert (Gc0 : bpow (-962) <= F2R q * F2R b).
      { replace (-962)%Z with (-562 + -400)%Z by lia. rewrite bpow_add.
        pose proof (bpow_pos (-562)). apply Rmult_le_compat; lra. }
      assert (Wc : within 1 (F2R c) (F2R q * F2R b)).
      { apply (rounded_normal _ _ Rc). pose proof (bpow_le (-1022) (-962) ltac:(lia)). lra. }
      apply within_add.
      + apply (within_weaken m); [lia|exact N2|exact W2].
      + replace (m + 3)%nat with (3 + m)%nat by lia.
        apply (within_trans 3 m _ (S3 * (X * X))); [nra| |exact W].
        replace (S3 * (X * X)) with (S2 * (X / S2 * (X * S3))) by (field; lra).
        replace 3%nat with (0 + (1 + (1 + 1)))%nat by lia.
        apply within_mul; [exact N2|exact Nc|apply within_refl|].
        apply (within_trans 1 (1 + 1) _ _ _ Nc Wc).
        apply within_mul; assumption.
    - assert (Tq : F2R q <= bpow (-269)).
      { apply (rounded_le _ _ (-269) Rq); [lia|]. unfold Rdiv.
        replace (-269)%Z with (-400 + 131)%Z by lia. rewrite bpow_add.
        apply Rmult_le_compat; try lra.
        - apply Rlt_le, Rinv_0_lt_compat. exact P2.
        - replace (bpow 131) with (/ bpow (-131)).
          + apply Rinv_le_contravar; lra.
          + change (-131)%Z with (- (131))%Z. rewrite bpow_opp.
            apply Rinv_inv. }
      assert (Tb0 : X * S3 <= bpow (-368)).
      { replace (-368)%Z with (-400 + 32)%Z by lia. rewrite bpow_add.
        apply Rmult_le_compat; lra. }
      pose proof (rounded_le _ _ (-368) Rb ltac:(lia) Tb0) as Tb.
      assert (Tc : F2R c <= bpow (-637)).
      { apply (rounded_le _ _ (-637) Rc); [lia|].
        replace (-637)%Z with (-269 + -368)%Z by lia. rewrite bpow_add.
        apply Rmult_le_compat; lra. }
      pose proof (bpow_pos (-637)) as P637.
      assert (B1 : 2 * bpow (-637) <= u).
      { rewrite <- bpow_succ. apply bpow_le. lia. }
      apply (within_weaken (m + 1)); [lia|nra|].
      apply within_add_tiny; [exact N2|exact W2| |].
      + split; [nra|].
        apply Rle_trans with (S2 * bpow (-637)); [apply Rmult_le_compat_l; lra|].
        apply Rle_trans with (2 * A2 * bpow (-637)); [apply Rmult_le_compat_r; lra|].
        assert (0 <= A2) by (pose proof (bpow_pos (-130)); lra). nra.
      + split; [exact NA|]. destruct W as [_ W].
        apply Rle_trans with (1 := W).
        assert (XX : X * X <= bpow (-800)).
        { change (-800)%Z with (2 * -400)%Z. apply sqr_le_bpow; lra. }
        assert (0 <= X * X) by nra.
        assert (S3 * (X * X) <= bpow 32 * bpow (-800)) by (apply Rmult_le_compat; lra).
        assert (0 <= S3 * (X * X)) by (apply Rmult_le_pos; lra).
        apply Rle_trans with (bpow 32 * bpow (-800) * 2); [apply Rmult_le_compat; lra|].
        apply Rle_trans with (u * bpow (-131)); [|apply Rmult_le_compat_l; lra].
        unfold u. rewrite <- !bpow_add.
        replace (bpow (32 + -800) * 2) with (bpow (32 + -800 + 1)) by (rewrite bpow_succ; ring).
        apply bpow_le. lia. }
  assert (Wg' : within (2 * h) (F2R g) (A2 + A3)).
  { apply (within_weaken (1 + (1 + (m + 3)))); [lia|lra|].
    apply (within_trans 1 (1 + (m + 3)) _ (S2 * F2R e)); [lra|exact Wg|].
    apply (within_trans 1 (m + 3) _ (S2 * (1 + F2R c))); [nra| |exact Core].
    replace 1%nat with (0 + 1)%nat by lia.
    apply within_mul; [exact N2|lra|apply within_refl|exact We]. }
  assert (Wroot : within h (sqrt (F2R g)) (sqrt (A2 + A3)))
    by (apply within_sqrt; [lra|exact Wg']).
  pose proof (fsqrt_rounded g Fg) as Rr.
  split; [exact (rounded_fin _ _ Rr)|].
  replace (h + 1)%nat with (1 + h)%nat by lia.
  apply (within_trans 1 h _ (sqrt (F2R g))); [| |exact Wroot].
  - apply F2R_nonneg. exact (rounded_fin _ _ Rr).
  - apply (rounded_normal _ _ Rr).
    pose proof (sqrt_ge_bpow (F2R g) (-66)) as Sq.
    change (2 * -66)%Z with (-132)%Z in Sq.
    pose proof (bpow_le (-132) (-131) ltac:(lia)).
    pose proof (bpow_le (-1022) (-66) ltac:(lia)).
    specialize (Sq ltac:(lra)). lra.
Qed.

(** Line 157: [s2 < x3max]. *)
Lemma combine_s2_lt (m n h : nat) (s2 s3 x3 : float) (A2 A3 : R) :
  bucket m n s3 x3 A3 -> fin s2 -> within m (F2R s2) A2 ->
  bpow (-130) <= A2 ->
  F2R s2 < F2R x3 -> F2R x3 <= bpow (-64) ->
  (1 + u) ^ m <= 2 -> INR n <= bpow 31 -> (m + 3 <= 2 * h)%nat ->
  let r := PrimFloat.sqrt (x3 * (s2 / x3 + x3 * s3))%float in
  fin r /\ within (h + 1) (F2R r) (sqrt (A2 + A3)).
Proof.
  intros B F2 W2 L2 Hxs Hx Hm Hn Hh. cbv zeta.
  destruct (bucket_nonneg _ _ _ _ _ B) as [N NA].
  pose proof (bucket_le _ _ _ _ _ B Hm Hn) as Ls.
  destruct B as [Fs Fx W St _].
  pose proof (F2R_nonneg s2 F2) as N2. pose proof (F2R_nonneg s3 Fs) as N3.
  pose proof (opu_pos m) as Pm. pose proof u_pos as Pu.
  assert (NA2 : 0 <= A2) by (pose proof (bpow_pos (-130)); lra).
  set (X := F2R x3) in *. set (S2 := F2R s2) in *. set (S3 := F2R s3) in *.
  assert (G2 : bpow (-131) <= S2).
  { destruct W2 as [_ W2].
    replace (bpow (-130)) with (2 * bpow (-131)) in L2 by (rewrite <- bpow_succ; reflexivity).
    pose proof (bpow_pos (-131)). nra. }
  pose proof (bpow_pos (-131)) as P131.
  assert (PX : 0 < X) by lra.
  destruct St as [[_ Z]|[S1 _]]; [lra|].
  (* q = s2 / x3 *)
  assert (Lq : S2 / X <= bpow 0) by (rewrite bpow_0; apply div_le_1; lra).
  destruct (fdiv_ok 0 s2 x3 F2 Fx PX ltac:(lia) Lq) as (Rq & Fq & Uq).
  fold X S2 in Rq. rewrite bpow_0 in Uq.
  set (q := (s2 / x3)%float) in *. pose proof (F2R_nonneg q Fq) as Nq.
  assert (Gq0 : bpow (-67) <= S2 / X).
  { unfold Rdiv. replace (-67)%Z with (-131 + 64)%Z by lia. rewrite bpow_add.
    apply Rmult_le_compat; try lra.
    - apply Rlt_le, bpow_pos.
    - replace (bpow 64) with (/ bpow (-64)).
      + apply Rinv_le_contravar; lra.
      + change (-64)%Z with (- (64))%Z. rewrite bpow_opp. apply Rinv_inv. }
  assert (Wq : within 1 (F2R q) (S2 / X)).
  { apply (rounded_normal _ _ Rq). pose proof (bpow_le (-1022) (-67) ltac:(lia)). lra. }
  (* b = x3 * s3 *)
  assert (Lb : X * S3 <= bpow (-32)).
  { replace (-32)%Z with (-64 + 32)%Z by lia. rewrite bpow_add.
    apply Rmult_le_compat; lra. }
  destruct (fmul_ok (-32) x3 s3 Fx Fs ltac:(lia) Lb) as (Rb & Fb & Ub).
  fold X S3 in Rb.
  set (b := (x3 * s3)%float) in *. pose proof (F2R_nonneg b Fb) as Nb.
  assert (Gb0 : bpow (-131) <= X * S3) by nra.
  assert (Wb : within 1 (F2R b) (X * S3)).
  { apply (rounded_normal _ _ Rb). pose proof (bpow_le (-1022) (-131) ltac:(lia)). lra. }
  pose proof (rounded_ge _ _ (-131) Rb ltac:(lia) Gb0) as Gb.
  (* e = q + b *)
  assert (Le : F2R q + F2R b <= bpow 1).
  { rewrite bpow_1. pose proof (bpow_le (-32) 0 ltac:(lia)). rewrite bpow_0 in *. lra. }
  destruct (fadd_ok 1 q b Fq Fb ltac:(lia) Le) as (Re & Fe & Ue).
  rewrite bpow_1 in Ue.
  set (e := (q + b)%float) in *.
  assert (Ge0 : bpow (-131) <= F2R q + F2R b) by lra.
  assert (We : within 1 (F2R e) (F2R q + F2R b)).
  { apply (rounded_normal _ _ Re). pose proof (bpow_le (-1022) (-131) ltac:(lia)). lra. }
  pose proof (rounded_ge _ _ (-131) Re ltac:(lia) Ge0) as Ge.
  (* g = x3 * e *)
  assert (Lg : X * F2R e <= bpow (-63)).
  { replace (-63)%Z with (-64 + 1)%Z by lia. rewrite bpow_add, bpow_1.
    apply Rmult_le_compat; lra. }
  destruct (fmul_ok (-63) x3 e Fx Fe ltac:(lia) Lg) as (Rg & Fg & Ug).
  fold X in Rg.
  set (g := (x3 * e)%float) in *.
  assert (Gg0 : bpow (-262) <= X * F2R e).
  { replace (-262)%Z with (-131 + -131)%Z by lia. rewrite bpow_add.
    apply Rmult_le_compat; lra. }
  assert (Wg : within 1 (F2R g) (X * F2R e)).
  { apply (rounded_normal _ _ Rg). pose proof (bpow_le (-1022) (-262) ltac:(lia)). lra. }
  pose proof (rounded_ge _ _ (-262) Rg ltac:(lia) Gg0) as Gg.
  pose proof (bpow_pos (-262)) as P262.
  assert (Core : within (m + 1) (X * (F2R q + F2R b)) (A2 + A3)).
  { replace (X * (F2R q + F2R b)) with (X * F2R q + X * F2R b) by ring.
    replace (m + 1)%nat with (1 + m)%nat by lia.
    apply within_add.
    - apply (within_trans 1 m _ S2); [nra| |exact W2].
      assert (H1 : within (0 + 1) (X * F2R q) (X * (S2 / X)))
        by (apply within_mul; [lra|exact Nq|apply within_refl|exact Wq]).
      replace (X * (S2 / X)) with S2 in H1 by (field; lra). exact H1.
    - apply (within_trans 1 m _ (S3 * (X * X))); [nra| |exact W].
      replace (S3 * (X * X)) with (X * (X * S3)) by ring.
      replace 1%nat with (0 + 1)%nat by lia.
      apply within_mul; [lra|exact Nb|apply within_refl|exact Wb]. }
  assert (Wg' : within (2 * h) (F2R g) (A2 + A3)).
  { apply (within_weaken (1 + (1 + (m + 1)))); [lia|lra|].
    apply (within_trans 1 (1 + (m + 1)) _ (X * F2R e)); [lra|exact Wg|].
    apply (within_trans 1 (m + 1) _ (X * (F2R q + F2R b))); [nra| |exact Core].
    replace 1%nat with (0 + 1)%nat by lia.
    apply within_mul; [lra|lra|apply within_refl|exact We]. }
  assert (Wroot : within h (sqrt (F2R g)) (sqrt (A2 + A3)))
    by (apply within_sqrt; [lra|exact Wg']).
  pose proof (fsqrt_rounded g Fg) as Rr.
  split; [exact (rounded_fin _ _ Rr)|].
  replace (h + 1)%nat with (1 + h)%nat by lia.
  apply (within_trans 1 h _ (sqrt (F2R g))); [| |exact Wroot].
  - apply F2R_nonneg. exact (rounded_fin _ _ Rr).
  - apply (rounded_normal _ _ Rr).
    pose proof (sqrt_ge_bpow (F2R g) (-131)) as Sq.
    change (2 * -131)%Z with (-262)%Z in Sq.
    pose proof (bpow_le (-1022) (-131) ltac:(lia)).
    specialize (Sq ltac:(lra)). lra.
Qed.

Lemma close_of_within (K : nat) (r N : R) : 0 <= r -> within K r N -> close K r N.
Proof.
  intros Hr [W1 W2]. pose proof eta_pos. pose proof (opu_pos K).
  split; [lra|]. apply Rle_trans with (1 := W2).
  apply Rmult_le_compat_r; lra.
Qed.

Lemma close_of_rounded (m : nat) (x N : R) (f : float) :
  rounded x f -> 0 <= x -> within m x N -> close (m + 1) (F2R f) N.
Proof.
  intros R Hx W. pose proof (rounded_fin _ _ R) as Ff.
  pose proof (F2R_nonneg f Ff) as Nf. pose proof (within_pos _ _ _ W Hx) as HN.
  destruct R as (_ & _ & _ & _ & _ & [H|[_ H]]).
  - apply close_of_within; [exact Nf|]. replace (m + 1)%nat with (1 + m)%nat by lia.
    apply (within_trans 1 m _ x); assumption.
  - apply Rabs_le_inv in H. fold (F2R f) in H. destruct W as [W1 W2].
    pose proof (opu_pos m) as Pm. pose proof u_pos as Pu. pose proof eta_pos as Pe.
    unfold close. rewrite opu_add, pow_1.
    assert (0 <= N * (1 + u) ^ m * u) by (apply Rmult_le_pos; [apply Rmult_le_pos|]; lra).
    assert (0 <= (F2R f + eta) * (1 + u) ^ m * u)
      by (apply Rmult_le_pos; [apply Rmult_le_pos|]; lra).
    assert (x * (1 + u) ^ m <= (F2R f + eta) * (1 + u) ^ m)
      by (apply Rmult_le_compat_r; lra).
    split; nra.
Qed.

Lemma close_weaken (K K' : nat) (r N : R) :
  (K <= K')%nat -> 0 <= r -> 0 <= N -> close K r N -> close K' r N.
Proof.
  intros HK Hr HN [C1 C2]. pose proof (opu_mono K K' HK) as M.
  pose proof (opu_pos K). pose proof eta_pos.
  split.
  - apply Rle_trans with (1 := C1). apply Rplus_le_compat_r.
    apply Rmult_le_compat_l; lra.
  - apply Rle_trans with (1 := C2). apply Rmult_le_compat_l; lra.
Qed.

(** Line 161: only small components. *)
Lemma combine_small (m n h : nat) (s3 x3 : float) (A3 : R) :
  bucket m n s3 x3 A3 -> F2R x3 <= bpow (-64) ->
  (1 + u) ^ m <= 2 -> INR n <= bpow 31 -> (m <= 2 * h)%nat ->
  let r := (x3 * PrimFloat.sqrt s3)%float in
  fin r /\ close (h + 2) (F2R r) (sqrt A3).
Proof.
  intros B Hx Hm Hn Hh. cbv zeta.
  destruct (bucket_nonneg _ _ _ _ _ B) as [N NA].
  pose proof (bucket_le _ _ _ _ _ B Hm Hn) as Ls.
  destruct B as [Fs Fx W St _].
  pose proof (F2R_nonneg s3 Fs) as N3. pose proof (F2R_nonneg x3 Fx) as NX.
  pose proof (fsqrt_rounded s3 Fs) as Ry. pose proof (rounded_fin _ _ Ry) as Fy.
  set (y := PrimFloat.sqrt s3) in *. pose proof (F2R_nonneg y Fy) as Ny.
  set (X := F2R x3) in *. set (S3 := F2R s3) in *.
  pose proof (bpow_pos 32) as P32. pose proof (bpow_pos (-64)) as P64.
  assert (Ly : F2R y <= bpow 32).
  { apply (rounded_le _ _ 32 Ry); [lia|].
    destruct (Rle_lt_dec 1 S3) as [G|G].
    - pose proof (sqrt_le_self S3 G). lra.
    - apply Rle_trans with (sqrt 1); [apply sqrt_le_1_alt; lra|].
      rewrite sqrt_1. pose proof (bpow_ge_1 32 ltac:(lia)). lra. }
  assert (Lr : X * F2R y <= bpow (-32)).
  { replace (-32)%Z with (-64 + 32)%Z by lia. rewrite bpow_add.
    apply Rmult_le_compat; lra. }
  destruct (fmul_ok (-32) x3 y Fx Fy ltac:(lia) Lr) as (Rr & Fr & _).
  fold X in Rr.
  split; [exact Fr|].
  destruct St as [[Z3 ZX]|[S1 PX]].
  - assert (EA : A3 = 0).
    { rewrite Z3, Rmult_0_l in W. apply within_sym, within_zero in W. exact W. }
    assert (Er : F2R (x3 * y)%float = 0) by (apply (rounded_zero _ _ Rr); rewrite ZX; ring).
    rewrite Er, EA, sqrt_0. pose proof eta_pos. pose proof (opu_pos (h + 2)).
    split; [lra|]. apply Rmult_le_pos; lra.
  - assert (Wy : within 1 (F2R y) (sqrt S3)).
    { apply (rounded_normal _ _ Ry). pose proof (sqrt_ge_1 _ S1).
      pose proof (bpow_le (-1022) 0 ltac:(lia)). rewrite bpow_0 in *. lra. }
    assert (Wroot : within h (X * sqrt S3) (sqrt A3)).
    { rewrite <- sqrt_scaled by lra. apply within_sqrt; [exact N|].
      apply (within_weaken m); [exact Hh|exact N|exact W]. }
    replace (h + 2)%nat with (h + 1 + 1)%nat by lia.
    apply (close_of_rounded _ _ _ _ Rr); [nra|].
    replace (h + 1)%nat with (1 + h)%nat by lia.
    apply (within_trans 1 h _ (X * sqrt S3)); [nra| |exact Wroot].
    replace 1%nat with (0 + 1)%nat by lia.
    apply within_mul; [lra|exact Ny|apply within_refl|exact Wy].
Qed.

(** ** The whole call *)

Lemma bucket_empty : bucket (0 * 5) 0 zero zero 0.
Proof.
  constructor; try apply fin_zero.
  - rewrite F2R_zero. unfold within. cbn. lra.
  - left. split; apply F2R_zero.
  - rewrite F2R_zero. cbn. lra.
Qed.

Lemma agiant_range (n : Z) :
  (1 <= n <= 2 ^ 31)%Z ->
  fin (rgiant / float_of_integer n)%float /\
  bpow 32 <= F2R (rgiant / float_of_integer n)%float <= bpow 65.
Proof.
  intros Hn. pose proof (float_of_integer_rounded n ltac:(lia)) as Rn.
  pose proof (rounded_fin _ _ Rn) as Fn.
  assert (G1 : bpow 0 <= IZR n) by (rewrite bpow_0; apply IZR_le; lia).
  assert (L1 : IZR n <= bpow 31) by (rewrite (bpow_IZR 31) by lia; apply IZR_le; lia).
  pose proof (rounded_ge _ _ 0 Rn ltac:(lia) G1) as Gn.
  pose proof (rounded_le _ _ 31 Rn ltac:(lia) L1) as Ln.
  rewrite bpow_0 in Gn.
  set (fl := float_of_integer n) in *.
  pose proof F2R_rgiant as [Lg Ug]. pose proof (bpow_pos 63) as P63.
  assert (Pn : 0 < F2R fl) by lra.
  assert (In : / F2R fl <= 1).
  { rewrite <- Rinv_1. apply Rinv_le_contravar; lra. }
  assert (In' : bpow (-31) <= / F2R fl).
  { replace (bpow (-31)) with (/ bpow 31) by (rewrite <- bpow_opp; reflexivity).
    apply Rinv_le_contravar; lra. }
  assert (PI : 0 < / F2R fl) by (apply Rinv_0_lt_compat; lra).
  assert (Ux : F2R rgiant / F2R fl <= bpow 64).
  { unfold Rdiv. rewrite <- (Rmult_1_r (bpow 64)). apply Rmult_le_compat; lra. }
  assert (Lx : bpow 32 <= F2R rgiant / F2R fl).
  { unfold Rdiv. replace 32%Z with (63 + -31)%Z by lia. rewrite bpow_add.
    pose proof (bpow_pos (-31)). apply Rmult_le_compat; lra. }
  destruct (fdiv_ok 64 rgiant fl fin_rgiant Fn Pn ltac:(lia) Ux) as (Ra & Fa & Ua).
  split; [exact Fa|]. split.
  - apply (rounded_ge _ _ 32 Ra); [lia|exact Lx].
  - pose proof (bpow_le 64 65 ltac:(lia)). lra.
Qed.

Lemma acc_start (n : Z) (xa : float) :
  (1 <= n <= 2 ^ 31)%Z -> acc_inv 0 0 (start n xa).
Proof.
  intros Hn. destruct (agiant_range n Hn) as [Fa [La Ua]].
  exists 0, 0, 0. split; [ring|].
  constructor; cbn [start s1 s2 s3 x1max x3max agiant];
    try exact bucket_empty; try exact fin_zero.
  - rewrite F2R_zero. unfold within. cbn. lra.
  - cbn. lra.
  - left. reflexivity.
  - left. apply F2R_zero.
  - rewrite F2R_zero. pose proof F2R_rdwarf. pose proof (bpow_pos (-65)). lra.
  - exact Fa.
  - split; assumption.
Qed.

(** The value returned, from accumulators that satisfy [acc_parts]. *)
Lemma calc_norm_acc (n : nat) (A1 A2 A3 : R) (st : locals) (r : float)
    (divs : list (site * float)) :
  acc_parts n A1 A2 A3 st -> (Z.of_nat n < 2 ^ 31)%Z ->
  sqrt (A1 + A2 + A3) * (1 + u) ^ (n * 3 + 4) < omega ->
  calc_norm st = Done r divs ->
  fin r /\ close (n * 3 + 4) (F2R r) (sqrt (A1 + A2 + A3)).
Proof.
  intros [BL BS F2 W2 C2 S2 X1 X3 Fag [Lag Uag]] Hn Hov.
  destruct (acc_parts_budget n Hn) as [Hm HN].
  pose proof F2R_rdwarf as [_ Urd].
  unfold calc_norm. destruct st as [i v1 v2 v3 xa m1 m3 ag fl]. unfold_locals.
  pose proof (bk_fin_s _ _ _ _ _ BL) as F1. pose proof (bk_fin_p _ _ _ _ _ BL) as Fm1.
  pose proof (bk_fin_s _ _ _ _ _ BS) as F3. pose proof (bk_fin_p _ _ _ _ _ BS) as Fm3.
  destruct (bucket_nonneg _ _ _ _ _ BL) as [_ NA1].
  destruct (bucket_nonneg _ _ _ _ _ BS) as [_ NA3].
  pose proof (F2R_nonneg v2 F2) as N2. pose proof (within_pos _ _ _ W2 N2) as NA2.
  assert (X3' : F2R m3 <= bpow (-64)) by lra.
  destruct (v1 =? zero)%float eqn:T1.
  - apply feqb_zero_true in T1; [|exact F1].
    assert (EA1 : A1 = 0).
    { pose proof (bk_within _ _ _ _ _ BL) as W. rewrite T1, Rmult_0_l in W.
      apply within_sym, within_zero in W. exact W. }
    rewrite EA1, Rplus_0_l in *.
    destruct (v2 =? zero)%float eqn:T2.
    + apply feqb_zero_true in T2; [|exact F2].
      assert (EA2 : A2 = 0).
      { rewrite T2 in W2. apply within_sym, within_zero in W2. exact W2. }
      rewrite EA2, Rplus_0_l in *.
      intros [= <- _].
      destruct (combine_small (n * 5) n (n * 3 + 2) v3 m3 A3 BS X3' Hm HN ltac:(lia))
        as [Fr C].
      split; [exact Fr|].
      replace (n * 3 + 4)%nat with (n * 3 + 2 + 2)%nat by lia. exact C.
    + apply feqb_zero_false in T2; [|exact F2].
      assert (L2 : bpow (-130) <= A2).
      { destruct S2 as [Z|G]; [|exact G]. exfalso. rewrite Z in W2.
        apply within_zero in W2. lra. }
      destruct (m3 <=? v2)%float eqn:T3.
      * apply fleb_true in T3; try assumption.
        assert (T4 : (v2 <? m3)%float = false).
        { destruct (v2 <? m3)%float eqn:T; [|reflexivity].
          apply fltb_true in T; try assumption. lra. }
        rewrite T4. cbn [fdiv bind ret]. intros [= <- _].
        destruct (combine_s2_ge (n * 5) n (n * 3 + 3) v2 v3 m3 A2 A3 BS F2 W2 L2 C2
                    T3 X3' Hm HN ltac:(lia)) as [Fr W].
        split; [exact Fr|]. apply close_of_within; [apply F2R_nonneg; exact Fr|].
        replace (n * 3 + 4)%nat with (n * 3 + 3 + 1)%nat by lia. exact W.
      * apply fleb_false in T3; try assumption.
        assert (T4 : (v2 <? m3)%float = true).
        { destruct (v2 <? m3)%float eqn:T; [reflexivity|].
          apply fltb_false in T; try assumption. lra. }
        rewrite T4. cbn [fdiv bind ret]. intros [= <- _].
        destruct (combine_s2_lt (n * 5) n (n * 3 + 3) v2 v3 m3 A2 A3 BS F2 W2 L2
                    T3 X3' Hm HN ltac:(lia)) as [Fr W].
        split; [exact Fr|]. apply close_of_within; [apply F2R_nonneg; exact Fr|].
        replace (n * 3 + 4)%nat with (n * 3 + 3 + 1)%nat by lia. exact W.
  - apply feqb_zero_false in T1; [|exact F1].
    assert (S1 : 1 <= F2R v1 /\ 0 < F2R m1).
    { destruct (bk_state _ _ _ _ _ BL) as [[Z _]|G]; [lra|exact G]. }
    assert (GX : bpow 32 <= F2R m1) by (destruct X1 as [Z|G]; lra).
    assert (B3 : 0 <= A3 <= bpow (-97)).
    { split; [exact NA3|]. apply Rle_trans with (1 := bk_count _ _ _ _ _ BS).
      replace (-97)%Z with (31 + -128)%Z by lia. rewrite bpow_add.
      pose proof (F2R_nonneg m3 Fm3). pose proof (pos_INR n).
      apply Rmult_le_compat; try lra; [nra|].
      change (-128)%Z with (2 * -64)%Z. apply sqr_le_bpow; lra. }
    cbn [fdiv bind ret]. intros [= <- _].
    replace (n * 3 + 4)%nat with (n * 3 + 2 + 2)%nat in * by lia.
    destruct (combine_large (n * 5) n (n * 3 + 2) v1 v2 m1 A1 A2 A3 BL (proj1 S1) GX
                F2 W2 C2 B3 Hm HN ltac:(lia) Hov) as [Fr W].
    split; [exact Fr|]. apply close_of_within; [apply F2R_nonneg; exact Fr|exact W].
Qed.

Lemma opu_linear (K : nat) :
  INR K * u <= / 2 -> (1 + u) ^ K <= 1 + 2 * (INR K * u).
Proof.
  intros H. pose proof (opu_bound K ltac:(lra)) as B.
  pose proof (opu_pos K) as P. pose proof (pos_INR K) as PK. pose proof u_pos as U.
  set (t := INR K * u) in *. assert (T0 : 0 <= t) by (unfold t; nra).
  assert (E : (1 + 2 * t) * (1 - t) = 1 + t * (1 - 2 * t)) by ring.
  assert (G : 1 <= (1 + 2 * t) * (1 - t)) by (rewrite E; nra).
  assert ((1 + u) ^ K * (1 - t) <= (1 + 2 * t) * (1 - t)) by lra.
  apply (Rmult_le_reg_r (1 - t)); lra.
Qed.

Lemma close_abs (K : nat) (r N : R) :
  0 <= N -> 0 <= r -> INR K * u <= / 2 -> close K r N ->
  Rabs (r - N) <= 2 * (INR K * u) * N + eta.
Proof.
  intros HN Hr HK [C1 C2]. pose proof (opu_linear K HK) as L.
  pose proof (opu_bound K ltac:(lra)) as B.
  pose proof (opu_pos K) as P. pose proof (pos_INR K) as PK. pose proof u_pos as U.
  pose proof eta_pos as Pe.
  set (t := INR K * u) in *. assert (T0 : 0 <= t) by (unfold t; nra).
  apply Rabs_le. split.
  - assert (N * (1 - t) <= r + eta).
    { apply Rle_trans with ((r + eta) * ((1 + u) ^ K * (1 - t))).
      - rewrite <- Rmult_assoc. apply Rmult_le_compat_r; lra.
      - rewrite <- (Rmult_1_r (r + eta)) at 2. apply Rmult_le_compat_l; lra. }
    assert (0 <= t * N) by nra. nra.
  - assert (N * (1 + u) ^ K <= N * (1 + 2 * t)) by (apply Rmult_le_compat_l; lra).
    nra.
Qed.

Lemma rel_bound_eq (n : nat) : rel_bound n = 2 * (INR (n * 3 + 4) * u).
Proof.
  unfold rel_bound, u. replace (bpow (-52)) with (2 * bpow (-53))
    by (rewrite <- bpow_succ; reflexivity). ring.
Qed.

Lemma rel_bound_small (n : nat) :
  (Z.of_nat n < 2 ^ 31)%Z -> INR (n * 3 + 4) * u <= / 2.
Proof.
  intros H. rewrite INR_IZR_INZ.
  assert (L : IZR (Z.of_nat (n * 3 + 4)) <= bpow 52).
  { rewrite (bpow_IZR 52) by lia. apply IZR_le.
    rewrite Nat2Z.inj_add, Nat2Z.inj_mul.
    change (2 ^ 52)%Z with (2 ^ 31 * 2 ^ 21)%Z. lia. }
  unfold u. replace (/ 2) with (bpow 52 * bpow (-53)).
  - apply Rmult_le_compat_r; [pose proof (bpow_pos (-53)); lra|exact L].
  - rewrite <- bpow_add. change (52 + -53)%Z with (- (1))%Z.
    rewrite bpow_opp, bpow_1. reflexivity.
Qed.

(** C1, counterexample: the Euclidean norm of these three finite numbers
    is exactly the largest finite binary64 number
    ([5599983534109509^2 + 4939954006939394^2 + 5036534249028042^2
      = (2^53 - 1)^2], all three at the exponent [2^971]), so it is
    representable, and [enorm_] returns [+infinity]. *)
Lemma enorm_overflows_at_max :
  all_finite [0x1.3e527c54c7345p+1023; 0x1.18cdcabca5702p+1023;
              0x1.1e4b382cff9cap+1023]%float /\
  euclidean_norm [0x1.3e527c54c7345p+1023; 0x1.18cdcabca5702p+1023;
                  0x1.1e4b382cff9cap+1023]%float
    = F2R max_double /\
  is_finite max_double = true /\
  norm [0x1.3e527c54c7345p+1023; 0x1.18cdcabca5702p+1023;
        0x1.1e4b382cff9cap+1023]%float = Some infinity.
Proof.
  split; [repeat constructor|].
  split; [|split; vm_compute; reflexivity].
  unfold euclidean_norm, sum_squares, F2R, max_double. cbn [fold_right].
  replace (Prim2SF 0x1.3e527c54c7345p+1023)
    with (S754_finite false 5599983534109509 971) by (vm_compute; reflexivity).
  replace (Prim2SF 0x1.18cdcabca5702p+1023)
    with (S754_finite false 4939954006939394 971) by (vm_compute; reflexivity).
  replace (Prim2SF 0x1.1e4b382cff9cap+1023)
    with (S754_finite false 5036534249028042 971) by (vm_compute; reflexivity).
  replace (Prim2SF 0x1.fffffffffffffp+1023)
    with (S754_finite false 9007199254740991 971) by (vm_compute; reflexivity).
  rewrite !SF2R_finite. pose proof (bpow_pos 971) as P.
  set (b := bpow 971) in *.
  replace (IZR 5599983534109509 * b * (IZR 5599983534109509 * b)
           + (IZR 4939954006939394 * b * (IZR 4939954006939394 * b)
              + (IZR 5036534249028042 * b * (IZR 5036534249028042 * b) + 0)))
    with (IZR (5599983534109509 * 5599983534109509
               + 4939954006939394 * 4939954006939394
               + 5036534249028042 * 5036534249028042) * (b * b))
    by (rewrite !plus_IZR, !mult_IZR; ring).
  replace (5599983534109509 * 5599983534109509
           + 4939954006939394 * 4939954006939394
           + 5036534249028042 * 5036534249028042)%Z
    with (9007199254740991 * 9007199254740991)%Z by reflexivity.
  rewrite mult_IZR.
  replace (IZR 9007199254740991 * IZR 9007199254740991 * (b * b))
    with (IZR 9007199254740991 * b * (IZR 9007199254740991 * b)) by ring.
  apply sqrt_square. apply Rmult_le_pos; [apply IZR_le; lia|lra].
Qed.

(** C1, amended: for a vector [x] of [n] finite binary64 numbers,
    [1 <= n < 2^31], whose Euclidean norm [N] (a real number) satisfies
    [N * (1 + (3 n + 4) * 2^-52) < 2^1024 - 2^970], the call returns a
    finite binary64 number [r] with
    [|r - N| <= (3 n + 4) * 2^-52 * N + 2^-1075]: the relative error is a
    small multiple of the unit roundoff, up to half the smallest positive
    binary64 number, whatever the magnitudes of the elements, so also when
    their squares would overflow or underflow.  In particular the norm of
    [1e300, 1e300] is the finite number [1.4142135623730952e300] and the
    norm of [1e-300, 1e-300] is the nonzero number
    [1.4142135623730952e-300]. *)
Theorem enorm_accurate :
  (forall (st0 : locals) (x : list float),
     all_finite x -> (1 <= Z.of_nat (length x) < 2 ^ 31)%Z ->
     euclidean_norm x * (1 + rel_bound (length x)) < omega ->
     exists r : float,
       result (enorm_ st0 (Z.of_nat (length x)) x) = Some r /\
       is_finite r = true /\
       Rabs (F2R r - euclidean_norm x)
         <= rel_bound (length x) * euclidean_norm x + eta) /\
  (norm [1e300; 1e300]%float = Some 1.4142135623730952e300%float /\
   is_finite 1.4142135623730952e300 = true) /\
  (norm [1e-300; 1e-300]%float = Some 1.4142135623730952e-300%float /\
   (1.4142135623730952e-300 =? zero)%float = false).
Proof.
  split; [|split; split; vm_compute; reflexivity].
  intros st0 x Hx Hn Hov.
  destruct (enorm_total st0 (Z.of_nat (length x)) x) as
    (st & dl & r & dc & L & C & E & _); [lia|].
  rewrite Nat2Z.id in L.
  assert (I : acc_inv (0 + length x) (sum_squares (firstn (0 + length x) x)) st).
  { apply (for_loop_acc x (length x) 0 (start (Z.of_nat (length x)) (xabs st0)) st dl);
      [exact Hx|apply acc_start; lia|reflexivity|cbn [Nat.add]; lia|exact L]. }
  cbn [Nat.add] in I. rewrite firstn_all in I.
  destruct I as (A1 & A2 & A3 & ES & P).
  pose proof (rel_bound_small (length x) ltac:(lia)) as Hs.
  pose proof (opu_linear _ Hs) as Lin. rewrite <- rel_bound_eq in Lin.
  assert (N0 : 0 <= euclidean_norm x) by apply sqrt_pos.
  assert (Hov' : sqrt (A1 + A2 + A3) * (1 + u) ^ (length x * 3 + 4) < omega).
  { rewrite ES. fold (euclidean_norm x). apply Rle_lt_trans with (2 := Hov).
    apply Rmult_le_compat_l; assumption. }
  destruct (calc_norm_acc (length x) A1 A2 A3 st r dc P ltac:(lia) Hov' C) as [Fr Cl].
  rewrite ES in Cl. fold (euclidean_norm x) in Cl.
  exists r. split; [unfold result; rewrite E; reflexivity|].
  split; [exact (proj1 Fr)|].
  rewrite rel_bound_eq. apply close_abs; try assumption.
  apply F2R_nonneg. exact Fr.
Qed.

Lemma euclidean_norm_1e300 : euclidean_norm [1e300; 1e300]%float <= bpow 998.
Proof.
  unfold euclidean_norm, sum_squares, F2R. cbn [fold_right].
  replace (Prim2SF 1e300) with (S754_finite false 6724873095247260 944)
    by (vm_compute; reflexivity).
  rewrite SF2R_finite.
  assert (V : 0 <= IZR 6724873095247260 * bpow 944 <= bpow 997).
  { pose proof (bpow_pos 944). split.
    - apply Rmult_le_pos; [apply IZR_le; lia|lra].
    - replace 997%Z with (53 + 944)%Z by lia. rewrite bpow_add, (bpow_IZR 53) by lia.
      apply Rmult_le_compat_r; [lra|]. apply IZR_le. lia. }
  set (v := IZR 6724873095247260 * bpow 944) in *.
  pose proof (bpow_pos 997) as P.
  assert (E : bpow 998 = 2 * bpow 997) by (rewrite <- bpow_succ; reflexivity).
  rewrite <- (sqrt_square (bpow 998)) by lra. apply sqrt_le_1_alt.
  rewrite E. nra.
Qed.

Lemma enorm_accurate_witness :
  all_finite [1e300; 1e300]%float /\
  (1 <= Z.of_nat (length [1e300; 1e300]%float) < 2 ^ 31)%Z /\
  euclidean_norm [1e300; 1e300]%float
    * (1 + rel_bound (length [1e300; 1e300]%float)) < omega /\
  exists r : float,
    result (enorm_ fresh (Z.of_nat (length [1e300; 1e300]%float))
                   [1e300; 1e300]%float) = Some r /\
    is_finite r = true /\
    Rabs (F2R r - euclidean_norm [1e300; 1e300]%float)
      <= rel_bound (length [1e300; 1e300]%float)
         * euclidean_norm [1e300; 1e300]%float + eta.
Proof.
  assert (H1 : all_finite [1e300; 1e300]%float) by (repeat constructor).
  assert (H2 : (1 <= Z.of_nat (length [1e300; 1e300]%float) < 2 ^ 31)%Z)
    by (cbn; lia).
  assert (H3 : euclidean_norm [1e300; 1e300]%float
               * (1 + rel_bound (length [1e300; 1e300]%float)) < omega).
  { apply (below_omega _ 999); [lia|].
    pose proof euclidean_norm_1e300 as B.
    pose proof (sqrt_pos (sum_squares [1e300; 1e300]%float)) as N0.
    fold (euclidean_norm [1e300; 1e300]%float) in N0.
    pose proof (rel_bound_small 2 ltac:(cbn; lia)) as S.
    rewrite rel_bound_eq. cbn [length] in *.
    replace (bpow 999) with (bpow 998 * 2)
      by (change 999%Z with (998 + 1)%Z; rewrite bpow_succ; ring).
    assert (0 <= INR (2 * 3 + 4) * u)
      by (apply Rmult_le_pos; [apply pos_INR|pose proof u_pos; lra]).
    apply Rmult_le_compat; lra. }
  exact (conj H1 (conj H2 (conj H3
           (proj1 enorm_accurate fresh [1e300; 1e300]%float H1 H2 H3)))).
Defined.

End Accuracy.

(** * Further properties of [enorm_] *)
(** * Elements that are not finite

    Line 85 takes the absolute value, so an infinity of either sign is
    [+infinity] from there on, and the tests of lines 86 and 89 send it,
    as they send a NaN, to the sum for large components. *)

Lemma fnan_add_l (a b : float) : fnan a = true -> fnan (a + b) = true.
Proof. to_spec. sf_cases a; sf_trivial. Qed.

Lemma fnan_add_r (a b : float) : fnan b = true -> fnan (a + b) = true.
Proof. to_spec. sf_cases a; sf_cases b; sf_trivial. Qed.

Lemma fnan_mul_l (a b : float) : fnan a = true -> fnan (a * b) = true.
Proof. to_spec. sf_cases a; sf_trivial. Qed.

Lemma fnan_mul_r (a b : float) : fnan b = true -> fnan (a * b) = true.
Proof. to_spec. sf_cases a; sf_cases b; sf_trivial. Qed.

Lemma fnan_div_r (a b : float) : fnan b = true -> fnan (a / b) = true.
Proof. to_spec. sf_cases a; sf_cases b; sf_trivial. Qed.

Lemma fnan_sqrt (a : float) : fnan a = true -> fnan (sqrt a) = true.
Proof. to_spec. sf_cases a; sf_trivial. Qed.

Lemma fnan_dabs (v : float) : is_nan v = true -> fnan (dabs v) = true.
Proof. rewrite is_nan_fnan. unfold dabs. rewrite fnan_abs. auto. Qed.

Lemma nan_ltb_r (a b : float) : fnan b = true -> (a <? b) = false.
Proof. to_spec. sf_cases a; sf_cases b; sf_trivial. Qed.

Lemma nan_leb_l (a b : float) : fnan a = true -> (a <=? b) = false.
Proof. to_spec. sf_cases a; sf_trivial. Qed.

Lemma dabs_infinity (v : float) : is_infinity v = true -> dabs v = infinity.
Proof.
  unfold is_infinity, dabs. intros H. apply Prim2SF_inj. revert H.
  rewrite eqb_spec, abs_spec. change (Prim2SF infinity) with (S754_infinity false).
  destruct (Prim2SF v) as [[|]|[|]| |[|] m e]; simpl; try discriminate; reflexivity.
Qed.

Lemma infinity_ltb (b : float) : (infinity <? b) = false.
Proof.
  rewrite ltb_spec. change (Prim2SF infinity) with (S754_infinity false).
  destruct (Prim2SF b) as [[|]|[|]| |[|] m e]; reflexivity.
Qed.

Lemma infinity_leb (b : float) : (infinity <=? b) = true -> b = infinity.
Proof.
  intros H. apply Prim2SF_inj. revert H.
  rewrite leb_spec. change (Prim2SF infinity) with (S754_infinity false).
  destruct (Prim2SF b) as [[|]|[|]| |[|] m e]; simpl; try discriminate; reflexivity.
Qed.

Lemma leb_infinity_false (a : float) : (a <=? infinity) = false -> fnan a = true.
Proof.
  unfold fnan. rewrite leb_spec. change (Prim2SF infinity) with (S754_infinity false).
  destruct (Prim2SF a) as [[|]|[|]| |[|] m e]; simpl; try discriminate; reflexivity.
Qed.

(** Once [s1] is a NaN it stays one. *)
Lemma update_code_nan_stays (v : float) (st : locals) :
  fnan (s1 st) = true -> fnan (s1 (update_code v st)) = true.
Proof.
  intros H. unfold update_code, update_with, rescaled, accumulated.
  destruct st as [i v1 v2 v3 xa m1 m3 ag fl]. fields. cbn [s1] in H.
  repeat match goal with
         | |- context [if ?c then _ else _] => destruct c
         end; fields; auto using fnan_add_l, fnan_add_r, fnan_mul_l.
Qed.

(** A NaN element fails every test and lands in lines 99-100, which make
    [s1] a NaN. *)
Lemma update_code_nan_elt (v : float) (st : locals) :
  is_nan v = true -> fnan (s1 (update_code v st)) = true.
Proof.
  intros H. apply fnan_dabs in H.
  unfold update_code, update_with, rescaled.
  destruct st as [i v1 v2 v3 xa m1 m3 ag fl]. fields.
  rewrite (nan_ltb_r rdwarf _ H), !(nan_leb_l _ _ H). cbn [andb negb]. fields.
  auto using fnan_add_r, fnan_mul_r, fnan_mul_l, fnan_div_r.
Qed.

Lemma single_pass_nan_stays (x : list float) : forall st,
  fnan (s1 st) = true -> fnan (s1 (single_pass update_code x st)) = true.
Proof.
  induction x as [|v x IH]; intros st H; [exact H|].
  unfold single_pass in *. cbn [fold_left].
  apply IH, update_code_nan_stays, H.
Qed.

Lemma single_pass_nan_elt (x : list float) : forall st,
  Exists (fun v => is_nan v = true) x ->
  fnan (s1 (single_pass update_code x st)) = true.
Proof.
  induction x as [|v x IH]; intros st H; inversion H; subst.
  - apply (single_pass_nan_stays x), update_code_nan_elt. assumption.
  - unfold single_pass in *. cbn [fold_left]. apply IH. assumption.
Qed.

(** With [s1] a NaN the test of line 144 fails and line 147 returns a
    NaN. *)
Lemma combine_spec_nan (st : locals) :
  fnan (s1 st) = true -> combine_spec st = nan.
Proof.
  intros H. unfold combine_spec.
  rewrite eqb_zero. unfold fnan in H.
  destruct (sf_zero (Prim2SF (s1 st))) eqn:Z.
  { destruct (Prim2SF (s1 st)); discriminate. }
  cbn [negb]. apply nan_unique.
  auto using fnan_mul_r, fnan_sqrt, fnan_add_l.
Qed.

(** X1: a NaN anywhere in the vector makes the value returned a NaN. *)
Theorem enorm_nan_propagates (st0 : locals) (x : list float) :
  Exists (fun v => is_nan v = true) x ->
  result (enorm_ st0 (Z.of_nat (length x)) x) = Some nan.
Proof.
  intros H. rewrite enorm_result_single_pass. f_equal.
  apply combine_spec_nan, single_pass_nan_elt, H.
Qed.

Lemma enorm_nan_propagates_witness :
  result (enorm_ stale (Z.of_nat (length [3; nan; 4])) [3; nan; 4]) = Some nan.
Proof.
  apply (enorm_nan_propagates stale [3; nan; 4]).
  apply Exists_cons_tl, Exists_cons_hd. reflexivity.
Defined.

(** ** Infinities *)

Lemma update_code_infinity (v : float) (st : locals) :
  is_infinity v = true -> s1_nan_or_pivot_inf (update_code v st).
Proof.
  intros H. apply dabs_infinity in H.
  unfold s1_nan_or_pivot_inf, update_code, update_with, rescaled, accumulated.
  destruct st as [i v1 v2 v3 xa m1 m3 ag fl]. fields. rewrite H.
  rewrite infinity_ltb, andb_false_r.
  change (infinity <=? rdwarf) with false. cbn iota.
  destruct (infinity <=? m1) eqn:T; cbn [negb]; fields.
  - apply infinity_leb in T. subst m1. left.
    apply fnan_add_r. reflexivity.
  - right. reflexivity.
Qed.

Lemma update_code_pivot_inf (v : float) (st : locals) :
  s1_nan_or_pivot_inf st -> s1_nan_or_pivot_inf (update_code v st).
Proof.
  intros [H|H]; [left; apply update_code_nan_stays, H|].
  unfold s1_nan_or_pivot_inf, update_code, update_with, rescaled, accumulated.
  destruct st as [i v1 v2 v3 xa m1 m3 ag fl]. fields. cbn [x1max] in H. subst m1.
  destruct ((rdwarf <? dabs v) && (dabs v <? ag)); fields; [right; reflexivity|].
  destruct (dabs v <=? rdwarf).
  { repeat match goal with
           | |- context [if ?c then _ else _] => destruct c
           end; fields; right; reflexivity. }
  destruct (dabs v <=? infinity) eqn:T; cbn [negb]; fields; [right; reflexivity|].
  left. apply leb_infinity_false in T.
  auto using fnan_add_r, fnan_mul_r, fnan_mul_l, fnan_div_r.
Qed.

Lemma single_pass_pivot_inf (x : list float) : forall st,
  s1_nan_or_pivot_inf st -> s1_nan_or_pivot_inf (single_pass update_code x st).
Proof.
  induction x as [|v x IH]; intros st H; [exact H|].
  unfold single_pass in *. cbn [fold_left].
  apply IH, update_code_pivot_inf, H.
Qed.

(** The second infinity: line 105 divides [infinity] by [infinity]. *)
Lemma update_code_second_infinity (v : float) (st : locals) :
  is_infinity v = true -> s1_nan_or_pivot_inf st ->
  fnan (s1 (update_code v st)) = true.
Proof.
  intros H [Q|Q]; [apply update_code_nan_stays, Q|].
  apply dabs_infinity in H.
  unfold update_code, update_with, rescaled, accumulated.
  destruct st as [i v1 v2 v3 xa m1 m3 ag fl]. fields. cbn [x1max] in Q. subst m1.
  rewrite H, infinity_ltb, andb_false_r.
  change (infinity <=? rdwarf) with false.
  change (infinity <=? infinity) with true. cbn [negb]. fields.
  apply fnan_add_r. reflexivity.
Qed.

(** X2: two infinite elements (of either sign, anywhere in the vector,
    whatever the other elements) make the value returned a NaN, not
    [+infinity]. *)
Theorem enorm_two_infinities (st0 : locals) (l1 l2 l3 : list float) (a b : float) :
  is_infinity a = true -> is_infinity b = true ->
  result (enorm_ st0 (Z.of_nat (length (l1 ++ a :: l2 ++ b :: l3)))
            (l1 ++ a :: l2 ++ b :: l3)) = Some nan.
Proof.
  intros Ha Hb. rewrite enorm_result_single_pass. f_equal.
  apply combine_spec_nan. unfold single_pass.
  rewrite fold_left_app. cbn [fold_left]. rewrite fold_left_app. cbn [fold_left].
  apply (single_pass_nan_stays l3).
  apply (update_code_second_infinity b _ Hb).
  apply (single_pass_pivot_inf l2).
  apply (update_code_infinity a _ Ha).
Qed.

Lemma enorm_two_infinities_witness :
  result (enorm_ stale (Z.of_nat (length ([1] ++ infinity :: [2] ++ neg_infinity :: [3])))
            ([1] ++ infinity :: [2] ++ neg_infinity :: [3])) = Some nan.
Proof.
  apply (enorm_two_infinities stale [1] [2] [3] infinity neg_infinity); reflexivity.
Defined.

(** * No overflow inside the loop

    An intermediate component is below [agiant], which is below [2^65], so
    its square is at most [2^130]; the sum [s2] of such squares stays at
    or below [2^184], where adding a term of [2^130] no longer changes
    it. *)

Lemma fle_pow2_of_ltb (a g : float) :
  fspos a = true -> fnum a = true -> (a <? g) = true ->
  sf_exp_le 12 (Prim2SF g) = true -> fle_pow2 65 a = true.
Proof.
  unfold fle_pow2. to_spec.
  pose proof (Prim2SF_valid a) as Va. pose proof (Prim2SF_valid g) as Vg.
  destruct (Prim2SF a) as [[|]|[|]| |[|] m1 e1]; try discriminate;
    destruct (Prim2SF g) as [[|]|[|]| |[|] m2 e2]; try discriminate.
  intros _ _ H Hg. cbn [sf_exp_le] in Hg. apply Z.leb_le in Hg.
  pose proof (SFltb_value m1 m2 e1 e2 Va Vg H) as L.
  destruct (bounded_range m1 e1 Va) as (U1 & R1 & _).
  destruct (bounded_range m2 e2 Vg) as (U2 & R2 & _).
  set (c := Z.min e1 e2) in *.
  assert (Hc1 : (0 <= e1 - c)%Z) by (unfold c; lia).
  assert (Hc2 : (0 <= e2 - c)%Z) by (unfold c; lia).
  assert (P1 : (0 < 2 ^ (e1 - c))%Z) by (apply Z.pow_pos_nonneg; lia).
  assert (P2 : (0 < 2 ^ (e2 - c))%Z) by (apply Z.pow_pos_nonneg; lia).
  assert (B : (Zpos m1 * 2 ^ (e1 - c) < 2 ^ (65 - c))%Z).
  { apply Z.lt_le_trans with (1 := L).
    apply Z.le_trans with (2 ^ 53 * 2 ^ (e2 - c))%Z; [nia|].
    rewrite <- pow2_split by lia. apply Z.pow_le_mono_r; lia. }
  assert (E : (e1 < 65)%Z).
  { destruct (Z.lt_ge_cases e1 65) as [|G]; [assumption|exfalso].
    assert ((2 ^ (65 - c) <= 2 ^ (e1 - c))%Z) by (apply Z.pow_le_mono_r; lia).
    nia. }
  cbn [sf_le_pow2]. apply andb_true_iff. split; apply Z.leb_le; [lia|].
  replace (65 - c)%Z with ((65 - e1) + (e1 - c))%Z in B by lia.
  rewrite pow2_split in B by lia. nia.
Qed.

(** Line 136 keeps [s2] at or below [2^184]; no other line of the loop
    assigns it. *)
Lemma update_code_s2_bounded (v : float) (st : locals) :
  s2_bounded st -> s2_bounded (update_code v st).
Proof.
  intros (P & L & G). unfold s2_bounded, update_code, update_with.
  pose proof (fposnan_abs v) as Ha. fold (dabs v) in Ha.
  destruct st as [i v1 v2 v3 xa m1 m3 ag fl]. fields. cbn [s2 agiant] in P, L, G.
  destruct ((rdwarf <? dabs v) && (dabs v <? ag)) eqn:T1; fields.
  - apply andb_true_iff in T1 as [Ta Tb].
    destruct (intermediate_spos _ _ Ha Ta Tb) as [Sa Na].
    pose proof (fle_pow2_of_ltb _ _ Sa Na Tb G) as La.
    destruct (fmul_le_pow2 65 65 _ _ (fpos_of_spos _ Sa) (fpos_of_spos _ Sa) La La)
      as [Pq Lq]; [lia|].
    split; [apply fpos_add; assumption|]. split; [|exact G].
    unfold fle_pow2, fpos in *. rewrite add_spec.
    exact (proj1 (SFadd_le_pow2 _ _ 184 P Pq L Lq ltac:(lia))).
  - repeat match goal with
           | |- context [if ?c then _ else _] => destruct c
           end; fields; auto.
Qed.

Lemma single_pass_s2_bounded (x : list float) : forall st,
  s2_bounded st -> s2_bounded (single_pass update_code x st).
Proof.
  induction x as [|v x IH]; intros st H; [exact H|].
  unfold single_pass in *. cbn [fold_left].
  apply IH, update_code_s2_bounded, H.
Qed.

Lemma s2_bounded_start (n : Z) (xa : float) :
  (1 <= n < 2 ^ 63)%Z -> s2_bounded (start n xa).
Proof.
  intros Hn. split; [reflexivity|]. split; [reflexivity|].
  apply agiant_exp_le, Hn.
Qed.

Lemma inv_of_inv_fin (st : locals) : inv_fin st -> inv st.
Proof.
  intros [F2 F1 _ F3 _ Fm1 _ Fm3 _ FL _].
  constructor; auto using fposnan_of_pos.
  apply orb_true_iff in FL as [Z|S]; apply orb_true_iff; [left; exact Z|right].
  apply fsposnan_of_spos, S.
Qed.

Lemma inv_fin_update_code (v : float) (st : locals) :
  inv_fin st -> is_finite v = true -> inv_fin (update_code v st).
Proof.
  intros I Fv. pose proof (inv_of_inv_fin st I) as I'.
  destruct (body_inv v st I') as (st1 & d1 & B & _).
  pose proof (body_update_code v st I') as U.
  rewrite B in U. injection U as <-.
  exact (body_inv_fin v st st1 d1 I Fv B).
Qed.

Lemma single_pass_inv_fin (x : list float) : forall st,
  all_finite x -> inv_fin st -> inv_fin (single_pass update_code x st).
Proof.
  induction x as [|v x IH]; intros st Hx I; [exact I|].
  inversion Hx; subst. unfold single_pass in *. cbn [fold_left].
  apply IH; [assumption|]. apply inv_fin_update_code; assumption.
Qed.

(** ** One infinity among finite elements *)

Lemma fnum_infinity_leb (a : float) : fnum a = true -> (infinity <=? a) = false.
Proof.
  unfold fnum. rewrite leb_spec. change (Prim2SF infinity) with (S754_infinity false).
  destruct (Prim2SF a) as [[|]|[|]| |[|] m e]; simpl; try discriminate; reflexivity.
Qed.

Lemma fnum_leb_infinity (a : float) : fnum a = true -> (a <=? infinity) = true.
Proof.
  unfold fnum. rewrite leb_spec. change (Prim2SF infinity) with (S754_infinity false).
  destruct (Prim2SF a) as [[|]|[|]| |[|] m e]; simpl; try discriminate; reflexivity.
Qed.

Lemma div_infinity (a : float) : fpos a = true -> fnum a = true -> a / infinity = zero.
Proof.
  intros P N. apply Prim2SF_inj. revert P N. to_spec.
  change (Prim2SF infinity) with (S754_infinity false).
  change (Prim2SF zero) with (S754_zero false).
  destruct (Prim2SF a) as [[|]|[|]| |[|] m e]; simpl; try discriminate; reflexivity.
Qed.

Lemma mul_zero_r (a : float) : fpos a = true -> fnum a = true -> a * zero = zero.
Proof.
  intros P N. apply Prim2SF_inj. revert P N. to_spec.
  change (Prim2SF zero) with (S754_zero false).
  destruct (Prim2SF a) as [[|]|[|]| |[|] m e]; simpl; try discriminate; reflexivity.
Qed.

Lemma fnum_dabs (v : float) : is_finite v = true -> fnum (dabs v) = true.
Proof. rewrite is_finite_fnum. unfold dabs. rewrite fnum_abs. auto. Qed.

Lemma fpos_dabs (v : float) : is_finite v = true -> fpos (dabs v) = true.
Proof.
  intros H. pose proof (fnum_dabs v H) as N.
  apply fpos_of_posnan; [apply fposnan_abs|apply fnum_not_nan, N].
Qed.

Lemma update_code_first_infinity (v : float) (st : locals) :
  is_infinity v = true -> inv_fin st -> s2_bounded st ->
  after_infinity (update_code v st).
Proof.
  intros H I B. pose proof (update_code_s2_bounded v st B) as B'.
  split; [|split; [|exact B']]; clear B B'.
  all: apply dabs_infinity in H; destruct I as [_ F1 F1l _ _ Fm1 Fn1 _ _ _ _].
  all: unfold update_code, update_with, rescaled.
  all: destruct st as [i v1 v2 v3 xa m1 m3 ag fl]; fields;
    cbn [s1 x1max] in F1, F1l, Fm1, Fn1.
  all: rewrite H, infinity_ltb, andb_false_r.
  all: change (infinity <=? rdwarf) with false; cbn iota.
  all: rewrite (fnum_infinity_leb m1 Fn1); cbn [negb]; fields.
  - rewrite (div_infinity m1 Fm1 Fn1). change (zero * zero) with zero.
    rewrite (mul_zero_r v1 F1 (fnum_le_pow2 _ _ F1l)). reflexivity.
  - reflexivity.
Qed.

Lemma update_code_after_infinity (v : float) (st : locals) :
  is_finite v = true -> after_infinity st -> after_infinity (update_code v st).
Proof.
  intros Fv (E1 & Em & B). pose proof (update_code_s2_bounded v st B) as B'.
  split; [|split; [|exact B']]; clear B B'.
  all: pose proof (fnum_dabs v Fv) as Na; pose proof (fpos_dabs v Fv) as Pa.
  all: unfold update_code, update_with, accumulated.
  all: destruct st as [i v1 v2 v3 xa m1 m3 ag fl]; fields;
    cbn [s1 x1max] in E1, Em; subst v1 m1.
  all: destruct ((rdwarf <? dabs v) && (dabs v <? ag)); fields; try reflexivity.
  all: destruct (dabs v <=? rdwarf);
    try (repeat match goal with
                | |- context [if ?c then _ else _] => destruct c
                end; reflexivity).
  all: rewrite (fnum_leb_infinity _ Na); cbn [negb]; fields.
  - rewrite (div_infinity _ Pa Na). reflexivity.
  - reflexivity.
Qed.

Lemma single_pass_after_infinity (x : list float) : forall st,
  all_finite x -> after_infinity st -> after_infinity (single_pass update_code x st).
Proof.
  induction x as [|v x IH]; intros st Hx H; [exact H|].
  inversion Hx; subst. unfold single_pass in *. cbn [fold_left].
  apply IH; [assumption|]. apply update_code_after_infinity; assumption.
Qed.

(** Line 147 with [s1 = 1], [x1max = +infinity] and [s2] finite. *)
Lemma combine_spec_after_infinity (st : locals) :
  after_infinity st -> combine_spec st = infinity.
Proof.
  intros (E1 & Em & P & L & _). unfold combine_spec. rewrite E1, Em.
  change (one =? zero) with false. cbn [negb].
  rewrite (div_infinity _ P (fnum_le_pow2 _ _ L)). reflexivity.
Qed.

(** X3: a vector of fewer than [2^63] elements, all finite except one
    which is infinite (of either sign), has the norm [+infinity]. *)
Theorem enorm_one_infinity (st0 : locals) (l1 l2 : list float) (v : float) :
  all_finite l1 -> all_finite l2 -> is_infinity v = true ->
  (Z.of_nat (length (l1 ++ v :: l2)) < 2 ^ 63)%Z ->
  result (enorm_ st0 (Z.of_nat (length (l1 ++ v :: l2))) (l1 ++ v :: l2))
  = Some infinity.
Proof.
  intros H1 H2 Hv Hn. rewrite enorm_result_single_pass. f_equal.
  set (n := Z.of_nat (length (l1 ++ v :: l2))) in *.
  assert (Hn1 : (1 <= n)%Z) by (unfold n; rewrite length_app; simpl; lia).
  apply combine_spec_after_infinity. unfold single_pass.
  rewrite fold_left_app. cbn [fold_left].
  apply (single_pass_after_infinity l2 _ H2).
  apply (update_code_first_infinity v _ Hv).
  - apply (single_pass_inv_fin l1 _ H1), inv_fin_start.
  - apply (single_pass_s2_bounded l1), s2_bounded_start. lia.
Qed.

Lemma enorm_one_infinity_witness :
  result (enorm_ stale (Z.of_nat (length ([1e300; 1e-30] ++ neg_infinity :: [3; 5e19])))
            ([1e300; 1e-30] ++ neg_infinity :: [3; 5e19])) = Some infinity.
Proof.
  apply (enorm_one_infinity stale [1e300; 1e-30] [3; 5e19] neg_infinity).
  - repeat constructor.
  - repeat constructor.
  - reflexivity.
  - simpl. lia.
Defined.

(** * Invariants of the loop, on the loop itself *)

Lemma load_In (x : list float) (i : Z) (v : float) (l : list (site * float)) :
  load x i = Done v l -> In v x.
Proof.
  unfold load. destruct (i <? 1)%Z; [discriminate|].
  destruct (nth_error x (Z.to_nat (i - 1))) as [w|] eqn:N; [|discriminate].
  intros [= <- _]. eapply nth_error_In, N.
Qed.

Section LoopInvariant.

Variable P : locals -> Prop.
Variable x : list float.

Hypothesis P_step : forall v st st' d,
  In v x -> P st -> body v st = Done st' d -> P (set_i (i__ st' + 1) st').

Lemma for_loop_invariant (k : nat) : forall st st' divs,
  P st -> for_loop k x st = Done st' divs -> P st'.
Proof.
  induction k as [|k IH]; intros st st' divs H.
  - intros [= <- _]. exact H.
  - cbn [for_loop]. intros L.
    apply bind_done_inv in L as (v & l1 & l2 & Hv & L & _).
    apply bind_done_inv in L as (st1 & l3 & l4 & B & L & _).
    apply (IH _ _ _ (P_step v st st1 l3 (load_In x _ v l1 Hv) H B) L).
Qed.

End LoopInvariant.

Lemma s2_bounded_set_i (j : Z) (st : locals) : s2_bounded st -> s2_bounded (set_i j st).
Proof. intros H. exact H. Qed.

Lemma for_loop_finite (x : list float) (k : nat) (st st' : locals)
    (divs : list (site * float)) :
  all_finite x -> inv_fin st -> s2_bounded st ->
  for_loop k x st = Done st' divs -> inv_fin st' /\ s2_bounded st'.
Proof.
  intros Hx I B L.
  apply (for_loop_invariant (fun s => inv_fin s /\ s2_bounded s) x) with (3 := L);
    [|split; assumption].
  intros v s s1 d Hv [Is Bs] E.
  assert (Fv : is_finite v = true).
  { unfold all_finite in Hx. rewrite Forall_forall in Hx. apply Hx, Hv. }
  split.
  - apply inv_fin_set_i. exact (body_inv_fin v s s1 d Is Fv E).
  - apply s2_bounded_set_i.
    pose proof (body_update_code v s (inv_of_inv_fin s Is)) as U.
    rewrite E in U. injection U as ->. apply update_code_s2_bounded, Bs.
Qed.

(** X4: on a vector of fewer than [2^63] finite numbers the five
    accumulators are finite after every iteration of the loop: nothing
    overflows inside the loop, whatever the magnitudes of the elements. *)
Theorem accumulators_finite (st0 : locals) (x : list float) (k : nat) :
  all_finite x -> (Z.of_nat (length x) < 2 ^ 63)%Z -> (k <= length x)%nat ->
  exists st,
    value (state_after st0 (Z.of_nat (length x)) x k) = Some st /\
    is_finite (s1 st) = true /\ is_finite (s2 st) = true /\
    is_finite (s3 st) = true /\
    is_finite (x1max st) = true /\ is_finite (x3max st) = true.
Proof.
  intros Hx Hn Hk. set (n := Z.of_nat (length x)) in *.
  rewrite state_after_start.
  destruct (for_loop_inv x k (start n (xabs st0)))
    as (st & dl & L & _); [apply inv_start|simpl; lia|simpl; lia|].
  exists st. rewrite L. split; [reflexivity|].
  rewrite !is_finite_fnum.
  destruct k as [|k].
  { injection L as <- _. repeat split; reflexivity. }
  destruct (for_loop_finite x (S k) _ st dl Hx (inv_fin_start n _)
              (s2_bounded_start n _ ltac:(lia)) L)
    as [[_ _ F1 _ F3 Fm1 Fn1 Fm3 Fl3 _ _] (_ & F2 & _)].
  repeat split; eauto using fnum_le_pow2, fnum_leb_rdwarf.
Qed.

Lemma accumulators_finite_witness :
  exists st,
    value (state_after stale (Z.of_nat (length [1e300; -1e-300; 5; 1e308]))
             [1e300; -1e-300; 5; 1e308] 4) = Some st /\
    is_finite (s1 st) = true /\ is_finite (s2 st) = true /\
    is_finite (s3 st) = true /\
    is_finite (x1max st) = true /\ is_finite (x3max st) = true.
Proof.
  apply (accumulators_finite stale [1e300; -1e-300; 5; 1e308] 4).
  - repeat constructor.
  - simpl. lia.
  - simpl. lia.
Defined.

(** * What the result depends on *)

Lemma body_dabs (v w : float) (st : locals) :
  dabs v = dabs w -> body v st = body w st.
Proof. intros H. unfold body. rewrite H. reflexivity. Qed.

Lemma load_dabs (x y : list float) (i : Z) :
  map dabs x = map dabs y ->
  (exists v w, load x i = ret v /\ load y i = ret w /\ dabs v = dabs w) \/
  (exists f, load x i = Fault f /\ load y i = Fault f).
Proof.
  intros H. unfold load. destruct (i <? 1)%Z; [right; eauto|].
  pose proof (f_equal (fun l => nth_error l (Z.to_nat (i - 1))) H) as N.
  cbn beta in N. rewrite !nth_error_map in N.
  destruct (nth_error x (Z.to_nat (i - 1))) as [v|],
           (nth_error y (Z.to_nat (i - 1))) as [w|];
    simpl in N; try discriminate.
  - left. exists v, w. injection N as N. auto.
  - right. eauto.
Qed.

Lemma for_loop_dabs (x y : list float) (k : nat) : forall st,
  map dabs x = map dabs y -> for_loop k x st = for_loop k y st.
Proof.
  induction k as [|k IH]; intros st H; [reflexivity|].
  cbn [for_loop].
  destruct (load_dabs x y (i__ st) H) as [(v & w & -> & -> & E)|(f & -> & ->)];
    [|reflexivity].
  rewrite !bind_ret_l, (body_dabs v w st E).
  apply bind_ext. intros st1. apply IH, H.
Qed.

Lemma dabs_opp (a : float) : dabs (- a) = dabs a.
Proof.
  apply Prim2SF_inj. unfold dabs. rewrite !abs_spec, opp_spec.
  destruct (Prim2SF a) as [[|]|[|]| |[|] m e]; reflexivity.
Qed.

Lemma dabs_sign_flips (x y : list float) :
  Forall2 (fun a b => b = a \/ b = - a) x y -> map dabs x = map dabs y.
Proof.
  induction 1 as [|a b x y [-> | ->] _ IH]; cbn [map];
    rewrite ?dabs_opp, ?IH; reflexivity.
Qed.

(** X5: the value returned and the divisions performed do not depend on
    the signs of the elements: changing the sign of any of the elements
    changes neither.  (The static [xabs] is left out of the statement: it
    is left holding what the macro [abs] gives for the last element, and
    the sign that has for a zero is decided by f2c.h.) *)
Theorem enorm_sign_independent (st0 : locals) (n : Z) (x y : list float) :
  Forall2 (fun a b => b = a \/ b = - a) x y ->
  result (enorm_ st0 n x) = result (enorm_ st0 n y) /\
  divisions (enorm_ st0 n x) = divisions (enorm_ st0 n y).
Proof.
  intros H. apply dabs_sign_flips in H.
  assert (E : enorm_ st0 n x = enorm_ st0 n y).
  { unfold enorm_. apply bind_ext. intros st.
    rewrite (for_loop_dabs x y _ st H). reflexivity. }
  rewrite E. split; reflexivity.
Qed.

Lemma enorm_sign_independent_witness :
  result (enorm_ stale 3 [3; -4; 1e-30]) = result (enorm_ stale 3 [-3; 4; 1e-30]) /\
  divisions (enorm_ stale 3 [3; -4; 1e-30]) = divisions (enorm_ stale 3 [-3; 4; 1e-30]).
Proof.
  apply (enorm_sign_independent stale 3 [3; -4; 1e-30] [-3; 4; 1e-30]).
  repeat constructor; right; reflexivity.
Defined.

(** * The elements read *)

Lemma for_loop_add (x : list float) (a b : nat) : forall st,
  for_loop (a + b) x st = (st' <- for_loop a x st ;; for_loop b x st').
Proof.
  induction a as [|a IH]; intros st.
  - cbn [for_loop Nat.add]. rewrite bind_ret_l. reflexivity.
  - change (for_loop (S a + b) x st) with
      (xi <- load x (i__ st) ;; st' <- body xi st ;;
       for_loop (a + b) x (set_i (i__ st' + 1) st')).
    change (for_loop (S a) x st) with
      (xi <- load x (i__ st) ;; st' <- body xi st ;;
       for_loop a x (set_i (i__ st' + 1) st')).
    rewrite bind_assoc. apply bind_ext. intros xi.
    rewrite bind_assoc. apply bind_ext. intros st'.
    apply IH.
Qed.

Lemma load_past_end (x : list float) :
  load x (Z.of_nat (length x) + 1) = Fault (OutOfBounds (Z.of_nat (length x) + 1)).
Proof.
  unfold load.
  destruct (Z.ltb_spec (Z.of_nat (length x) + 1) 1) as [E|E]; [lia|].
  replace (Z.to_nat (Z.of_nat (length x) + 1 - 1)) with (length x) by lia.
  rewrite (proj2 (nth_error_None x (length x))) by lia. reflexivity.
Qed.

(** X6: a call reads [x[1..n]] and nothing else.  When the array holds at
    least [n] elements the call returns a value (every path of lines
    144-162 assigns [ret_val]); when it holds fewer, the first read past
    its end is that of the element after the last. *)
Theorem enorm_reads_in_bounds (st0 : locals) (n : Z) (x : list float) :
  ((n <= Z.of_nat (length x))%Z ->
   exists r st divs, enorm_ st0 n x = Done (r, st) divs) /\
  ((Z.of_nat (length x) < n)%Z ->
   enorm_ st0 n x = Fault (OutOfBounds (Z.of_nat (length x) + 1))).
Proof.
  split; intros Hn.
  - destruct (enorm_total st0 n x Hn) as (st & dl & r & dc & _ & _ & E & _).
    eauto.
  - unfold enorm_. rewrite prologue_start. cbn [bind].
    replace (Z.to_nat n) with (length x + S (Z.to_nat n - length x - 1))%nat by lia.
    rewrite for_loop_add.
    destruct (for_loop_inv x (length x) (start n (xabs st0)))
      as (st & dl & L & _ & _ & _ & Ei & _); [apply inv_start|simpl; lia|simpl; lia|].
    rewrite L. cbn [bind for_loop]. rewrite Ei.
    change (i__ (start n (xabs st0))) with 1%Z.
    rewrite (Z.add_comm 1), load_past_end. reflexivity.
Qed.

Lemma enorm_reads_in_bounds_witness :
  (exists r st divs, enorm_ stale 2 [3; 4; 5] = Done (r, st) divs) /\
  enorm_ stale 3 [3; 4] = Fault (OutOfBounds 3).
Proof.
  split.
  - apply (proj1 (enorm_reads_in_bounds stale 2 [3; 4; 5])). simpl. lia.
  - apply (proj2 (enorm_reads_in_bounds stale 3 [3; 4])). simpl. lia.
Defined.

Lemma load_app_l (x y : list float) (i : Z) :
  (i <= Z.of_nat (length x))%Z -> load (x ++ y) i = load x i.
Proof.
  intros Hi. unfold load. destruct (Z.ltb_spec i 1) as [E|E]; [reflexivity|].
  rewrite nth_error_app1 by lia. reflexivity.
Qed.

Lemma for_loop_app_l (x y : list float) (k : nat) : forall st,
  (i__ st - 1 + Z.of_nat k <= Z.of_nat (length x))%Z ->
  for_loop k (x ++ y) st = for_loop k x st.
Proof.
  induction k as [|k IH]; intros st Hk; [reflexivity|].
  cbn [for_loop]. rewrite load_app_l by lia.
  apply bind_ext. intros v.
  destruct (body v st) as [st1 d|f] eqn:B; [|reflexivity].
  cbn [bind]. rewrite IH; [reflexivity|].
  cbn [set_i i__]. rewrite (Accuracy.body_index _ _ _ _ B). lia.
Qed.

(** X7: the elements of the array after the [n]-th are not read: they
    change nothing of the outcome.  With [n <= 0] no element is read at
    all, and the value returned is [0.0]. *)
Theorem enorm_reads_first_n (st0 : locals) (n : Z) (x y : list float) :
  ((n <= Z.of_nat (length x))%Z -> enorm_ st0 n (x ++ y) = enorm_ st0 n x) /\
  ((n <= 0)%Z ->
   enorm_ st0 n x = Done (zero, start n (xabs st0)) [(Div_agiant, float_of_integer n)]).
Proof.
  split; intros Hn.
  - unfold enorm_. rewrite prologue_start. cbn [bind].
    rewrite for_loop_app_l; [reflexivity|].
    change (i__ (start n (xabs st0))) with 1%Z. lia.
  - unfold enorm_. rewrite prologue_start. cbn [bind].
    assert (Z.to_nat n = 0%nat) as -> by lia. reflexivity.
Qed.

Lemma enorm_reads_first_n_witness :
  enorm_ stale 2 ([3; 4] ++ [nan; 7]) = enorm_ stale 2 [3; 4] /\
  enorm_ stale (-1) [3; 4]
  = Done (zero, start (-1) (xabs stale)) [(Div_agiant, float_of_integer (-1))].
Proof.
  split.
  - apply (proj1 (enorm_reads_first_n stale 2 [3; 4] [nan; 7])). simpl. lia.
  - apply (proj2 (enorm_reads_first_n stale (-1) [3; 4] [])). lia.
Defined.

(** * The norm of a norm *)

Lemma dabs_pos (a : float) : fpos a = true -> dabs a = a.
Proof.
  intros P. apply Prim2SF_inj. unfold dabs. rewrite abs_spec. revert P.
  unfold fpos. destruct (Prim2SF a) as [[|]|[|]| |[|] m e]; try discriminate; reflexivity.
Qed.

(** The value returned on a one-element vector holding a number that is
    not negative, or a NaN. *)
Lemma enorm_singleton (st0 : locals) (r : float) :
  fposnan r = true -> result (enorm_ st0 1 [r]) = Some r.
Proof.
  intros P. change (enorm_ st0 1 [r]) with (enorm_ st0 (Z.of_nat (length [r])) [r]).
  rewrite (enorm_result_single_pass st0 [r]). f_equal.
  unfold single_pass. cbn [fold_left length].
  change (start (Z.of_nat 1) (xabs st0))
    with (zstate 1 (xabs st0) (rgiant / float_of_integer 1) (float_of_integer 1)).
  destruct (fnan r) eqn:N.
  { rewrite (nan_unique _ N). apply combine_spec_nan, update_code_nan_elt. reflexivity. }
  pose proof (fpos_of_posnan _ P N) as Pr.
  destruct (r =? zero) eqn:Z.
  - assert (E : r = zero).
    { apply zero_unique; [exact Pr|]. revert Z Pr. rewrite eqb_zero. unfold fspos, fpos.
      destruct (Prim2SF r) as [[|]|[|]| |[|] m e]; try discriminate; reflexivity. }
    subst r. rewrite update_code_zero; [reflexivity|left; reflexivity|reflexivity].
  - destruct (combine_first r 1 (xabs st0) (rgiant / float_of_integer 1)
                (float_of_integer 1) Z (agiant_exp_le 1 ltac:(lia))) as [_ C].
    rewrite C. apply dabs_pos, Pr.
Qed.

(** X8: the function is idempotent: called on the one-element vector that
    holds a value it returned, it returns that value again, whatever the
    value (a NaN and [+infinity] included). *)
Theorem enorm_idempotent (st0 st1 : locals) (x : list float) (r : float) :
  result (enorm_ st0 (Z.of_nat (length x)) x) = Some r ->
  result (enorm_ st1 1 [r]) = Some r.
Proof.
  intros H. apply enorm_singleton.
  destruct (enorm_total st0 (Z.of_nat (length x)) x) as
    (st & dl & r' & dc & _ & _ & E & _ & P & _); [lia|].
  unfold result in H. rewrite E in H. injection H as <-. exact P.
Qed.

Lemma enorm_idempotent_witness :
  result (enorm_ fresh 1 [5]) = Some 5.
Proof.
  apply (enorm_idempotent stale fresh [3; 4] 5). reflexivity.
Defined.

(** * Elements in the intermediate range

    When every element that is not zero passes the test of line 86, only
    line 136 accumulates, and line 154 takes the root of what it
    accumulated. *)

Lemma sqr_dabs (v : float) : dabs v * dabs v = v * v.
Proof.
  apply Prim2SF_inj. unfold dabs. rewrite !mul_spec, abs_spec.
  destruct (Prim2SF v) as [[|]|[|]| |[|] m e]; reflexivity.
Qed.

Lemma sqr_zero_elt (v : float) : is_zero_elt v -> v * v = zero.
Proof. intros [-> | ->]; reflexivity. Qed.

Lemma add_zero_r (a : float) : fpos a = true -> a + zero = a.
Proof.
  intros P. apply Prim2SF_inj. revert P. to_spec.
  change (Prim2SF zero) with (S754_zero false).
  destruct (Prim2SF a) as [[|]|[|]| |[|] m e]; try discriminate; reflexivity.
Qed.

Lemma update_code_istate (v : float) (i : Z) (S xa ag fl : float) :
  fpos S = true ->
  is_zero_elt v \/ (rdwarf <? dabs v) && (dabs v <? ag) = true ->
  exists xa',
    update_code v (istate i S xa ag fl) = istate i (S + v * v) xa' ag fl /\
    fpos (S + v * v) = true.
Proof.
  intros P [Z|T].
  - exists zero. rewrite (sqr_zero_elt v Z), (add_zero_r S P).
    split; [|exact P]. rewrite update_code_zero; [reflexivity|exact Z|reflexivity].
  - exists (dabs v). rewrite <- sqr_dabs.
    pose proof (fposnan_abs v) as Ha. fold (dabs v) in Ha.
    pose proof T as T'. apply andb_true_iff in T' as [Ta Tb].
    destruct (intermediate_spos _ _ Ha Ta Tb) as [Sa _].
    split.
    + unfold update_code, update_with, istate. fields. rewrite T. reflexivity.
    + apply fpos_add; [exact P|]. apply fpos_sqr, fpos_of_spos, Sa.
Qed.

Lemma single_pass_istate (ag fl : float) (x : list float) : forall i S xa,
  fpos S = true ->
  Forall (fun v => is_zero_elt v \/ (rdwarf <? dabs v) && (dabs v <? ag) = true) x ->
  exists xa',
    single_pass update_code x (istate i S xa ag fl)
    = istate i (fold_left (fun s v => s + v * v) x S) xa' ag fl /\
    fpos (fold_left (fun s v => s + v * v) x S) = true.
Proof.
  induction x as [|v x IH]; intros i S xa P Hx.
  - exists xa. split; [reflexivity|exact P].
  - inversion Hx as [|v' x' Hv Hx']; subst.
    destruct (update_code_istate v i S xa ag fl P Hv) as (xa1 & E & P1).
    destruct (IH i (S + v * v) xa1 P1 Hx') as (xa2 & E2 & P2).
    exists xa2. unfold single_pass in *. cbn [fold_left]. rewrite E. auto.
Qed.

(** Lines 144-161 with [s1 = 0], [s3 = 0] and [x3max = 0]. *)
Lemma combine_spec_istate (i : Z) (S xa ag fl : float) :
  fpos S = true -> combine_spec (istate i S xa ag fl) = sqrt S.
Proof.
  intros P. unfold combine_spec, istate. fields.
  change (zero =? zero) with true. cbn [negb].
  destruct (S =? zero) eqn:Z; cbn [negb].
  - assert (E : S = zero).
    { apply zero_unique; [exact P|]. revert Z P. rewrite eqb_zero. unfold fspos, fpos.
      destruct (Prim2SF S) as [[|]|[|]| |[|] m e]; try discriminate; reflexivity. }
    subst S. reflexivity.
  - pose proof (nonzero_spos S P Z) as Sp.
    rewrite (leb_zero_pos S P).
    unfold norm_s2_form. cbn [a_sqrt a_mul a_add a_div a_one float_arith].
    rewrite (div_zero_spos S Sp).
    change (PrimFloat.one + zero * (zero * zero)) with one.
    rewrite mul_one_r. reflexivity.
Qed.

(** X9: on a vector whose elements are zeros or lie in the intermediate
    range ([rdwarf < |x_i| < rgiant / n]) the value returned is, bit for
    bit, that of the straightforward computation: the root of the sum of
    the squares added in index order. *)
Theorem enorm_naive_in_range (st0 : locals) (x : list float) :
  Forall (fun v =>
            is_zero_elt v \/
            (rdwarf <? dabs v) &&
            (dabs v <? rgiant / float_of_integer (Z.of_nat (length x))) = true) x ->
  result (enorm_ st0 (Z.of_nat (length x)) x) = Some (naive_norm x).
Proof.
  intros Hx. rewrite enorm_result_single_pass. f_equal.
  set (n := Z.of_nat (length x)) in *.
  change (start n (xabs st0))
    with (istate 1 zero (xabs st0) (rgiant / float_of_integer n) (float_of_integer n)).
  destruct (single_pass_istate _ (float_of_integer n) x 1 zero (xabs st0)
              eq_refl Hx) as (xa' & -> & P).
  apply combine_spec_istate, P.
Qed.

Lemma enorm_naive_in_range_witness :
  result (enorm_ stale (Z.of_nat (length [3; -4; 0; 1e-9; 2.5e7])) [3; -4; 0; 1e-9; 2.5e7])
  = Some (naive_norm [3; -4; 0; 1e-9; 2.5e7]).
Proof.
  apply (enorm_naive_in_range stale [3; -4; 0; 1e-9; 2.5e7]).
  repeat (apply Forall_cons;
          [first [right; reflexivity|left; left; reflexivity]|]).
  apply Forall_nil.
Defined.

(** * The norm is zero for the zero vector only *)

Lemma is_zero_elt_eqb (v : float) : is_zero_elt v <-> (v =? zero) = true.
Proof.
  split.
  - intros [-> | ->]; reflexivity.
  - rewrite eqb_zero. intros H. unfold is_zero_elt.
    destruct (Prim2SF v) as [[|]|s| |s m e] eqn:E; try discriminate.
    + right. apply Prim2SF_inj. rewrite E. reflexivity.
    + left. apply Prim2SF_inj. rewrite E. reflexivity.
Qed.

Lemma zeros_or_nonzero (x : list float) :
  Forall is_zero_elt x \/ Exists (fun v => (v =? zero) = false) x.
Proof.
  induction x as [|v x [IH|IH]]; [left; constructor| |right; constructor 2; exact IH].
  destruct (v =? zero) eqn:E.
  - left. constructor; [apply is_zero_elt_eqb, E|exact IH].
  - right. constructor 1. exact E.
Qed.

Lemma zeros_not_nonzero (x : list float) :
  Forall is_zero_elt x -> Exists (fun v => (v =? zero) = false) x -> False.
Proof.
  intros F E. apply Exists_exists in E as (v & Hv & N).
  rewrite Forall_forall in F. apply F, is_zero_elt_eqb in Hv. congruence.
Qed.

Module Definiteness.

Import Stdlib.Reals.Reals Stdlib.micromega.Lra Real Accuracy.
Local Open Scope R_scope.

Lemma F2R_nonzero (v : float) :
  is_finite v = true -> (v =? zero)%float = false -> 0 < F2R v * F2R v.
Proof.
  rewrite is_finite_fnum, eqb_zero. unfold fnum, F2R.
  destruct (Prim2SF v) as [s|s| |s m e]; try discriminate. intros _ _.
  cbn [SF2R]. pose proof (bpow_pos e) as P.
  assert (M : IZR (cond_Zopp s (Zpos m)) <> 0).
  { apply not_0_IZR. destruct s; cbn; lia. }
  assert (Q : IZR (cond_Zopp s (Zpos m)) * bpow e <> 0)
    by (apply Rmult_integral_contrapositive_currified; lra).
  nra.
Qed.

Lemma sum_squares_nonneg (x : list float) : 0 <= sum_squares x.
Proof.
  induction x as [|v x IH]; cbn [sum_squares fold_right]; [lra|].
  fold (sum_squares x). nra.
Qed.

Lemma sum_squares_pos (x : list float) :
  all_finite x -> Exists (fun v => (v =? zero)%float = false) x ->
  0 < sum_squares x.
Proof.
  intros Hx E. induction E as [v x N|v x E IH];
    inversion Hx as [|v' x' Fv Hx']; subst;
    cbn [sum_squares fold_right]; fold (sum_squares x).
  - pose proof (F2R_nonzero v Fv N). pose proof (sum_squares_nonneg x). lra.
  - specialize (IH Hx'). nra.
Qed.

Lemma fin_min (a : float) : fin a -> 0 < F2R a -> bpow (-1074) <= F2R a.
Proof.
  intros Fa Pa. pose proof (fin_spos a Fa Pa) as S.
  destruct (fin_parts a Fa) as (V & _ & _). unfold F2R in *.
  destruct (Prim2SF a) as [[|]|[|]| |[|] m e]; try discriminate;
    [cbn in Pa; lra|].
  rewrite SF2R_finite. cbn [valid_binary] in V.
  apply bounded_range in V as (_ & E & _).
  pose proof (bpow_le (-1074) e ltac:(lia)) as L. pose proof (bpow_pos (-1074)).
  assert (1 <= IZR (Zpos m)) by (apply IZR_le; lia).
  nra.
Qed.

Lemma feqb_pos (a : float) : fin a -> 0 < F2R a -> (a =? zero)%float = false.
Proof.
  intros Fa Pa. destruct (a =? zero)%float eqn:T; [|reflexivity].
  apply feqb_zero_true in T; [lra|exact Fa].
Qed.

(** A product of two finite numbers that are at least [1] does not
    underflow, whether or not it overflows. *)
Lemma fmul_nonzero (a b : float) :
  fin a -> fin b -> 1 <= F2R a -> 1 <= F2R b -> (a * b =? zero)%float = false.
Proof.
  intros Fa Fb Ga Gb. rewrite eqb_zero, mul_spec.
  pose proof (fin_spos a Fa ltac:(lra)) as Sa.
  pose proof (fin_spos b Fb ltac:(lra)) as Sb.
  destruct (fin_parts a Fa) as (Va & _ & _). destruct (fin_parts b Fb) as (Vb & _ & _).
  unfold F2R in *.
  destruct (Prim2SF a) as [[|]|[|]| |[|] ma ea]; try discriminate;
    [cbn in Ga; lra|].
  destruct (Prim2SF b) as [[|]|[|]| |[|] mb eb]; try discriminate;
    [cbn in Gb; lra|].
  rewrite SF2R_finite in Ga, Gb. cbn [valid_binary] in Va, Vb.
  assert (H : forall m e, SpecFloat.bounded prec emax m e = true ->
                          1 <= IZR (Zpos m) * bpow e -> (-53 < e)%Z).
  { intros m e V G. apply bounded_range in V as (M & _ & _).
    destruct (Z.lt_ge_cases (-53) e) as [|L]; [assumption|exfalso].
    pose proof (bpow_le e (-53) ltac:(lia)) as Le. pose proof (bpow_pos e) as Pe.
    assert (IZR (Zpos m) < bpow 53)
      by (rewrite (bpow_IZR 53) by lia; apply IZR_lt; exact M).
    assert (E1 : bpow 53 * bpow (-53) = 1)
      by (rewrite <- bpow_add; apply bpow_0).
    assert (IZR (Zpos m) * bpow e < bpow 53 * bpow (-53)).
    { apply Rlt_le_trans with (bpow 53 * bpow e).
      - apply Rmult_lt_compat_r; assumption.
      - apply Rmult_le_compat_l; [apply Rlt_le, bpow_pos|exact Le]. }
    lra. }
  pose proof (H ma ea Va Ga). pose proof (H mb eb Vb Gb).
  cbn [SFmul xorb]. apply binary_round_aux_nonzero; lia.
Qed.

(** The final step on accumulators that hold a sum of squares that is not
    zero. *)
Lemma calc_norm_nonzero (n : nat) (A1 A2 A3 : R) (st : locals) (r : float)
    (divs : list (site * float)) :
  acc_parts n A1 A2 A3 st -> (Z.of_nat n < 2 ^ 31)%Z ->
  0 < A1 + A2 + A3 ->
  calc_norm st = Done r divs -> (r =? zero)%float = false.
Proof.
  intros [BL BS F2 W2 C2 S2 X1 X3 Fag [Lag Uag]] Hn Hpos.
  destruct (acc_parts_budget n Hn) as [Hm HN].
  pose proof F2R_rdwarf as [_ Urd].
  unfold calc_norm. destruct st as [i v1 v2 v3 xa m1 m3 ag fl]. unfold_locals.
  pose proof (bk_fin_s _ _ _ _ _ BL) as F1. pose proof (bk_fin_p _ _ _ _ _ BL) as Fm1.
  pose proof (bk_fin_s _ _ _ _ _ BS) as F3. pose proof (bk_fin_p _ _ _ _ _ BS) as Fm3.
  destruct (bucket_nonneg _ _ _ _ _ BL) as [_ NA1].
  destruct (bucket_nonneg _ _ _ _ _ BS) as [_ NA3].
  pose proof (F2R_nonneg v2 F2) as N2. pose proof (within_pos _ _ _ W2 N2) as NA2.
  assert (X3' : F2R m3 <= bpow (-64)) by lra.
  destruct (v1 =? zero)%float eqn:T1.
  - apply feqb_zero_true in T1; [|exact F1].
    assert (EA1 : A1 = 0).
    { pose proof (bk_within _ _ _ _ _ BL) as W. rewrite T1, Rmult_0_l in W.
      apply within_sym, within_zero in W. exact W. }
    rewrite EA1, Rplus_0_l in *.
    destruct (v2 =? zero)%float eqn:T2.
    + apply feqb_zero_true in T2; [|exact F2].
      assert (EA2 : A2 = 0).
      { rewrite T2 in W2. apply within_sym, within_zero in W2. exact W2. }
      rewrite EA2, Rplus_0_l in *.
      intros [= <- _].
      pose proof (bucket_le _ _ _ _ _ BS Hm HN) as Ls.
      assert (S3 : 1 <= F2R v3 /\ 0 < F2R m3).
      { destruct (bk_state _ _ _ _ _ BS) as [[Z _]|G]; [exfalso|exact G].
        pose proof (bk_within _ _ _ _ _ BS) as W. rewrite Z, Rmult_0_l in W.
        apply within_sym, within_zero in W. lra. }
      destruct S3 as [G3 P3]. pose proof (fin_min m3 Fm3 P3) as Lm.
      pose proof (fsqrt_rounded v3 F3) as Ry. pose proof (rounded_fin _ _ Ry) as Fy.
      pose proof (sqrt_ge_1 _ G3) as Gs. pose proof (sqrt_le_self _ G3) as Us.
      assert (Gy : 1 <= F2R (PrimFloat.sqrt v3)).
      { rewrite <- bpow_0. apply (rounded_ge _ _ 0 Ry); [lia|]. rewrite bpow_0. exact Gs. }
      assert (Uy : F2R (PrimFloat.sqrt v3) <= bpow 32)
        by (apply (rounded_le _ _ 32 Ry); [lia|lra]).
      set (y := PrimFloat.sqrt v3) in *.
      pose proof (bpow_pos (-1074)) as Pmin. pose proof (bpow_pos 32) as P32.
      assert (Up : F2R m3 * F2R y <= bpow (-32)).
      { replace (-32)%Z with (-64 + 32)%Z by lia. rewrite bpow_add.
        apply Rmult_le_compat; lra. }
      destruct (fmul_ok (-32) m3 y Fm3 Fy ltac:(lia) Up) as (Rr & Fr & _).
      apply (feqb_pos _ Fr).
      assert (bpow (-1074) <= F2R (m3 * y)%float); [|lra].
      apply (rounded_ge _ _ _ Rr); [lia|]. nra.
    + apply feqb_zero_false in T2; [|exact F2].
      assert (L2 : bpow (-130) <= A2).
      { destruct S2 as [Z|G]; [|exact G]. exfalso. rewrite Z in W2.
        apply within_zero in W2. lra. }
      pose proof (bpow_pos (-130)) as P130.
      assert (PN : 0 < sqrt (A2 + A3)) by (apply sqrt_lt_R0; lra).
      destruct (m3 <=? v2)%float eqn:T3.
      * apply fleb_true in T3; try assumption.
        assert (T4 : (v2 <? m3)%float = false).
        { destruct (v2 <? m3)%float eqn:T; [|reflexivity].
          apply fltb_true in T; try assumption. lra. }
        rewrite T4. cbn [fdiv bind ret]. intros [= <- _].
        destruct (combine_s2_ge (n * 5) n (n * 3 + 3) v2 v3 m3 A2 A3 BS F2 W2 L2 C2
                    T3 X3' Hm HN ltac:(lia)) as [Fr W].
        apply (feqb_pos _ Fr). apply within_sym in W.
        exact (within_spos _ _ _ W PN).
      * apply fleb_false in T3; try assumption.
        assert (T4 : (v2 <? m3)%float = true).
        { destruct (v2 <? m3)%float eqn:T; [reflexivity|].
          apply fltb_false in T; try assumption. lra. }
        rewrite T4. cbn [fdiv bind ret]. intros [= <- _].
        destruct (combine_s2_lt (n * 5) n (n * 3 + 3) v2 v3 m3 A2 A3 BS F2 W2 L2
                    T3 X3' Hm HN ltac:(lia)) as [Fr W].
        apply (feqb_pos _ Fr). apply within_sym in W.
        exact (within_spos _ _ _ W PN).
  - apply feqb_zero_false in T1; [|exact F1].
    assert (S1 : 1 <= F2R v1 /\ 0 < F2R m1).
    { destruct (bk_state _ _ _ _ _ BL) as [[Z _]|G]; [lra|exact G]. }
    destruct S1 as [G1 P1].
    assert (GX : bpow 32 <= F2R m1) by (destruct X1 as [Z|G]; lra).
    cbn [fdiv bind ret]. intros [= <- _].
    pose proof (bucket_le _ _ _ _ _ BL Hm HN) as Ls.
    pose proof (bpow_pos 32) as P32.
    set (X := F2R m1) in *.
    pose proof (opu_pos (n * 5)) as Pm.
    assert (U2 : F2R v2 <= bpow 162).
    { destruct W2 as [W2 _]. apply Rle_trans with (1 := W2).
      replace 162%Z with (31 + 130 + 1)%Z by lia. rewrite !bpow_add, bpow_1.
      pose proof (bpow_pos 130). pose proof (pos_INR n).
      assert (A2 <= bpow 31 * bpow 130).
      { apply Rle_trans with (1 := C2). apply Rmult_le_compat_r; lra. }
      apply Rmult_le_compat; lra. }
    assert (IX : / X <= bpow (-32)).
    { replace (bpow (-32)) with (/ bpow 32) by (rewrite <- bpow_opp; reflexivity).
      apply Rinv_le_contravar; lra. }
    assert (PIX : 0 < / X) by (apply Rinv_0_lt_compat; lra).
    assert (Lq1 : F2R v2 / X <= bpow 130).
    { unfold Rdiv. replace 130%Z with (162 + -32)%Z by lia. rewrite bpow_add.
      apply Rmult_le_compat; lra. }
    destruct (fdiv_ok 130 v2 m1 F2 Fm1 P1 ltac:(lia) Lq1) as (Rq1 & Fq1 & Uq1).
    set (q1 := (v2 / m1)%float) in *. pose proof (F2R_nonneg q1 Fq1) as Nq1.
    assert (Lq2 : F2R q1 / X <= bpow 98).
    { unfold Rdiv. replace 98%Z with (130 + -32)%Z by lia. rewrite bpow_add.
      apply Rmult_le_compat; lra. }
    destruct (fdiv_ok 98 q1 m1 Fq1 Fm1 P1 ltac:(lia) Lq2) as (Rq2 & Fq2 & Uq2).
    set (q2 := (q1 / m1)%float) in *. pose proof (F2R_nonneg q2 Fq2) as Nq2.
    assert (Lz : F2R v1 + F2R q2 <= bpow 99).
    { replace (bpow 99) with (2 * bpow 98) by (rewrite <- bpow_succ; reflexivity).
      pose proof (bpow_le 32 98 ltac:(lia)). lra. }
    destruct (fadd_ok 99 v1 q2 F1 Fq2 ltac:(lia) Lz) as (Rz & Fz & Uz).
    set (z := (v1 + q2)%float) in *.
    assert (Gz : 1 <= F2R z).
    { rewrite <- bpow_0. apply (rounded_ge _ _ 0 Rz); [lia|]. rewrite bpow_0. lra. }
    pose proof (fsqrt_rounded z Fz) as Ry. pose proof (rounded_fin _ _ Ry) as Fy.
    assert (Gy : 1 <= F2R (PrimFloat.sqrt z)).
    { rewrite <- bpow_0. apply (rounded_ge _ _ 0 Ry); [lia|].
      rewrite bpow_0. apply sqrt_ge_1, Gz. }
    apply fmul_nonzero; try assumption.
    fold X. pose proof (bpow_ge_1 32 ltac:(lia)). lra.
Qed.

(** X10: for a vector of fewer than [2^31] finite numbers, the value
    returned is zero exactly when every element is a zero: no vector with
    an element that is not zero, however small its elements, has a norm
    that underflows to zero. *)
Theorem enorm_definite (st0 : locals) (x : list float) :
  all_finite x -> (Z.of_nat (length x) < 2 ^ 31)%Z ->
  exists r,
    result (enorm_ st0 (Z.of_nat (length x)) x) = Some r /\
    ((r =? zero)%float = true <-> Forall is_zero_elt x).
Proof.
  intros Hx Hn. set (n := Z.of_nat (length x)) in *.
  destruct (zeros_or_nonzero x) as [Z|N].
  - exists zero.
    destruct (for_loop_zero x (rgiant / float_of_integer n)%float (float_of_integer n)
                (Z.to_nat n) 1 (xabs st0) Z) as (xa' & L); [lia|lia|].
    unfold result. rewrite (enorm_unfold st0 n x _ _ zero [] L); [|reflexivity].
    split; [reflexivity|]. split; [intros _; exact Z|reflexivity].
  - destruct (enorm_total st0 n x) as (st & dl & r & dc & L & C & E & _); [lia|].
    exists r. unfold result. rewrite E. split; [reflexivity|].
    assert (Hn1 : (1 <= n)%Z).
    { destruct x; [inversion N|]. unfold n. cbn [length]. lia. }
    assert (I : acc_inv (length x) (sum_squares x) st).
    { pose proof (for_loop_acc x (length x) 0 (start n (xabs st0)) st dl Hx) as H.
      cbn [Nat.add] in H. rewrite firstn_all in H.
      unfold n in L. rewrite Nat2Z.id in L. fold n in L.
      apply H; [|reflexivity|lia|exact L].
      apply acc_start. lia. }
    destruct I as (A1 & A2 & A3 & ES & P).
    pose proof (sum_squares_pos x Hx N) as Pos. rewrite <- ES in Pos.
    rewrite (calc_norm_nonzero (length x) A1 A2 A3 st r dc P ltac:(lia) Pos C).
    split; [discriminate|]. intros Z. exfalso. exact (zeros_not_nonzero x Z N).
Qed.

Lemma enorm_definite_witness :
  exists r,
    result (enorm_ stale (Z.of_nat (length [0; 5e-324; neg_zero]%float))
              [0; 5e-324; neg_zero]%float) = Some r /\
    ((r =? zero)%float = true <-> Forall is_zero_elt [0; 5e-324; neg_zero]%float).
Proof.
  apply (enorm_definite stale [0; 5e-324; neg_zero]%float).
  - repeat constructor.
  - simpl. lia.
Defined.

End Definiteness.

(** * The pivots and the scaled sums *)

Module Buckets.

Import Stdlib.Reals.Reals Stdlib.micromega.Lra Real Accuracy.
Local Open Scope R_scope.

Lemma fleb_intro (a b : float) :
  fin a -> fin b -> F2R a <= F2R b -> (a <=? b)%float = true.
Proof.
  intros Fa Fb H. pose proof (fleb_real a b Fa Fb) as R.
  destruct (a <=? b)%float; [reflexivity|lra].
Qed.

Lemma fleb_trans (a b c : float) :
  fin a -> fin b -> fin c ->
  (a <=? b)%float = true -> (b <=? c)%float = true -> (a <=? c)%float = true.
Proof.
  intros Fa Fb Fc H1 H2. apply fleb_intro; try assumption.
  apply fleb_true in H1, H2; try assumption. lra.
Qed.

Lemma fin_of_class (a : float) : fpos a = true -> fnum a = true -> fin a.
Proof. intros P N. split; [rewrite is_finite_fnum|]; assumption. Qed.

Lemma inv_fin_pivots (st : locals) : inv_fin st -> fin (x1max st) /\ fin (x3max st).
Proof.
  intros [_ _ _ _ _ Fm1 Fn1 Fm3 Fl3 _ _]. split; apply fin_of_class; try assumption.
  apply fnum_leb_rdwarf; assumption.
Qed.

(** One iteration leaves [agiant] alone and lowers neither pivot. *)
Lemma update_code_pivots_grow (v : float) (st : locals) :
  inv_fin st -> is_finite v = true ->
  agiant (update_code v st) = agiant st /\
  (x1max st <=? x1max (update_code v st))%float = true /\
  (x3max st <=? x3max (update_code v st))%float = true.
Proof.
  intros I Fv. pose proof (inv_of_inv_fin st I) as I'.
  destruct (body_inv v st I') as (st1 & d1 & B & _ & _ & Ea & _ & M3 & N).
  pose proof (body_update_code v st I') as U.
  rewrite B in U. injection U as <-.
  rewrite is_finite_fnum in Fv.
  destruct N as (_ & M1 & _);
    [apply fnum_not_nan, Fv|exact (fin_x1max st I)|].
  auto.
Qed.

Lemma below_pivot_grow (v w : float) (st : locals) :
  inv_fin st -> is_finite v = true -> is_finite w = true ->
  below_pivot st w = true -> below_pivot (update_code v st) w = true.
Proof.
  intros I Fv Fw H.
  destruct (update_code_pivots_grow v st I Fv) as (Ea & M1 & M3).
  destruct (inv_fin_pivots st I) as [P1 P3].
  destruct (inv_fin_pivots _ (inv_fin_update_code v st I Fv)) as [Q1 Q3].
  pose proof (fin_dabs w Fw) as Fa.
  unfold below_pivot, intermediate_elt in *. rewrite Ea.
  destruct ((rdwarf <? dabs w) && (dabs w <? agiant st))%float; [reflexivity|].
  destruct (dabs w <=? rdwarf)%float.
  - exact (fleb_trans _ _ _ Fa P3 Q3 H M3).
  - exact (fleb_trans _ _ _ Fa P1 Q1 H M1).
Qed.

Lemma below_pivot_self (v : float) (st : locals) :
  inv_fin st -> is_finite v = true -> below_pivot (update_code v st) v = true.
Proof.
  intros I Fv. destruct (inv_fin_pivots st I) as [P1 P3].
  pose proof (fin_dabs v Fv) as Fa.
  assert (R : (dabs v <=? dabs v)%float = true) by (apply fleb_intro; try assumption; lra).
  destruct (update_code_pivots_grow v st I Fv) as (Ea & _ & _).
  unfold below_pivot, intermediate_elt. rewrite Ea. clear Ea.
  unfold update_code, update_with.
  destruct st as [i v1 v2 v3 xa m1 m3 ag fl]. unfold_locals.
  destruct ((rdwarf <? dabs v) && (dabs v <? ag))%float eqn:T1; [reflexivity|].
  destruct (dabs v <=? rdwarf)%float eqn:T2.
  - destruct (m3 <? dabs v)%float eqn:T3; unfold_locals; [exact R|].
    assert (L : (dabs v <=? m3)%float = true).
    { apply fleb_intro; try assumption. apply fltb_false in T3; assumption. }
    destruct (negb (dabs v =? zero)%float); unfold_locals; exact L.
  - destruct (dabs v <=? m1)%float eqn:T3; cbn [negb]; unfold_locals; [exact T3|exact R].
Qed.

Lemma update_code_pivot_from (v : float) (st : locals) :
  (x1max (update_code v st) = x1max st \/
   x1max (update_code v st) = dabs v /\ large_elt st v = true) /\
  (x3max (update_code v st) = x3max st \/
   x3max (update_code v st) = dabs v /\ small_elt st v = true).
Proof.
  unfold update_code, update_with, large_elt, small_elt, intermediate_elt.
  destruct st as [i v1 v2 v3 xa m1 m3 ag fl]. unfold_locals.
  repeat match goal with
         | |- context [if ?c then _ else _] => destruct c
         end; unfold_locals; auto.
Qed.

Lemma bucket_same_agiant (st st' : locals) (v : float) :
  agiant st' = agiant st ->
  large_elt st' v = large_elt st v /\ small_elt st' v = small_elt st v.
Proof.
  intros E. unfold large_elt, small_elt, intermediate_elt. rewrite E. auto.
Qed.

Lemma in_pivot_grow (f : float -> bool) (p : float) (seen : list float) (v : float) :
  In p (zero :: map dabs (filter f seen)) ->
  In p (zero :: map dabs (filter f (seen ++ [v]))).
Proof.
  intros [H|H]; [left; exact H|right].
  rewrite filter_app, map_app. apply in_or_app. left. exact H.
Qed.

Lemma in_pivot_new (f : float -> bool) (seen : list float) (v : float) :
  f v = true -> In (dabs v) (zero :: map dabs (filter f (seen ++ [v]))).
Proof.
  intros H. right. rewrite filter_app, map_app. apply in_or_app. right.
  cbn [filter]. rewrite H. left. reflexivity.
Qed.

Lemma update_code_pivots_cover (v : float) (st : locals) (seen : list float) :
  inv_fin st -> is_finite v = true -> all_finite seen ->
  pivots_cover st seen -> pivots_cover (update_code v st) (seen ++ [v]).
Proof.
  intros I Fv Hs (C & M1 & M3).
  destruct (update_code_pivot_from v st) as [E1 E3].
  destruct (update_code_pivots_grow v st I Fv) as (Ea & _ & _).
  split; [|split].
  - rewrite forallb_app. apply andb_true_iff. split.
    + rewrite forallb_forall in *. intros w Hw.
      apply below_pivot_grow; auto.
      unfold all_finite in Hs. rewrite Forall_forall in Hs. auto.
    + cbn [forallb]. rewrite below_pivot_self by assumption. reflexivity.
  - rewrite (filter_ext _ (large_elt st))
      by (intros w; apply (bucket_same_agiant st _ w Ea)).
    destruct E1 as [-> | [-> L]]; [apply in_pivot_grow, M1|apply in_pivot_new, L].
  - rewrite (filter_ext _ (small_elt st))
      by (intros w; apply (bucket_same_agiant st _ w Ea)).
    destruct E3 as [-> | [-> L]]; [apply in_pivot_grow, M3|apply in_pivot_new, L].
Qed.

Lemma single_pass_pivots_cover (x : list float) : forall seen st,
  all_finite x -> all_finite seen -> inv_fin st ->
  pivots_cover st seen ->
  pivots_cover (single_pass update_code x st) (seen ++ x).
Proof.
  induction x as [|v x IH]; intros seen st Hx Hs I C.
  - rewrite app_nil_r. exact C.
  - inversion Hx as [|v' x' Fv Hx']; subst.
    unfold single_pass in *. cbn [fold_left].
    replace (seen ++ v :: x) with ((seen ++ [v]) ++ x)
      by (rewrite <- app_assoc; reflexivity).
    apply IH; try assumption.
    + apply Forall_app. split; [exact Hs|constructor; [exact Fv|constructor]].
    + apply inv_fin_update_code; assumption.
    + apply update_code_pivots_cover; assumption.
Qed.

(** X11: after the loop over a vector of finite numbers, [x1max] is the
    largest magnitude among the large components and [x3max] the largest
    among the small ones: each pivot is zero or the magnitude of an
    element of its bucket, and no element of the bucket is above it, so
    that every ratio squared in lines 105 and 124 is at most one. *)
Theorem pivots_are_maxima (st0 : locals) (x : list float) :
  all_finite x ->
  exists st,
    value (state_after st0 (Z.of_nat (length x)) x (length x)) = Some st /\
    forallb (below_pivot st) x = true /\
    In (x1max st) (zero :: map dabs (filter (large_elt st) x)) /\
    In (x3max st) (zero :: map dabs (filter (small_elt st) x)).
Proof.
  intros Hx. set (n := Z.of_nat (length x)).
  rewrite state_after_start.
  destruct (for_loop_single_pass x [] (start n (xabs st0))) as (d & L);
    [apply inv_start|reflexivity|].
  simpl app in L. rewrite L. eexists. split; [reflexivity|].
  pose proof (single_pass_pivots_cover x [] (start n (xabs st0)) Hx
                (Forall_nil _) (inv_fin_start _ _)) as C.
  cbn [app] in C. apply C.
  split; [reflexivity|]. split; left; reflexivity.
Qed.

Lemma pivots_are_maxima_witness :
  exists st,
    value (state_after stale (Z.of_nat (length [3e-30; -5e19; 2; 7e-25; 4e19]%float))
             [3e-30; -5e19; 2; 7e-25; 4e19]%float
             (length [3e-30; -5e19; 2; 7e-25; 4e19]%float)) = Some st /\
    forallb (below_pivot st) [3e-30; -5e19; 2; 7e-25; 4e19]%float = true /\
    In (x1max st)
       (zero :: map dabs (filter (large_elt st) [3e-30; -5e19; 2; 7e-25; 4e19]%float)) /\
    In (x3max st)
       (zero :: map dabs (filter (small_elt st) [3e-30; -5e19; 2; 7e-25; 4e19]%float)).
Proof.
  apply (pivots_are_maxima stale [3e-30; -5e19; 2; 7e-25; 4e19]%float).
  repeat constructor.
Defined.

(** ** The sizes of the three sums *)

Lemma fin_zero_eq (a : float) : fin a -> F2R a = 0 -> a = zero.
Proof.
  intros Fa Z. destruct (fin_parts a Fa) as (_ & N & P).
  apply Prim2SF_inj. change (Prim2SF zero) with (S754_zero false).
  unfold F2R in Z. revert N P Z.
  destruct (Prim2SF a) as [[|]|[|]| |[|] m e]; try discriminate; try reflexivity.
  intros _ _. rewrite SF2R_finite. intros Z. exfalso.
  pose proof (bpow_pos e). assert (1 <= IZR (Zpos m)) by (apply IZR_le; lia). nra.
Qed.

Lemma bucket_size (m k : nat) (s p : float) (A : R) :
  bucket m k s p A -> (1 + u) ^ m <= 2 ->
  s = zero \/ (is_finite s = true /\ 1 <= F2R s <= 2 * INR k).
Proof.
  intros [Fs Fp [W _] [[Z _]|[G P]] C] Hm.
  - left. apply fin_zero_eq; assumption.
  - right. split; [apply Fs|]. split; [exact G|].
    pose proof (pos_INR k) as Nk. pose proof (opu_pos m) as Pm.
    assert (P2 : 0 < F2R p * F2R p) by nra.
    apply (Rmult_le_reg_r (F2R p * F2R p)); [exact P2|].
    apply Rle_trans with (1 := W).
    assert (0 <= INR k * (F2R p * F2R p)) by (apply Rmult_le_pos; lra).
    apply Rle_trans with (INR k * (F2R p * F2R p) * 2); [nra|]. lra.
Qed.

(** X12: while the loop runs over a vector of fewer than [2^31] finite
    numbers, each scaled sum ([s1], [s3]) is zero or lies between [1] and
    twice the number of elements read, and the plain sum [s2] is zero or
    lies between [2^-131] and that number times [2^131]: the three sums
    neither overflow nor underflow. *)
Theorem sums_stay_in_range (st0 : locals) (x : list float) (k : nat) :
  all_finite x -> (Z.of_nat (length x) < 2 ^ 31)%Z -> (k <= length x)%nat ->
  exists st,
    value (state_after st0 (Z.of_nat (length x)) x k) = Some st /\
    (s1 st = zero \/ (is_finite (s1 st) = true /\ 1 <= F2R (s1 st) <= 2 * INR k)) /\
    (s3 st = zero \/ (is_finite (s3 st) = true /\ 1 <= F2R (s3 st) <= 2 * INR k)) /\
    (s2 st = zero \/
     (is_finite (s2 st) = true /\
      bpow (-131) <= F2R (s2 st) <= INR k * bpow 131)).
Proof.
  intros Hx Hn Hk. set (n := Z.of_nat (length x)) in *.
  rewrite state_after_start.
  destruct (for_loop_inv x k (start n (xabs st0)))
    as (st & dl & L & _); [apply inv_start|simpl; lia|simpl; lia|].
  exists st. rewrite L. split; [reflexivity|].
  destruct k as [|k].
  { injection L as <- _. repeat split; left; reflexivity. }
  assert (I : acc_inv (S k) (sum_squares (firstn (S k) x)) st).
  { apply (for_loop_acc x (S k) 0 (start n (xabs st0)) st dl Hx);
      [apply acc_start; lia|reflexivity|lia|exact L]. }
  destruct I as (A1 & A2 & A3 & _ & [BL BS F2 W2 C2 S2 _ _ _ _]).
  destruct (acc_parts_budget (S k) ltac:(lia)) as [Hm _].
  split; [exact (bucket_size _ _ _ _ _ BL Hm)|].
  split; [exact (bucket_size _ _ _ _ _ BS Hm)|].
  destruct S2 as [Z|G].
  - left. apply fin_zero_eq; [exact F2|]. rewrite Z in W2.
    apply within_zero in W2. exact W2.
  - right. split; [apply F2|]. destruct W2 as [Wa Wb].
    pose proof (F2R_nonneg _ F2) as N2. pose proof (opu_pos (S k * 5)) as Pm.
    pose proof (pos_INR (S k)) as Nk. pose proof (bpow_pos 130) as P130.
    pose proof (bpow_pos (-130)) as Q130.
    assert (E1 : bpow (-130) = 2 * bpow (-131))
      by (rewrite <- bpow_succ; reflexivity).
    assert (E2 : bpow 131 = 2 * bpow 130)
      by (rewrite <- bpow_succ; reflexivity).
    split.
    + assert (F2R (s2 st) * (1 + u) ^ (S k * 5) <= F2R (s2 st) * 2)
        by (apply Rmult_le_compat_l; lra).
      lra.
    + apply Rle_trans with (1 := Wa). rewrite E2.
      assert (0 <= INR (S k) * bpow 130) by (apply Rmult_le_pos; lra).
      apply Rle_trans with (INR (S k) * bpow 130 * 2); [|lra].
      apply Rmult_le_compat; lra.
Qed.

Lemma sums_stay_in_range_witness :
  exists st,
    value (state_after stale (Z.of_nat (length [3e-30; -5e19; 2; 7e-25]%float))
             [3e-30; -5e19; 2; 7e-25]%float 3) = Some st /\
    (s1 st = zero \/ (is_finite (s1 st) = true /\ 1 <= F2R (s1 st) <= 2 * INR 3)) /\
    (s3 st = zero \/ (is_finite (s3 st) = true /\ 1 <= F2R (s3 st) <= 2 * INR 3)) /\
    (s2 st = zero \/
     (is_finite (s2 st) = true /\
      bpow (-131) <= F2R (s2 st) <= INR 3 * bpow 131)).
Proof.
  apply (sums_stay_in_range stale [3e-30; -5e19; 2; 7e-25]%float 3).
  - repeat constructor.
  - simpl. lia.
  - simpl. lia.
Defined.

End Buckets.
